(** * Battle Cars: the authoritative room/round engine of [server/index.js]

    A shallow embedding of the server's game state and of its socket
    handlers, the periodic tick and the round-restart one-shot, followed by
    the properties of the engine's specification.

    Conventions of the embedding.
    - JavaScript numbers.  Counters of events and timestamps are integers
      ([Z]).  Health, damage, the damage dealt and the vehicle multipliers
      are IEEE 754 binary64 values ([JS.number]): NaN, the two infinities,
      or a finite value given by the rational it denotes; every arithmetic
      operation rounds the exact result to the nearest binary64 value, ties
      to even.  The two zeros are not told apart: the server never divides,
      and JSON writes both as 0.  Positions are relayed, never computed
      with, and are exact rationals ([Q]).
    - The payload [data] of a socket event is what the client sent: it may
      be missing altogether, and a property the handler reads as a string
      may hold something else.  The [damage] of a damage event is any JSON
      value; the handler only ever uses it through the conversion
      [ToNumber], so the embedding carries the result of that conversion
      (NaN for ['x'], an object or [[1,2]]).  Room ids, player ids,
      powerup ids and collision types are strings; a [targetPlayerId] or
      [powerupId] that is missing finds no entry in its map, as a string
      that names nothing does.
    - [Map] and [Set] objects are finite maps and sets ([gmap], [gset]); the
      objects stored in them are mutated in place by the source, which the
      embedding writes as a lookup followed by a store under the same key.
    - [Date.now()] is the argument [now] of a handler, and the results of
      [Math.random()] are supplied by a [Random] record.
    - Every handler returns the new state together with the list of the
      messages it emitted, in order.  A [TypeError] thrown out of a callback
      is the outcome [Uncaught].
    - [startWaitingPhase] and [calculateCollisionDamage] are defined by the
      server and never called; the HTTP routes do not touch the game state.
      Both are left out. *)

From Stdlib Require Import ZArith QArith Qround Lia Lqa Ascii String.
From stdpp Require Import gmap strings list fin_maps sorting.

Close Scope Q_scope.
Local Open Scope Z_scope.

(** ** JavaScript primitives used by the server *)

Module JS.

(** *** Numbers *)

(** A Number value.  [Num q] is the finite binary64 value that denotes the
    rational [q]; the operations below return it in lowest terms. *)
Inductive number := NaN | PosInf | NegInf | Num (q : Q).

Definition pow2 (k : Z) : Q :=
  if 0 <=? k then inject_Z (2 ^ k) else (1 # Z.to_pos (2 ^ (- k)))%Q.

(** The binary exponent of a positive rational: [2^e <= a < 2^(e+1)]. *)
Definition ilog2 (a : Q) : Z :=
  let k := Z.log2 (Qnum a) - Z.log2 (Zpos (Qden a)) in
  if Qle_bool (pow2 k) a then k else k - 1.

(** The nearest integer, a tie going to the even one. *)
Definition roundEven (x : Q) : Z :=
  let f := Qfloor x in
  match Qcompare (Qminus x (inject_Z f)) (1 # 2)%Q with
  | Lt => f
  | Gt => f + 1
  | Eq => if Z.even f then f else f + 1
  end.

(** The nearest binary64 value of a rational that is not negative: 53
    significant bits, exponents from -1022 (below, the spacing stays that
    of the subnormal values) to 1023 (above, the result is infinite). *)
Definition round64_pos (a : Q) : option Q :=
  if Qeq_bool a (0 # 1)%Q then Some (0 # 1)%Q
  else
    let e := Z.max (ilog2 a) (-1022) in
    let ulp := pow2 (e - 52) in
    let r := Qmult (inject_Z (roundEven (Qdiv a ulp))) ulp in
    if Qle_bool (pow2 1024) r then None else Some (Qred r).

(** The nearest binary64 value of a rational, computed on the rational in
    lowest terms. *)
Definition round64 (q : Q) : number :=
  let q := Qred q in
  if Qle_bool (0 # 1)%Q q then
    match round64_pos q with Some r => Num r | None => PosInf end
  else
    match round64_pos (Qopp q) with
    | Some r => Num (Qred (Qopp r))
    | None => NegInf
    end.

(** An integer literal or an integer-valued constant of the server; all of
    them are far below 2^53 and denote themselves. *)
Definition int (z : Z) : number := Num (inject_Z z).

(** A decimal literal such as [0.95]: the nearest binary64 value. *)
Definition lit (q : Q) : number := round64 q.

Definition sgn (x : number) : Z :=
  match x with
  | NaN => 0
  | PosInf => 1
  | NegInf => -1
  | Num q => Z.sgn (Qnum q)
  end.

(** [- x] *)
Definition neg (x : number) : number :=
  match x with
  | NaN => NaN
  | PosInf => NegInf
  | NegInf => PosInf
  | Num q => Num (Qred (Qopp q))
  end.

(** [x + y] *)
Definition add (x y : number) : number :=
  match x, y with
  | NaN, _ | _, NaN => NaN
  | PosInf, NegInf | NegInf, PosInf => NaN
  | PosInf, _ | _, PosInf => PosInf
  | NegInf, _ | _, NegInf => NegInf
  | Num a, Num b => round64 (Qplus a b)
  end.

(** [x - y] *)
Definition sub (x y : number) : number := add x (neg y).

(** [x * y] *)
Definition mul (x y : number) : number :=
  match x, y with
  | NaN, _ | _, NaN => NaN
  | Num a, Num b => round64 (Qmult a b)
  | _, _ =>
      match sgn x * sgn y with
      | Z0 => NaN
      | Zpos _ => PosInf
      | Zneg _ => NegInf
      end
  end.

(** [x < y]: false as soon as one side is NaN. *)
Definition lt (x y : number) : bool :=
  match x, y with
  | NaN, _ | _, NaN => false
  | _, NegInf => false
  | NegInf, _ => true
  | PosInf, _ => false
  | Num _, PosInf => true
  | Num a, Num b => negb (Qle_bool b a)
  end.

(** [x <= y] *)
Definition le (x y : number) : bool :=
  match x, y with
  | NaN, _ | _, NaN => false
  | _, _ => negb (lt y x)
  end.

(** [x !== y] on numbers: NaN differs from everything, itself included. *)
Definition strict_ne (x y : number) : bool :=
  match x, y with
  | NaN, _ | _, NaN => true
  | _, _ => lt x y || lt y x
  end.

(** [Math.max(x, y)] and [Math.min(x, y)]: NaN as soon as one argument is. *)
Definition Math_max (x y : number) : number :=
  match x, y with
  | NaN, _ | _, NaN => NaN
  | _, _ => if lt x y then y else x
  end.

Definition Math_min (x y : number) : number :=
  match x, y with
  | NaN, _ | _, NaN => NaN
  | _, _ => if lt y x then y else x
  end.

(** [a < 0] *)
Definition negative (x : number) : bool := lt x (int 0).

(** [Math.round(x)]: the nearest integer, a tie going towards +infinity;
    NaN and the infinities are returned as they are. *)
Definition Math_round (x : number) : number :=
  match x with
  | Num q => Num (inject_Z (Qfloor (Qplus q (1 # 2)%Q)))
  | _ => x
  end.

(** *** Strings and arrays *)

(** White space removed by [String.prototype.trim], on 8-bit code units. *)
Definition is_white (c : ascii) : bool :=
  let n := nat_of_ascii c in
  ((9 <=? n)%nat && (n <=? 13)%nat) || (n =? 32)%nat || (n =? 160)%nat.

Fixpoint trimStart (s : string) : string :=
  match s with
  | EmptyString => EmptyString
  | String c s' => if is_white c then trimStart s' else s
  end.

Definition trim (s : string) : string :=
  String.rev (trimStart (String.rev (trimStart s))).

(** [s.substring(0, n)] and [s.slice(0, n)]. *)
Definition substring0 (n : nat) (s : string) : string := substring 0 n s.

(** [s.slice(-n)]. *)
Definition slice_last (n : nat) (s : string) : string :=
  substring (String.length s - n) n s.

(** A property of a payload that a handler uses as a string, as the client
    sent it: a falsy value that is not a string (the property is missing,
    or is [null], [false] or [0]), a string, or any other value (a number
    but 0, [true], an array or an object), which is truthy and has no
    [trim] method. *)
Inductive field := falsy | str (s : string) | other.

(** Truthiness of a string-or-null value: [null] and [''] are falsy. *)
Definition truthy (o : option string) : option string :=
  match o with
  | Some EmptyString => None
  | _ => o
  end.

(** [a.indexOf(v)] followed by [a.splice(index, 1)] when [index > -1]. *)
Fixpoint remove_first (v : string) (a : list string) : list string :=
  match a with
  | [] => []
  | w :: a' => if decide (w = v) then a' else w :: remove_first v a'
  end.

End JS.

#[global] Arguments JS.round64 : simpl never.
#[global] Arguments JS.int : simpl never.
#[global] Arguments JS.lit : simpl never.
#[global] Arguments JS.neg : simpl never.
#[global] Arguments JS.add : simpl never.
#[global] Arguments JS.sub : simpl never.
#[global] Arguments JS.mul : simpl never.
#[global] Arguments JS.lt : simpl never.
#[global] Arguments JS.le : simpl never.
#[global] Arguments JS.strict_ne : simpl never.
#[global] Arguments JS.negative : simpl never.
#[global] Arguments JS.Math_max : simpl never.
#[global] Arguments JS.Math_min : simpl never.
#[global] Arguments JS.Math_round : simpl never.

(** ** Data model *)

Record Position := { pos_x : Q; pos_y : Q; pos_z : Q }.

Inductive VehicleId := sport | balanced | tank.

Record Vehicle := {
  vehicle_id : VehicleId;
  damageDealtMultiplier : JS.number;
  damageTakenMultiplier : JS.number;
  maxHealth : Z
}.

(** The [presets] table of the [vehicleSelected] handler. *)
Definition presets (i : VehicleId) : Vehicle :=
  match i with
  | sport => {| vehicle_id := sport;
                damageDealtMultiplier := JS.lit (95 # 100)%Q;
                damageTakenMultiplier := JS.lit (12 # 10)%Q;
                maxHealth := 80 |}
  | balanced => {| vehicle_id := balanced;
                   damageDealtMultiplier := JS.lit (10 # 10)%Q;
                   damageTakenMultiplier := JS.lit (10 # 10)%Q;
                   maxHealth := 100 |}
  | tank => {| vehicle_id := tank;
               damageDealtMultiplier := JS.lit (125 # 100)%Q;
               damageTakenMultiplier := JS.lit (8 # 10)%Q;
               maxHealth := 130 |}
  end.

(** A player record of [gameState.players].  The fields [id] and
    [connectedAt] are never read by the server and are left out;
    [shieldUntil] is [undefined] until a shield is collected. *)
Record Player := {
  name : string;
  position : Position;
  rotation : Q;
  health : JS.number;
  vehicle : Vehicle;
  room : option string;
  invulnerableUntil : Z;
  shieldUntil : option Z
}.

Inductive Phase := waiting | playing | roundEnd.

Record Stats := {
  kills : Z;
  deaths : Z;
  damageDealt : JS.number;
  playerName : string
}.

Inductive PowerupType := pw_health | pw_shield.

Record Powerup := {
  pw_type : PowerupType;
  pw_position : Position;
  dropTime : Z;
  collected : bool;
  landTime : Z;
  despawnTime : Z
}.

(** The per-room record built by [initializeRoomGameState]. *)
Record RoomState := {
  phase : Phase;
  roundStartTime : option Z;
  roundEndTime : option Z;
  waitingStartTime : option Z;
  leaderboard : gmap string Stats;
  activePlayers : gset string;
  respawningPlayers : gmap string Z;
  powerups : gmap string Powerup;
  lastPowerupDrop : Z
}.

(** The global [gameState] object.  A room key of [gameStates] is a room id
    or [null] (the [room] of a player who has not joined).  [timers] holds
    the pending [setTimeout(() => startRound(roomId), 20000)] one-shots as
    (firing time, room id).  The boost pad table is not part of the engine
    and is left out. *)
Record GameState := {
  players : gmap string Player;
  rooms : gmap string (list string);
  gameStates : gmap (option string) RoomState;
  timers : list (Z * string)
}.

Definition maxPlayersPerRoom : nat := 8.
Definition roundDuration : Z := 4 * 60 * 1000.
Definition waitingDuration : Z := 1 * 60 * 1000.
Definition respawnDuration : Z := 3 * 1000.
Definition spawnInvulnerableMs : Z := 2000.
Definition entryDescentMs : Z := 8000.
Definition respawnDescentMs : Z := 3000.

#[global] Instance VehicleId_eq_dec : EqDecision VehicleId.
Proof. solve_decision. Defined.
#[global] Instance Phase_eq_dec : EqDecision Phase.
Proof. solve_decision. Defined.
#[global] Instance PowerupType_eq_dec : EqDecision PowerupType.
Proof. solve_decision. Defined.

(** *** Field updates (assignments to one property of an object) *)

Definition set_name (v : string) (p : Player) : Player :=
  {| name := v; position := position p; rotation := rotation p;
     health := health p; vehicle := vehicle p; room := room p;
     invulnerableUntil := invulnerableUntil p; shieldUntil := shieldUntil p |}.
Definition set_position (v : Position) (p : Player) : Player :=
  {| name := name p; position := v; rotation := rotation p;
     health := health p; vehicle := vehicle p; room := room p;
     invulnerableUntil := invulnerableUntil p; shieldUntil := shieldUntil p |}.
Definition set_rotation (v : Q) (p : Player) : Player :=
  {| name := name p; position := position p; rotation := v;
     health := health p; vehicle := vehicle p; room := room p;
     invulnerableUntil := invulnerableUntil p; shieldUntil := shieldUntil p |}.
Definition set_health (v : JS.number) (p : Player) : Player :=
  {| name := name p; position := position p; rotation := rotation p;
     health := v; vehicle := vehicle p; room := room p;
     invulnerableUntil := invulnerableUntil p; shieldUntil := shieldUntil p |}.
Definition set_vehicle (v : Vehicle) (p : Player) : Player :=
  {| name := name p; position := position p; rotation := rotation p;
     health := health p; vehicle := v; room := room p;
     invulnerableUntil := invulnerableUntil p; shieldUntil := shieldUntil p |}.
Definition set_room (v : option string) (p : Player) : Player :=
  {| name := name p; position := position p; rotation := rotation p;
     health := health p; vehicle := vehicle p; room := v;
     invulnerableUntil := invulnerableUntil p; shieldUntil := shieldUntil p |}.
Definition set_invulnerableUntil (v : Z) (p : Player) : Player :=
  {| name := name p; position := position p; rotation := rotation p;
     health := health p; vehicle := vehicle p; room := room p;
     invulnerableUntil := v; shieldUntil := shieldUntil p |}.
Definition set_shieldUntil (v : option Z) (p : Player) : Player :=
  {| name := name p; position := position p; rotation := rotation p;
     health := health p; vehicle := vehicle p; room := room p;
     invulnerableUntil := invulnerableUntil p; shieldUntil := v |}.

Definition set_kills (v : Z) (s : Stats) : Stats :=
  {| kills := v; deaths := deaths s; damageDealt := damageDealt s;
     playerName := playerName s |}.
Definition set_deaths (v : Z) (s : Stats) : Stats :=
  {| kills := kills s; deaths := v; damageDealt := damageDealt s;
     playerName := playerName s |}.
Definition set_damageDealt (v : JS.number) (s : Stats) : Stats :=
  {| kills := kills s; deaths := deaths s; damageDealt := v;
     playerName := playerName s |}.
Definition set_playerName (v : string) (s : Stats) : Stats :=
  {| kills := kills s; deaths := deaths s; damageDealt := damageDealt s;
     playerName := v |}.

Definition set_collected (v : bool) (p : Powerup) : Powerup :=
  {| pw_type := pw_type p; pw_position := pw_position p; dropTime := dropTime p;
     collected := v; landTime := landTime p; despawnTime := despawnTime p |}.

Definition set_phase (v : Phase) (r : RoomState) : RoomState :=
  {| phase := v; roundStartTime := roundStartTime r;
     roundEndTime := roundEndTime r; waitingStartTime := waitingStartTime r;
     leaderboard := leaderboard r; activePlayers := activePlayers r;
     respawningPlayers := respawningPlayers r; powerups := powerups r;
     lastPowerupDrop := lastPowerupDrop r |}.
Definition set_roundStartTime (v : option Z) (r : RoomState) : RoomState :=
  {| phase := phase r; roundStartTime := v;
     roundEndTime := roundEndTime r; waitingStartTime := waitingStartTime r;
     leaderboard := leaderboard r; activePlayers := activePlayers r;
     respawningPlayers := respawningPlayers r; powerups := powerups r;
     lastPowerupDrop := lastPowerupDrop r |}.
Definition set_roundEndTime (v : option Z) (r : RoomState) : RoomState :=
  {| phase := phase r; roundStartTime := roundStartTime r;
     roundEndTime := v; waitingStartTime := waitingStartTime r;
     leaderboard := leaderboard r; activePlayers := activePlayers r;
     respawningPlayers := respawningPlayers r; powerups := powerups r;
     lastPowerupDrop := lastPowerupDrop r |}.
Definition set_leaderboard (v : gmap string Stats) (r : RoomState) : RoomState :=
  {| phase := phase r; roundStartTime := roundStartTime r;
     roundEndTime := roundEndTime r; waitingStartTime := waitingStartTime r;
     leaderboard := v; activePlayers := activePlayers r;
     respawningPlayers := respawningPlayers r; powerups := powerups r;
     lastPowerupDrop := lastPowerupDrop r |}.
Definition set_activePlayers (v : gset string) (r : RoomState) : RoomState :=
  {| phase := phase r; roundStartTime := roundStartTime r;
     roundEndTime := roundEndTime r; waitingStartTime := waitingStartTime r;
     leaderboard := leaderboard r; activePlayers := v;
     respawningPlayers := respawningPlayers r; powerups := powerups r;
     lastPowerupDrop := lastPowerupDrop r |}.
Definition set_respawningPlayers (v : gmap string Z) (r : RoomState) : RoomState :=
  {| phase := phase r; roundStartTime := roundStartTime r;
     roundEndTime := roundEndTime r; waitingStartTime := waitingStartTime r;
     leaderboard := leaderboard r; activePlayers := activePlayers r;
     respawningPlayers := v; powerups := powerups r;
     lastPowerupDrop := lastPowerupDrop r |}.
Definition set_powerups (v : gmap string Powerup) (r : RoomState) : RoomState :=
  {| phase := phase r; roundStartTime := roundStartTime r;
     roundEndTime := roundEndTime r; waitingStartTime := waitingStartTime r;
     leaderboard := leaderboard r; activePlayers := activePlayers r;
     respawningPlayers := respawningPlayers r; powerups := v;
     lastPowerupDrop := lastPowerupDrop r |}.
Definition set_lastPowerupDrop (v : Z) (r : RoomState) : RoomState :=
  {| phase := phase r; roundStartTime := roundStartTime r;
     roundEndTime := roundEndTime r; waitingStartTime := waitingStartTime r;
     leaderboard := leaderboard r; activePlayers := activePlayers r;
     respawningPlayers := respawningPlayers r; powerups := powerups r;
     lastPowerupDrop := v |}.

Definition set_players (v : gmap string Player) (g : GameState) : GameState :=
  {| players := v; rooms := rooms g; gameStates := gameStates g;
     timers := timers g |}.
Definition set_rooms (v : gmap string (list string)) (g : GameState) : GameState :=
  {| players := players g; rooms := v; gameStates := gameStates g;
     timers := timers g |}.
Definition set_gameStates (v : gmap (option string) RoomState) (g : GameState)
  : GameState :=
  {| players := players g; rooms := rooms g; gameStates := v;
     timers := timers g |}.
Definition set_timers (v : list (Z * string)) (g : GameState) : GameState :=
  {| players := players g; rooms := rooms g; gameStates := gameStates g;
     timers := v |}.

(** ** Outbound messages *)

(** Who receives an emission: [io.to(room).emit] reaches every socket of the
    room, [socket.to(room).emit] every socket of the room but the sender,
    [socket.emit] the sender alone. *)
Inductive Target :=
| io_to (r : option string)
| socket_to (sender : string) (r : option string)
| socket_emit (sender : string).

(** The named broadcasts, with the payload fields the engine's properties
    read.  Time stamps of chat messages and the member and leaderboard
    snapshots of [roomJoined], [roundEnded] and [standings] are left out. *)
Module Out.
Inductive msg :=
| gameState (playerId : string)
| playerMoved (playerId : string) (pos : Position) (rot : Q)
| playerVehicleChanged (playerId : string) (vehicleId : VehicleId)
| playerSpawn (pos : Position) (hp : JS.number) (invulnerableMs : Z)
| playerDamaged (playerId : string) (hp : JS.number) (dmg : JS.number)
                (collisionType : string) (attackerId : string)
| playerDestroyed (playerId : string) (respawnTime : Z) (attackerId : string)
| playerRespawned (playerId : string) (pos : Position) (hp : JS.number)
                  (vehicleId : VehicleId)
| roundStarted (endTime : option Z)
               (roster : list (string * Position * JS.number * VehicleId))
| roundEnded (nextRoundStartTime : option Z)
| waitingPhaseStarted (waitingEndTime : Z)
| standings (ph : Phase)
| powerupDropped (id : string) (ty : PowerupType) (pos : Position) (land : Z)
| powerupCollected (id : string) (playerId : string) (ty : PowerupType)
| powerupRemoved (id : string)
| shieldActivated (duration : Z) (endsAt : Z)
| playerShielded (playerId : string) (until : Z)
| chatMessage (playerId : string) (playerName : string) (message : string)
              (isSystem : bool)
| roomJoined (roomId : string) (members : list string) (ph : Phase)
| playerJoined (playerId : string) (nm : string) (pos : Position)
               (hp : JS.number) (vehicleId : VehicleId)
| playerLeft (playerId : string)
| roomFull (roomId : string).
End Out.

Definition Emit : Type := Target * Out.msg.

(** The outcome of a callback that may throw. *)
Inductive Outcome (A : Type) :=
| Done (a : A)
| Uncaught.
Arguments Done {A} a.
Arguments Uncaught {A}.

(** The values drawn from [Math.random()] during one callback: the spawn
    point given to a player, and the type, id and position of a powerup
    dropped in a room. *)
Record Random := {
  spawnPosition : string -> Position;
  dropType : string -> PowerupType;
  dropId : string -> string;
  dropPosition : string -> Position
}.

(** ** Room state access *)

(** [initializeRoomGameState]: the record stored for a new room. *)
Definition initialRoomState : RoomState :=
  {| phase := waiting; roundStartTime := None; roundEndTime := None;
     waitingStartTime := None; leaderboard := ∅; activePlayers := ∅;
     respawningPlayers := ∅; powerups := ∅; lastPowerupDrop := 0 |}.

Definition initializeRoomGameState (roomId : option string) (st : GameState)
  : GameState :=
  set_gameStates (<[roomId := initialRoomState]> (gameStates st)) st.

(** [getRoomGameState]: get, creating the record on first use. *)
Definition getRoomGameState (roomId : option string) (st : GameState)
  : RoomState * GameState :=
  match gameStates st !! roomId with
  | Some rs => (rs, st)
  | None => (initialRoomState, initializeRoomGameState roomId st)
  end.

(** A store into the record [getRoomGameState] returned. *)
Definition putRoomState (roomId : option string) (rs : RoomState)
  (st : GameState) : GameState :=
  set_gameStates (<[roomId := rs]> (gameStates st)) st.

Definition putPlayer (sid : string) (p : Player) (st : GameState) : GameState :=
  set_players (<[sid := p]> (players st)) st.

(** The record currently stored for a room: the object a callback holds
    after [getRoomGameState] returned it. *)
Definition theRoomState (roomId : option string) (st : GameState) : RoomState :=
  default initialRoomState (gameStates st !! roomId).

(** Sequencing of callbacks: the emissions are appended, an exception ends
    the sequence. *)
Definition andThen (o : Outcome (GameState * list Emit))
  (f : GameState -> Outcome (GameState * list Emit))
  : Outcome (GameState * list Emit) :=
  match o with
  | Uncaught => Uncaught
  | Done (st, out) =>
      match f st with
      | Uncaught => Uncaught
      | Done (st', out') => Done (st', out ++ out')
      end
  end.

Definition seqDone (p : GameState * list Emit)
  (f : GameState -> GameState * list Emit) : GameState * list Emit :=
  let '(st', out') := f p.1 in (st', p.2 ++ out').

(** ** Round state machine *)

(** [player.name || `Player ${playerId.slice(-4)}`] *)
Definition roundName (playerId : string) (player : Player) : string :=
  match name player with
  | EmptyString => String.append "Player " (JS.slice_last 4 playerId)
  | n => n
  end.

(** [player.name || `Player_${socket.id.slice(0, 6)}`] *)
Definition displayName (sid : string) (player : Player) : string :=
  match name player with
  | EmptyString => String.append "Player_" (JS.substring0 6 sid)
  | n => n
  end.

Definition newStats (nm : string) : Stats :=
  {| kills := 0; deaths := 0; damageDealt := JS.int 0; playerName := nm |}.

(** The body of [room.forEach] in [startRound], for one member id. *)
Definition resetMember (now : Z) (rnd : Random) (playerId : string)
  (acc : gmap string Player * RoomState) : gmap string Player * RoomState :=
  match acc.1 !! playerId with
  | None => acc
  | Some player =>
      let player' :=
        set_invulnerableUntil (now + Z.max spawnInvulnerableMs entryDescentMs)
          (set_position (spawnPosition rnd playerId)
             (set_health (JS.int (maxHealth (vehicle player))) player)) in
      let rs1 := set_activePlayers ({[playerId]} ∪ activePlayers acc.2) acc.2 in
      let rs2 :=
        match leaderboard rs1 !! playerId with
        | Some _ => rs1
        | None =>
            set_leaderboard
              (<[playerId := newStats (roundName playerId player)]>
                 (leaderboard rs1)) rs1
        end in
      (<[playerId := player']> acc.1, rs2)
  end.

(** One entry of the [roundStarted] payload as [startRound] builds it:
    reading [player.position] of a missing player throws. *)
Definition rosterEntry (ps : gmap string Player) (i : string)
  : option (string * Position * JS.number * VehicleId) :=
  match ps !! i with
  | Some player =>
      Some (i, position player, health player, vehicle_id (vehicle player))
  | None => None
  end.

(** [startRound(roomId)].  [room] is read from [gameState.rooms] without a
    check, so [room.forEach] throws when the room has been deleted. *)
Definition startRound (roomId : string) (now : Z) (rnd : Random)
  (st : GameState) : Outcome (GameState * list Emit) :=
  let '(roomState, st1) := getRoomGameState (Some roomId) st in
  let rs1 :=
    set_respawningPlayers ∅
      (set_activePlayers ∅
         (set_roundEndTime (Some (now + roundDuration))
            (set_roundStartTime (Some now) (set_phase playing roomState)))) in
  match rooms st1 !! roomId with
  | None => Uncaught
  | Some room =>
      let acc :=
        foldl (fun acc playerId => resetMember now rnd playerId acc)
          (players st1, rs1) room in
      match mapM (rosterEntry acc.1) (elements (activePlayers acc.2)) with
      | None => Uncaught
      | Some roster =>
          Done (putRoomState (Some roomId) acc.2 (set_players acc.1 st1),
                [(io_to (Some roomId),
                  Out.roundStarted (roundEndTime acc.2) roster)])
      end
  end.

(** [endRound(roomId)]: the sorted leaderboard only feeds the payload; the
    one-shot restart is recorded in [timers]. *)
Definition endRound (roomId : string) (now : Z) (st : GameState)
  : GameState * list Emit :=
  let '(roomState, st1) := getRoomGameState (Some roomId) st in
  let st2 := putRoomState (Some roomId) (set_phase roundEnd roomState) st1 in
  let nextRoundStartTime := now + 20000 in
  (set_timers (timers st2 ++ [(nextRoundStartTime, roomId)]) st2,
   [(io_to (Some roomId), Out.roundEnded (Some nextRoundStartTime))]).

(** [respawnPlayer(roomId, playerId)] *)
Definition respawnPlayer (roomId playerId : string) (now : Z) (rnd : Random)
  (st : GameState) : GameState * list Emit :=
  let '(roomState, st1) := getRoomGameState (Some roomId) st in
  match players st1 !! playerId, respawningPlayers roomState !! playerId with
  | Some player, Some _ =>
      let player' :=
        set_invulnerableUntil (now + Z.max spawnInvulnerableMs respawnDescentMs)
          (set_position (spawnPosition rnd playerId)
             (set_health (JS.int (maxHealth (vehicle player))) player)) in
      let rs' :=
        set_activePlayers ({[playerId]} ∪ activePlayers roomState)
          (set_respawningPlayers (delete playerId (respawningPlayers roomState))
             roomState) in
      (putRoomState (Some roomId) rs' (putPlayer playerId player' st1),
       [(io_to (Some roomId),
         Out.playerRespawned playerId (position player') (health player')
           (vehicle_id (vehicle player')))])
  | _, _ => (st1, [])
  end.

(** ** Powerup lifecycle *)

(** [dropPowerup(roomId)] *)
Definition dropPowerup (roomId : string) (now : Z) (rnd : Random)
  (st : GameState) : GameState * list Emit :=
  let '(roomState, st1) := getRoomGameState (Some roomId) st in
  let playerCount := Z.of_nat (size (activePlayers roomState)) in
  if decide (playerCount < 2) then (st1, [])
  else
    let powerupType := dropType rnd roomId in
    let powerupId := dropId rnd roomId in
    let pos := dropPosition rnd roomId in
    let powerup :=
      {| pw_type := powerupType; pw_position := pos; dropTime := now;
         collected := false; landTime := now + 3000;
         despawnTime := now + 45000 |} in
    let rs' :=
      set_lastPowerupDrop now
        (set_powerups (<[powerupId := powerup]> (powerups roomState))
           roomState) in
    (putRoomState (Some roomId) rs' st1,
     [(io_to (Some roomId),
       Out.powerupDropped powerupId powerupType pos (landTime powerup))]).

(** [getPowerupDropInterval(playerCount)] *)
Definition getPowerupDropInterval (playerCount : Z) : Z :=
  let baseInterval := 30000 in
  let reductionPerPlayer := 2500 in
  let minInterval := 15000 in
  Z.max minInterval (baseInterval - (playerCount - 2) * reductionPerPlayer).

(** The body of [roomState.powerups.forEach] in [managePowerupDrops]. *)
Definition sweepPowerup (roomId : string) (now : Z)
  (acc : RoomState * list Emit) (e : string * Powerup) : RoomState * list Emit :=
  if decide (now > despawnTime e.2 ∨ collected e.2 = true)
  then (set_powerups (delete e.1 (powerups acc.1)) acc.1,
        acc.2 ++ [(io_to (Some roomId), Out.powerupRemoved e.1)])
  else acc.

(** [managePowerupDrops(roomId)] *)
Definition managePowerupDrops (roomId : string) (now : Z) (rnd : Random)
  (st : GameState) : GameState * list Emit :=
  let '(roomState, st1) := getRoomGameState (Some roomId) st in
  let playerCount := Z.of_nat (size (activePlayers roomState)) in
  if decide (phase roomState ≠ playing ∨ playerCount < 2) then (st1, [])
  else
    let dropInterval := getPowerupDropInterval playerCount in
    let timeSinceLastDrop := now - lastPowerupDrop roomState in
    let dropped :=
      if decide (timeSinceLastDrop >= dropInterval)
      then dropPowerup roomId now rnd st1
      else (st1, []) in
    let rs := theRoomState (Some roomId) dropped.1 in
    let swept :=
      foldl (sweepPowerup roomId now) (rs, []) (map_to_list (powerups rs)) in
    (putRoomState (Some roomId) swept.1 dropped.1, dropped.2 ++ swept.2).

(** ** Tick driver *)

(** The body of [roomState.respawningPlayers.forEach] in the tick. *)
Definition respawnDue (roomId : string) (now : Z) (rnd : Random)
  (acc : GameState * list Emit) (e : string * Z) : GameState * list Emit :=
  if decide (now >= e.2)
  then seqDone acc (respawnPlayer roomId e.1 now rnd)
  else acc.

(** The callback of [gameState.gameStates.forEach] in [updateGameStates],
    for the entry stored under [roomId]. *)
Definition tickRoom (now : Z) (rnd : Random) (roomId : option string)
  (st : GameState) : Outcome (GameState * list Emit) :=
  match roomId, gameStates st !! roomId with
  | Some r, Some roomState =>
      match rooms st !! r with
      | None => Done (st, [])
      | Some _ =>
          let switched :=
            match phase roomState with
            | waiting =>
                if decide (now - default 0 (waitingStartTime roomState)
                           >= waitingDuration)
                then startRound r now rnd st
                else Done (st, [])
            | playing =>
                if decide (now - default 0 (roundStartTime roomState)
                           >= roundDuration)
                then Done (endRound r now st)
                else Done (st, [])
            | roundEnd => Done (st, [])
            end in
          andThen switched (fun st1 =>
            let respawned :=
              foldl (respawnDue r now rnd) (st1, [])
                (map_to_list (respawningPlayers (theRoomState roomId st1))) in
            Done (seqDone respawned (managePowerupDrops r now rnd)))
      end
  | _, _ => Done (st, [])
  end.

(** [updateGameStates()], run every second. *)
Definition updateGameStates (now : Z) (rnd : Random) (st : GameState)
  : Outcome (GameState * list Emit) :=
  foldl (fun o roomId => andThen o (tickRoom now rnd roomId))
    (Done (st, [])) (map_to_list (gameStates st)).*1.

(** ** Event gateway: the socket handlers *)

(** [io.on('connection')]: the initial player record. *)
Definition newPlayer (sid : string) (rnd : Random) : Player :=
  {| name := String.append "Player_" (JS.substring0 6 sid);
     position := spawnPosition rnd sid;
     rotation := 0 # 1;
     health := JS.int 100;
     vehicle := {| vehicle_id := balanced;
                   damageDealtMultiplier := JS.lit (10 # 10)%Q;
                   damageTakenMultiplier := JS.lit (10 # 10)%Q;
                   maxHealth := 100 |};
     room := None;
     invulnerableUntil := 0;
     shieldUntil := None |}.

Definition on_connection (sid : string) (rnd : Random) (st : GameState)
  : GameState * list Emit :=
  (putPlayer sid (newPlayer sid rnd) st, [(socket_emit sid, Out.gameState sid)]).

(** [socket.on('playerMove')] *)
Definition on_playerMove (sid : string) (dataPosition : option Position)
  (dataRotation : option Q) (st : GameState) : GameState * list Emit :=
  match players st !! sid, dataPosition, dataRotation with
  | Some player, Some pos, Some rot =>
      let player' := set_rotation rot (set_position pos player) in
      (putPlayer sid player' st,
       match JS.truthy (room player') with
       | Some r => [(socket_to sid (Some r), Out.playerMoved sid pos rot)]
       | None => []
       end)
  | _, _, _ => (st, [])
  end.

(** [allowed.has(data?.vehicleId) ? data.vehicleId : 'balanced'] *)
Definition parseVehicleId (v : option string) : VehicleId :=
  if decide (v = Some "sport") then sport
  else if decide (v = Some "tank") then tank
  else balanced.

(** [socket.on('vehicleSelected')] *)
Definition on_vehicleSelected (sid : string) (dataVehicleId : option string)
  (st : GameState) : GameState * list Emit :=
  match players st !! sid with
  | None => (st, [])
  | Some player =>
      let vid := parseVehicleId dataVehicleId in
      let player1 := set_vehicle (presets vid) player in
      let player2 :=
        set_health
          (JS.Math_min (health player1) (JS.int (maxHealth (vehicle player1))))
          player1 in
      (putPlayer sid player2 st,
       match JS.truthy (room player2) with
       | Some r => [(io_to (Some r), Out.playerVehicleChanged sid vid)]
       | None => []
       end
       ++ [(socket_emit sid,
            Out.playerSpawn (position player2) (health player2) 0)])
  end.

(** The payload of an inbound [playerDamaged] event; [damage] and
    [collisionType] may be missing.  [damage] is the value [ToNumber] gives
    for the property: the handler reads it in [data.damage < 0] and in
    [data.damage * attackerMod], which both convert it. *)
Record DamageData := {
  damage : option JS.number;
  targetPlayerId : string;
  collisionType : option string
}.

(** [p.invulnerableUntil && now < p.invulnerableUntil] *)
Definition invulnerableAt (now : Z) (p : Player) : bool :=
  bool_decide (invulnerableUntil p ≠ 0 ∧ now < invulnerableUntil p).

(** [p.shieldUntil && now < p.shieldUntil] *)
Definition shieldedAt (now : Z) (p : Player) : bool :=
  match shieldUntil p with
  | Some s => bool_decide (s ≠ 0 ∧ now < s)
  | None => false
  end.

(** [(data.collisionType || '') === 'monster'] *)
Definition isMonster (data : DamageData) : bool :=
  bool_decide (collisionType data = Some "monster").

(** [data.collisionType || 'normal'] *)
Definition reportedType (data : DamageData) : string :=
  default "normal" (JS.truthy (collisionType data)).

(** The damage computation of the handler, lines "let finalDamage" to the
    end of the [if]/[else].  A player record always has its [vehicle], so
    the defaults of [vehicle?.maxHealth ?? 100] and of the two multipliers
    are never taken. *)
Definition finalDamageOf (data : DamageData) (raw : JS.number)
  (attackingPlayer targetPlayer : Player) : JS.number :=
  if isMonster data then
    let maxH := JS.int (maxHealth (vehicle targetPlayer)) in
    JS.Math_max (JS.int 0) (JS.Math_round (JS.mul maxH (JS.lit (20 # 100)%Q)))
  else
    let attackerMod := damageDealtMultiplier (vehicle attackingPlayer) in
    let targetMod := damageTakenMultiplier (vehicle targetPlayer) in
    JS.Math_max (JS.int 0)
      (JS.Math_round (JS.mul (JS.mul raw attackerMod) targetMod)).

(** [attackerStats.damageDealt += finalDamage] *)
Definition addDamageDealt (d : JS.number) (s : Stats) : Stats :=
  set_damageDealt (JS.add (damageDealt s) d) s.
Definition incKills (s : Stats) : Stats := set_kills (kills s + 1) s.
Definition incDeaths (s : Stats) : Stats := set_deaths (deaths s + 1) s.

(** [socket.on('playerDamaged')] *)
Definition on_playerDamaged (sid : string) (data : DamageData) (now : Z)
  (st : GameState) : GameState * list Emit :=
  match players st !! sid with
  | None => (st, [])
  | Some attackingPlayer =>
  match players st !! targetPlayerId data with
  | None => (st, [])
  | Some targetPlayer =>
  match damage data with
  | None => (st, [])
  | Some raw =>
  if JS.negative raw then (st, [])
  else if negb (bool_decide (room attackingPlayer = room targetPlayer))
  then (st, [])
  else
    let '(roomState, st1) := getRoomGameState (room attackingPlayer) st in
    if negb (bool_decide (phase roomState = playing)) then (st1, [])
    else if invulnerableAt now attackingPlayer then (st1, [])
    else if invulnerableAt now targetPlayer then (st1, [])
    else if shieldedAt now targetPlayer then (st1, [])
    else
      let finalDamage := finalDamageOf data raw attackingPlayer targetPlayer in
      let newHealth :=
        JS.Math_max (JS.int 0) (JS.sub (health targetPlayer) finalDamage) in
      let st2 :=
        putPlayer (targetPlayerId data) (set_health newHealth targetPlayer) st1 in
      let rs1 :=
        if isMonster data then roomState
        else set_leaderboard
               (alter (addDamageDealt finalDamage) sid (leaderboard roomState))
               roomState in
      let damaged :=
        (io_to (room attackingPlayer),
         Out.playerDamaged (targetPlayerId data) newHealth finalDamage
           (reportedType data)
           (if isMonster data then "monster" else sid)) in
      if decide (JS.le newHealth (JS.int 0) = true) then
        let respawnTime := now + respawnDuration in
        let rs2 :=
          set_respawningPlayers
            (<[targetPlayerId data := respawnTime]> (respawningPlayers rs1))
            (set_activePlayers (activePlayers rs1 ∖ {[targetPlayerId data]})
               (set_leaderboard
                  (alter incDeaths (targetPlayerId data)
                     (alter incKills sid (leaderboard rs1))) rs1)) in
        (putRoomState (room attackingPlayer) rs2 st2,
         [damaged;
          (io_to (room attackingPlayer),
           Out.playerDestroyed (targetPlayerId data) respawnTime sid)])
      else
        (putRoomState (room attackingPlayer) rs1 st2, [damaged])
  end end end.

(** [socket.on('playerLanded')] *)
Definition on_playerLanded (sid : string) (now : Z) (st : GameState)
  : GameState * list Emit :=
  match players st !! sid with
  | None => (st, [])
  | Some p =>
      match JS.truthy (room p) with
      | None => (st, [])
      | Some _ =>
          (putPlayer sid (set_invulnerableUntil (now + spawnInvulnerableMs) p) st,
           [(socket_emit sid,
             Out.playerSpawn (position p) (health p) spawnInvulnerableMs)])
      end
  end.

Definition origin : Position :=
  {| pos_x := 0 # 1; pos_y := 0 # 1; pos_z := 0 # 1 |}.

(** One entry of the [roundStarted] payload sent to a late joiner, with
    the defaults of the optional accesses. *)
Definition rosterEntrySafe (ps : gmap string Player) (i : string)
  : string * Position * JS.number * VehicleId :=
  match ps !! i with
  | Some p => (i, position p, health p, vehicle_id (vehicle p))
  | None => (i, origin, JS.int 100, balanced)
  end.

(** The late-joiner synchronisation at the end of [joinRoom]. *)
Definition syncJoiner (sid roomId : string) (st : GameState)
  : GameState * list Emit :=
  let roomState := theRoomState (Some roomId) st in
  match phase roomState with
  | playing =>
      let rs' := set_activePlayers ({[sid]} ∪ activePlayers roomState) roomState in
      (putRoomState (Some roomId) rs' st,
       [(socket_emit sid,
         Out.roundStarted (roundEndTime rs')
           (rosterEntrySafe (players st) <$> elements (activePlayers rs')))])
  | waiting =>
      (st, [(socket_emit sid,
             Out.waitingPhaseStarted
               (default 0 (waitingStartTime roomState) + waitingDuration))])
  | roundEnd => (st, [(socket_emit sid, Out.roundEnded None)])
  end.

(** [socket.on('joinRoom')].  [room] is the array fetched before the player
    leaves its current room; when the player re-joins the room it is in,
    this is the very array the splice has just shortened. *)
Definition on_joinRoom (sid : string) (dataRoomId : option string) (now : Z)
  (rnd : Random) (st : GameState) : Outcome (GameState * list Emit) :=
  let roomId := default "default" (JS.truthy dataRoomId) in
  let room0 := default [] (rooms st !! roomId) in
  if decide (length room0 < maxPlayersPerRoom)%nat then
    match players st !! sid with
    | None => Done (st, [])
    | Some player =>
        let rooms1 :=
          match JS.truthy (room player) with
          | Some cur =>
              match rooms st !! cur with
              | Some currentRoom =>
                  <[cur := JS.remove_first sid currentRoom]> (rooms st)
              | None => rooms st
              end
          | None => rooms st
          end in
        let room1 := default [] (rooms1 !! roomId) ++ [sid] in
        let player1 :=
          set_invulnerableUntil
            (now + Z.max spawnInvulnerableMs entryDescentMs)
            (set_position (spawnPosition rnd sid)
               (set_room (Some roomId) player)) in
        let st1 :=
          set_rooms (<[roomId := room1]> rooms1) (putPlayer sid player1 st) in
        let '(roomState, st2) := getRoomGameState (Some roomId) st1 in
        let rs1 :=
          match leaderboard roomState !! sid with
          | Some _ => roomState
          | None =>
              set_leaderboard
                (<[sid := newStats (displayName sid player1)]>
                   (leaderboard roomState)) roomState
          end in
        let st3 := putRoomState (Some roomId) rs1 st2 in
        let joined :=
          (socket_to sid (Some roomId),
           Out.chatMessage "system" "System"
             (String.append (displayName sid player1) " joined the arena")
             true) in
        andThen
          (if decide (length room1 = 1%nat)
           then andThen (Done (st3, [joined])) (startRound roomId now rnd)
           else Done (st3, [joined]))
          (fun st4 =>
             let p := default player1 (players st4 !! sid) in
             let info :=
               [(socket_emit sid,
                 Out.roomJoined roomId room1
                   (phase (theRoomState (Some roomId) st4)));
                (socket_emit sid,
                 Out.playerSpawn (position p) (health p) spawnInvulnerableMs)] in
             let synced := seqDone (st4, info) (syncJoiner sid roomId) in
             Done (synced.1,
                   synced.2 ++
                   [(socket_to sid (Some roomId),
                     Out.playerJoined sid (name p) (position p) (health p)
                       (vehicle_id (vehicle p)))]))
    end
  else Done (st, [(socket_emit sid, Out.roomFull roomId)]).

(** [socket.on('setNickname')] *)
Definition on_setNickname (sid : string) (dataNickname : option string)
  (st : GameState) : GameState * list Emit :=
  match players st !! sid, JS.truthy dataNickname with
  | Some player, Some nickname =>
      let sanitizedNickname := JS.substring0 16 (JS.trim nickname) in
      let st1 := putPlayer sid (set_name sanitizedNickname player) st in
      match JS.truthy (room player) with
      | Some r =>
          let '(roomState, st2) := getRoomGameState (Some r) st1 in
          (putRoomState (Some r)
             (set_leaderboard
                (alter (set_playerName sanitizedNickname) sid
                   (leaderboard roomState)) roomState) st2, [])
      | None => (st1, [])
      end
  | _, _ => (st, [])
  end.

(** The first [socket.on('chatMessage')] listener: trims, truncates and
    relays to the other sockets of the room. *)
Definition on_chatMessage_first (sid : string) (dataMessage : option string)
  (st : GameState) : GameState * list Emit :=
  match players st !! sid, JS.truthy dataMessage with
  | Some player, Some message =>
      let sanitizedMessage := JS.substring0 200 (JS.trim message) in
      let playerName := displayName sid player in
      match JS.truthy (room player) with
      | Some r =>
          (st, [(socket_to sid (Some r),
                 Out.chatMessage sid playerName sanitizedMessage false)])
      | None => (st, [])
      end
  | _, _ => (st, [])
  end.

(** The second [socket.on('chatMessage')] listener, registered on the same
    socket after the [disconnect] listener: relays the message as received
    to the whole room when it has at most 200 characters. *)
Definition on_chatMessage_second (sid : string) (dataMessage : option string)
  (st : GameState) : GameState * list Emit :=
  match players st !! sid, JS.truthy dataMessage with
  | Some player, Some message =>
      if decide (String.length message <= 200)%nat then
        match JS.truthy (room player) with
        | Some r =>
            (st, [(io_to (Some r),
                   Out.chatMessage sid (name player) message false)])
        | None => (st, [])
        end
      else (st, [])
  | _, _ => (st, [])
  end.

(** An inbound [chatMessage] event: the socket calls its listeners for the
    event in the order of their registration. *)
Definition on_chatMessage (sid : string) (dataMessage : option string)
  (st : GameState) : GameState * list Emit :=
  seqDone (on_chatMessage_first sid dataMessage st)
    (on_chatMessage_second sid dataMessage).

(** [player.vehicle?.maxHealth || 100] *)
Definition maxHealthOr100 (p : Player) : Z :=
  if decide (maxHealth (vehicle p) = 0) then 100 else maxHealth (vehicle p).

(** [socket.on('collectPowerup')].  The handler marks the powerup object
    collected and deletes it from the map before it returns, so no other
    callback ever sees the mark; the embedding deletes the entry. *)
Definition on_collectPowerup (sid : string) (dataPowerupId : string) (now : Z)
  (st : GameState) : GameState * list Emit :=
  match players st !! sid with
  | None => (st, [])
  | Some player =>
  match JS.truthy (room player) with
  | None => (st, [])
  | Some r =>
      let '(roomState, st1) := getRoomGameState (Some r) st in
      match powerups roomState !! dataPowerupId with
      | None => (st1, [])
      | Some powerup =>
          if collected powerup then (st1, [])
          else
            let applied :=
              match pw_type powerup with
              | pw_health =>
                  let healthRestore := JS.int 40 in
                  let oldHealth := health player in
                  let h := JS.Math_min (JS.int (maxHealthOr100 player))
                             (JS.add (health player) healthRestore) in
                  let actualRestore := JS.sub h oldHealth in
                  (set_health h player,
                   [(io_to (Some r),
                     Out.playerDamaged sid h (JS.neg actualRestore) "heal"
                       sid)])
              | pw_shield =>
                  let shieldDuration := 10000 in
                  let until := now + shieldDuration in
                  (set_shieldUntil (Some until) player,
                   [(socket_emit sid, Out.shieldActivated shieldDuration until);
                    (socket_to sid (Some r), Out.playerShielded sid until)])
              end in
            let rs' :=
              set_powerups (delete dataPowerupId (powerups roomState))
                roomState in
            (putRoomState (Some r) rs' (putPlayer sid applied.1 st1),
             applied.2 ++
             [(io_to (Some r),
               Out.powerupCollected dataPowerupId sid (pw_type powerup))])
      end
  end end.

(** [socket.on('disconnect')] *)
Definition on_disconnect (sid : string) (st : GameState)
  : GameState * list Emit :=
  let left :=
    match players st !! sid with
    | None => (st, [])
    | Some player =>
        match JS.truthy (room player) with
        | None => (st, [])
        | Some r =>
            let rooms' :=
              match rooms st !! r with
              | Some room0 =>
                  if decide (sid ∈ room0) then
                    let room1 := JS.remove_first sid room0 in
                    if decide (length room1 = 0%nat)
                    then delete r (rooms st)
                    else <[r := room1]> (rooms st)
                  else rooms st
              | None => rooms st
              end in
            (set_rooms rooms' st,
             [(socket_to sid (Some r),
               Out.chatMessage "system" "System"
                 (String.append (displayName sid player) " left the arena")
                 true);
              (socket_to sid (Some r), Out.playerLeft sid)])
        end
    end in
  (set_players (delete sid (players left.1)) left.1, left.2).

(** [socket.on('requestStandings')] *)
Definition on_requestStandings (sid : string) (st : GameState)
  : GameState * list Emit :=
  match players st !! sid with
  | None => (st, [])
  | Some player =>
      match JS.truthy (room player) with
      | None => (st, [])
      | Some r =>
          let '(roomState, st1) := getRoomGameState (Some r) st in
          (st1, [(socket_emit sid, Out.standings (phase roomState))])
      end
  end.

(** ** The server as a transition system *)

(** The state after the [server.listen] callback: the default room exists
    and is empty, its round state is the initial one. *)
Definition boot : GameState :=
  initializeRoomGameState (Some "default")
    {| players := ∅; rooms := {[ "default" := [] ]}; gameStates := ∅;
       timers := [] |}.

(** The payloads of the inbound events.  A property that may be missing is
    an [option]. *)
Module Data.
Record playerMove := { position : option Position; rotation : option Q }.
Record vehicleSelected := { vehicleId : option string }.
Record joinRoom := { roomId : option string }.
Record setNickname := { nickname : JS.field }.
Record chatMessage := { message : JS.field }.
Record collectPowerup := { powerupId : string }.
End Data.

(** What can happen: an inbound event on socket [sid], a tick of the
    one-second interval, or the firing of a pending restart one-shot.  The
    argument [data] of a socket event is [None] when the client sent the
    event without a payload (or with [null]): reading a property of it
    throws. *)
Inductive Event :=
| Connection (sid : string)
| PlayerMove (sid : string) (data : option Data.playerMove)
| VehicleSelected (sid : string) (data : option Data.vehicleSelected)
| PlayerDamaged (sid : string) (data : option DamageData)
| PlayerLanded (sid : string)
| JoinRoom (sid : string) (data : option Data.joinRoom)
| SetNickname (sid : string) (data : option Data.setNickname)
| ChatMessage (sid : string) (data : option Data.chatMessage)
| CollectPowerup (sid : string) (data : option Data.collectPowerup)
| Disconnect (sid : string)
| RequestStandings (sid : string)
| Tick
| RestartTimer (fireAt : Z) (roomId : string).

(** Removal of one pending one-shot from the timer list. *)
Fixpoint cancelTimer (t : Z * string) (l : list (Z * string))
  : list (Z * string) :=
  match l with
  | [] => []
  | u :: l' => if decide (u = t) then l' else u :: cancelTimer t l'
  end.

(** The firing of the one-shot scheduled by [endRound]. *)
Definition fireRestart (fireAt : Z) (roomId : string) (now : Z) (rnd : Random)
  (st : GameState) : Outcome (GameState * list Emit) :=
  if decide ((fireAt, roomId) ∈ timers st ∧ fireAt <= now) then
    startRound roomId now rnd
      (set_timers (cancelTimer (fireAt, roomId) (timers st)) st)
  else Done (st, []).

(** *** The listeners, from the arrival of the event

    Each listener reads the properties of [data] where the source reads
    them, and goes on as the handler above does. *)

(** [playerMove] reads [data.position] once the player is found. *)
Definition listen_playerMove (sid : string) (data : option Data.playerMove)
  (st : GameState) : Outcome (GameState * list Emit) :=
  match players st !! sid with
  | None => Done (st, [])
  | Some _ =>
      match data with
      | None => Uncaught
      | Some d => Done (on_playerMove sid (Data.position d) (Data.rotation d) st)
      end
  end.

(** [vehicleSelected] reads [data?.vehicleId], which is [undefined] for a
    missing payload. *)
Definition listen_vehicleSelected (sid : string)
  (data : option Data.vehicleSelected) (st : GameState)
  : Outcome (GameState * list Emit) :=
  Done (on_vehicleSelected sid (data ≫= Data.vehicleId) st).

(** [playerDamaged] logs [data.targetPlayerId] before any check. *)
Definition listen_playerDamaged (sid : string) (data : option DamageData)
  (now : Z) (st : GameState) : Outcome (GameState * list Emit) :=
  match data with
  | None => Uncaught
  | Some d => Done (on_playerDamaged sid d now st)
  end.

(** [joinRoom] starts with [data.roomId || 'default']. *)
Definition listen_joinRoom (sid : string) (data : option Data.joinRoom)
  (now : Z) (rnd : Random) (st : GameState)
  : Outcome (GameState * list Emit) :=
  match data with
  | None => Uncaught
  | Some d => on_joinRoom sid (Data.roomId d) now rnd st
  end.

(** The test [player && data.<property>] of [setNickname] and of the two
    [chatMessage] listeners, followed by the call of [trim] on the
    property: the string the handler goes on with, if any. *)
Definition readText (data : option JS.field) : Outcome (option string) :=
  match data with
  | None => Uncaught
  | Some JS.falsy => Done None
  | Some (JS.str s) => Done (Some s)
  | Some JS.other => Uncaught
  end.

Definition listen_setNickname (sid : string) (data : option Data.setNickname)
  (st : GameState) : Outcome (GameState * list Emit) :=
  match players st !! sid with
  | None => Done (st, [])
  | Some _ =>
      match readText (Data.nickname <$> data) with
      | Uncaught => Uncaught
      | Done nickname => Done (on_setNickname sid nickname st)
      end
  end.

(** A throw of the first [chatMessage] listener ends the dispatch: the
    second listener is not called. *)
Definition listen_chatMessage (sid : string) (data : option Data.chatMessage)
  (st : GameState) : Outcome (GameState * list Emit) :=
  match players st !! sid with
  | None => Done (st, [])
  | Some _ =>
      match readText (Data.message <$> data) with
      | Uncaught => Uncaught
      | Done message => Done (on_chatMessage sid message st)
      end
  end.

(** [collectPowerup] reads [data.powerupId] once the player is found to be
    in a room. *)
Definition listen_collectPowerup (sid : string)
  (data : option Data.collectPowerup) (now : Z) (st : GameState)
  : Outcome (GameState * list Emit) :=
  match players st !! sid with
  | None => Done (st, [])
  | Some player =>
      match JS.truthy (room player) with
      | None => Done (st, [])
      | Some _ =>
          match data with
          | None => Uncaught
          | Some d => Done (on_collectPowerup sid (Data.powerupId d) now st)
          end
      end
  end.

Definition step (now : Z) (rnd : Random) (ev : Event) (st : GameState)
  : Outcome (GameState * list Emit) :=
  match ev with
  | Connection sid => Done (on_connection sid rnd st)
  | PlayerMove sid data => listen_playerMove sid data st
  | VehicleSelected sid data => listen_vehicleSelected sid data st
  | PlayerDamaged sid data => listen_playerDamaged sid data now st
  | PlayerLanded sid => Done (on_playerLanded sid now st)
  | JoinRoom sid data => listen_joinRoom sid data now rnd st
  | SetNickname sid data => listen_setNickname sid data st
  | ChatMessage sid data => listen_chatMessage sid data st
  | CollectPowerup sid data => listen_collectPowerup sid data now st
  | Disconnect sid => Done (on_disconnect sid st)
  | RequestStandings sid => Done (on_requestStandings sid st)
  | Tick => updateGameStates now rnd st
  | RestartTimer t r => fireRestart t r now rnd st
  end.

(** The states the server can be in: [boot], and every state a callback
    that returned leaves behind. *)
Inductive reachable : GameState -> Prop :=
| reachable_boot : reachable boot
| reachable_step st now rnd ev st' out :
    reachable st -> step now rnd ev st = Done (st', out) -> reachable st'.

(** A run of the server over a list of timed events, from a given state. *)
Fixpoint run (evs : list (Z * Random * Event)) (st : GameState)
  : Outcome (GameState * list Emit) :=
  match evs with
  | [] => Done (st, [])
  | (now, rnd, ev) :: evs' => andThen (step now rnd ev st) (run evs')
  end.

(** ** The handler behind an event

    A callback that returns has run one of the handlers on the properties
    it read from its payload. *)
Inductive Call :=
| CallConnection (sid : string)
| CallPlayerMove (sid : string) (pos : option Position) (rot : option Q)
| CallVehicleSelected (sid : string) (vehicleId : option string)
| CallPlayerDamaged (sid : string) (data : DamageData)
| CallPlayerLanded (sid : string)
| CallJoinRoom (sid : string) (roomId : option string)
| CallSetNickname (sid : string) (nickname : option string)
| CallChatMessage (sid : string) (message : option string)
| CallCollectPowerup (sid : string) (powerupId : string)
| CallDisconnect (sid : string)
| CallRequestStandings (sid : string)
| CallTick
| CallRestartTimer (fireAt : Z) (roomId : string).

Definition handle (now : Z) (rnd : Random) (c : Call) (st : GameState)
  : Outcome (GameState * list Emit) :=
  match c with
  | CallConnection sid => Done (on_connection sid rnd st)
  | CallPlayerMove sid pos rot => Done (on_playerMove sid pos rot st)
  | CallVehicleSelected sid v => Done (on_vehicleSelected sid v st)
  | CallPlayerDamaged sid data => Done (on_playerDamaged sid data now st)
  | CallPlayerLanded sid => Done (on_playerLanded sid now st)
  | CallJoinRoom sid r => on_joinRoom sid r now rnd st
  | CallSetNickname sid n => Done (on_setNickname sid n st)
  | CallChatMessage sid m => Done (on_chatMessage sid m st)
  | CallCollectPowerup sid i => Done (on_collectPowerup sid i now st)
  | CallDisconnect sid => Done (on_disconnect sid st)
  | CallRequestStandings sid => Done (on_requestStandings sid st)
  | CallTick => updateGameStates now rnd st
  | CallRestartTimer t r => fireRestart t r now rnd st
  end.

(** The handler a listener goes on with, [None] when the reading of its
    payload throws; a listener that returns before it reads the payload
    goes on with an empty one. *)
Definition callOf (ev : Event) (st : GameState) : option Call :=
  match ev with
  | Connection sid => Some (CallConnection sid)
  | PlayerMove sid data =>
      match players st !! sid with
      | None => Some (CallPlayerMove sid None None)
      | Some _ =>
          d ← data;
          Some (CallPlayerMove sid (Data.position d) (Data.rotation d))
      end
  | VehicleSelected sid data =>
      Some (CallVehicleSelected sid (data ≫= Data.vehicleId))
  | PlayerDamaged sid data => CallPlayerDamaged sid <$> data
  | PlayerLanded sid => Some (CallPlayerLanded sid)
  | JoinRoom sid data => d ← data; Some (CallJoinRoom sid (Data.roomId d))
  | SetNickname sid data =>
      match players st !! sid with
      | None => Some (CallSetNickname sid None)
      | Some _ =>
          match readText (Data.nickname <$> data) with
          | Uncaught => None
          | Done nickname => Some (CallSetNickname sid nickname)
          end
      end
  | ChatMessage sid data =>
      match players st !! sid with
      | None => Some (CallChatMessage sid None)
      | Some _ =>
          match readText (Data.message <$> data) with
          | Uncaught => None
          | Done message => Some (CallChatMessage sid message)
          end
      end
  | CollectPowerup sid data =>
      match players st !! sid with
      | None => Some (CallCollectPowerup sid EmptyString)
      | Some player =>
          match JS.truthy (room player) with
          | None => Some (CallCollectPowerup sid EmptyString)
          | Some _ =>
              d ← data; Some (CallCollectPowerup sid (Data.powerupId d))
          end
      end
  | Disconnect sid => Some (CallDisconnect sid)
  | RequestStandings sid => Some (CallRequestStandings sid)
  | Tick => Some CallTick
  | RestartTimer t r => Some (CallRestartTimer t r)
  end.

(** * Vocabulary of the specification *)

(** The validation of a damage event in the words of the specification:
    both records exist, the damage is present and not negative (the test
    [data.damage < 0] of the handler fails), the two players share their
    room, the room is in the [playing] phase, and no
    invulnerability or shield window of the two is still open at [now]. *)
Record damage_accepted (sid : string) (data : DamageData) (now : Z)
  (st : GameState) (a t : Player) (raw : JS.number) : Prop := {
  acc_attacker : players st !! sid = Some a;
  acc_target : players st !! targetPlayerId data = Some t;
  acc_damage : damage data = Some raw;
  acc_nonneg : JS.lt raw (JS.int 0) = false;
  acc_room : room a = room t;
  acc_phase : phase (theRoomState (room a) st) = playing;
  acc_attacker_vulnerable : invulnerableUntil a <= now;
  acc_target_vulnerable : invulnerableUntil t <= now;
  acc_target_unshielded : forall s, shieldUntil t = Some s -> s <= now
}.

(** One of the validation steps fails. *)
Definition damage_rejected (sid : string) (data : DamageData) (now : Z)
  (st : GameState) : Prop :=
  match players st !! sid, players st !! targetPlayerId data with
  | Some a, Some t =>
      match damage data with
      | None => True
      | Some raw => JS.lt raw (JS.int 0) = true
      end
      ∨ room a ≠ room t
      ∨ phase (theRoomState (room a) st) ≠ playing
      ∨ now < invulnerableUntil a
      ∨ now < invulnerableUntil t
      ∨ (exists s, shieldUntil t = Some s /\ now < s)
  | _, _ => True
  end.

(** The emission announces a new powerup. *)
Definition isPowerupDropped (e : Emit) : bool :=
  match e.2 with
  | Out.powerupDropped _ _ _ _ => true
  | _ => false
  end.

(** The emission announces the collection of a powerup. *)
Definition isPowerupCollected (e : Emit) : bool :=
  match e.2 with
  | Out.powerupCollected _ _ _ => true
  | _ => false
  end.

(** The membership list of a room, empty for an unknown room. *)
Definition membersOf (st : GameState) (r : option string) : list string :=
  match r with
  | Some k => default [] (rooms st !! k)
  | None => []
  end.

(** The sockets an emission reaches.  The sockets of a socket.io room are
    the members of [gameState.rooms]: [joinRoom] and [disconnect] change
    both together. *)
Definition recipients (st : GameState) (t : Target) : list string :=
  match t with
  | io_to r => membersOf st r
  | socket_to sender r => filter (fun s => s ≠ sender) (membersOf st r)
  | socket_emit sender => [sender]
  end.

(** The texts of the chat messages of [out] that socket [who] receives, one
    entry per delivery. *)
Definition chatDeliveries (st : GameState) (out : list Emit) (who : string)
  : list string :=
  flat_map
    (fun e : Emit =>
       match e.2 with
       | Out.chatMessage _ _ message _ =>
           (fun _ => message) <$> filter (fun s => s = who) (recipients st e.1)
       | _ => []
       end) out.

(** A health within the bounds of a vehicle with [m] points: an integer
    between 0 and [m]. *)
Definition within (m : Z) (h : JS.number) : Prop :=
  exists z, h = JS.int z /\ 0 <= z <= m.

(** What [Math.max(0, Math.round(x))] can be: NaN, infinite, or a whole
    number of points that is not negative. *)
Definition points (f : JS.number) : Prop :=
  f = JS.NaN \/ f = JS.PosInf \/ exists n, 0 <= n /\ f = JS.int n.

(** What a health can be for a vehicle with [m] points: within the bounds,
    or NaN. *)
Definition health_ok (m : Z) (h : JS.number) : Prop :=
  h = JS.NaN \/ within m h.

(** A player record is well formed: its vehicle is one of the presets and
    its health lies between 0 and the vehicle's maximum, or is NaN. *)
Definition player_ok (p : Player) : Prop :=
  (exists v, vehicle p = presets v) /\
  health_ok (maxHealth (vehicle p)) (health p).

Definition players_ok (st : GameState) : Prop :=
  map_Forall (fun (_ : string) p => player_ok p) (players st).

(** The room of every player who joined one has a round state. *)
Definition joined_rooms_have_state (st : GameState) : Prop :=
  forall sid p r,
    players st !! sid = Some p -> room p = Some r ->
    is_Some (gameStates st !! Some r).

(** The emission announces a new powerup with the given id. *)
Definition isDropOf (i : string) (e : Emit) : bool :=
  match e.2 with
  | Out.powerupDropped j _ _ _ => bool_decide (j = i)
  | _ => false
  end.

(** No room holds a powerup with the given id. *)
Definition absent (i : string) (st : GameState) : Prop :=
  forall k, powerups (theRoomState k st) !! i = None.

(** The id names at most one powerup over all rooms (ids are drawn at
    random and stamped with the time of the drop). *)
Definition powerup_id_unique (st : GameState) (i : string) : Prop :=
  map_Forall (fun k1 rs1 =>
    map_Forall (fun k2 rs2 =>
      is_Some (powerups rs1 !! i) -> is_Some (powerups rs2 !! i) -> k1 = k2)
      (gameStates st)) (gameStates st).

(** A record after a callback, against the record before it: the room is
    the same, and a well-formed record stays well formed. *)
Definition evolves (p p' : Player) : Prop :=
  room p' = room p /\ (player_ok p -> player_ok p').

(** Every record of the new registry evolved from the record the old
    registry held under the same socket id. *)
Definition map_evolve (ps ps' : gmap string Player) : Prop :=
  forall sid p', ps' !! sid = Some p' ->
                 exists p, ps !! sid = Some p /\ evolves p p'.

(** No round state is ever removed. *)
Definition states_kept (st st' : GameState) : Prop :=
  forall k, is_Some (gameStates st !! k) -> is_Some (gameStates st' !! k).

(** What every callback but [connection] and [joinRoom] guarantees. *)
Definition frame (st st' : GameState) : Prop :=
  map_evolve (players st) (players st') /\ states_kept st st'.

(** The invariant of the reachable states. *)
Definition invariant (st : GameState) : Prop :=
  players_ok st /\ joined_rooms_have_state st.

(** No leaderboard entry is ever removed. *)
Definition entries_kept (st st' : GameState) : Prop :=
  forall k sid,
    is_Some (leaderboard (theRoomState k st) !! sid) ->
    is_Some (leaderboard (theRoomState k st') !! sid).

(** Every player who joined a room has an entry in its leaderboard. *)
Definition joined_have_entries (st : GameState) : Prop :=
  forall sid p r,
    players st !! sid = Some p -> room p = Some r ->
    is_Some (leaderboard (theRoomState (Some r) st) !! sid).

(** The round state kept under the key [null], the room of the players who
    have joined none, is never started: it is the initial record. *)
Definition null_room_idle (st : GameState) : Prop :=
  theRoomState None st = initialRoomState.

(** ** Concrete runs *)

Module Scenario.

Definition rnd : Random :=
  {| spawnPosition := fun _ => origin;
     dropType := fun _ => pw_health;
     dropId := fun _ => "powerup_k3x9q0z1a_40000";
     dropPosition := fun _ => origin |}.

Definition at_time (now : Z) (ev : Event) : Z * Random * Event := (now, rnd, ev).

(** The state a run from [boot] ends in. *)
Definition after (evs : list (Z * Random * Event)) : GameState :=
  match run evs boot with
  | Done (st, _) => st
  | Uncaught => boot
  end.

(** [joinRoom] with [{roomId: r}], [vehicleSelected] with
    [{vehicleId: v}]. *)
Definition join (sid r : string) : Event :=
  JoinRoom sid (Some {| Data.roomId := Some r |}).

Definition select (sid v : string) : Event :=
  VehicleSelected sid (Some {| Data.vehicleId := Some v |}).

(** Two players connect and join room r1; a drives the sport car, b the
    tank. *)
Definition lobby : list (Z * Random * Event) :=
  [at_time 1000 (Connection "a");
   at_time 1500 (join "a" "r1");
   at_time 1600 (Connection "b");
   at_time 1700 (join "b" "r1");
   at_time 1800 (select "a" "sport");
   at_time 1900 (select "b" "tank")].

Definition two_players : GameState := after lobby.

(** A damage report with the number [raw] as its damage. *)
Definition hit (raw : Q) (target kind : string) : DamageData :=
  {| damage := Some (JS.lit raw); targetPlayerId := target;
     collisionType := Some kind |}.

(** a rams b head-on: 100 raw points, 76 after the multipliers. *)
Definition wounded : GameState :=
  after (lobby ++
         [at_time 20000 (PlayerDamaged "a" (Some (hit (100 # 1) "b" "head-on")))]).

(** A tick after forty seconds drops the first powerup of r1. *)
Definition with_powerup : GameState :=
  after (lobby ++
         [at_time 20000
            (PlayerDamaged "a" (Some (hit (100 # 1) "b" "head-on")));
          at_time 40000 Tick]).

(** One connected player who has not joined a room. *)
Definition roomless : GameState := after [at_time 1000 (Connection "a")].

(** A single player in the default room. *)
Definition alone_in_default : list (Z * Random * Event) :=
  [at_time 1000 (Connection "a");
   at_time 1500 (JoinRoom "a" (Some {| Data.roomId := None |}))].

(** A single player in r1 whose round has ended at the tick of 250 s. *)
Definition round_over : list (Z * Random * Event) :=
  [at_time 1000 (Connection "a");
   at_time 1500 (join "a" "r1");
   at_time 250000 Tick].

(** a destroys b with one hit; b waits for its respawn. *)
Definition b_destroyed : GameState :=
  after (lobby ++
         [at_time 20000
            (PlayerDamaged "a" (Some (hit (1000 # 1) "b" "headshot")))]).

(** A single player in r1 moves on to r2. *)
Definition moved_on : GameState :=
  after [at_time 1000 (Connection "a");
         at_time 1500 (join "a" "r1");
         at_time 2500 (join "a" "r2")].

(** The record of a connected player. *)
Definition player (sid : string) (st : GameState) : Player :=
  default (newPlayer sid rnd) (players st !! sid).

End Scenario.

(** * Further vocabulary: properties of the rest of the engine *)

(** No room has more members than [maxPlayersPerRoom]. *)
Definition rooms_within_capacity (st : GameState) : Prop :=
  map_Forall
    (fun (_ : string) members => (length members <= maxPlayersPerRoom)%nat)
    (rooms st).

(** Every player who joined a room is on the membership list of that room. *)
Definition joined_are_members (st : GameState) : Prop :=
  forall sid p r,
    players st !! sid = Some p -> room p = Some r ->
    sid ∈ membersOf st (Some r).

(** The membership lists once a player has left its current room, as
    [joinRoom] computes them before it pushes the player on the new list. *)
Definition roomsAfterLeave (sid : string) (player : Player)
  (rs : gmap string (list string)) : gmap string (list string) :=
  match JS.truthy (room player) with
  | Some cur =>
      match rs !! cur with
      | Some currentRoom => <[cur := JS.remove_first sid currentRoom]> rs
      | None => rs
      end
  | None => rs
  end.

(** A leaderboard entry against a later one: neither count of events has
    gone down, and the damage dealt has not become negative. *)
Definition stats_le (s s' : Stats) : Prop :=
  kills s <= kills s' /\ deaths s <= deaths s' /\
  (JS.negative (damageDealt s) = false ->
   JS.negative (damageDealt s') = false).

(** A leaderboard against a later one: every entry is still there, with
    counters that have not gone down. *)
Definition scores_le (m m' : gmap string Stats) : Prop :=
  forall sid s, m !! sid = Some s ->
                exists s', m' !! sid = Some s' /\ stats_le s s'.

(** A round state against a later one: once out of the [waiting] phase it
    stays out of it, and its leaderboard has only grown. *)
Definition room_progress (rs rs' : RoomState) : Prop :=
  (phase rs ≠ waiting -> phase rs' ≠ waiting) /\
  scores_le (leaderboard rs) (leaderboard rs').

Definition progress (st st' : GameState) : Prop :=
  forall k, room_progress (theRoomState k st) (theRoomState k st').

(** Every room with a member on its list has left the [waiting] phase. *)
Definition populated_rooms_started (st : GameState) : Prop :=
  forall r members,
    rooms st !! r = Some members -> members ≠ [] ->
    phase (theRoomState (Some r) st) ≠ waiting.

(** The emissions that announce a waiting phase. *)
Definition isWaitingAnnounce (e : Emit) : bool :=
  match e.2 with
  | Out.waitingPhaseStarted _ => true
  | _ => false
  end.

(** ** Longer runs *)

Module Replay.

(** The state and the emissions a run from [st] ends with. *)
Definition state_after (evs : list (Z * Random * Event)) (st : GameState)
  : GameState :=
  match run evs st with
  | Done p => p.1
  | Uncaught => st
  end.

Definition emitted (evs : list (Z * Random * Event)) (st : GameState)
  : list Emit :=
  match run evs st with
  | Done p => p.2
  | Uncaught => []
  end.

(** The round of r1 ends at the tick of 250 s, and the one-shot scheduled
    by [endRound] starts the next round twenty seconds later. *)
Definition into_next_round : list (Z * Random * Event) :=
  [Scenario.at_time 250000 Tick;
   Scenario.at_time 270000 (RestartTimer 270000 "r1")].

(** The draws of a tick that drops a shield. *)
Definition rnd_shield : Random :=
  {| spawnPosition := fun _ => origin;
     dropType := fun _ => pw_shield;
     dropId := fun _ => "powerup_7hq2m5c8d_40000";
     dropPosition := fun _ => origin |}.

(** The tick of 40 s drops a shield into r1. *)
Definition with_shield : GameState :=
  state_after [(40000, rnd_shield, Tick)] Scenario.wounded.

End Replay.

(** The record [startRound] leaves for a member of the room: full health
    for its vehicle, a fresh spawn point, and invulnerability for the
    longer of the spawn window and the entry descent. *)
Definition resetForRound (now : Z) (rnd : Random) (playerId : string)
  (player : Player) : Player :=
  set_invulnerableUntil (now + Z.max spawnInvulnerableMs entryDescentMs)
    (set_position (spawnPosition rnd playerId)
       (set_health (JS.int (maxHealth (vehicle player))) player)).

(** ** Leaderboard order *)

(** The comparator of the three leaderboard sorts, in [endRound], in the
    round-end snapshot of [joinRoom] and in [requestStandings]. *)
Definition compareStandings (a b : Stats) : JS.number :=
  if decide (kills b ≠ kills a) then JS.int (kills b - kills a)
  else if JS.strict_ne (damageDealt b) (damageDealt a)
       then JS.sub (damageDealt b) (damageDealt a)
       else JS.int (deaths a - deaths b).

(** The comparator's verdict as [sort] reads it: [a] need not follow [b]
    when the result is not above 0, a result that is NaN counting as 0. *)
Definition notAfter (v : JS.number) : bool :=
  match v with
  | JS.NaN => true
  | _ => JS.le v (JS.int 0)
  end.

(** [Array.prototype.sort] with that comparator: a stable sort, here by
    insertion from the right, an entry going before the first entry it
    does not have to follow.  The order a stable sort produces is
    determined as long as the comparator is consistent; with a damage
    dealt that is NaN it is not, and the result is left to the engine. *)
Fixpoint insertStanding (e : string * Stats) (l : list (string * Stats))
  : list (string * Stats) :=
  match l with
  | [] => [e]
  | x :: l' =>
      if notAfter (compareStandings e.2 x.2) then e :: x :: l'
      else x :: insertStanding e l'
  end.

Definition sortStandings (entries : list (string * Stats))
  : list (string * Stats) :=
  foldr insertStanding [] entries.

(** [sorted.reduce((sum, player) => sum + player.kills, 0)] *)
Definition totalKills (entries : list (string * Stats)) : Z :=
  foldl (fun sum player => sum + kills player.2) 0 entries.

(** The ranking the comment of the sorts asks for: more kills first, then
    more damage dealt, then fewer deaths. *)
Definition ranksNoLower (a b : Stats) : Prop :=
  kills a > kills b \/
  (kills a = kills b /\ JS.lt (damageDealt b) (damageDealt a) = true) \/
  (kills a = kills b /\ damageDealt a = damageDealt b /\ deaths a <= deaths b).

(** A damage dealt that sums whole numbers of points: an integer, or
    infinite once the sum has left the range of the finite values. *)
Definition counted (x : JS.number) : Prop :=
  x = JS.PosInf \/ exists n, x = JS.int n.

(** ** Random positions *)

(** The spawn points of [getRandomSpawnPosition]. *)
Definition spawnPoints : list Position :=
  [ {| pos_x := (-80 # 1)%Q; pos_y := (1 # 1)%Q; pos_z := (-60 # 1)%Q |};
    {| pos_x := (80 # 1)%Q; pos_y := (1 # 1)%Q; pos_z := (-60 # 1)%Q |};
    {| pos_x := (-80 # 1)%Q; pos_y := (1 # 1)%Q; pos_z := (60 # 1)%Q |};
    {| pos_x := (80 # 1)%Q; pos_y := (1 # 1)%Q; pos_z := (60 # 1)%Q |};
    {| pos_x := (0 # 1)%Q; pos_y := (1 # 1)%Q; pos_z := (-90 # 1)%Q |};
    {| pos_x := (0 # 1)%Q; pos_y := (1 # 1)%Q; pos_z := (90 # 1)%Q |};
    {| pos_x := (-110 # 1)%Q; pos_y := (1 # 1)%Q; pos_z := (0 # 1)%Q |};
    {| pos_x := (110 # 1)%Q; pos_y := (1 # 1)%Q; pos_z := (0 # 1)%Q |} ].

(** [getRandomSpawnPosition()], given the three results of [Math.random()]
    it draws, in the order it draws them.  Reading [x] of a spawn point
    that is not in the array would throw. *)
Definition getRandomSpawnPosition (u0 u1 u2 : Q) : option Position :=
  let variation := (5 # 1)%Q in
  match
    spawnPoints
      !! Z.to_nat
           (Qfloor (Qmult u0 (inject_Z (Z.of_nat (length spawnPoints)))))
  with
  | Some spawnPoint =>
      Some {| pos_x :=
                Qplus (pos_x spawnPoint)
                  (Qminus (Qmult (Qmult u1 variation) (2 # 1)) variation);
              pos_y := pos_y spawnPoint;
              pos_z :=
                Qplus (pos_z spawnPoint)
                  (Qminus (Qmult (Qmult u2 variation) (2 # 1)) variation) |}
  | None => None
  end.

(** [getRandomPowerupDropPosition()], given its two random draws. *)
Definition getRandomPowerupDropPosition (u0 u1 : Q) : Position :=
  let arenaSize_x := (160 # 1)%Q in
  let arenaSize_z := (120 # 1)%Q in
  let margin := (20 # 1)%Q in
  {| pos_x :=
       Qmult (Qminus u0 (1 # 2))
         (Qminus arenaSize_x (Qmult margin (2 # 1)));
     pos_y := 25 # 1;
     pos_z :=
       Qmult (Qminus u1 (1 # 2))
         (Qminus arenaSize_z (Qmult margin (2 # 1))) |}.

(** ** What a tick may do to a record and to the other rooms *)

(** A record after a tick at [now], against the record before it: same
    vehicle and room, and either untouched or put back at full health with
    at least three seconds of invulnerability. *)
Definition refreshed (now : Z) (p p' : Player) : Prop :=
  vehicle p' = vehicle p /\ room p' = room p /\
  (p' = p \/
   (health p' = JS.int (maxHealth (vehicle p)) /\
    now + 3000 <= invulnerableUntil p')).

(** The state after a piece of the tick that works on the round state
    stored under [k0]: every record is still there, refreshed or
    untouched, no pending one-shot is lost, and the round states under the
    other keys are as they were. *)
Definition ticked (now : Z) (k0 : option string) (st st' : GameState) : Prop :=
  (forall pid p, players st !! pid = Some p ->
                 exists p', players st' !! pid = Some p' /\ refreshed now p p') /\
  (forall t, t ∈ timers st -> t ∈ timers st') /\
  (forall k, k ≠ k0 -> gameStates st' !! k = gameStates st !! k).

(** The state after the ticks of rooms other than [r]. *)
Definition ticked_elsewhere (now : Z) (r : string) (st st' : GameState)
  : Prop :=
  (forall pid p, players st !! pid = Some p ->
                 exists p', players st' !! pid = Some p' /\ refreshed now p p') /\
  (forall t, t ∈ timers st -> t ∈ timers st') /\
  gameStates st' !! Some r = gameStates st !! Some r /\
  rooms st' = rooms st.

(** The record [respawnPlayer] leaves for a player it respawns. *)
Definition respawnRecord (now : Z) (rnd : Random) (playerId : string)
  (player : Player) : Player :=
  set_invulnerableUntil (now + Z.max spawnInvulnerableMs respawnDescentMs)
    (set_position (spawnPosition rnd playerId)
       (set_health (JS.int (maxHealth (vehicle player))) player)).

(** A round state after the powerup bookkeeping of a tick: only the
    powerups and the time of the last drop may differ. *)
Definition powerups_only (rs rs' : RoomState) : Prop :=
  phase rs' = phase rs /\
  roundStartTime rs' = roundStartTime rs /\
  roundEndTime rs' = roundEndTime rs /\
  leaderboard rs' = leaderboard rs /\
  activePlayers rs' = activePlayers rs /\
  respawningPlayers rs' = respawningPlayers rs.

(** The test of the clean-up loop of [managePowerupDrops]. *)
Definition expiredAt (now : Z) (pw : Powerup) : Prop :=
  now > despawnTime pw \/ collected pw = true.

(** ** Protection windows over a run *)

(** A record after a callback at [now], against the record before it: its
    invulnerability is the one it had or lasts at least two more seconds,
    and its shield is the one it had or lasts ten more seconds. *)
Definition protects (now : Z) (p p' : Player) : Prop :=
  (invulnerableUntil p' = invulnerableUntil p \/
   now + 2000 <= invulnerableUntil p') /\
  (shieldUntil p' = shieldUntil p \/ shieldUntil p' = Some (now + 10000)).

(** The record of [sid] after a callback, if there is one, comes from the
    record the player had before, and the two are related by [R]. *)
Definition traced (R : Player -> Player -> Prop) (sid : string)
  (st st' : GameState) : Prop :=
  forall p', players st' !! sid = Some p' ->
             exists p, players st !! sid = Some p /\ R p p'.

(** A health that is a number is still one. *)
Definition stays_number (p p' : Player) : Prop :=
  health p ≠ JS.NaN -> health p' ≠ JS.NaN.

(** The damage of the event, if it carries one, is a number. *)
Definition numeric (ev : Event) : Prop :=
  match ev with
  | PlayerDamaged _ (Some data) => damage data ≠ Some JS.NaN
  | _ => True
  end.

(** The events of a run come after [now0] and none of them is a new
    connection under the socket id [sid]. *)
Definition follows (now0 : Z) (sid : string)
  (evs : list (Z * Random * Event)) : Prop :=
  Forall (fun e : Z * Random * Event =>
            now0 <= e.1.1 /\ e.2 ≠ Connection sid) evs.

(** * Properties *)

(** ** Basic facts about room state access *)

Lemma getRoomGameState_fst k st :
  (getRoomGameState k st).1 = theRoomState k st.
Proof.
  unfold getRoomGameState, theRoomState.
  destruct (gameStates st !! k); reflexivity.
Qed.

Lemma getRoomGameState_snd k st :
  ((getRoomGameState k st).2 = st ∧ is_Some (gameStates st !! k)) ∨
  ((getRoomGameState k st).2 = initializeRoomGameState k st ∧
   gameStates st !! k = None).
Proof.
  unfold getRoomGameState.
  destruct (gameStates st !! k) eqn:E; [left | right]; simpl; eauto.
Qed.

Lemma getRoomGameState_stored k st :
  gameStates (getRoomGameState k st).2 !! k = Some (getRoomGameState k st).1.
Proof.
  unfold getRoomGameState.
  destruct (gameStates st !! k) eqn:E; simpl; [done |].
  apply lookup_insert_eq.
Qed.

Lemma getRoomGameState_players k st :
  players (getRoomGameState k st).2 = players st.
Proof. unfold getRoomGameState. destruct (gameStates st !! k); done. Qed.

Lemma getRoomGameState_rooms k st :
  rooms (getRoomGameState k st).2 = rooms st.
Proof. unfold getRoomGameState. destruct (gameStates st !! k); done. Qed.

Lemma getRoomGameState_timers k st :
  timers (getRoomGameState k st).2 = timers st.
Proof. unfold getRoomGameState. destruct (gameStates st !! k); done. Qed.

Lemma getRoomGameState_other k k' st :
  k ≠ k' -> gameStates (getRoomGameState k st).2 !! k' = gameStates st !! k'.
Proof.
  intros Hne. unfold getRoomGameState.
  destruct (gameStates st !! k); simpl; [done |].
  by rewrite lookup_insert_ne.
Qed.

(** Creating the record of a room on first use does not change what any
    later [getRoomGameState] returns. *)
Lemma theRoomState_initialize k k' st :
  gameStates st !! k = None ->
  theRoomState k' (initializeRoomGameState k st) = theRoomState k' st.
Proof.
  intros Hk. unfold theRoomState, initializeRoomGameState. simpl.
  destruct (decide (k = k')) as [<- | Hne].
  - by rewrite lookup_insert_eq, Hk.
  - by rewrite lookup_insert_ne.
Qed.

Lemma theRoomState_get k k' st :
  theRoomState k' (getRoomGameState k st).2 = theRoomState k' st.
Proof.
  destruct (getRoomGameState_snd k st) as [[-> _] | [-> Hk]]; [done |].
  by apply theRoomState_initialize.
Qed.

Lemma theRoomState_put k rs st : theRoomState k (putRoomState k rs st) = rs.
Proof. unfold theRoomState, putRoomState. simpl. by rewrite lookup_insert_eq. Qed.

Lemma theRoomState_put_ne k k' rs st :
  k ≠ k' -> theRoomState k' (putRoomState k rs st) = theRoomState k' st.
Proof.
  intros. unfold theRoomState, putRoomState. simpl. by rewrite lookup_insert_ne.
Qed.

(** ** Numbers *)

Lemma Qred_inject_Z (z : Z) : Qred (inject_Z z) = inject_Z z.
Proof.
  pose proof (gcd_Qred (inject_Z z)) as Hg.
  pose proof (Qred_correct (inject_Z z)) as He.
  destruct (Qred (inject_Z z)) as [p q]. unfold Qeq in He. simpl in *.
  assert (Hq : Z.pos q = 1).
  { apply Z.divide_1_r_nonneg; [lia |]. rewrite <- Hg.
    apply Z.gcd_greatest; [exists z; lia | apply Z.divide_refl]. }
  unfold inject_Z. f_equal; lia.
Qed.

Lemma round64_Qeq (q q' : Q) : Qeq q q' -> JS.round64 q = JS.round64 q'.
Proof. intros H. unfold JS.round64. by rewrite (Qred_complete _ _ H). Qed.

Lemma pow2_pos (k : Z) : Qlt (0 # 1) (JS.pow2 k).
Proof.
  unfold JS.pow2. destruct (0 <=? k) eqn:E.
  - apply Z.leb_le in E. unfold Qlt. simpl.
    pose proof (Z.pow_pos_nonneg 2 k). lia.
  - reflexivity.
Qed.

Lemma roundEven_nonneg (x : Q) : Qle (0 # 1) x -> 0 <= JS.roundEven x.
Proof.
  intros H. unfold JS.roundEven.
  assert (0 <= Qfloor x).
  { change 0 with (Qfloor (0 # 1)). by apply Qfloor_resp_le. }
  destruct (Qcompare _ _); [destruct (Z.even _) |..]; lia.
Qed.

Lemma round64_pos_nonneg (a r : Q) :
  Qle (0 # 1) a -> JS.round64_pos a = Some r -> Qle (0 # 1) r.
Proof.
  intros Ha. unfold JS.round64_pos.
  destruct (Qeq_bool a (0 # 1)); [intros [= <-]; apply Qle_refl |].
  destruct (Qle_bool _ _); [done |]. intros [= <-].
  rewrite Qred_correct.
  apply Qmult_le_0_compat; [| apply Qlt_le_weak, pow2_pos].
  change (0 # 1)%Q with (inject_Z 0). rewrite <- Zle_Qle.
  apply roundEven_nonneg.
  apply Qle_shift_div_l; [apply pow2_pos |].
  by rewrite Qmult_0_l.
Qed.

(** The binary64 value nearest to a rational has its sign. *)
Lemma round64_nonneg (q : Q) :
  Qle (0 # 1) q ->
  JS.round64 q = JS.PosInf \/ exists r, JS.round64 q = JS.Num r /\ Qle (0 # 1) r.
Proof.
  intros H. unfold JS.round64.
  assert (H' : Qle (0 # 1) (Qred q)) by by rewrite Qred_correct.
  pose proof H' as Hb. apply Qle_bool_iff in Hb. rewrite Hb.
  destruct (JS.round64_pos (Qred q)) as [r |] eqn:E; [right | by left].
  exists r. split; [done |]. by eapply round64_pos_nonneg.
Qed.

Lemma round64_nonpos (q : Q) :
  Qle q (0 # 1) ->
  JS.round64 q = JS.NegInf \/ exists r, JS.round64 q = JS.Num r /\ Qle r (0 # 1).
Proof.
  intros H. unfold JS.round64.
  destruct (Qle_bool (0 # 1) (Qred q)) eqn:Hb.
  - apply Qle_bool_iff in Hb. rewrite Qred_correct in Hb.
    assert (Hz : Qeq q (0 # 1)) by by apply Qle_antisym.
    right. exists (0 # 1)%Q. split; [| apply Qle_refl].
    assert (Hr : Qred q = (0 # 1)%Q).
    { rewrite (Qred_complete _ _ Hz). reflexivity. }
    rewrite Hr. reflexivity.
  - destruct (JS.round64_pos (Qopp (Qred q))) as [r |] eqn:E; [right | by left].
    exists (Qred (Qopp r)). split; [done |].
    rewrite Qred_correct.
    assert (Hr : Qle (0 # 1) r).
    { eapply round64_pos_nonneg; [| exact E].
      rewrite Qred_correct. lra. }
    lra.
Qed.

(** The integers a health passes through are binary64 values. *)
Lemma round64_upto (n : nat) :
  (n <= 200)%nat ->
  JS.round64 (inject_Z (Z.of_nat n)) = JS.int (Z.of_nat n).
Proof.
  intros H.
  do 201 (destruct n as [| n]; [vm_compute; reflexivity |]).
  lia.
Qed.

Lemma round64_small (q : Q) (z : Z) :
  Qeq q (inject_Z z) -> 0 <= z <= 200 -> JS.round64 q = JS.int z.
Proof.
  intros Hq Hz. rewrite (round64_Qeq _ _ Hq).
  rewrite <- (Z2Nat.id z) by lia. apply round64_upto. lia.
Qed.

Lemma lt_int (a b : Z) : JS.lt (JS.int a) (JS.int b) = bool_decide (a < b).
Proof.
  unfold JS.lt, JS.int.
  destruct (Qle_bool (inject_Z b) (inject_Z a)) eqn:E; simpl.
  - apply Qle_bool_iff in E. rewrite <- Zle_Qle in E.
    symmetry. apply bool_decide_eq_false. lia.
  - symmetry. apply bool_decide_eq_true.
    destruct (decide (a < b)) as [| Hn]; [done |].
    assert (Hle : Qle_bool (inject_Z b) (inject_Z a) = true).
    { apply Qle_bool_iff. rewrite <- Zle_Qle. lia. }
    congruence.
Qed.

Lemma le_int (a b : Z) : JS.le (JS.int a) (JS.int b) = bool_decide (a <= b).
Proof.
  change (JS.le (JS.int a) (JS.int b)) with (negb (JS.lt (JS.int b) (JS.int a))).
  rewrite lt_int.
  destruct (decide (a <= b)).
  - rewrite bool_decide_eq_false_2 by lia. symmetry. by apply bool_decide_eq_true.
  - rewrite bool_decide_eq_true_2 by lia. symmetry. by apply bool_decide_eq_false.
Qed.

Lemma Math_max_int (a b : Z) :
  JS.Math_max (JS.int a) (JS.int b) = JS.int (Z.max a b).
Proof.
  change (JS.Math_max (JS.int a) (JS.int b))
    with (if JS.lt (JS.int a) (JS.int b) then JS.int b else JS.int a).
  rewrite lt_int. case_bool_decide; f_equal; lia.
Qed.

Lemma Math_min_int (a b : Z) :
  JS.Math_min (JS.int a) (JS.int b) = JS.int (Z.min a b).
Proof.
  change (JS.Math_min (JS.int a) (JS.int b))
    with (if JS.lt (JS.int b) (JS.int a) then JS.int b else JS.int a).
  rewrite lt_int. case_bool_decide; f_equal; lia.
Qed.

Lemma Math_max_0_round (x : JS.number) :
  points (JS.Math_max (JS.int 0) (JS.Math_round x)).
Proof.
  destruct x as [| | | q].
  - by left.
  - right; by left.
  - right; right. exists 0. done.
  - right; right.
    change (JS.Math_round (JS.Num q)) with (JS.int (Qfloor (Qplus q (1 # 2)))).
    rewrite Math_max_int. eexists. split; [| reflexivity]. lia.
Qed.

(** The clamp of the monster damage does nothing for a vehicle whose
    maximum is not negative. *)
Lemma monster_damage_nonneg (m : Z) :
  0 <= m ->
  JS.Math_max (JS.int 0)
    (JS.Math_round (JS.mul (JS.int m) (JS.lit (20 # 100)%Q)))
  = JS.Math_round (JS.mul (JS.int m) (JS.lit (20 # 100)%Q)).
Proof.
  intros Hm.
  assert (Hl : JS.lit (20 # 100)%Q
               = JS.Num (3602879701896397 # 18014398509481984)%Q)
    by (vm_compute; reflexivity).
  rewrite Hl.
  change (JS.mul (JS.int m) (JS.Num (3602879701896397 # 18014398509481984)%Q))
    with (JS.round64
            (Qmult (inject_Z m) (3602879701896397 # 18014398509481984)%Q)).
  destruct (round64_nonneg
              (Qmult (inject_Z m) (3602879701896397 # 18014398509481984)%Q))
    as [-> | (r & -> & Hr)].
  - apply Qmult_le_0_compat; [| discriminate].
    change (0 # 1)%Q with (inject_Z 0). rewrite <- Zle_Qle. exact Hm.
  - reflexivity.
  - change (JS.Math_round (JS.Num r))
      with (JS.int (Qfloor (Qplus r (1 # 2)%Q))).
    rewrite Math_max_int. f_equal. apply Z.max_r.
    change 0 with (Qfloor (0 # 1)%Q). apply Qfloor_resp_le. lra.
Qed.

(** [Math.max(0, h - f)] for a health [h] within its bounds and a damage
    [f]: within the same bounds, or NaN when the damage is. *)
Lemma damaged_within (m : Z) (h f : JS.number) :
  m <= 200 -> within m h -> points f ->
  let h' := JS.Math_max (JS.int 0) (JS.sub h f) in
  (f = JS.NaN /\ h' = JS.NaN) \/ (f <> JS.NaN /\ within m h').
Proof.
  intros Hm (z & -> & Hz) [-> | [-> | (n & Hn & ->)]]; cbv zeta.
  - left. split; reflexivity.
  - right. split; [done |]. exists 0. split; [reflexivity | lia].
  - right. split; [done |].
    change (JS.sub (JS.int z) (JS.int n))
      with (JS.round64 (Qplus (inject_Z z) (Qred (Qopp (inject_Z n))))).
    destruct (decide (n <= z)) as [Hle | Hgt].
    + rewrite (round64_small _ (z - n)); [| | lia].
      * rewrite Math_max_int. exists (Z.max 0 (z - n)). split; [done | lia].
      * rewrite Qred_correct, <- inject_Z_opp, <- inject_Z_plus.
        apply inject_Z_injective. lia.
    + destruct (round64_nonpos
                  (Qplus (inject_Z z) (Qred (Qopp (inject_Z n)))))
        as [-> | (r & -> & Hr)].
      * rewrite Qred_correct, <- inject_Z_opp, <- inject_Z_plus.
        change (0 # 1)%Q with (inject_Z 0). rewrite <- Zle_Qle. lia.
      * exists 0. split; [done | lia].
      * exists 0. split; [| lia].
        unfold JS.Math_max, JS.int, JS.lt.
        apply Qle_bool_iff in Hr.
        change (inject_Z 0) with (0 # 1)%Q. by rewrite Hr.
Qed.

(** A NaN health stays NaN under a damage and under a heal. *)
Lemma damaged_NaN (f : JS.number) :
  JS.Math_max (JS.int 0) (JS.sub JS.NaN f) = JS.NaN.
Proof. by destruct f. Qed.

(** [Math.min(m, h + 40)] for a health within the bounds of [m]. *)
Lemma healed_within (m : Z) (h : JS.number) :
  m <= 130 -> within m h ->
  within m (JS.Math_min (JS.int m) (JS.add h (JS.int 40))).
Proof.
  intros Hm (z & -> & Hz).
  change (JS.add (JS.int z) (JS.int 40))
    with (JS.round64 (Qplus (inject_Z z) (inject_Z 40))).
  rewrite (round64_small _ (z + 40)); [| | lia].
  - rewrite Math_min_int. exists (Z.min m (z + 40)). split; [done | lia].
  - by rewrite inject_Z_plus.
Qed.

(** [Math.min(h, m)] for a health within the bounds of another vehicle. *)
Lemma capped_within (m m' : Z) (h : JS.number) :
  0 <= m' -> within m h -> within m' (JS.Math_min h (JS.int m')).
Proof.
  intros Hm (z & -> & Hz). rewrite Math_min_int.
  exists (Z.min z m'). split; [done | lia].
Qed.

Lemma damaged_ok (m : Z) (h f : JS.number) :
  m <= 200 -> points f -> health_ok m h ->
  health_ok m (JS.Math_max (JS.int 0) (JS.sub h f)).
Proof.
  intros Hm Hf [-> | Hh]; [left; apply damaged_NaN |].
  destruct (damaged_within m h f Hm Hh Hf) as [[_ H] | [_ H]];
    [by left | by right].
Qed.

Lemma healed_ok (m : Z) (h : JS.number) :
  m <= 130 -> health_ok m h ->
  health_ok m (JS.Math_min (JS.int m) (JS.add h (JS.int 40))).
Proof.
  intros Hm [-> | Hh]; [by left | right; by apply healed_within].
Qed.

Lemma capped_ok (m m' : Z) (h : JS.number) :
  0 <= m' -> health_ok m h -> health_ok m' (JS.Math_min h (JS.int m')).
Proof.
  intros Hm [-> | Hh]; [by left | right; by eapply capped_within].
Qed.

Lemma presets_bounds v : 0 < maxHealth (presets v) <= 130.
Proof. destruct v; simpl; lia. Qed.

Lemma full_health_ok v :
  health_ok (maxHealth (presets v)) (JS.int (maxHealth (presets v))).
Proof.
  right. eexists. split; [reflexivity |].
  pose proof (presets_bounds v). lia.
Qed.

(** ** Acceptance and rejection of a damage event *)

Lemma invulnerableAt_false now p :
  invulnerableUntil p <= now -> invulnerableAt now p = false.
Proof.
  intros H. unfold invulnerableAt. apply bool_decide_eq_false. lia.
Qed.

Lemma invulnerableAt_true now p :
  0 <= now -> now < invulnerableUntil p -> invulnerableAt now p = true.
Proof.
  intros H0 H. unfold invulnerableAt. apply bool_decide_eq_true. lia.
Qed.

Lemma shieldedAt_false now p :
  (forall s, shieldUntil p = Some s -> s <= now) -> shieldedAt now p = false.
Proof.
  intros H. unfold shieldedAt. destruct (shieldUntil p) as [s |]; [| done].
  apply bool_decide_eq_false. specialize (H s eq_refl). lia.
Qed.

Lemma shieldedAt_true now p s :
  0 <= now -> shieldUntil p = Some s -> now < s -> shieldedAt now p = true.
Proof.
  intros H0 Hs H. unfold shieldedAt. rewrite Hs.
  apply bool_decide_eq_true. lia.
Qed.

(** Every damage event is either rejected or accepted, never both. *)
Lemma accepted_or_rejected sid data now st :
  damage_rejected sid data now st \/
  exists a t raw, damage_accepted sid data now st a t raw.
Proof.
  unfold damage_rejected.
  destruct (players st !! sid) as [a |] eqn:Ea; [| by left].
  destruct (players st !! targetPlayerId data) as [t |] eqn:Et; [| by left].
  destruct (damage data) as [raw |] eqn:Ed; [| by left; left].
  destruct (JS.lt raw (JS.int 0)) eqn:Hneg; [by left; left |].
  destruct (decide (room a = room t)) as [Hr | Hr]; [| by left; right; left].
  destruct (decide (phase (theRoomState (room a) st) = playing)) as [Hp | Hp];
    [| by left; right; right; left].
  destruct (decide (now < invulnerableUntil a)) as [Hia | Hia];
    [by left; right; right; right; left |].
  destruct (decide (now < invulnerableUntil t)) as [Hit | Hit];
    [by left; right; right; right; right; left |].
  destruct (shieldUntil t) as [s |] eqn:Es.
  - destruct (decide (now < s)) as [Hs | Hs].
    + left. do 5 right. eauto.
    + right. exists a, t, raw. constructor; try done; try lia.
      intros s' Heq. rewrite Es in Heq. injection Heq as <-. lia.
  - right. exists a, t, raw. constructor; try done; try lia.
    intros s' Heq. rewrite Es in Heq. discriminate Heq.
Qed.

Lemma accepted_not_rejected sid data now st a t raw :
  damage_accepted sid data now st a t raw -> ~ damage_rejected sid data now st.
Proof.
  intros [Ha Ht Hd Hn Hr Hp Hia Hit Hs]. unfold damage_rejected.
  rewrite Ha, Ht, Hd.
  intros [Hq | [Hne | [Hph | [H1 | [H2 | (s & Hsome & Hlt)]]]]].
  - congruence.
  - contradiction.
  - contradiction.
  - lia.
  - lia.
  - specialize (Hs s Hsome). lia.
Qed.

(** The handler on an accepted event, as one equation. *)
Lemma on_playerDamaged_accepted sid data now st a t raw :
  damage_accepted sid data now st a t raw ->
  let rs := theRoomState (room a) st in
  let st1 := (getRoomGameState (room a) st).2 in
  let finalDamage := finalDamageOf data raw a t in
  let newHealth := JS.Math_max (JS.int 0) (JS.sub (health t) finalDamage) in
  let st2 := putPlayer (targetPlayerId data) (set_health newHealth t) st1 in
  let rs1 :=
    if isMonster data then rs
    else set_leaderboard (alter (addDamageDealt finalDamage) sid (leaderboard rs))
           rs in
  let damaged :=
    (io_to (room a),
     Out.playerDamaged (targetPlayerId data) newHealth finalDamage
       (reportedType data) (if isMonster data then "monster" else sid)) in
  on_playerDamaged sid data now st =
    if decide (JS.le newHealth (JS.int 0) = true) then
      (putRoomState (room a)
         (set_respawningPlayers
            (<[targetPlayerId data := now + respawnDuration]>
               (respawningPlayers rs1))
            (set_activePlayers (activePlayers rs1 ∖ {[targetPlayerId data]})
               (set_leaderboard
                  (alter incDeaths (targetPlayerId data)
                     (alter incKills sid (leaderboard rs1))) rs1))) st2,
       [damaged;
        (io_to (room a),
         Out.playerDestroyed (targetPlayerId data) (now + respawnDuration) sid)])
    else (putRoomState (room a) rs1 st2, [damaged]).
Proof.
  intros [Ha Ht Hd Hn Hr Hp Hia Hit Hs]. simpl.
  unfold on_playerDamaged. rewrite Ha, Ht, Hd.
  unfold JS.negative. rewrite Hn, Hr, bool_decide_eq_true_2 by done. simpl.
  rewrite <- Hr.
  rewrite (surjective_pairing (getRoomGameState (room a) st)).
  rewrite getRoomGameState_fst, Hp, bool_decide_eq_true_2 by done. simpl.
  rewrite (invulnerableAt_false _ _ Hia), (invulnerableAt_false _ _ Hit).
  rewrite (shieldedAt_false _ _ Hs).
  reflexivity.
Qed.

Lemma players_putRoomState k rs st : players (putRoomState k rs st) = players st.
Proof. reflexivity. Qed.

Lemma on_playerDamaged_accepted_players sid data now st a t raw :
  damage_accepted sid data now st a t raw ->
  players (on_playerDamaged sid data now st).1 =
  <[targetPlayerId data :=
      set_health
        (JS.Math_max (JS.int 0) (JS.sub (health t) (finalDamageOf data raw a t)))
        t]>
    (players st).
Proof.
  intros Hacc. rewrite (on_playerDamaged_accepted _ _ _ _ _ _ _ Hacc).
  case_decide; simpl; by rewrite getRoomGameState_players.
Qed.

Lemma on_playerDamaged_accepted_room sid data now st a t raw :
  damage_accepted sid data now st a t raw ->
  let rs := theRoomState (room a) st in
  let finalDamage := finalDamageOf data raw a t in
  let rs1 :=
    if isMonster data then rs
    else set_leaderboard (alter (addDamageDealt finalDamage) sid (leaderboard rs))
           rs in
  theRoomState (room a) (on_playerDamaged sid data now st).1 =
    if decide (JS.le (JS.Math_max (JS.int 0) (JS.sub (health t) finalDamage))
                 (JS.int 0) = true) then
      set_respawningPlayers
        (<[targetPlayerId data := now + respawnDuration]> (respawningPlayers rs1))
        (set_activePlayers (activePlayers rs1 ∖ {[targetPlayerId data]})
           (set_leaderboard
              (alter incDeaths (targetPlayerId data)
                 (alter incKills sid (leaderboard rs1))) rs1))
    else rs1.
Proof.
  intros Hacc. simpl. rewrite (on_playerDamaged_accepted _ _ _ _ _ _ _ Hacc).
  case_decide; simpl; by rewrite theRoomState_put.
Qed.

(** On a rejected event the handler returns at one of its guards: before
    the round state of the attacker's room is fetched, or right after. *)
Lemma on_playerDamaged_rejected sid data now st :
  0 <= now ->
  damage_rejected sid data now st ->
  on_playerDamaged sid data now st = (st, []) \/
  exists a t,
    players st !! sid = Some a /\
    players st !! targetPlayerId data = Some t /\
    room a = room t /\
    on_playerDamaged sid data now st = ((getRoomGameState (room a) st).2, []).
Proof.
  intros Hnow Hrej. unfold damage_rejected in Hrej. unfold on_playerDamaged.
  destruct (players st !! sid) as [a |]; [| by left].
  destruct (players st !! targetPlayerId data) as [t |]; [| by left].
  destruct (damage data) as [raw |]; [| by left].
  destruct (JS.negative raw) eqn:En; [by left |].
  destruct (bool_decide (room a = room t)) eqn:Er; simpl; [| by left].
  right. exists a, t. split; [done |]. split; [done |].
  split; [by apply bool_decide_eq_true in Er |].
  rewrite (surjective_pairing (getRoomGameState (room a) st)).
  rewrite getRoomGameState_fst.
  destruct (bool_decide (phase (theRoomState (room a) st) = playing)) eqn:Ep;
    simpl; [| done].
  destruct (invulnerableAt now a) eqn:Ea; [done |].
  destruct (invulnerableAt now t) eqn:Et; [done |].
  destruct (shieldedAt now t) eqn:Es; [done |].
  exfalso.
  destruct Hrej as [Hq | [Hr | [Hp | [Hia | [Hit | (s & Hs & Hlt)]]]]].
  - unfold JS.negative in En. congruence.
  - apply bool_decide_eq_true in Er. contradiction.
  - apply bool_decide_eq_true in Ep. contradiction.
  - rewrite (invulnerableAt_true _ _ Hnow Hia) in Ea. discriminate.
  - rewrite (invulnerableAt_true _ _ Hnow Hit) in Et. discriminate.
  - rewrite (shieldedAt_true _ _ _ Hnow Hs Hlt) in Es. discriminate.
Qed.

(** ** Powerup spawning *)

Lemma sweepPowerup_no_drop roomId now l acc :
  existsb isPowerupDropped (foldl (sweepPowerup roomId now) acc l).2
  = existsb isPowerupDropped acc.2.
Proof.
  revert acc. induction l as [| e l IH]; intros acc; simpl; [done |].
  rewrite IH. unfold sweepPowerup. case_decide; simpl; [| done].
  rewrite existsb_app. simpl. by rewrite !orb_false_r.
Qed.

Lemma dropPowerup_emits roomId now rnd st :
  existsb isPowerupDropped (dropPowerup roomId now rnd st).2 = true <->
  2 <= Z.of_nat (size (activePlayers (theRoomState (Some roomId) st))).
Proof.
  unfold dropPowerup.
  rewrite (surjective_pairing (getRoomGameState (Some roomId) st)).
  rewrite getRoomGameState_fst.
  case_decide; simpl; split; intros; try done; lia.
Qed.

(** ** The frame of a callback: player registry and round-state keys *)

Lemma evolves_refl p : evolves p p.
Proof. by split. Qed.

Lemma evolves_trans p q r : evolves p q -> evolves q r -> evolves p r.
Proof. intros [H1 H2] [H3 H4]. split; [congruence | auto]. Qed.

Lemma evolves_same_vehicle p p' :
  room p' = room p -> vehicle p' = vehicle p ->
  (forall v, vehicle p = presets v ->
             health_ok (maxHealth (presets v)) (health p) ->
             health_ok (maxHealth (presets v)) (health p')) ->
  evolves p p'.
Proof.
  intros Hr Hv Hh. split; [done |].
  intros [[v Hpre] Hb]. split; rewrite Hv; [eauto |].
  rewrite Hpre in *. auto.
Qed.

Lemma map_evolve_refl ps : map_evolve ps ps.
Proof. intros sid p H. exists p. split; [done | apply evolves_refl]. Qed.

Lemma map_evolve_trans ps1 ps2 ps3 :
  map_evolve ps1 ps2 -> map_evolve ps2 ps3 -> map_evolve ps1 ps3.
Proof.
  intros H12 H23 sid p3 H3.
  destruct (H23 _ _ H3) as (p2 & H2 & E23).
  destruct (H12 _ _ H2) as (p1 & H1 & E12).
  exists p1. split; [done | by eapply evolves_trans].
Qed.

Lemma map_evolve_insert ps sid p p' :
  ps !! sid = Some p -> evolves p p' -> map_evolve ps (<[sid := p']> ps).
Proof.
  intros Hp He sid' q Hq.
  destruct (decide (sid = sid')) as [<- | Hne].
  - rewrite lookup_insert_eq in Hq. injection Hq as <-. eauto.
  - rewrite lookup_insert_ne in Hq by done.
    exists q. split; [done | apply evolves_refl].
Qed.

Lemma map_evolve_delete ps sid : map_evolve ps (delete sid ps).
Proof.
  intros sid' q Hq. apply lookup_delete_Some in Hq as [_ Hq].
  exists q. split; [done | apply evolves_refl].
Qed.

Lemma states_kept_refl st : states_kept st st.
Proof. by intros k H. Qed.

Lemma states_kept_trans st1 st2 st3 :
  states_kept st1 st2 -> states_kept st2 st3 -> states_kept st1 st3.
Proof. intros H12 H23 k H. auto. Qed.

Lemma frame_refl st : frame st st.
Proof. split; [apply map_evolve_refl | apply states_kept_refl]. Qed.

Lemma frame_trans st1 st2 st3 : frame st1 st2 -> frame st2 st3 -> frame st1 st3.
Proof.
  intros [H1 H2] [H3 H4].
  split; [by eapply map_evolve_trans | by eapply states_kept_trans].
Qed.

Lemma frame_getRoomGameState k st : frame st (getRoomGameState k st).2.
Proof.
  split.
  - rewrite getRoomGameState_players. apply map_evolve_refl.
  - intros k' Hk'.
    destruct (getRoomGameState_snd k st) as [[-> _] | [-> Hnone]]; [done |].
    unfold initializeRoomGameState. simpl.
    destruct (decide (k = k')) as [<- | Hne].
    + rewrite lookup_insert_eq. eauto.
    + by rewrite lookup_insert_ne.
Qed.

Lemma frame_putRoomState k rs st : frame st (putRoomState k rs st).
Proof.
  split; [apply map_evolve_refl |].
  intros k' Hk'. unfold putRoomState. simpl.
  destruct (decide (k = k')) as [<- | Hne].
  - rewrite lookup_insert_eq. eauto.
  - by rewrite lookup_insert_ne.
Qed.

Lemma frame_putPlayer sid p p' st :
  players st !! sid = Some p -> evolves p p' -> frame st (putPlayer sid p' st).
Proof.
  intros Hp He. split; [by eapply map_evolve_insert | by intros k H].
Qed.

Lemma frame_set_players ps st :
  map_evolve (players st) ps -> frame st (set_players ps st).
Proof. intros H. split; [exact H | by intros k Hk]. Qed.

Lemma frame_set_rooms v st : frame st (set_rooms v st).
Proof. split; [apply map_evolve_refl | by intros k Hk]. Qed.

Lemma frame_set_timers v st : frame st (set_timers v st).
Proof. split; [apply map_evolve_refl | by intros k Hk]. Qed.

(** A frame carries the invariant over. *)
Lemma frame_players_ok st st' : frame st st' -> players_ok st -> players_ok st'.
Proof.
  intros [He _] Hok sid p' Hp'.
  destruct (He _ _ Hp') as (p & Hp & _ & Hpres).
  apply Hpres. exact (Hok _ _ Hp).
Qed.

Lemma frame_joined st st' :
  frame st st' -> joined_rooms_have_state st -> joined_rooms_have_state st'.
Proof.
  intros [He Hk] Hj sid p' r Hp' Hr.
  destruct (He _ _ Hp') as (p & Hp & Hroom & _).
  apply Hk. apply (Hj sid p r Hp). congruence.
Qed.

Lemma frame_invariant st st' : frame st st' -> invariant st -> invariant st'.
Proof.
  intros Hf [H1 H2].
  split; [by eapply frame_players_ok | by eapply frame_joined].
Qed.

(** Sequencing keeps frames. *)
Lemma andThen_Done o f st' out :
  andThen o f = Done (st', out) ->
  exists st1 out1 out2,
    o = Done (st1, out1) /\ f st1 = Done (st', out2) /\ out = out1 ++ out2.
Proof.
  unfold andThen. destruct o as [[st1 out1] |]; [| done].
  destruct (f st1) as [[st2 out2] |] eqn:E; [| done].
  intros [= <- <-]. eauto 6.
Qed.

Lemma Done_fst (p : GameState * list Emit) st' out :
  Done p = Done (st', out) -> st' = p.1.
Proof. by intros [= ->]. Qed.

Lemma seqDone_frame st p f :
  frame st p.1 -> (forall st1, frame st1 (f st1).1) -> frame st (seqDone p f).1.
Proof.
  intros Hp Hf. unfold seqDone.
  specialize (Hf p.1). destruct (f p.1) as [st' out']. simpl in *.
  by eapply frame_trans.
Qed.

(** *** Round start, round end and respawn *)

Lemma resetMember_evolve now rnd playerId acc :
  map_evolve acc.1 (resetMember now rnd playerId acc).1.
Proof.
  unfold resetMember. destruct (acc.1 !! playerId) as [player |] eqn:E;
    simpl; [| apply map_evolve_refl].
  eapply map_evolve_insert; [exact E |].
  apply evolves_same_vehicle; simpl; [done | done |].
  intros v -> _. apply full_health_ok.
Qed.

Lemma resetMembers_evolve now rnd room0 acc :
  map_evolve acc.1
    (foldl (fun acc playerId => resetMember now rnd playerId acc) acc room0).1.
Proof.
  revert acc. induction room0 as [| playerId room0 IH]; intros acc; simpl.
  - apply map_evolve_refl.
  - eapply map_evolve_trans; [apply resetMember_evolve | apply IH].
Qed.

Lemma startRound_frame roomId now rnd st st' out :
  startRound roomId now rnd st = Done (st', out) -> frame st st'.
Proof.
  unfold startRound.
  rewrite (surjective_pairing (getRoomGameState (Some roomId) st)).
  destruct (rooms _ !! roomId) as [room0 |]; [| done].
  destruct (mapM _ _) as [roster |]; [| done].
  intros [= <- _].
  eapply frame_trans; [apply frame_getRoomGameState |].
  eapply frame_trans; [| apply frame_putRoomState].
  apply frame_set_players. apply resetMembers_evolve.
Qed.

Lemma endRound_frame roomId now st : frame st (endRound roomId now st).1.
Proof.
  unfold endRound.
  rewrite (surjective_pairing (getRoomGameState (Some roomId) st)). simpl.
  eapply frame_trans; [apply frame_getRoomGameState |].
  eapply frame_trans; [apply frame_putRoomState | apply frame_set_timers].
Qed.

Lemma respawnPlayer_frame roomId playerId now rnd st :
  frame st (respawnPlayer roomId playerId now rnd st).1.
Proof.
  unfold respawnPlayer.
  rewrite (surjective_pairing (getRoomGameState (Some roomId) st)).
  eapply frame_trans; [apply frame_getRoomGameState |].
  destruct (players _ !! playerId) as [player |] eqn:Ep;
    [| apply frame_refl].
  destruct (respawningPlayers _ !! playerId); [| apply frame_refl].
  simpl.
  eapply frame_trans; [| apply frame_putRoomState].
  eapply frame_putPlayer; [exact Ep |].
  apply evolves_same_vehicle; simpl; [done | done |].
  intros v -> _. apply full_health_ok.
Qed.

(** *** Powerups and the tick *)

Lemma dropPowerup_frame roomId now rnd st :
  frame st (dropPowerup roomId now rnd st).1.
Proof.
  unfold dropPowerup.
  rewrite (surjective_pairing (getRoomGameState (Some roomId) st)).
  eapply frame_trans; [apply frame_getRoomGameState |].
  case_decide; simpl; [apply frame_refl | apply frame_putRoomState].
Qed.

Lemma managePowerupDrops_frame roomId now rnd st :
  frame st (managePowerupDrops roomId now rnd st).1.
Proof.
  unfold managePowerupDrops.
  rewrite (surjective_pairing (getRoomGameState (Some roomId) st)).
  eapply frame_trans; [apply frame_getRoomGameState |].
  case_decide; simpl; [apply frame_refl |].
  eapply frame_trans; [| apply frame_putRoomState].
  case_decide; [apply dropPowerup_frame | apply frame_refl].
Qed.

Lemma respawnDue_frames roomId now rnd l acc :
  frame acc.1 (foldl (respawnDue roomId now rnd) acc l).1.
Proof.
  revert acc. induction l as [| e l IH]; intros acc; simpl.
  - apply frame_refl.
  - eapply frame_trans; [| apply IH].
    unfold respawnDue. case_decide; [| apply frame_refl].
    apply seqDone_frame; [apply frame_refl |].
    intros st1. apply respawnPlayer_frame.
Qed.

Lemma tickRoom_frame now rnd roomId st st' out :
  tickRoom now rnd roomId st = Done (st', out) -> frame st st'.
Proof.
  unfold tickRoom.
  destruct roomId as [r |]; [| by intros [= <- _]; apply frame_refl].
  destruct (gameStates st !! Some r) as [roomState |];
    [| by intros [= <- _]; apply frame_refl].
  destruct (rooms st !! r); [| by intros [= <- _]; apply frame_refl].
  intros H. apply andThen_Done in H as (st1 & out1 & out2 & Hsw & Hrest & _).
  assert (Hf1 : frame st st1).
  { destruct (phase roomState).
    - case_decide; [by eapply startRound_frame |].
      injection Hsw as <- _. apply frame_refl.
    - case_decide.
      + apply Done_fst in Hsw as ->. apply endRound_frame.
      + injection Hsw as <- _. apply frame_refl.
    - injection Hsw as <- _. apply frame_refl. }
  apply Done_fst in Hrest as ->.
  eapply frame_trans; [exact Hf1 |].
  apply seqDone_frame.
  - apply (respawnDue_frames r now rnd _ (st1, [])).
  - intros st2. apply managePowerupDrops_frame.
Qed.

Lemma tickRooms_frame now rnd keys o st' out :
  foldl (fun o roomId => andThen o (tickRoom now rnd roomId)) o keys
  = Done (st', out) ->
  exists st1 out1, o = Done (st1, out1) /\ frame st1 st'.
Proof.
  revert o st' out. induction keys as [| k keys IH]; intros o st' out; simpl.
  - intros ->. exists st', out. split; [done | apply frame_refl].
  - intros H. apply IH in H as (st2 & out2 & H2 & Hf2).
    apply andThen_Done in H2 as (st1 & out1 & out1' & -> & Ht & _).
    exists st1, out1. split; [done |].
    eapply frame_trans; [by eapply tickRoom_frame | exact Hf2].
Qed.

Lemma updateGameStates_frame now rnd st st' out :
  updateGameStates now rnd st = Done (st', out) -> frame st st'.
Proof.
  unfold updateGameStates. intros H.
  apply tickRooms_frame in H as (st1 & out1 & Heq & Hf).
  injection Heq as <- _. exact Hf.
Qed.

(** *** The socket handlers *)

Lemma finalDamageOf_points data raw a t : points (finalDamageOf data raw a t).
Proof.
  unfold finalDamageOf. destruct (isMonster data); apply Math_max_0_round.
Qed.

Lemma on_playerMove_frame sid pos rot st :
  frame st (on_playerMove sid pos rot st).1.
Proof.
  unfold on_playerMove.
  destruct (players st !! sid) as [player |] eqn:Ep; [| apply frame_refl].
  destruct pos as [pos |]; [| apply frame_refl].
  destruct rot as [rot |]; [| apply frame_refl].
  simpl. eapply frame_putPlayer; [exact Ep |].
  apply evolves_same_vehicle; simpl; auto.
Qed.

Lemma presets_positive v : 0 < maxHealth (presets v).
Proof. apply presets_bounds. Qed.

Lemma on_vehicleSelected_frame sid v st :
  frame st (on_vehicleSelected sid v st).1.
Proof.
  unfold on_vehicleSelected.
  destruct (players st !! sid) as [player |] eqn:Ep; [| apply frame_refl].
  simpl. eapply frame_putPlayer; [exact Ep |].
  split; [done |]. intros [_ Hb]. split; simpl; [eauto |].
  pose proof (presets_positive (parseVehicleId v)).
  eapply capped_ok; [lia | exact Hb].
Qed.

Lemma on_playerDamaged_frame sid data now st :
  frame st (on_playerDamaged sid data now st).1.
Proof.
  unfold on_playerDamaged.
  destruct (players st !! sid) as [a |] eqn:Ea; [| apply frame_refl].
  destruct (players st !! targetPlayerId data) as [t |] eqn:Et;
    [| apply frame_refl].
  destruct (damage data) as [raw |]; [| apply frame_refl].
  destruct (JS.negative raw); [apply frame_refl |].
  destruct (negb _); [apply frame_refl |].
  rewrite (surjective_pairing (getRoomGameState (room a) st)).
  eapply frame_trans; [apply frame_getRoomGameState |].
  destruct (negb _); [apply frame_refl |].
  destruct (invulnerableAt now a); [apply frame_refl |].
  destruct (invulnerableAt now t); [apply frame_refl |].
  destruct (shieldedAt now t); [apply frame_refl |].
  assert (Hput : frame (getRoomGameState (room a) st).2
            (putPlayer (targetPlayerId data)
               (set_health
                  (JS.Math_max (JS.int 0)
                     (JS.sub (health t) (finalDamageOf data raw a t))) t)
               (getRoomGameState (room a) st).2)).
  { eapply frame_putPlayer.
    - rewrite getRoomGameState_players. exact Et.
    - apply evolves_same_vehicle; simpl; [done | done |].
      intros v _. pose proof (presets_bounds v).
      apply damaged_ok; [lia | apply finalDamageOf_points]. }
  case_decide; simpl;
    (eapply frame_trans; [exact Hput | apply frame_putRoomState]).
Qed.

Lemma on_playerLanded_frame sid now st : frame st (on_playerLanded sid now st).1.
Proof.
  unfold on_playerLanded.
  destruct (players st !! sid) as [p |] eqn:Ep; [| apply frame_refl].
  destruct (JS.truthy (room p)); [| apply frame_refl].
  simpl. eapply frame_putPlayer; [exact Ep |].
  apply evolves_same_vehicle; simpl; auto.
Qed.

Lemma on_setNickname_frame sid n st : frame st (on_setNickname sid n st).1.
Proof.
  unfold on_setNickname.
  destruct (players st !! sid) as [player |] eqn:Ep; [| apply frame_refl].
  destruct (JS.truthy n) as [nickname |]; [| apply frame_refl].
  assert (Hput : frame st
            (putPlayer sid
               (set_name (JS.substring0 16 (JS.trim nickname)) player) st)).
  { eapply frame_putPlayer; [exact Ep |].
    apply evolves_same_vehicle; simpl; auto. }
  destruct (JS.truthy (room player)) as [r |]; [| exact Hput].
  rewrite (surjective_pairing (getRoomGameState (Some r) _)). simpl.
  eapply frame_trans; [exact Hput |].
  eapply frame_trans; [apply frame_getRoomGameState | apply frame_putRoomState].
Qed.

Lemma on_chatMessage_first_state sid m st :
  (on_chatMessage_first sid m st).1 = st.
Proof.
  unfold on_chatMessage_first.
  destruct (players st !! sid) as [player |]; [| done].
  destruct (JS.truthy m); [| done].
  by destruct (JS.truthy (room player)).
Qed.

Lemma on_chatMessage_second_state sid m st :
  (on_chatMessage_second sid m st).1 = st.
Proof.
  unfold on_chatMessage_second.
  destruct (players st !! sid) as [player |]; [| done].
  destruct (JS.truthy m); [| done].
  case_decide; [| done].
  by destruct (JS.truthy (room player)).
Qed.

Lemma seqDone_fst p f : (seqDone p f).1 = (f p.1).1.
Proof. unfold seqDone. by destruct (f p.1). Qed.

Lemma seqDone_snd p f : (seqDone p f).2 = p.2 ++ (f p.1).2.
Proof. unfold seqDone. by destruct (f p.1). Qed.

Lemma on_chatMessage_state sid m st : (on_chatMessage sid m st).1 = st.
Proof.
  unfold on_chatMessage.
  by rewrite seqDone_fst, on_chatMessage_first_state,
    on_chatMessage_second_state.
Qed.

Lemma maxHealthOr100_positive p :
  0 <= maxHealth (vehicle p) ->
  0 < maxHealthOr100 p /\
  (maxHealth (vehicle p) <> 0 -> maxHealthOr100 p = maxHealth (vehicle p)).
Proof. unfold maxHealthOr100. case_decide; lia. Qed.

Lemma on_collectPowerup_frame sid i now st :
  frame st (on_collectPowerup sid i now st).1.
Proof.
  unfold on_collectPowerup.
  destruct (players st !! sid) as [player |] eqn:Ep; [| apply frame_refl].
  destruct (JS.truthy (room player)) as [r |]; [| apply frame_refl].
  rewrite (surjective_pairing (getRoomGameState (Some r) st)).
  eapply frame_trans; [apply frame_getRoomGameState |].
  destruct (powerups _ !! i) as [powerup |]; [| apply frame_refl].
  destruct (collected powerup); [apply frame_refl |].
  simpl. eapply frame_trans; [| apply frame_putRoomState].
  eapply frame_putPlayer.
  - rewrite getRoomGameState_players. exact Ep.
  - destruct (pw_type powerup); simpl.
    + split; [done |]. intros [[v Hv] Hb]. split; simpl; [eauto |].
      unfold maxHealthOr100. rewrite Hv in *.
      pose proof (presets_bounds v). case_decide; [lia |].
      apply healed_ok; [lia | exact Hb].
    + apply evolves_same_vehicle; simpl; auto.
Qed.

Lemma on_disconnect_frame sid st : frame st (on_disconnect sid st).1.
Proof.
  unfold on_disconnect. simpl.
  split.
  - simpl. eapply map_evolve_trans; [| apply map_evolve_delete].
    destruct (players st !! sid) as [player |]; [| apply map_evolve_refl].
    destruct (JS.truthy (room player)); apply map_evolve_refl.
  - intros k Hk. simpl.
    destruct (players st !! sid) as [player |]; [| done].
    by destruct (JS.truthy (room player)).
Qed.

Lemma on_requestStandings_frame sid st :
  frame st (on_requestStandings sid st).1.
Proof.
  unfold on_requestStandings.
  destruct (players st !! sid) as [player |]; [| apply frame_refl].
  destruct (JS.truthy (room player)) as [r |]; [| apply frame_refl].
  rewrite (surjective_pairing (getRoomGameState (Some r) st)). simpl.
  apply frame_getRoomGameState.
Qed.

Lemma fireRestart_frame t r now rnd st st' out :
  fireRestart t r now rnd st = Done (st', out) -> frame st st'.
Proof.
  unfold fireRestart. case_decide.
  - intros Hstart. eapply frame_trans; [apply frame_set_timers |].
    by eapply startRound_frame.
  - intros [= <- _]. apply frame_refl.
Qed.

(** *** Connection and room joining *)

Lemma newPlayer_ok sid rnd : player_ok (newPlayer sid rnd).
Proof.
  split; [by exists balanced |].
  right. exists 100. split; [reflexivity | simpl; lia].
Qed.

Lemma on_connection_invariant sid rnd st :
  invariant st -> invariant (on_connection sid rnd st).1.
Proof.
  intros [Hok Hj]. split.
  - apply map_Forall_insert_2; [apply newPlayer_ok | exact Hok].
  - intros sid' p r Hp Hr. simpl in Hp.
    destruct (decide (sid = sid')) as [<- | Hne].
    + rewrite lookup_insert_eq in Hp. injection Hp as <-. discriminate Hr.
    + rewrite lookup_insert_ne in Hp by done. exact (Hj _ _ _ Hp Hr).
Qed.

Lemma syncJoiner_frame sid roomId st : frame st (syncJoiner sid roomId st).1.
Proof.
  unfold syncJoiner.
  destruct (phase _); simpl;
    [apply frame_refl | apply frame_putRoomState | apply frame_refl].
Qed.

(** A join that goes through stores the joiner's record with its new room,
    fetches the round state of that room, and from there on only runs
    callbacks with a frame. *)
Lemma on_joinRoom_shape sid dataRoomId now rnd st st' out :
  on_joinRoom sid dataRoomId now rnd st = Done (st', out) ->
  st' = st \/
  exists player player1 rooms',
    let roomId := default "default" (JS.truthy dataRoomId) in
    players st !! sid = Some player /\
    vehicle player1 = vehicle player /\
    health player1 = health player /\
    room player1 = Some roomId /\
    frame (getRoomGameState (Some roomId)
             (set_rooms rooms' (putPlayer sid player1 st))).2 st'.
Proof.
  unfold on_joinRoom.
  set (roomId := default "default" (JS.truthy dataRoomId)).
  case_decide; [| intros [= <- _]; by left].
  destruct (players st !! sid) as [player |] eqn:Ep;
    [| intros [= <- _]; by left].
  rewrite (surjective_pairing (getRoomGameState (Some roomId) _)).
  intros Hjoin. right.
  set (player1 := set_invulnerableUntil _ (set_position _ (set_room _ player)))
    in Hjoin.
  match type of Hjoin with
  | context [set_rooms ?R (putPlayer sid player1 st)] =>
      set (rooms2 := R) in Hjoin
  end.
  set (st2 := (getRoomGameState (Some roomId)
                 (set_rooms rooms2 (putPlayer sid player1 st))).2) in *.
  apply andThen_Done in Hjoin as (st4 & out4 & out5 & Hfirst & Hrest & _).
  apply Done_fst in Hrest as ->.
  exists player, player1, rooms2. simpl.
  split; [done |]. split; [reflexivity |]. split; [reflexivity |].
  split; [reflexivity |].
  fold roomId. fold st2.
  match type of Hfirst with
  | context [putRoomState (Some roomId) ?RS st2] =>
      apply frame_trans with (putRoomState (Some roomId) RS st2);
        [apply frame_putRoomState |]
  end.
  apply frame_trans with st4.
  - case_decide.
    + apply andThen_Done in Hfirst as (st3 & out3 & out3' & Hd & Hs & _).
      injection Hd as <- _. by eapply startRound_frame.
    + injection Hfirst as <- _. apply frame_refl.
  - rewrite seqDone_fst. simpl. apply syncJoiner_frame.
Qed.

Lemma on_joinRoom_invariant sid dataRoomId now rnd st st' out :
  on_joinRoom sid dataRoomId now rnd st = Done (st', out) ->
  invariant st -> invariant st'.
Proof.
  intros Hjoin [Hok Hj].
  apply on_joinRoom_shape in Hjoin
    as [-> | (player & player1 & rooms' & Hp & Hv & Hh & Hr & Hf)];
    [by split |].
  eapply frame_invariant; [exact Hf |].
  set (roomId := default "default" (JS.truthy dataRoomId)) in *.
  split.
  - unfold players_ok. rewrite getRoomGameState_players. simpl.
    apply map_Forall_insert_2; [| exact Hok].
    destruct (Hok _ _ Hp) as [Hpre Hb].
    split; rewrite Hv, ?Hh; done.
  - intros sid' p r Hp' Hr'.
    rewrite getRoomGameState_players in Hp'. simpl in Hp'.
    destruct (decide (sid = sid')) as [<- | Hne].
    + rewrite lookup_insert_eq in Hp'. injection Hp' as <-.
      rewrite Hr in Hr'. injection Hr' as <-.
      rewrite getRoomGameState_stored. eauto.
    + rewrite lookup_insert_ne in Hp' by done.
      apply (frame_getRoomGameState (Some roomId)
               (set_rooms rooms' (putPlayer sid player1 st))).
      exact (Hj _ _ _ Hp' Hr').
Qed.

(** ** The invariant holds in every reachable state *)

Lemma boot_invariant : invariant boot.
Proof.
  split.
  - apply map_Forall_empty.
  - intros sid p r Hp. simpl in Hp. by rewrite lookup_empty in Hp.
Qed.

(** A callback runs the handler behind its event, or throws while it reads
    the payload. *)
Lemma step_callOf now rnd ev st :
  step now rnd ev st =
  match callOf ev st with
  | Some c => handle now rnd c st
  | None => Uncaught
  end.
Proof.
  destruct ev as [sid | sid data | sid data | sid data | sid | sid data
                 | sid data | sid data | sid data | sid | sid | | t r];
    simpl; try reflexivity.
  - unfold listen_playerMove.
    destruct (players st !! sid) eqn:E; [by destruct data |].
    simpl. unfold on_playerMove. by rewrite E.
  - by destruct data.
  - by destruct data.
  - unfold listen_setNickname.
    destruct (players st !! sid) eqn:E; [by destruct (readText _) |].
    simpl. unfold on_setNickname. by rewrite E.
  - unfold listen_chatMessage.
    destruct (players st !! sid) eqn:E; [by destruct (readText _) |].
    simpl. unfold on_chatMessage, seqDone, on_chatMessage_first,
      on_chatMessage_second. simpl. rewrite E. simpl. by rewrite E.
  - unfold listen_collectPowerup.
    destruct (players st !! sid) as [player |] eqn:E.
    + destruct (JS.truthy (room player)) eqn:Er; [by destruct data |].
      simpl. unfold on_collectPowerup. by rewrite E, Er.
    + simpl. unfold on_collectPowerup. by rewrite E.
Qed.

Lemma step_handle now rnd ev st st' out :
  step now rnd ev st = Done (st', out) ->
  exists c, callOf ev st = Some c /\ handle now rnd c st = Done (st', out).
Proof.
  rewrite step_callOf. destruct (callOf ev st) as [c |]; [eauto | done].
Qed.

(** The handler behind an event is the one of its kind. *)
Ltac call_cases Hc :=
  simpl in Hc;
  repeat match type of Hc with
         | context [match ?x with _ => _ end] => destruct x
         | context [?x ≫= _] => is_var x; destruct x; simpl in Hc
         | context [_ <$> ?x] => is_var x; destruct x; simpl in Hc
         end;
  simplify_eq/=.

Lemma handle_invariant now rnd ev st st' out :
  handle now rnd ev st = Done (st', out) -> invariant st -> invariant st'.
Proof.
  destruct ev; simpl; intros Hstep Hinv;
    try (apply Done_fst in Hstep as ->).
  - by apply on_connection_invariant.
  - eapply frame_invariant; [apply on_playerMove_frame | done].
  - eapply frame_invariant; [apply on_vehicleSelected_frame | done].
  - eapply frame_invariant; [apply on_playerDamaged_frame | done].
  - eapply frame_invariant; [apply on_playerLanded_frame | done].
  - by eapply on_joinRoom_invariant.
  - eapply frame_invariant; [apply on_setNickname_frame | done].
  - by rewrite on_chatMessage_state.
  - eapply frame_invariant; [apply on_collectPowerup_frame | done].
  - eapply frame_invariant; [apply on_disconnect_frame | done].
  - eapply frame_invariant; [apply on_requestStandings_frame | done].
  - eapply frame_invariant; [by eapply updateGameStates_frame | done].
  - eapply frame_invariant; [by eapply fireRestart_frame | done].
Qed.

Lemma step_invariant now rnd ev st st' out :
  step now rnd ev st = Done (st', out) -> invariant st -> invariant st'.
Proof.
  intros Hstep. apply step_handle in Hstep as (c & _ & Hc).
  by eapply handle_invariant.
Qed.

Lemma reachable_invariant st : reachable st -> invariant st.
Proof.
  induction 1 as [| st now rnd ev st' out _ IH Hstep].
  - apply boot_invariant.
  - by eapply step_invariant.
Qed.

Lemma run_reachable evs st st' out :
  reachable st -> run evs st = Done (st', out) -> reachable st'.
Proof.
  revert st out. induction evs as [| [[now rnd] ev] evs IH]; intros st out Hr.
  - simpl. by intros [= <- _].
  - simpl. intros Hrun.
    apply andThen_Done in Hrun as (st1 & out1 & out2 & Hstep & Hrest & _).
    eapply IH; [| exact Hrest].
    by eapply reachable_step.
Qed.

Lemma after_reachable evs : reachable (Scenario.after evs).
Proof.
  unfold Scenario.after.
  destruct (run evs boot) as [[st out] |] eqn:E.
  - by eapply run_reachable; [apply reachable_boot |].
  - apply reachable_boot.
Qed.

(** ** Powerup collection *)

Lemma truthy_Some o r : JS.truthy o = Some r -> o = Some r.
Proof. destruct o as [[| c s] |]; simpl; congruence. Qed.

(** A request for a powerup the requester's room does not hold changes
    nothing and emits nothing. *)
Lemma on_collectPowerup_absent sid i now st :
  (forall player r,
     players st !! sid = Some player -> JS.truthy (room player) = Some r ->
     is_Some (gameStates st !! Some r) /\
     powerups (theRoomState (Some r) st) !! i = None) ->
  on_collectPowerup sid i now st = (st, []).
Proof.
  intros Habs. unfold on_collectPowerup.
  destruct (players st !! sid) as [player |]; [| done].
  destruct (JS.truthy (room player)) as [r |] eqn:Er; [| done].
  destruct (Habs player r eq_refl Er) as [Hsome Hnone].
  rewrite (surjective_pairing (getRoomGameState (Some r) st)).
  rewrite getRoomGameState_fst, Hnone.
  by destruct (getRoomGameState_snd (Some r) st) as [[-> _] | [_ Hn]];
    [| rewrite Hn in Hsome; destruct Hsome].
Qed.

(** What a successful collection does to the round states. *)
Lemma on_collectPowerup_collected sid i now st :
  existsb isPowerupCollected (on_collectPowerup sid i now st).2 = true ->
  exists player r,
    players st !! sid = Some player /\
    JS.truthy (room player) = Some r /\
    is_Some (powerups (theRoomState (Some r) st) !! i) /\
    powerups (theRoomState (Some r) (on_collectPowerup sid i now st).1) !! i
    = None /\
    (forall k, k ≠ Some r ->
       theRoomState k (on_collectPowerup sid i now st).1 = theRoomState k st).
Proof.
  unfold on_collectPowerup.
  destruct (players st !! sid) as [player |] eqn:Ep; [| done].
  destruct (JS.truthy (room player)) as [r |] eqn:Er; [| done].
  rewrite (surjective_pairing (getRoomGameState (Some r) st)).
  rewrite getRoomGameState_fst.
  destruct (powerups (theRoomState (Some r) st) !! i) as [powerup |] eqn:Epw;
    [| done].
  destruct (collected powerup); [done |].
  intros _. exists player, r. simpl.
  split; [done |]. split; [done |]. split; [by rewrite Epw |].
  split.
  - rewrite theRoomState_put. simpl. apply lookup_delete_eq.
  - intros k Hk. rewrite theRoomState_put_ne by done.
    unfold theRoomState, putPlayer. simpl.
    by rewrite getRoomGameState_other.
Qed.

(** *** A collected id stays absent until it is dropped again *)

Lemma absent_get i k st : absent i st -> absent i (getRoomGameState k st).2.
Proof. intros H k'. rewrite theRoomState_get. apply H. Qed.

Lemma absent_put i k rs st :
  absent i st -> powerups rs !! i = None -> absent i (putRoomState k rs st).
Proof.
  intros H Hrs k'. destruct (decide (k = k')) as [<- | Hne].
  - by rewrite theRoomState_put.
  - rewrite theRoomState_put_ne by done. apply H.
Qed.

Lemma absent_same i st st' :
  gameStates st' = gameStates st -> absent i st -> absent i st'.
Proof. intros E H k. unfold theRoomState. rewrite E. apply H. Qed.

Lemma resetMember_powerups now rnd playerId acc :
  powerups (resetMember now rnd playerId acc).2 = powerups acc.2.
Proof.
  unfold resetMember. destruct (acc.1 !! playerId); [| done]. simpl.
  by destruct (leaderboard acc.2 !! playerId).
Qed.

Lemma resetMembers_powerups now rnd room0 acc :
  powerups
    (foldl (fun acc playerId => resetMember now rnd playerId acc) acc room0).2
  = powerups acc.2.
Proof.
  revert acc. induction room0 as [| playerId room0 IH]; intros acc; simpl;
    [done |].
  by rewrite IH, resetMember_powerups.
Qed.

Lemma startRound_absent i roomId now rnd st st' out :
  startRound roomId now rnd st = Done (st', out) ->
  absent i st -> absent i st'.
Proof.
  unfold startRound.
  rewrite (surjective_pairing (getRoomGameState (Some roomId) st)).
  destruct (rooms _ !! roomId) as [room0 |]; [| done].
  destruct (mapM _ _) as [roster |]; [| done].
  intros [= <- _] Habs.
  apply absent_put.
  - eapply absent_same; [| apply absent_get; exact Habs]. done.
  - rewrite resetMembers_powerups. simpl. rewrite getRoomGameState_fst.
    apply Habs.
Qed.

Lemma endRound_absent i roomId now st :
  absent i st -> absent i (endRound roomId now st).1.
Proof.
  intros Habs. unfold endRound.
  rewrite (surjective_pairing (getRoomGameState (Some roomId) st)). simpl.
  eapply absent_same with (st := putRoomState _ _ _); [done |].
  apply absent_put; [by apply absent_get |].
  simpl. rewrite getRoomGameState_fst. apply Habs.
Qed.

Lemma respawnPlayer_absent i roomId playerId now rnd st :
  absent i st -> absent i (respawnPlayer roomId playerId now rnd st).1.
Proof.
  intros Habs. unfold respawnPlayer.
  rewrite (surjective_pairing (getRoomGameState (Some roomId) st)).
  destruct (players _ !! playerId) as [player |];
    [| by apply absent_get].
  destruct (respawningPlayers _ !! playerId); [| by apply absent_get].
  simpl. apply absent_put.
  - eapply absent_same; [| apply absent_get; exact Habs]. done.
  - simpl. rewrite getRoomGameState_fst. apply Habs.
Qed.

Lemma dropPowerup_absent i roomId now rnd st :
  absent i st ->
  existsb (isDropOf i) (dropPowerup roomId now rnd st).2 = false ->
  absent i (dropPowerup roomId now rnd st).1.
Proof.
  intros Habs. unfold dropPowerup.
  rewrite (surjective_pairing (getRoomGameState (Some roomId) st)).
  case_decide; simpl; [intros _; by apply absent_get |].
  rewrite orb_false_r. intros Hne%bool_decide_eq_false.
  apply absent_put; [by apply absent_get |].
  simpl. rewrite lookup_insert_ne by done.
  rewrite getRoomGameState_fst. apply Habs.
Qed.

Lemma sweepPowerup_absent i roomId now l acc :
  powerups acc.1 !! i = None ->
  powerups (foldl (sweepPowerup roomId now) acc l).1 !! i = None.
Proof.
  revert acc. induction l as [| e l IH]; intros acc Hacc; simpl; [done |].
  apply IH. unfold sweepPowerup. case_decide; simpl; [| done].
  apply lookup_delete_None. by right.
Qed.

Lemma sweepPowerup_quiet i roomId now l acc :
  existsb (isDropOf i) (foldl (sweepPowerup roomId now) acc l).2
  = existsb (isDropOf i) acc.2.
Proof.
  revert acc. induction l as [| e l IH]; intros acc; simpl; [done |].
  rewrite IH. unfold sweepPowerup. case_decide; simpl; [| done].
  rewrite existsb_app. simpl. by rewrite !orb_false_r.
Qed.

Lemma managePowerupDrops_absent i roomId now rnd st :
  absent i st ->
  existsb (isDropOf i) (managePowerupDrops roomId now rnd st).2 = false ->
  absent i (managePowerupDrops roomId now rnd st).1.
Proof.
  intros Habs. unfold managePowerupDrops.
  rewrite (surjective_pairing (getRoomGameState (Some roomId) st)).
  case_decide; simpl; [intros _; by apply absent_get |].
  rewrite existsb_app, sweepPowerup_quiet. simpl. rewrite orb_false_r.
  intros Hq.
  assert (Hd : absent i
    (if decide (now - lastPowerupDrop (getRoomGameState (Some roomId) st).1
                >= getPowerupDropInterval
                     (Z.of_nat
                        (size (activePlayers
                                 (getRoomGameState (Some roomId) st).1))))
     then dropPowerup roomId now rnd (getRoomGameState (Some roomId) st).2
     else ((getRoomGameState (Some roomId) st).2, [])).1).
  { case_decide.
    - apply dropPowerup_absent; [by apply absent_get | done].
    - by apply absent_get. }
  apply absent_put; [exact Hd |].
  apply sweepPowerup_absent. simpl. apply Hd.
Qed.

Lemma seqDone_absent i p f :
  absent i p.1 ->
  (forall st1, absent i st1 ->
     existsb (isDropOf i) (f st1).2 = false -> absent i (f st1).1) ->
  existsb (isDropOf i) (seqDone p f).2 = false ->
  absent i (seqDone p f).1.
Proof.
  intros Hp Hf. rewrite seqDone_fst, seqDone_snd, existsb_app.
  intros [_ Hq]%orb_false_elim. by apply Hf.
Qed.

Lemma respawnDue_absent i roomId now rnd l acc :
  absent i acc.1 -> absent i (foldl (respawnDue roomId now rnd) acc l).1.
Proof.
  revert acc. induction l as [| e l IH]; intros acc Hacc; simpl; [done |].
  apply IH. unfold respawnDue. case_decide; [| done].
  rewrite seqDone_fst. by apply respawnPlayer_absent.
Qed.

Lemma respawnDue_quiet i roomId now rnd l acc :
  existsb (isDropOf i) (foldl (respawnDue roomId now rnd) acc l).2
  = existsb (isDropOf i) acc.2.
Proof.
  revert acc. induction l as [| e l IH]; intros acc; simpl; [done |].
  rewrite IH. unfold respawnDue. case_decide; [| done].
  rewrite seqDone_snd, existsb_app.
  unfold respawnPlayer.
  rewrite (surjective_pairing (getRoomGameState (Some roomId) acc.1)).
  destruct (players _ !! e.1); [| by rewrite orb_false_r].
  destruct (respawningPlayers _ !! e.1); by rewrite orb_false_r.
Qed.

Lemma andThen_quiet i o f st' out :
  andThen o f = Done (st', out) ->
  existsb (isDropOf i) out = false ->
  exists st1 out1 out2,
    o = Done (st1, out1) /\ f st1 = Done (st', out2) /\
    existsb (isDropOf i) out1 = false /\ existsb (isDropOf i) out2 = false.
Proof.
  intros H Hq.
  apply andThen_Done in H as (st1 & out1 & out2 & Ho & Hf & ->).
  rewrite existsb_app in Hq. apply orb_false_elim in Hq as [Hq1 Hq2].
  eauto 8.
Qed.

Lemma tickRoom_absent i now rnd roomId st st' out :
  tickRoom now rnd roomId st = Done (st', out) ->
  absent i st ->
  existsb (isDropOf i) out = false ->
  absent i st'.
Proof.
  unfold tickRoom.
  destruct roomId as [r |]; [| by intros [= <- _]].
  destruct (gameStates st !! Some r) as [roomState |]; [| by intros [= <- _]].
  destruct (rooms st !! r); [| by intros [= <- _]].
  intros H Habs Hq.
  apply (andThen_quiet i) in H as (st1 & out1 & out2 & Hsw & Hrest & _ & Hq2);
    [| exact Hq].
  assert (H1 : absent i st1).
  { destruct (phase roomState).
    - case_decide; [by eapply startRound_absent |].
      by injection Hsw as <- _.
    - case_decide.
      + apply Done_fst in Hsw as ->. by apply endRound_absent.
      + by injection Hsw as <- _.
    - by injection Hsw as <- _. }
  injection Hrest as Hrest. destruct (seqDone _ _) as [st2 out2'] eqn:Eseq.
  injection Hrest as <- <-.
  replace st2 with (seqDone
    (foldl (respawnDue r now rnd) (st1, [])
       (map_to_list (respawningPlayers (theRoomState (Some r) st1))))
    (managePowerupDrops r now rnd)).1 by (by rewrite Eseq).
  apply seqDone_absent.
  - by apply respawnDue_absent.
  - intros st3 H3. by apply managePowerupDrops_absent.
  - by rewrite Eseq.
Qed.

Lemma tickRooms_absent i now rnd keys o st' out :
  foldl (fun o roomId => andThen o (tickRoom now rnd roomId)) o keys
  = Done (st', out) ->
  existsb (isDropOf i) out = false ->
  exists st1 out1,
    o = Done (st1, out1) /\ existsb (isDropOf i) out1 = false /\
    (absent i st1 -> absent i st').
Proof.
  revert o st' out. induction keys as [| k keys IH]; intros o st' out; simpl.
  - intros -> Hq. eauto.
  - intros H Hq. apply IH in H as (st2 & out2 & H2 & Hq2 & Hk); [| exact Hq].
    apply (andThen_quiet i) in H2
      as (st1 & out1 & out2' & -> & Ht & Hq1 & Hq2'); [| exact Hq2].
    exists st1, out1. split; [done |]. split; [done |].
    intros Habs. apply Hk. by eapply tickRoom_absent.
Qed.

Lemma updateGameStates_absent i now rnd st st' out :
  updateGameStates now rnd st = Done (st', out) ->
  absent i st ->
  existsb (isDropOf i) out = false ->
  absent i st'.
Proof.
  unfold updateGameStates. intros H Habs Hq.
  apply (tickRooms_absent i) in H as (st1 & out1 & Heq & _ & Hk); [| exact Hq].
  injection Heq as <- _. by apply Hk.
Qed.

Lemma on_playerDamaged_absent i sid data now st :
  absent i st -> absent i (on_playerDamaged sid data now st).1.
Proof.
  intros Habs. unfold on_playerDamaged.
  destruct (players st !! sid) as [a |]; [| done].
  destruct (players st !! targetPlayerId data) as [t |]; [| done].
  destruct (damage data) as [raw |]; [| done].
  destruct (JS.negative raw); [done |].
  destruct (negb _); [done |].
  rewrite (surjective_pairing (getRoomGameState (room a) st)).
  rewrite getRoomGameState_fst.
  destruct (negb _); [by apply absent_get |].
  destruct (invulnerableAt now a); [by apply absent_get |].
  destruct (invulnerableAt now t); [by apply absent_get |].
  destruct (shieldedAt now t); [by apply absent_get |].
  case_decide; simpl; apply absent_put;
    try (eapply absent_same; [| apply absent_get; exact Habs]; done);
    destruct (isMonster data); simpl; apply Habs.
Qed.

Lemma on_setNickname_absent i sid n st :
  absent i st -> absent i (on_setNickname sid n st).1.
Proof.
  intros Habs. unfold on_setNickname.
  destruct (players st !! sid) as [player |]; [| done].
  destruct (JS.truthy n) as [nickname |]; [| done].
  destruct (JS.truthy (room player)) as [r |]; [| done].
  rewrite (surjective_pairing (getRoomGameState (Some r) _)). simpl.
  apply absent_put.
  - apply absent_get. eapply absent_same; [| exact Habs]. done.
  - simpl. rewrite getRoomGameState_fst. apply Habs.
Qed.

Lemma on_collectPowerup_absent_kept i sid j now st :
  absent i st -> absent i (on_collectPowerup sid j now st).1.
Proof.
  intros Habs. unfold on_collectPowerup.
  destruct (players st !! sid) as [player |]; [| done].
  destruct (JS.truthy (room player)) as [r |]; [| done].
  rewrite (surjective_pairing (getRoomGameState (Some r) st)).
  rewrite getRoomGameState_fst.
  destruct (powerups _ !! j) as [powerup |]; [| by apply absent_get].
  destruct (collected powerup); [by apply absent_get |].
  simpl. apply absent_put.
  - eapply absent_same; [| apply absent_get; exact Habs]. done.
  - simpl. apply lookup_delete_None. right. apply Habs.
Qed.

Lemma on_requestStandings_absent i sid st :
  absent i st -> absent i (on_requestStandings sid st).1.
Proof.
  intros Habs. unfold on_requestStandings.
  destruct (players st !! sid) as [player |]; [| done].
  destruct (JS.truthy (room player)) as [r |]; [| done].
  rewrite (surjective_pairing (getRoomGameState (Some r) st)). simpl.
  by apply absent_get.
Qed.

Lemma on_disconnect_absent i sid st :
  absent i st -> absent i (on_disconnect sid st).1.
Proof.
  intros Habs. eapply absent_same; [| exact Habs].
  unfold on_disconnect. simpl.
  destruct (players st !! sid) as [player |]; [| done].
  by destruct (JS.truthy (room player)).
Qed.

Lemma syncJoiner_absent i sid roomId st :
  absent i st -> absent i (syncJoiner sid roomId st).1.
Proof.
  intros Habs. unfold syncJoiner.
  destruct (phase _) eqn:E; simpl; [done | | done].
  apply absent_put; [done |]. simpl. apply Habs.
Qed.

Lemma on_joinRoom_absent i sid dataRoomId now rnd st st' out :
  on_joinRoom sid dataRoomId now rnd st = Done (st', out) ->
  absent i st -> absent i st'.
Proof.
  unfold on_joinRoom.
  set (roomId := default "default" (JS.truthy dataRoomId)).
  case_decide; [| by intros [= <- _]].
  destruct (players st !! sid) as [player |]; [| by intros [= <- _]].
  rewrite (surjective_pairing (getRoomGameState (Some roomId) _)).
  rewrite getRoomGameState_fst.
  intros Hjoin Habs.
  apply andThen_Done in Hjoin as (st4 & out4 & out5 & Hfirst & Hrest & _).
  apply Done_fst in Hrest as ->.
  rewrite seqDone_fst. simpl. apply syncJoiner_absent.
  match type of Hfirst with
  | context [putRoomState (Some roomId) ?RS ?ST] =>
      assert (H3 : absent i (putRoomState (Some roomId) RS ST))
  end.
  { apply absent_put.
    - apply absent_get. eapply absent_same; [| exact Habs]. done.
    - match goal with
      | |- context [leaderboard ?RS !! sid] =>
          destruct (leaderboard RS !! sid)
      end; simpl; apply Habs. }
  case_decide.
  - apply andThen_Done in Hfirst as (st3 & out3 & out3' & Hd & Hs & _).
    injection Hd as <- _. by eapply startRound_absent.
  - by injection Hfirst as <- _.
Qed.

Lemma fireRestart_absent i t r now rnd st st' out :
  fireRestart t r now rnd st = Done (st', out) ->
  absent i st -> absent i st'.
Proof.
  unfold fireRestart. case_decide.
  - intros Hstart Habs. eapply startRound_absent; [exact Hstart |].
    eapply absent_same; [| exact Habs]. done.
  - by intros [= <- _].
Qed.

Lemma handle_absent i now rnd ev st st' out :
  handle now rnd ev st = Done (st', out) ->
  absent i st ->
  existsb (isDropOf i) out = false ->
  absent i st'.
Proof.
  destruct ev; simpl; intros Hstep Habs Hq;
    try (apply Done_fst in Hstep as ->).
  - eapply absent_same; [| exact Habs]. done.
  - eapply absent_same; [| exact Habs]. unfold on_playerMove.
    destruct (players st !! sid); [| done].
    destruct pos; [| done]. by destruct rot.
  - eapply absent_same; [| exact Habs]. unfold on_vehicleSelected.
    by destruct (players st !! sid).
  - by apply on_playerDamaged_absent.
  - eapply absent_same; [| exact Habs]. unfold on_playerLanded.
    destruct (players st !! sid) as [p |]; [| done].
    by destruct (JS.truthy (room p)).
  - by eapply on_joinRoom_absent.
  - by apply on_setNickname_absent.
  - by rewrite on_chatMessage_state.
  - by apply on_collectPowerup_absent_kept.
  - by apply on_disconnect_absent.
  - by apply on_requestStandings_absent.
  - by eapply updateGameStates_absent.
  - by eapply fireRestart_absent.
Qed.

Lemma step_absent i now rnd ev st st' out :
  step now rnd ev st = Done (st', out) ->
  absent i st ->
  existsb (isDropOf i) out = false ->
  absent i st'.
Proof.
  intros Hstep. apply step_handle in Hstep as (c & _ & Hc).
  by eapply handle_absent.
Qed.

Lemma run_absent i evs st st' out :
  run evs st = Done (st', out) ->
  absent i st ->
  existsb (isDropOf i) out = false ->
  absent i st'.
Proof.
  revert st out. induction evs as [| [[now rnd] ev] evs IH]; intros st out.
  - simpl. by intros [= <- _].
  - simpl. intros Hrun Habs Hq.
    apply (andThen_quiet i) in Hrun
      as (st1 & out1 & out2 & Hstep & Hrest & Hq1 & Hq2); [| exact Hq].
    eapply IH; [exact Hrest | | exact Hq2].
    by eapply step_absent.
Qed.

Lemma run_invariant evs st st' out :
  run evs st = Done (st', out) -> invariant st -> invariant st'.
Proof.
  revert st out. induction evs as [| [[now rnd] ev] evs IH]; intros st out.
  - simpl. by intros [= <- _].
  - simpl. intros Hrun Hinv.
    apply andThen_Done in Hrun as (st1 & out1 & out2 & Hstep & Hrest & _).
    eapply IH; [exact Hrest |]. by eapply step_invariant.
Qed.

(** After a successful collection of an id that named one powerup only, no
    room holds a powerup with that id. *)
Lemma on_collectPowerup_makes_absent st sid i now :
  powerup_id_unique st i ->
  existsb isPowerupCollected (on_collectPowerup sid i now st).2 = true ->
  absent i (on_collectPowerup sid i now st).1.
Proof.
  intros Huniq Hdone.
  destruct (on_collectPowerup_collected _ _ _ _ Hdone)
    as (player & r & Hp & Hr & Hheld & Hgone & Hothers).
  intros k. destruct (decide (k = Some r)) as [-> | Hne]; [exact Hgone |].
  rewrite Hothers by done.
  destruct (powerups (theRoomState k st) !! i) as [pw2 |] eqn:E2; [| done].
  exfalso. apply Hne.
  unfold theRoomState in Hheld, E2.
  destruct (gameStates st !! Some r) as [rs |] eqn:Ers;
    [| simpl in Hheld; rewrite lookup_empty in Hheld; by destruct Hheld].
  destruct (gameStates st !! k) as [rs2 |] eqn:Ers2;
    [| simpl in E2; by rewrite lookup_empty in E2].
  simpl in Hheld, E2.
  apply (Huniq _ _ Ers2 _ _ Ers); [by rewrite E2 | done].
Qed.

(** ** Disconnection *)

Lemma remove_first_notin v a : v ∉ a -> JS.remove_first v a = a.
Proof.
  induction a as [| w a IH]; simpl; [done |].
  intros Hn. apply not_elem_of_cons in Hn as [Hne Hn].
  rewrite decide_False by congruence. by rewrite IH.
Qed.

Lemma remove_first_NoDup v a : NoDup a -> v ∉ JS.remove_first v a.
Proof.
  induction 1 as [| w a Hw Hnd IH]; simpl; [apply not_elem_of_nil |].
  case_decide as Hwv.
  - by subst w.
  - apply not_elem_of_cons. split; [congruence | exact IH].
Qed.

(** The membership list of the leaver's room after [disconnect]. *)
Lemma on_disconnect_members sid st player r members :
  players st !! sid = Some player ->
  JS.truthy (room player) = Some r ->
  rooms st !! r = Some members ->
  membersOf (on_disconnect sid st).1 (Some r) = JS.remove_first sid members.
Proof.
  intros Hp Hr Hm. unfold on_disconnect, membersOf. rewrite Hp, Hr, Hm. simpl.
  case_decide as Hin.
  - case_decide as Hlen.
    + rewrite lookup_delete_eq. simpl.
      by destruct (JS.remove_first sid members).
    + by rewrite lookup_insert_eq.
  - by rewrite Hm, remove_first_notin.
Qed.

(** ** Delayed callbacks *)

(** [startRound] on a room that is no longer in [gameState.rooms]. *)
Lemma startRound_deleted_room roomId now rnd st :
  rooms st !! roomId = None -> startRound roomId now rnd st = Uncaught.
Proof.
  intros Hnone. unfold startRound.
  rewrite (surjective_pairing (getRoomGameState (Some roomId) st)).
  by rewrite getRoomGameState_rooms, Hnone.
Qed.

(** [respawnPlayer] for a player who has disconnected does nothing. *)
Lemma respawnPlayer_deleted_player roomId playerId now rnd st :
  players st !! playerId = None ->
  is_Some (gameStates st !! Some roomId) ->
  respawnPlayer roomId playerId now rnd st = (st, []).
Proof.
  intros Hnone Hsome. unfold respawnPlayer.
  rewrite (surjective_pairing (getRoomGameState (Some roomId) st)).
  rewrite getRoomGameState_players, Hnone.
  by destruct (getRoomGameState_snd (Some roomId) st) as [[-> _] | [_ Hn]];
    [| rewrite Hn in Hsome; destruct Hsome].
Qed.

(** ** Which callbacks can throw *)

Lemma resetMember_roster now rnd playerId acc :
  (forall i, i ∈ activePlayers acc.2 -> is_Some (acc.1 !! i)) ->
  forall i, i ∈ activePlayers (resetMember now rnd playerId acc).2 ->
            is_Some ((resetMember now rnd playerId acc).1 !! i).
Proof.
  intros Hacc i. unfold resetMember.
  destruct (acc.1 !! playerId) as [player |] eqn:E; [| apply Hacc].
  simpl. intros Hin.
  assert (Hi : i ∈ ({[playerId]} ∪ activePlayers acc.2 : gset string)).
  { by destruct (leaderboard acc.2 !! playerId). }
  destruct (decide (playerId = i)) as [<- | Hne].
  - rewrite lookup_insert_eq. eauto.
  - rewrite lookup_insert_ne by done. apply Hacc.
    apply elem_of_union in Hi as [Hi | Hi]; [| done].
    apply elem_of_singleton in Hi. congruence.
Qed.

Lemma resetMembers_roster now rnd room0 acc :
  (forall i, i ∈ activePlayers acc.2 -> is_Some (acc.1 !! i)) ->
  forall i,
    i ∈ activePlayers
          (foldl (fun acc playerId => resetMember now rnd playerId acc)
             acc room0).2 ->
    is_Some
      ((foldl (fun acc playerId => resetMember now rnd playerId acc)
          acc room0).1 !! i).
Proof.
  revert acc. induction room0 as [| playerId room0 IH]; intros acc Hacc; simpl;
    [exact Hacc |].
  apply IH. by apply resetMember_roster.
Qed.

(** [startRound] throws exactly when the room is not in [gameState.rooms]. *)
Lemma startRound_throws_iff roomId now rnd st :
  startRound roomId now rnd st = Uncaught <-> rooms st !! roomId = None.
Proof.
  split; [| apply startRound_deleted_room].
  unfold startRound.
  rewrite (surjective_pairing (getRoomGameState (Some roomId) st)).
  rewrite getRoomGameState_rooms.
  destruct (rooms st !! roomId) as [room0 |]; [| done].
  destruct (mapM _ _) as [roster |] eqn:E; [done |].
  intros _. exfalso.
  assert (Hsome : is_Some
    (mapM
       (rosterEntry
          (foldl (fun acc playerId => resetMember now rnd playerId acc)
             ((getRoomGameState (Some roomId) st).2.(players),
              set_respawningPlayers ∅
                (set_activePlayers ∅
                   (set_roundEndTime (Some (now + roundDuration))
                      (set_roundStartTime (Some now)
                         (set_phase playing
                            (getRoomGameState (Some roomId) st).1)))))
             room0).1)
       (elements
          (activePlayers
             (foldl (fun acc playerId => resetMember now rnd playerId acc)
                ((getRoomGameState (Some roomId) st).2.(players),
                 set_respawningPlayers ∅
                   (set_activePlayers ∅
                      (set_roundEndTime (Some (now + roundDuration))
                         (set_roundStartTime (Some now)
                            (set_phase playing
                               (getRoomGameState (Some roomId) st).1)))))
                room0).2)))).
  { apply mapM_is_Some. apply Forall_forall. intros i Hi.
    apply elem_of_elements in Hi.
    destruct (resetMembers_roster _ _ _ _ (fun j (Hj : j ∈ (∅ : gset string)) =>
                False_ind _ (not_elem_of_empty j Hj)) i Hi) as [p Hp].
    unfold compose, rosterEntry. rewrite Hp. eauto. }
  rewrite E in Hsome. by destruct Hsome.
Qed.

Lemma andThen_returns o f :
  (exists p, o = Done p) -> (forall st, exists p, f st = Done p) ->
  exists p, andThen o f = Done p.
Proof.
  intros [[st out] ->] Hf. simpl.
  destruct (Hf st) as [[st' out'] ->]. eauto.
Qed.

Lemma tickRoom_returns now rnd roomId st :
  exists p, tickRoom now rnd roomId st = Done p.
Proof.
  unfold tickRoom.
  destruct roomId as [r |]; [| eauto].
  destruct (gameStates st !! Some r) as [roomState |]; [| eauto].
  destruct (rooms st !! r) as [room0 |] eqn:Er; [| eauto].
  apply andThen_returns; [| eauto].
  destruct (phase roomState); [| case_decide; eauto | eauto].
  case_decide; [| eauto].
  destruct (startRound r now rnd st) as [p |] eqn:E; [eauto |].
  apply startRound_throws_iff in E. congruence.
Qed.

(** The tick never throws; in particular the respawn of a player who has
    disconnected and the tick of a room that has been deleted do not. *)
Lemma updateGameStates_returns now rnd st :
  exists p, updateGameStates now rnd st = Done p.
Proof.
  unfold updateGameStates.
  generalize (map_to_list (gameStates st)).*1.
  assert (H0 : exists p, Done (st, @nil Emit) = Done p) by eauto.
  revert H0. generalize (Done (st, @nil Emit)).
  intros o Ho l. revert o Ho.
  induction l as [| k l IH]; intros o Ho; simpl; [exact Ho |].
  apply IH. apply andThen_returns; [exact Ho |].
  intros st1. apply tickRoom_returns.
Qed.


(** ** Leaderboard entries persist *)

Lemma entries_kept_refl st : entries_kept st st.
Proof. by intros k sid H. Qed.

Lemma entries_kept_trans st1 st2 st3 :
  entries_kept st1 st2 -> entries_kept st2 st3 -> entries_kept st1 st3.
Proof. intros H12 H23 k sid H. auto. Qed.

Lemma entries_kept_same st st' :
  gameStates st' = gameStates st -> entries_kept st st'.
Proof. intros E k sid. unfold theRoomState. by rewrite E. Qed.

Lemma entries_kept_get k st : entries_kept st (getRoomGameState k st).2.
Proof. intros k' sid. by rewrite theRoomState_get. Qed.

Lemma entries_kept_put k rs st :
  (forall sid, is_Some (leaderboard (theRoomState k st) !! sid) ->
               is_Some (leaderboard rs !! sid)) ->
  entries_kept st (putRoomState k rs st).
Proof.
  intros Hrs k' sid. destruct (decide (k = k')) as [<- | Hne].
  - rewrite theRoomState_put. apply Hrs.
  - by rewrite theRoomState_put_ne.
Qed.

(** A store into the record just fetched. *)
Lemma entries_kept_get_put k rs st :
  (forall sid, is_Some (leaderboard (theRoomState k st) !! sid) ->
               is_Some (leaderboard rs !! sid)) ->
  entries_kept st (putRoomState k rs (getRoomGameState k st).2).
Proof.
  intros Hrs. eapply entries_kept_trans; [apply entries_kept_get |].
  apply entries_kept_put. intros sid. rewrite theRoomState_get. apply Hrs.
Qed.

Lemma alter_keeps_entry (f : Stats -> Stats) (m : gmap string Stats) i j :
  is_Some (m !! j) -> is_Some (alter f i m !! j).
Proof.
  intros [s Hs]. destruct (decide (i = j)) as [<- | Hne].
  - rewrite lookup_alter_eq, Hs. simpl. eauto.
  - rewrite lookup_alter_ne by done. eauto.
Qed.

Lemma insert_keeps_entry (x : Stats) (m : gmap string Stats) i j :
  is_Some (m !! j) -> is_Some (<[i := x]> m !! j).
Proof.
  intros Hs. destruct (decide (i = j)) as [<- | Hne].
  - rewrite lookup_insert_eq. eauto.
  - by rewrite lookup_insert_ne.
Qed.

Lemma resetMember_entries now rnd playerId acc sid :
  is_Some (leaderboard acc.2 !! sid) ->
  is_Some (leaderboard (resetMember now rnd playerId acc).2 !! sid).
Proof.
  intros H. unfold resetMember. destruct (acc.1 !! playerId); [| done]. simpl.
  destruct (leaderboard acc.2 !! playerId); simpl; [done |].
  by apply insert_keeps_entry.
Qed.

Lemma resetMembers_entries now rnd room0 acc sid :
  is_Some (leaderboard acc.2 !! sid) ->
  is_Some
    (leaderboard
       (foldl (fun acc playerId => resetMember now rnd playerId acc) acc room0).2
     !! sid).
Proof.
  revert acc. induction room0 as [| playerId room0 IH]; intros acc H; simpl;
    [done |].
  apply IH. by apply resetMember_entries.
Qed.

Lemma theRoomState_set_players k ps st :
  theRoomState k (set_players ps st) = theRoomState k st.
Proof. reflexivity. Qed.

Lemma theRoomState_putPlayer k sid p st :
  theRoomState k (putPlayer sid p st) = theRoomState k st.
Proof. reflexivity. Qed.

Lemma theRoomState_set_rooms k v st :
  theRoomState k (set_rooms v st) = theRoomState k st.
Proof. reflexivity. Qed.

Lemma theRoomState_set_timers k v st :
  theRoomState k (set_timers v st) = theRoomState k st.
Proof. reflexivity. Qed.

Lemma entries_kept_set_players ps st : entries_kept st (set_players ps st).
Proof. by apply entries_kept_same. Qed.

Lemma entries_kept_putPlayer sid p st : entries_kept st (putPlayer sid p st).
Proof. by apply entries_kept_same. Qed.

Lemma entries_kept_set_rooms v st : entries_kept st (set_rooms v st).
Proof. by apply entries_kept_same. Qed.

Lemma entries_kept_set_timers v st : entries_kept st (set_timers v st).
Proof. by apply entries_kept_same. Qed.

Lemma startRound_entries roomId now rnd st st' out :
  startRound roomId now rnd st = Done (st', out) -> entries_kept st st'.
Proof.
  unfold startRound.
  rewrite (surjective_pairing (getRoomGameState (Some roomId) st)).
  destruct (rooms _ !! roomId) as [room0 |]; [| done].
  destruct (mapM _ _) as [roster |]; [| done].
  intros [= <- _].
  eapply entries_kept_trans; [apply entries_kept_get |].
  eapply entries_kept_trans; [apply entries_kept_set_players |].
  apply entries_kept_put. intros sid.
  rewrite theRoomState_set_players, theRoomState_get.
  intros H. apply resetMembers_entries. simpl.
  by rewrite getRoomGameState_fst.
Qed.

Lemma endRound_entries roomId now st :
  entries_kept st (endRound roomId now st).1.
Proof.
  unfold endRound.
  rewrite (surjective_pairing (getRoomGameState (Some roomId) st)). simpl.
  eapply entries_kept_trans; [| apply entries_kept_set_timers].
  apply entries_kept_get_put. intros sid. simpl.
  by rewrite getRoomGameState_fst.
Qed.

Lemma respawnPlayer_entries roomId playerId now rnd st :
  entries_kept st (respawnPlayer roomId playerId now rnd st).1.
Proof.
  unfold respawnPlayer.
  rewrite (surjective_pairing (getRoomGameState (Some roomId) st)).
  destruct (players _ !! playerId) as [player |];
    [| apply entries_kept_get].
  destruct (respawningPlayers _ !! playerId); [| apply entries_kept_get].
  simpl.
  eapply entries_kept_trans; [apply entries_kept_get |].
  eapply entries_kept_trans; [apply entries_kept_putPlayer |].
  apply entries_kept_put. intros sid. simpl.
  by rewrite theRoomState_putPlayer, theRoomState_get, getRoomGameState_fst.
Qed.

Lemma dropPowerup_entries roomId now rnd st :
  entries_kept st (dropPowerup roomId now rnd st).1.
Proof.
  unfold dropPowerup.
  rewrite (surjective_pairing (getRoomGameState (Some roomId) st)).
  case_decide; simpl; [apply entries_kept_get |].
  apply entries_kept_get_put. intros sid. simpl.
  by rewrite getRoomGameState_fst.
Qed.

Lemma sweepPowerup_leaderboard roomId now l acc :
  leaderboard (foldl (sweepPowerup roomId now) acc l).1 = leaderboard acc.1.
Proof.
  revert acc. induction l as [| e l IH]; intros acc; simpl; [done |].
  rewrite IH. unfold sweepPowerup. by case_decide.
Qed.

Lemma managePowerupDrops_entries roomId now rnd st :
  entries_kept st (managePowerupDrops roomId now rnd st).1.
Proof.
  unfold managePowerupDrops.
  rewrite (surjective_pairing (getRoomGameState (Some roomId) st)).
  case_decide; simpl; [apply entries_kept_get |].
  eapply entries_kept_trans; [apply entries_kept_get |].
  eapply entries_kept_trans; [| apply entries_kept_put].
  - case_decide; [apply dropPowerup_entries | apply entries_kept_refl].
  - intros sid. by rewrite sweepPowerup_leaderboard.
Qed.

Lemma seqDone_entries st p f :
  entries_kept st p.1 -> (forall st1, entries_kept st1 (f st1).1) ->
  entries_kept st (seqDone p f).1.
Proof.
  intros Hp Hf. rewrite seqDone_fst. by eapply entries_kept_trans.
Qed.

Lemma respawnDue_entries roomId now rnd l acc :
  entries_kept acc.1 (foldl (respawnDue roomId now rnd) acc l).1.
Proof.
  revert acc. induction l as [| e l IH]; intros acc; simpl.
  - apply entries_kept_refl.
  - eapply entries_kept_trans; [| apply IH].
    unfold respawnDue. case_decide; [| apply entries_kept_refl].
    apply seqDone_entries; [apply entries_kept_refl |].
    intros st1. apply respawnPlayer_entries.
Qed.

Lemma tickRoom_entries now rnd roomId st st' out :
  tickRoom now rnd roomId st = Done (st', out) -> entries_kept st st'.
Proof.
  unfold tickRoom.
  destruct roomId as [r |]; [| by intros [= <- _]; apply entries_kept_refl].
  destruct (gameStates st !! Some r) as [roomState |];
    [| by intros [= <- _]; apply entries_kept_refl].
  destruct (rooms st !! r); [| by intros [= <- _]; apply entries_kept_refl].
  intros H. apply andThen_Done in H as (st1 & out1 & out2 & Hsw & Hrest & _).
  assert (Hf1 : entries_kept st st1).
  { destruct (phase roomState).
    - case_decide; [by eapply startRound_entries |].
      injection Hsw as <- _. apply entries_kept_refl.
    - case_decide.
      + apply Done_fst in Hsw as ->. apply endRound_entries.
      + injection Hsw as <- _. apply entries_kept_refl.
    - injection Hsw as <- _. apply entries_kept_refl. }
  apply Done_fst in Hrest as ->.
  eapply entries_kept_trans; [exact Hf1 |].
  apply seqDone_entries.
  - apply (respawnDue_entries r now rnd _ (st1, [])).
  - intros st2. apply managePowerupDrops_entries.
Qed.

Lemma tickRooms_entries now rnd keys o st' out :
  foldl (fun o roomId => andThen o (tickRoom now rnd roomId)) o keys
  = Done (st', out) ->
  exists st1 out1, o = Done (st1, out1) /\ entries_kept st1 st'.
Proof.
  revert o st' out. induction keys as [| k keys IH]; intros o st' out; simpl.
  - intros ->. exists st', out. split; [done | apply entries_kept_refl].
  - intros H. apply IH in H as (st2 & out2 & H2 & Hf2).
    apply andThen_Done in H2 as (st1 & out1 & out1' & -> & Ht & _).
    exists st1, out1. split; [done |].
    eapply entries_kept_trans; [by eapply tickRoom_entries | exact Hf2].
Qed.

Lemma updateGameStates_entries now rnd st st' out :
  updateGameStates now rnd st = Done (st', out) -> entries_kept st st'.
Proof.
  unfold updateGameStates. intros H.
  apply tickRooms_entries in H as (st1 & out1 & Heq & Hf).
  injection Heq as <- _. exact Hf.
Qed.

Lemma on_playerDamaged_entries sid data now st :
  entries_kept st (on_playerDamaged sid data now st).1.
Proof.
  unfold on_playerDamaged.
  destruct (players st !! sid) as [a |]; [| apply entries_kept_refl].
  destruct (players st !! targetPlayerId data) as [t |];
    [| apply entries_kept_refl].
  destruct (damage data) as [raw |]; [| apply entries_kept_refl].
  destruct (JS.negative raw); [apply entries_kept_refl |].
  destruct (negb _); [apply entries_kept_refl |].
  rewrite (surjective_pairing (getRoomGameState (room a) st)).
  rewrite getRoomGameState_fst.
  destruct (negb _); [apply entries_kept_get |].
  destruct (invulnerableAt now a); [apply entries_kept_get |].
  destruct (invulnerableAt now t); [apply entries_kept_get |].
  destruct (shieldedAt now t); [apply entries_kept_get |].
  eapply entries_kept_trans; [apply entries_kept_get |].
  case_decide; simpl;
    (eapply entries_kept_trans; [apply entries_kept_putPlayer |]);
    apply entries_kept_put; intros j;
    rewrite theRoomState_putPlayer, theRoomState_get; intros Hj;
    destruct (isMonster data); simpl;
    repeat apply alter_keeps_entry; exact Hj.
Qed.

Lemma on_setNickname_entries sid n st :
  entries_kept st (on_setNickname sid n st).1.
Proof.
  unfold on_setNickname.
  destruct (players st !! sid) as [player |]; [| apply entries_kept_refl].
  destruct (JS.truthy n) as [nickname |]; [| apply entries_kept_refl].
  destruct (JS.truthy (room player)) as [r |];
    [| apply entries_kept_putPlayer].
  rewrite (surjective_pairing (getRoomGameState (Some r) _)). simpl.
  eapply entries_kept_trans; [apply entries_kept_putPlayer |].
  apply entries_kept_get_put. intros j. simpl.
  rewrite getRoomGameState_fst. apply alter_keeps_entry.
Qed.

Lemma on_collectPowerup_entries sid i now st :
  entries_kept st (on_collectPowerup sid i now st).1.
Proof.
  unfold on_collectPowerup.
  destruct (players st !! sid) as [player |]; [| apply entries_kept_refl].
  destruct (JS.truthy (room player)) as [r |]; [| apply entries_kept_refl].
  rewrite (surjective_pairing (getRoomGameState (Some r) st)).
  rewrite getRoomGameState_fst.
  destruct (powerups _ !! i) as [powerup |]; [| apply entries_kept_get].
  destruct (collected powerup); [apply entries_kept_get |].
  simpl.
  eapply entries_kept_trans; [apply entries_kept_get |].
  eapply entries_kept_trans; [apply entries_kept_putPlayer |].
  apply entries_kept_put. intros j.
  by rewrite theRoomState_putPlayer, theRoomState_get.
Qed.

Lemma on_requestStandings_entries sid st :
  entries_kept st (on_requestStandings sid st).1.
Proof.
  unfold on_requestStandings.
  destruct (players st !! sid) as [player |]; [| apply entries_kept_refl].
  destruct (JS.truthy (room player)) as [r |]; [| apply entries_kept_refl].
  rewrite (surjective_pairing (getRoomGameState (Some r) st)). simpl.
  apply entries_kept_get.
Qed.

Lemma on_disconnect_entries sid st : entries_kept st (on_disconnect sid st).1.
Proof.
  apply entries_kept_same. unfold on_disconnect. simpl.
  destruct (players st !! sid) as [player |]; [| done].
  by destruct (JS.truthy (room player)).
Qed.

Lemma syncJoiner_entries sid roomId st :
  entries_kept st (syncJoiner sid roomId st).1.
Proof.
  unfold syncJoiner.
  destruct (phase _); simpl;
    [apply entries_kept_refl | | apply entries_kept_refl].
  by apply entries_kept_put.
Qed.

Lemma fireRestart_entries t r now rnd st st' out :
  fireRestart t r now rnd st = Done (st', out) -> entries_kept st st'.
Proof.
  unfold fireRestart. case_decide.
  - intros Hstart.
    eapply entries_kept_trans; [apply entries_kept_set_timers |].
    by eapply startRound_entries.
  - intros [= <- _]. apply entries_kept_refl.
Qed.

(** A join that goes through keeps every entry and leaves the joiner with
    an entry in the leaderboard of the room joined. *)
Lemma on_joinRoom_entries sid dataRoomId now rnd st st' out :
  on_joinRoom sid dataRoomId now rnd st = Done (st', out) ->
  entries_kept st st' /\
  (st' = st \/
   is_Some
     (leaderboard
        (theRoomState (Some (default "default" (JS.truthy dataRoomId))) st')
      !! sid)).
Proof.
  unfold on_joinRoom.
  set (roomId := default "default" (JS.truthy dataRoomId)).
  case_decide;
    [| intros [= <- _]; split; [apply entries_kept_refl | by left]].
  destruct (players st !! sid) as [player |];
    [| intros [= <- _]; split; [apply entries_kept_refl | by left]].
  rewrite (surjective_pairing (getRoomGameState (Some roomId) _)).
  rewrite getRoomGameState_fst.
  intros Hjoin.
  apply andThen_Done in Hjoin as (st4 & out4 & out5 & Hfirst & Hrest & _).
  apply Done_fst in Hrest as ->.
  rewrite seqDone_fst. simpl.
  match type of Hfirst with
  | context [putRoomState (Some roomId) ?RS ?ST] =>
      assert (H3 : entries_kept st (putRoomState (Some roomId) RS ST) /\
                   is_Some (leaderboard RS !! sid))
  end.
  { split.
    - eapply entries_kept_trans; [apply entries_kept_putPlayer |].
      eapply entries_kept_trans; [apply entries_kept_set_rooms |].
      apply entries_kept_get_put. intros j Hj.
      match goal with
      | |- context [leaderboard ?RS !! sid] =>
          destruct (leaderboard RS !! sid)
      end; simpl; [exact Hj | by apply insert_keeps_entry].
    - match goal with
      | |- context [match leaderboard ?RS !! sid with _ => _ end] =>
          destruct (leaderboard RS !! sid) eqn:E
      end; simpl; [rewrite E; eauto | rewrite lookup_insert_eq; eauto]. }
  destruct H3 as [H3 Hentry].
  assert (H4 : entries_kept st st4 /\
               is_Some (leaderboard (theRoomState (Some roomId) st4) !! sid)).
  { case_decide.
    - apply andThen_Done in Hfirst as (st3 & out3 & out3' & Hd & Hs & _).
      injection Hd as <- _.
      pose proof (startRound_entries _ _ _ _ _ _ Hs) as Hk.
      split; [by eapply entries_kept_trans |].
      apply Hk. by rewrite theRoomState_put.
    - injection Hfirst as <- _. split; [done |].
      by rewrite theRoomState_put. }
  destruct H4 as [H4 Hentry4].
  split.
  - eapply entries_kept_trans; [exact H4 | apply syncJoiner_entries].
  - right. by apply syncJoiner_entries.
Qed.

Lemma frame_entries_joined st st' :
  frame st st' -> entries_kept st st' ->
  joined_have_entries st -> joined_have_entries st'.
Proof.
  intros [He _] Hk Hj sid p' r Hp' Hr.
  destruct (He _ _ Hp') as (p & Hp & Hroom & _).
  apply Hk. apply (Hj sid p r Hp). congruence.
Qed.

Lemma on_connection_entries_joined sid rnd st :
  joined_have_entries st -> joined_have_entries (on_connection sid rnd st).1.
Proof.
  intros Hj sid' p r Hp Hr. simpl in Hp.
  destruct (decide (sid = sid')) as [<- | Hne].
  - rewrite lookup_insert_eq in Hp. injection Hp as <-. discriminate Hr.
  - rewrite lookup_insert_ne in Hp by done. exact (Hj _ _ _ Hp Hr).
Qed.

Lemma on_joinRoom_entries_joined sid dataRoomId now rnd st st' out :
  on_joinRoom sid dataRoomId now rnd st = Done (st', out) ->
  joined_have_entries st -> joined_have_entries st'.
Proof.
  intros Hjoin Hj.
  destruct (on_joinRoom_entries _ _ _ _ _ _ _ Hjoin) as [Hk [-> | Hentry]];
    [done |].
  apply on_joinRoom_shape in Hjoin
    as [-> | (player & player1 & rooms' & Hp & Hv & Hh & Hr & [He _])];
    [done |].
  intros sid' p' r Hp' Hr'.
  destruct (He _ _ Hp') as (p2 & Hp2 & Hroom & _).
  rewrite getRoomGameState_players in Hp2. simpl in Hp2.
  destruct (decide (sid = sid')) as [<- | Hne].
  - rewrite lookup_insert_eq in Hp2. injection Hp2 as <-.
    rewrite Hroom, Hr in Hr'. by injection Hr' as <-.
  - rewrite lookup_insert_ne in Hp2 by done.
    apply Hk. apply (Hj sid' p2 r Hp2). congruence.
Qed.

Lemma handle_entries_joined now rnd ev st st' out :
  handle now rnd ev st = Done (st', out) ->
  joined_have_entries st -> joined_have_entries st'.
Proof.
  destruct ev; simpl; intros Hstep Hj;
    try (apply Done_fst in Hstep as ->).
  - by apply on_connection_entries_joined.
  - eapply frame_entries_joined; [apply on_playerMove_frame | | done].
    apply entries_kept_same. unfold on_playerMove.
    destruct (players st !! sid); [| done].
    destruct pos; [| done]. by destruct rot.
  - eapply frame_entries_joined; [apply on_vehicleSelected_frame | | done].
    apply entries_kept_same. unfold on_vehicleSelected.
    by destruct (players st !! sid).
  - eapply frame_entries_joined;
      [apply on_playerDamaged_frame | apply on_playerDamaged_entries | done].
  - eapply frame_entries_joined; [apply on_playerLanded_frame | | done].
    apply entries_kept_same. unfold on_playerLanded.
    destruct (players st !! sid) as [p |]; [| done].
    by destruct (JS.truthy (room p)).
  - by eapply on_joinRoom_entries_joined.
  - eapply frame_entries_joined;
      [apply on_setNickname_frame | apply on_setNickname_entries | done].
  - by rewrite on_chatMessage_state.
  - eapply frame_entries_joined;
      [apply on_collectPowerup_frame | apply on_collectPowerup_entries | done].
  - eapply frame_entries_joined;
      [apply on_disconnect_frame | apply on_disconnect_entries | done].
  - eapply frame_entries_joined;
      [apply on_requestStandings_frame | apply on_requestStandings_entries
      | done].
  - eapply frame_entries_joined;
      [by eapply updateGameStates_frame | by eapply updateGameStates_entries
      | done].
  - eapply frame_entries_joined;
      [by eapply fireRestart_frame | by eapply fireRestart_entries | done].
Qed.

Lemma step_entries_joined now rnd ev st st' out :
  step now rnd ev st = Done (st', out) ->
  joined_have_entries st -> joined_have_entries st'.
Proof.
  intros Hstep. apply step_handle in Hstep as (c & _ & Hc).
  by eapply handle_entries_joined.
Qed.

Lemma reachable_entries st : reachable st -> joined_have_entries st.
Proof.
  induction 1 as [| st now rnd ev st' out _ IH Hstep].
  - intros sid p r Hp. simpl in Hp. by rewrite lookup_empty in Hp.
  - by eapply step_entries_joined.
Qed.

(** ** The round state under the key [null] is never started *)

Create Rewrite HintDb roomview.
#[local] Hint Rewrite theRoomState_putPlayer theRoomState_set_players
  theRoomState_set_rooms theRoomState_set_timers theRoomState_get : roomview.
#[local] Hint Rewrite theRoomState_put_ne using done : roomview.

Lemma startRound_null roomId now rnd st st' out :
  startRound roomId now rnd st = Done (st', out) ->
  theRoomState None st' = theRoomState None st.
Proof.
  unfold startRound.
  rewrite (surjective_pairing (getRoomGameState (Some roomId) st)).
  destruct (rooms _ !! roomId) as [room0 |]; [| done].
  destruct (mapM _ _) as [roster |]; [| done].
  intros [= <- _]. (simpl; autorewrite with roomview; try reflexivity).
Qed.

Lemma endRound_null roomId now st :
  theRoomState None (endRound roomId now st).1 = theRoomState None st.
Proof.
  unfold endRound.
  rewrite (surjective_pairing (getRoomGameState (Some roomId) st)). (simpl; autorewrite with roomview; try reflexivity).
Qed.

Lemma respawnPlayer_null roomId playerId now rnd st :
  theRoomState None (respawnPlayer roomId playerId now rnd st).1
  = theRoomState None st.
Proof.
  unfold respawnPlayer.
  rewrite (surjective_pairing (getRoomGameState (Some roomId) st)).
  destruct (players _ !! playerId) as [player |]; [| (simpl; autorewrite with roomview; try reflexivity)].
  destruct (respawningPlayers _ !! playerId); (simpl; autorewrite with roomview; try reflexivity).
Qed.

Lemma dropPowerup_null roomId now rnd st :
  theRoomState None (dropPowerup roomId now rnd st).1 = theRoomState None st.
Proof.
  unfold dropPowerup.
  rewrite (surjective_pairing (getRoomGameState (Some roomId) st)).
  case_decide; (simpl; autorewrite with roomview; try reflexivity).
Qed.

Lemma managePowerupDrops_null roomId now rnd st :
  theRoomState None (managePowerupDrops roomId now rnd st).1
  = theRoomState None st.
Proof.
  unfold managePowerupDrops.
  rewrite (surjective_pairing (getRoomGameState (Some roomId) st)).
  case_decide; [(simpl; autorewrite with roomview; try reflexivity) |].
  simpl. rewrite theRoomState_put_ne by done.
  case_decide; [rewrite dropPowerup_null |]; (simpl; autorewrite with roomview; try reflexivity).
Qed.

Lemma respawnDue_null roomId now rnd l acc :
  theRoomState None (foldl (respawnDue roomId now rnd) acc l).1
  = theRoomState None acc.1.
Proof.
  revert acc. induction l as [| e l IH]; intros acc; simpl; [done |].
  rewrite IH. unfold respawnDue. case_decide; [| done].
  by rewrite seqDone_fst, respawnPlayer_null.
Qed.

Lemma tickRoom_null now rnd roomId st st' out :
  tickRoom now rnd roomId st = Done (st', out) ->
  theRoomState None st' = theRoomState None st.
Proof.
  unfold tickRoom.
  destruct roomId as [r |]; [| by intros [= <- _]].
  destruct (gameStates st !! Some r) as [roomState |]; [| by intros [= <- _]].
  destruct (rooms st !! r); [| by intros [= <- _]].
  intros H. apply andThen_Done in H as (st1 & out1 & out2 & Hsw & Hrest & _).
  assert (H1 : theRoomState None st1 = theRoomState None st).
  { destruct (phase roomState).
    - case_decide; [by eapply startRound_null |].
      by injection Hsw as <- _.
    - case_decide.
      + apply Done_fst in Hsw as ->. apply endRound_null.
      + by injection Hsw as <- _.
    - by injection Hsw as <- _. }
  apply Done_fst in Hrest as ->.
  by rewrite seqDone_fst, managePowerupDrops_null, respawnDue_null.
Qed.

Lemma tickRooms_null now rnd keys o st' out :
  foldl (fun o roomId => andThen o (tickRoom now rnd roomId)) o keys
  = Done (st', out) ->
  exists st1 out1,
    o = Done (st1, out1) /\ theRoomState None st' = theRoomState None st1.
Proof.
  revert o st' out. induction keys as [| k keys IH]; intros o st' out; simpl.
  - intros ->. eauto.
  - intros H. apply IH in H as (st2 & out2 & H2 & Hf2).
    apply andThen_Done in H2 as (st1 & out1 & out1' & -> & Ht & _).
    exists st1, out1. split; [done |].
    rewrite Hf2. by eapply tickRoom_null.
Qed.

Lemma updateGameStates_null now rnd st st' out :
  updateGameStates now rnd st = Done (st', out) ->
  theRoomState None st' = theRoomState None st.
Proof.
  unfold updateGameStates. intros H.
  apply tickRooms_null in H as (st1 & out1 & Heq & Hf).
  by injection Heq as <- _.
Qed.

(** A damage event between roomless players never gets past the phase
    check, since the round state under [null] is in the waiting phase. *)
Lemma on_playerDamaged_null sid data now st :
  null_room_idle st ->
  theRoomState None (on_playerDamaged sid data now st).1
  = theRoomState None st.
Proof.
  intros Hidle. unfold on_playerDamaged.
  destruct (players st !! sid) as [a |]; [| done].
  destruct (players st !! targetPlayerId data) as [t |]; [| done].
  destruct (damage data) as [raw |]; [| done].
  destruct (JS.negative raw); [done |].
  destruct (negb _); [done |].
  rewrite (surjective_pairing (getRoomGameState (room a) st)).
  rewrite getRoomGameState_fst.
  destruct (room a) as [r |] eqn:Er.
  - destruct (negb _); [(simpl; autorewrite with roomview; try reflexivity) |].
    destruct (invulnerableAt now a); [(simpl; autorewrite with roomview; try reflexivity) |].
    destruct (invulnerableAt now t); [(simpl; autorewrite with roomview; try reflexivity) |].
    destruct (shieldedAt now t); [(simpl; autorewrite with roomview; try reflexivity) |].
    case_decide; (simpl; autorewrite with roomview; try reflexivity).
  - unfold null_room_idle in Hidle. rewrite Hidle.
    rewrite bool_decide_eq_false_2 by done. (simpl; autorewrite with roomview; try reflexivity). exact Hidle.
Qed.

Lemma on_setNickname_null sid n st :
  theRoomState None (on_setNickname sid n st).1 = theRoomState None st.
Proof.
  unfold on_setNickname.
  destruct (players st !! sid) as [player |]; [| done].
  destruct (JS.truthy n) as [nickname |]; [| done].
  destruct (JS.truthy (room player)) as [r |]; [| done].
  rewrite (surjective_pairing (getRoomGameState (Some r) _)). (simpl; autorewrite with roomview; try reflexivity).
Qed.

Lemma on_collectPowerup_null sid i now st :
  theRoomState None (on_collectPowerup sid i now st).1 = theRoomState None st.
Proof.
  unfold on_collectPowerup.
  destruct (players st !! sid) as [player |]; [| done].
  destruct (JS.truthy (room player)) as [r |]; [| done].
  rewrite (surjective_pairing (getRoomGameState (Some r) st)).
  destruct (powerups _ !! i) as [powerup |]; [| (simpl; autorewrite with roomview; try reflexivity)].
  destruct (collected powerup); (simpl; autorewrite with roomview; try reflexivity).
Qed.

Lemma on_requestStandings_null sid st :
  theRoomState None (on_requestStandings sid st).1 = theRoomState None st.
Proof.
  unfold on_requestStandings.
  destruct (players st !! sid) as [player |]; [| done].
  destruct (JS.truthy (room player)) as [r |]; [| done].
  rewrite (surjective_pairing (getRoomGameState (Some r) st)). (simpl; autorewrite with roomview; try reflexivity).
Qed.

Lemma on_disconnect_null sid st :
  theRoomState None (on_disconnect sid st).1 = theRoomState None st.
Proof.
  unfold on_disconnect. simpl.
  destruct (players st !! sid) as [player |]; [| done].
  by destruct (JS.truthy (room player)).
Qed.

Lemma syncJoiner_null sid roomId st :
  theRoomState None (syncJoiner sid roomId st).1 = theRoomState None st.
Proof. unfold syncJoiner. destruct (phase _); (simpl; autorewrite with roomview; try reflexivity). Qed.

Lemma on_joinRoom_null sid dataRoomId now rnd st st' out :
  on_joinRoom sid dataRoomId now rnd st = Done (st', out) ->
  theRoomState None st' = theRoomState None st.
Proof.
  unfold on_joinRoom.
  set (roomId := default "default" (JS.truthy dataRoomId)).
  case_decide; [| by intros [= <- _]].
  destruct (players st !! sid) as [player |]; [| by intros [= <- _]].
  rewrite (surjective_pairing (getRoomGameState (Some roomId) _)).
  intros Hjoin.
  apply andThen_Done in Hjoin as (st4 & out4 & out5 & Hfirst & Hrest & _).
  apply Done_fst in Hrest as ->.
  rewrite seqDone_fst. simpl. rewrite syncJoiner_null.
  case_decide.
  - apply andThen_Done in Hfirst as (st3 & out3 & out3' & Hd & Hs & _).
    injection Hd as <- _. rewrite (startRound_null _ _ _ _ _ _ Hs). (simpl; autorewrite with roomview; try reflexivity).
  - injection Hfirst as <- _. (simpl; autorewrite with roomview; try reflexivity).
Qed.

Lemma fireRestart_null t r now rnd st st' out :
  fireRestart t r now rnd st = Done (st', out) ->
  theRoomState None st' = theRoomState None st.
Proof.
  unfold fireRestart. case_decide.
  - intros Hstart. rewrite (startRound_null _ _ _ _ _ _ Hstart). (simpl; autorewrite with roomview; try reflexivity).
  - by intros [= <- _].
Qed.

Lemma handle_null now rnd ev st st' out :
  handle now rnd ev st = Done (st', out) ->
  null_room_idle st -> null_room_idle st'.
Proof.
  unfold null_room_idle.
  destruct ev; simpl; intros Hstep Hidle;
    try (apply Done_fst in Hstep as ->).
  - exact Hidle.
  - rewrite <- Hidle. unfold on_playerMove.
    destruct (players st !! sid); [| done].
    destruct pos; [| done]. by destruct rot.
  - rewrite <- Hidle. unfold on_vehicleSelected.
    by destruct (players st !! sid).
  - by rewrite on_playerDamaged_null.
  - rewrite <- Hidle. unfold on_playerLanded.
    destruct (players st !! sid) as [p |]; [| done].
    by destruct (JS.truthy (room p)).
  - by rewrite (on_joinRoom_null _ _ _ _ _ _ _ Hstep).
  - by rewrite on_setNickname_null.
  - by rewrite on_chatMessage_state.
  - by rewrite on_collectPowerup_null.
  - by rewrite on_disconnect_null.
  - by rewrite on_requestStandings_null.
  - by rewrite (updateGameStates_null _ _ _ _ _ Hstep).
  - by rewrite (fireRestart_null _ _ _ _ _ _ _ Hstep).
Qed.

Lemma step_null now rnd ev st st' out :
  step now rnd ev st = Done (st', out) ->
  null_room_idle st -> null_room_idle st'.
Proof.
  intros Hstep. apply step_handle in Hstep as (c & _ & Hc).
  by eapply handle_null.
Qed.

Lemma reachable_null st : reachable st -> null_room_idle st.
Proof.
  induction 1 as [| st now rnd ev st' out _ IH Hstep].
  - reflexivity.
  - by eapply step_null.
Qed.

(** ** Consequences of the invariants *)

(** In a reachable state an accepted damage event comes from a player who
    has joined a room: the round state under [null] is never playing. *)
Lemma accepted_has_room sid data now st a t raw :
  reachable st -> damage_accepted sid data now st a t raw ->
  exists r, room a = Some r.
Proof.
  intros Hreach Hacc. destruct (room a) as [r |] eqn:Er; [eauto |].
  pose proof (acc_phase _ _ _ _ _ _ _ Hacc) as Hp.
  rewrite Er, (reachable_null st Hreach) in Hp. discriminate Hp.
Qed.

(** The counters after an accepted monster event that destroys the target. *)
Lemma monster_kill_leaderboard sid data now st a t raw :
  damage_accepted sid data now st a t raw ->
  collisionType data = Some "monster" ->
  JS.le (JS.Math_max (JS.int 0) (JS.sub (health t) (finalDamageOf data raw a t)))
    (JS.int 0) = true ->
  leaderboard (theRoomState (room a) (on_playerDamaged sid data now st).1)
  = alter incDeaths (targetPlayerId data)
      (alter incKills sid (leaderboard (theRoomState (room a) st))).
Proof.
  intros Hacc Hm Hkill.
  assert (HM : isMonster data = true)
    by (unfold isMonster; by apply bool_decide_eq_true).
  rewrite (on_playerDamaged_accepted_room _ _ _ _ _ _ _ Hacc), HM.
  by rewrite decide_True by done.
Qed.

Lemma on_vehicleSelected_player sid v st p :
  players st !! sid = Some p ->
  players (on_vehicleSelected sid v st).1 !! sid
  = Some (set_health
            (JS.Math_min (health p)
               (JS.int (maxHealth (presets (parseVehicleId v)))))
            (set_vehicle (presets (parseVehicleId v)) p)).
Proof.
  intros Hp. unfold on_vehicleSelected. rewrite Hp. simpl.
  by rewrite lookup_insert_eq.
Qed.

Lemma on_collectPowerup_heal sid i now st p r pw :
  players st !! sid = Some p ->
  JS.truthy (room p) = Some r ->
  powerups (theRoomState (Some r) st) !! i = Some pw ->
  collected pw = false ->
  pw_type pw = pw_health ->
  players (on_collectPowerup sid i now st).1 !! sid
  = Some (set_health
            (JS.Math_min (JS.int (maxHealthOr100 p))
               (JS.add (health p) (JS.int 40))) p).
Proof.
  intros Hp Hr Hpw Hc Hty. unfold on_collectPowerup. rewrite Hp, Hr.
  rewrite (surjective_pairing (getRoomGameState (Some r) st)).
  rewrite getRoomGameState_fst, Hpw, Hc, Hty. simpl.
  by rewrite lookup_insert_eq.
Qed.

(** * The claims of the specification *)

(** ** C1: a rejected damage event *)

(** C1 fails in the code.  A player who has joined no room reports damage
    to itself: its room and the target's are both [null], so the same-room
    check passes, and the handler fetches the round state of the room
    [null] before the phase check rejects the event.  The fetch creates
    that record: the rejected event has changed the game state.  The
    handlers [setNickname], [collectPowerup] and [requestStandings] test
    [player.room] before they fetch a round state; [playerDamaged] does
    not. *)
Theorem rejected_damage_creates_round_state :
  let data :=
    {| damage := Some (JS.int 10); targetPlayerId := "a";
       collisionType := None |} in
  let st := Scenario.roomless in
  reachable st /\
  damage_rejected "a" data 5000 st /\
  gameStates st !! None = None /\
  step 5000 Scenario.rnd (PlayerDamaged "a" (Some data)) st
  = Done (initializeRoomGameState None st, []) /\
  gameStates (initializeRoomGameState None st) !! None
  = Some initialRoomState /\
  initializeRoomGameState None st ≠ st.
Proof.
  intros data st.
  assert (H1 : gameStates st !! None = None) by (vm_compute; reflexivity).
  assert (H2 : gameStates (initializeRoomGameState None st) !! None
               = Some initialRoomState)
    by (vm_compute; reflexivity).
  split; [apply after_reachable |].
  split; [vm_compute; right; right; left; discriminate |].
  split; [exact H1 |].
  split; [vm_compute; reflexivity |].
  split; [exact H2 |].
  intros E. rewrite E in H2. rewrite H1 in H2. discriminate H2.
Qed.

(** ** C2: the applied damage *)

(** C2. For an accepted damage event of collision type monster the applied
    damage is round(maxHealth of the target's vehicle x 0.20), whatever the
    raw damage and the multipliers, and 26 against a tank (maxHealth 130);
    for every other accepted event it is
    max(0, round(raw x attacker.damageDealtMultiplier x
    target.damageTakenMultiplier)), the products being those of binary64
    arithmetic, taken from left to right.  The applied damage is the one
    the broadcast reports and the one taken off the target's health. *)
Theorem applied_damage_formula sid data now st a t raw :
  damage_accepted sid data now st a t raw ->
  0 <= maxHealth (vehicle t) ->
  let applied :=
    if decide (collisionType data = Some "monster")
    then JS.Math_round
           (JS.mul (JS.int (maxHealth (vehicle t))) (JS.lit (20 # 100)%Q))
    else JS.Math_max (JS.int 0)
           (JS.Math_round
              (JS.mul (JS.mul raw (damageDealtMultiplier (vehicle a)))
                 (damageTakenMultiplier (vehicle t)))) in
  let newHealth := JS.Math_max (JS.int 0) (JS.sub (health t) applied) in
  (exists attackerId rest,
      (on_playerDamaged sid data now st).2 =
      (io_to (room a),
       Out.playerDamaged (targetPlayerId data) newHealth applied
         (reportedType data) attackerId) :: rest) /\
  health <$> players (on_playerDamaged sid data now st).1 !! targetPlayerId data
  = Some newHealth /\
  (collisionType data = Some "monster" -> maxHealth (vehicle t) = 130 ->
   applied = JS.int 26).
Proof.
  intros Hacc Hmax applied newHealth.
  assert (Hfd : finalDamageOf data raw a t = applied).
  { unfold finalDamageOf, isMonster, applied.
    destruct (decide (collisionType data = Some "monster")) as [Hm | Hm].
    - rewrite bool_decide_eq_true_2 by done. apply monster_damage_nonneg, Hmax.
    - by rewrite bool_decide_eq_false_2 by done. }
  unfold newHealth.
  split; [| split].
  - rewrite (on_playerDamaged_accepted _ _ _ _ _ _ _ Hacc), Hfd.
    case_decide; simpl; eauto.
  - rewrite (on_playerDamaged_accepted_players _ _ _ _ _ _ _ Hacc), Hfd.
    by rewrite lookup_insert_eq.
  - intros Hm H130. unfold applied.
    rewrite decide_True by done. rewrite H130. vm_compute. reflexivity.
Qed.

(** The products are those of the doubles.  A raw damage of
    3.0701754385964914 from a sport car to a sport car is multiplied to
    3.4999999999999996 and applied as 3, where the product of the three
    decimal numbers, just above 3.5, would round to 4; a raw damage of 2^53
    is applied as 10268207150404730, one less than the rounded product of
    the decimal numbers. *)
Lemma applied_damage_is_binary64 :
  let a := set_vehicle (presets sport) (newPlayer "a" Scenario.rnd) in
  let raw := (30701754385964914 # 10000000000000000)%Q in
  let data := Scenario.hit raw "a" "side" in
  JS.mul (JS.mul (JS.lit raw) (damageDealtMultiplier (vehicle a)))
    (damageTakenMultiplier (vehicle a))
  = JS.Num (7881299347898367 # 2251799813685248)%Q /\
  finalDamageOf data (JS.lit raw) a a = JS.int 3 /\
  Qfloor (Qplus (Qmult (Qmult raw (95 # 100)) (12 # 10)) (1 # 2)) = 4 /\
  finalDamageOf data (JS.int (2 ^ 53)) a a = JS.int 10268207150404730 /\
  Qfloor (Qplus (Qmult (Qmult (inject_Z (2 ^ 53)) (95 # 100)) (12 # 10))
            (1 # 2))
  = 10268207150404731.
Proof. vm_compute. by repeat split. Qed.

Lemma applied_damage_formula_witness :
  let st := Scenario.two_players in
  let data := Scenario.hit (999 # 1) "b" "monster" in
  health <$> players (on_playerDamaged "b" data 20000 st).1 !! "b"
  = Some (JS.int 74).
Proof.
  intros st data.
  destruct (applied_damage_formula "b" data 20000 st
              (Scenario.player "b" st) (Scenario.player "b" st)
              (JS.lit (999 # 1)))
    as (_ & H & _).
  - constructor.
    + vm_compute; reflexivity.
    + vm_compute; reflexivity.
    + reflexivity.
    + vm_compute; reflexivity.
    + reflexivity.
    + vm_compute; reflexivity.
    + by vm_compute.
    + by vm_compute.
    + intros s Hs. vm_compute in Hs. discriminate Hs.
  - by vm_compute.
  - vm_compute in H. vm_compute. exact H.
Defined.

(** ** C3: health stays within its bounds *)

(** C3 fails in the code.  The guard of [playerDamaged],
    [data.damage === undefined || data.damage < 0], lets through a damage
    that is not a number: ['x'], an object or [[1,2]] compare false with 0.
    The products and the difference that follow are NaN, [Math.max(0, NaN)]
    is NaN, and the target's health is NaN: neither at least 0 nor at most
    the vehicle's maximum.  [Math.min] keeps it NaN at the next vehicle
    change and at the next health powerup. *)
Theorem health_not_a_number :
  let data :=
    {| damage := Some JS.NaN; targetPlayerId := "b"; collisionType := None |} in
  let st := Scenario.two_players in
  reachable st /\
  (exists a t, damage_accepted "a" data 20000 st a t JS.NaN) /\
  exists st' out,
    step 20000 Scenario.rnd (PlayerDamaged "a" (Some data)) st
    = Done (st', out) /\
    reachable st' /\
    let b := Scenario.player "b" st' in
    health b = JS.NaN /\
    JS.le (JS.int 0) (health b) = false /\
    JS.le (health b) (JS.int (maxHealth (vehicle b))) = false /\
    health (Scenario.player "b" (on_vehicleSelected "b" (Some "sport") st').1)
    = JS.NaN.
Proof.
  intros data st.
  assert (Hreach : reachable st) by apply after_reachable.
  split; [exact Hreach |]. split.
  - exists (Scenario.player "a" st), (Scenario.player "b" st). constructor.
    + vm_compute; reflexivity.
    + vm_compute; reflexivity.
    + reflexivity.
    + reflexivity.
    + reflexivity.
    + vm_compute; reflexivity.
    + by vm_compute.
    + by vm_compute.
    + intros s Hs. vm_compute in Hs. discriminate Hs.
  - assert (Hstep :
      step 20000 Scenario.rnd (PlayerDamaged "a" (Some data)) st
      = Done ((on_playerDamaged "a" data 20000 st).1,
              (on_playerDamaged "a" data 20000 st).2))
      by (vm_compute; reflexivity).
    eexists _, _. split; [exact Hstep |].
    split; [exact (reachable_step _ _ _ _ _ _ Hreach Hstep) |].
    repeat split; vm_compute; reflexivity.
Qed.

(** ** C4: what a disconnect removes *)

(** C4, as the code has it.  A disconnect deletes the player's registry
    entry and takes the player off the membership list of its room; every
    round state, and with it activePlayers, respawningPlayers and the
    leaderboard of that room, stays exactly as it was. *)
Theorem disconnect_effect sid st :
  let st' := (on_disconnect sid st).1 in
  players st' = delete sid (players st) /\
  gameStates st' = gameStates st /\
  timers st' = timers st /\
  (forall player r members,
     players st !! sid = Some player ->
     JS.truthy (room player) = Some r ->
     rooms st !! r = Some members ->
     membersOf st' (Some r) = JS.remove_first sid members /\
     (NoDup members -> sid ∉ membersOf st' (Some r))).
Proof.
  intros st'. subst st'. split; [| split; [| split]].
  - unfold on_disconnect. simpl.
    destruct (players st !! sid) as [player |]; [| done].
    by destruct (JS.truthy (room player)).
  - unfold on_disconnect. simpl.
    destruct (players st !! sid) as [player |]; [| done].
    by destruct (JS.truthy (room player)).
  - unfold on_disconnect. simpl.
    destruct (players st !! sid) as [player |]; [| done].
    by destruct (JS.truthy (room player)).
  - intros player r members Hp Hr Hm.
    rewrite (on_disconnect_members _ _ _ _ _ Hp Hr Hm).
    split; [done | apply remove_first_NoDup].
Qed.

Lemma disconnect_effect_witness :
  let st' := (on_disconnect "a" Scenario.two_players).1 in
  membersOf st' (Some "r1") = ["b"] /\
  gameStates st' = gameStates Scenario.two_players.
Proof.
  intros st'.
  destruct (disconnect_effect "a" Scenario.two_players) as (_ & Hg & _ & Hm).
  destruct (Hm (Scenario.player "a" Scenario.two_players) "r1" ["a"; "b"])
    as [Hmem _].
  - vm_compute; reflexivity.
  - vm_compute; reflexivity.
  - vm_compute; reflexivity.
  - split; [exact Hmem | exact Hg].
Defined.

(** C4 as stated fails.  After a's disconnect, a is still in the
    activePlayers of r1 though no longer a member; and b, destroyed and
    waiting for its respawn, stays in respawningPlayers after its own
    disconnect. *)
Lemma disconnect_keeps_round_entries :
  (let st' := (on_disconnect "a" Scenario.two_players).1 in
   players st' !! "a" = None /\
   membersOf st' (Some "r1") = ["b"] /\
   elements (activePlayers (theRoomState (Some "r1") st')) = ["a"; "b"]) /\
  (let st' := (on_disconnect "b" Scenario.b_destroyed).1 in
   players st' !! "b" = None /\
   membersOf st' (Some "r1") = ["a"] /\
   respawningPlayers (theRoomState (Some "r1") st') !! "b" = Some 23000).
Proof. by vm_compute. Qed.

(** ** C5: the chat relay *)

(** C5 on the code.  Both [chatMessage] listeners of a socket run for one
    inbound message.  With a and b in r1 and a sending a short message with
    blanks around it, b receives it twice, trimmed and as sent, and a gets
    its own message back. *)
Lemma chat_relayed_twice_and_echoed :
  let st := Scenario.two_players in
  let out := (on_chatMessage "a" (Some "  hi  ") st).2 in
  out = [(socket_to "a" (Some "r1"), Out.chatMessage "a" "Player_a" "hi" false);
         (io_to (Some "r1"), Out.chatMessage "a" "Player_a" "  hi  " false)] /\
  chatDeliveries st out "b" = ["hi"; "  hi  "] /\
  chatDeliveries st out "a" = ["  hi  "].
Proof. by vm_compute. Qed.

(** X2. What an inbound chat message of a player in a room emits: the
    relay of the first listener to the other sockets, trimmed and cut to
    200 characters, and then, when the message as sent has at most 200
    characters, the broadcast of the second listener to the whole room. *)
Lemma chat_message_emissions sid m st player message r :
  players st !! sid = Some player ->
  JS.truthy m = Some message ->
  JS.truthy (room player) = Some r ->
  (on_chatMessage sid m st).2 =
  (socket_to sid (Some r),
   Out.chatMessage sid (displayName sid player)
     (JS.substring0 200 (JS.trim message)) false)
  :: (if decide (String.length message <= 200)%nat
      then [(io_to (Some r), Out.chatMessage sid (name player) message false)]
      else []).
Proof.
  intros Hp Hm Hr. unfold on_chatMessage.
  rewrite seqDone_snd, on_chatMessage_first_state.
  unfold on_chatMessage_first, on_chatMessage_second.
  rewrite Hp, Hm, Hr. simpl. by case_decide.
Qed.

Lemma chat_message_emissions_witness :
  (on_chatMessage "a" (Some "  hi  ") Scenario.two_players).2 =
  [(socket_to "a" (Some "r1"), Out.chatMessage "a" "Player_a" "hi" false);
   (io_to (Some "r1"), Out.chatMessage "a" "Player_a" "  hi  " false)].
Proof.
  rewrite (chat_message_emissions "a" (Some "  hi  ") Scenario.two_players
             (Scenario.player "a" Scenario.two_players) "  hi  " "r1").
  - vm_compute; reflexivity.
  - vm_compute; reflexivity.
  - reflexivity.
  - vm_compute; reflexivity.
Defined.

(** ** C6: the delayed callbacks *)

(** C6 on the code.  A player joins r1 alone, the round ends at the tick
    of 250 s and schedules the restart for 270 s, the player disconnects at
    260 s (which deletes r1), and the restart one-shot then throws. *)
Lemma restart_of_deleted_room_throws :
  let evs := Scenario.round_over ++ [Scenario.at_time 260000 (Disconnect "a")] in
  timers (Scenario.after evs) = [(270000, "r1")] /\
  rooms (Scenario.after evs) !! "r1" = None /\
  run (evs ++ [Scenario.at_time 270000 (RestartTimer 270000 "r1")]) boot
  = Uncaught.
Proof. by vm_compute. Qed.


(** ** C7: when a powerup is dropped *)

(** C7. A call of [managePowerupDrops] for a room (the tick makes one per
    room) drops a powerup exactly when the room's phase is playing, it has
    at least 2 active players and
    now - lastPowerupDrop >= max(15000, 30000 - (count - 2) * 2500); so a
    room with fewer than 2 active players never gets one. *)
Theorem powerup_spawn_condition roomId now rnd st :
  let rs := theRoomState (Some roomId) st in
  let activePlayerCount := Z.of_nat (size (activePlayers rs)) in
  (existsb isPowerupDropped (managePowerupDrops roomId now rnd st).2 = true <->
   phase rs = playing /\ 2 <= activePlayerCount /\
   now - lastPowerupDrop rs
   >= Z.max 15000 (30000 - (activePlayerCount - 2) * 2500)) /\
  (activePlayerCount < 2 ->
   existsb isPowerupDropped (managePowerupDrops roomId now rnd st).2 = false).
Proof.
  intros rs activePlayerCount.
  assert (Hiff :
    existsb isPowerupDropped (managePowerupDrops roomId now rnd st).2 = true <->
    phase rs = playing /\ 2 <= activePlayerCount /\
    now - lastPowerupDrop rs
    >= Z.max 15000 (30000 - (activePlayerCount - 2) * 2500)).
  { unfold managePowerupDrops.
    rewrite (surjective_pairing (getRoomGameState (Some roomId) st)).
    rewrite getRoomGameState_fst. fold rs. fold activePlayerCount.
    case_decide as Hguard; simpl.
    - split; [done |]. intros (Hp & Hc & _). destruct Hguard; [done | lia].
    - rewrite existsb_app, sweepPowerup_no_drop. simpl. rewrite orb_false_r.
      unfold getPowerupDropInterval.
      case_decide as Htime; simpl.
      + rewrite dropPowerup_emits, theRoomState_get. fold rs.
        fold activePlayerCount.
        split; [intros Hc | tauto].
        split; [| done].
        destruct (decide (phase rs = playing)); [done |].
        exfalso. apply Hguard. by left.
      + split; [done | tauto]. }
  split; [exact Hiff |].
  intros Hlt.
  apply not_true_is_false. intros E.
  apply Hiff in E. lia.
Qed.

Lemma powerup_spawn_condition_witness :
  existsb isPowerupDropped
    (managePowerupDrops "r1" 40000 Scenario.rnd Scenario.two_players).2 = true /\
  phase (theRoomState (Some "r1") Scenario.two_players) = playing.
Proof.
  destruct (powerup_spawn_condition "r1" 40000 Scenario.rnd Scenario.two_players)
    as [[Hto _] _].
  assert (E : existsb isPowerupDropped
                (managePowerupDrops "r1" 40000 Scenario.rnd
                   Scenario.two_players).2 = true)
    by (vm_compute; reflexivity).
  split; [exact E | exact (proj1 (Hto E))].
Defined.

(** ** C8: collecting a powerup twice *)

(** C8. Once a collection request for a powerup id has succeeded, every
    later request for that id, from any socket, at any time and after any
    further events, changes nothing and emits nothing: no second
    powerupCollected, no second heal or shield.  The id is taken to name
    one powerup only: it names one at the time of the first request, and no
    later drop issues it again. *)
Theorem collect_again_is_noop st sid i now evs st2 out2 sid2 now2 :
  reachable st ->
  powerup_id_unique st i ->
  let first := on_collectPowerup sid i now st in
  existsb isPowerupCollected first.2 = true ->
  run evs first.1 = Done (st2, out2) ->
  existsb (isDropOf i) out2 = false ->
  on_collectPowerup sid2 i now2 st2 = (st2, []).
Proof.
  intros Hreach Huniq first Hdone Hrun Hquiet.
  assert (Habs : absent i st2).
  { eapply run_absent; [exact Hrun | | exact Hquiet].
    by apply on_collectPowerup_makes_absent. }
  assert (Hinv : invariant st2).
  { eapply run_invariant; [exact Hrun |].
    eapply frame_invariant; [apply on_collectPowerup_frame |].
    by apply reachable_invariant. }
  destruct Hinv as [_ Hj].
  apply on_collectPowerup_absent. intros p2 r2 Hp2 Hr2.
  apply truthy_Some in Hr2.
  split; [exact (Hj _ _ _ Hp2 Hr2) | apply Habs].
Qed.

Lemma collect_again_is_noop_witness :
  let i := "powerup_k3x9q0z1a_40000" in
  let first := on_collectPowerup "a" i 45000 Scenario.with_powerup in
  let later :=
    [Scenario.at_time 45500 Tick;
     Scenario.at_time 45600 (PlayerLanded "b")] in
  let st2 := match run later first.1 with Done p => p.1 | Uncaught => boot end in
  existsb isPowerupCollected first.2 = true /\
  on_collectPowerup "b" i 46000 st2 = (st2, []).
Proof.
  intros i first later st2.
  assert (Hdone : existsb isPowerupCollected first.2 = true)
    by (vm_compute; reflexivity).
  split; [exact Hdone |].
  apply (collect_again_is_noop Scenario.with_powerup "a" i 45000 later st2
           match run later first.1 with Done p => p.2 | Uncaught => [] end
           "b" 46000).
  - apply after_reachable.
  - apply (bool_decide_unpack _). by vm_compute.
  - exact Hdone.
  - vm_compute; reflexivity.
  - vm_compute; reflexivity.
Defined.

(** ** C9: deletion of an empty room *)

(** C9, as the code has it.  When the last member of a room disconnects,
    the room's entry of [gameState.rooms] is deleted, whatever the room's
    name, the default room included; the round state of the room is kept. *)
Theorem last_disconnect_deletes_room sid st player r :
  players st !! sid = Some player ->
  JS.truthy (room player) = Some r ->
  rooms st !! r = Some [sid] ->
  let st' := (on_disconnect sid st).1 in
  rooms st' = delete r (rooms st) /\
  rooms st' !! r = None /\
  gameStates st' = gameStates st.
Proof.
  intros Hp Hr Hm st'. subst st'.
  unfold on_disconnect. rewrite Hp, Hr, Hm.
  assert (Hrm : JS.remove_first sid [sid] = []).
  { simpl. by rewrite decide_True. }
  rewrite decide_True by set_solver. rewrite Hrm. simpl.
  split; [done |]. split; [apply lookup_delete_eq | done].
Qed.

Lemma last_disconnect_deletes_room_witness :
  let st := Scenario.after Scenario.alone_in_default in
  rooms (on_disconnect "a" st).1 !! "default" = None.
Proof.
  intros st.
  destruct (last_disconnect_deletes_room "a" st (Scenario.player "a" st)
              "default") as (_ & H & _).
  - vm_compute; reflexivity.
  - vm_compute; reflexivity.
  - vm_compute; reflexivity.
  - exact H.
Defined.

(** C9 as stated fails in both directions.  The default room, created
    empty at boot, is deleted when its only member disconnects; and room
    r1 is kept, empty, when its only member leaves it by joining r2. *)
Lemma default_room_is_deleted :
  rooms boot !! "default" = Some [] /\
  (let st := Scenario.after Scenario.alone_in_default in
   rooms st !! "default" = Some ["a"] /\
   rooms (on_disconnect "a" st).1 !! "default" = None) /\
  rooms Scenario.moved_on !! "r1" = Some [].
Proof. by vm_compute. Qed.

(** ** C10: a monster kill *)

(** C10. In a reachable state, an accepted monster event that takes the
    target's health to 0 increments the kills counter of the sender's
    leaderboard entry and the deaths counter of the target's entry (both
    entries exist), while the sender's damageDealt stays as it was and the
    damage broadcast names "monster" as the attacker. *)
Theorem monster_kill_credits_sender sid data now st a t raw :
  reachable st ->
  damage_accepted sid data now st a t raw ->
  collisionType data = Some "monster" ->
  JS.le (JS.Math_max (JS.int 0) (JS.sub (health t) (finalDamageOf data raw a t)))
    (JS.int 0) = true ->
  let before := leaderboard (theRoomState (room a) st) in
  let result := on_playerDamaged sid data now st in
  let after := leaderboard (theRoomState (room a) result.1) in
  (exists s s', before !! sid = Some s /\ after !! sid = Some s' /\
                kills s' = kills s + 1 /\ damageDealt s' = damageDealt s) /\
  (exists s s', before !! targetPlayerId data = Some s /\
                after !! targetPlayerId data = Some s' /\
                deaths s' = deaths s + 1) /\
  (exists hp dmg ty rest,
     result.2 =
     (io_to (room a),
      Out.playerDamaged (targetPlayerId data) hp dmg ty "monster") :: rest).
Proof.
  intros Hreach Hacc Hm Hkill before result after.
  assert (Hafter : after =
            alter incDeaths (targetPlayerId data) (alter incKills sid before))
    by (by apply (monster_kill_leaderboard sid data now st a t raw)).
  destruct (accepted_has_room _ _ _ _ _ _ _ Hreach Hacc) as [r Hr].
  pose proof (reachable_entries st Hreach) as Hent.
  destruct (Hent _ _ _ (acc_attacker _ _ _ _ _ _ _ Hacc) Hr) as [s Hs].
  assert (Hrt : room t = Some r)
    by (by rewrite <- (acc_room _ _ _ _ _ _ _ Hacc)).
  destruct (Hent _ _ _ (acc_target _ _ _ _ _ _ _ Hacc) Hrt) as [s2 Hs2].
  rewrite <- Hr in Hs, Hs2. fold before in Hs, Hs2.
  split; [| split].
  - exists s. rewrite Hafter.
    destruct (decide (targetPlayerId data = sid)) as [-> | Hne].
    + exists (incDeaths (incKills s)).
      by rewrite !lookup_alter_eq, Hs.
    + exists (incKills s).
      by rewrite lookup_alter_ne, lookup_alter_eq, Hs.
  - exists s2. rewrite Hafter.
    destruct (decide (sid = targetPlayerId data)) as [-> | Hne].
    + exists (incDeaths (incKills s2)).
      by rewrite !lookup_alter_eq, Hs2.
    + exists (incDeaths s2).
      by rewrite lookup_alter_eq, lookup_alter_ne, Hs2.
  - unfold result. rewrite (on_playerDamaged_accepted _ _ _ _ _ _ _ Hacc).
    assert (HM : isMonster data = true)
      by (unfold isMonster; by apply bool_decide_eq_true).
    rewrite HM. case_decide; simpl; eauto 6.
Qed.

Lemma monster_kill_credits_sender_witness :
  let st := Scenario.wounded in
  let data := Scenario.hit (5 # 1) "b" "monster" in
  let result := on_playerDamaged "b" data 21000 st in
  kills <$> leaderboard (theRoomState (Some "r1") result.1) !! "b" = Some 1.
Proof.
  intros st data result.
  destruct (monster_kill_credits_sender "b" data 21000 st
              (Scenario.player "b" st) (Scenario.player "b" st)
              (JS.lit (5 # 1)))
    as ((s & s' & Hs & Hs' & Hk & _) & _ & _).
  - apply after_reachable.
  - constructor.
    + vm_compute; reflexivity.
    + vm_compute; reflexivity.
    + reflexivity.
    + by vm_compute.
    + reflexivity.
    + vm_compute; reflexivity.
    + by vm_compute.
    + by vm_compute.
    + intros u Hu. vm_compute in Hu. discriminate Hu.
  - reflexivity.
  - by vm_compute.
  - change (kills <$> leaderboard
              (theRoomState (room (Scenario.player "b" st)) result.1) !! "b"
            = Some 1).
    unfold result. rewrite Hs'. simpl. rewrite Hk.
    assert (E : leaderboard (theRoomState (room (Scenario.player "b" st)) st)
                !! "b" = Some (newStats "Player_b"))
      by (vm_compute; reflexivity).
    rewrite E in Hs. by injection Hs as <-.
Defined.

(** * Further properties of the engine *)

(** ** The pace of the powerup drops *)

(** X3. [getPowerupDropInterval] never leaves the range from 15 to 30
    seconds once there are two players, falls by 2.5 seconds per player
    from 30 seconds at two players to 15 seconds at eight, stays at 15
    seconds from there on, and never grows with the player count. *)
Theorem drop_interval_shape (n : Z) :
  (2 <= n -> 15000 <= getPowerupDropInterval n <= 30000) /\
  (2 <= n <= 8 -> getPowerupDropInterval n = 30000 - 2500 * (n - 2)) /\
  (8 <= n -> getPowerupDropInterval n = 15000) /\
  (forall m, n <= m -> getPowerupDropInterval m <= getPowerupDropInterval n).
Proof.
  unfold getPowerupDropInterval. repeat split; intros; lia.
Qed.

(** ** Membership lists *)

Lemma rooms_putRoomState k rs st : rooms (putRoomState k rs st) = rooms st.
Proof. reflexivity. Qed.

Lemma rooms_putPlayer sid p st : rooms (putPlayer sid p st) = rooms st.
Proof. reflexivity. Qed.

Lemma rooms_set_players ps st : rooms (set_players ps st) = rooms st.
Proof. reflexivity. Qed.

Lemma rooms_set_timers v st : rooms (set_timers v st) = rooms st.
Proof. reflexivity. Qed.

Create Rewrite HintDb roomsview.
#[local] Hint Rewrite rooms_putRoomState rooms_putPlayer rooms_set_players
  rooms_set_timers getRoomGameState_rooms : roomsview.

Lemma startRound_rooms roomId now rnd st st' out :
  startRound roomId now rnd st = Done (st', out) -> rooms st' = rooms st.
Proof.
  unfold startRound.
  rewrite (surjective_pairing (getRoomGameState (Some roomId) st)).
  destruct (rooms _ !! roomId) as [room0 |]; [| done].
  destruct (mapM _ _) as [roster |]; [| done].
  intros [= <- _]. by (simpl; autorewrite with roomsview).
Qed.

Lemma endRound_rooms roomId now st :
  rooms (endRound roomId now st).1 = rooms st.
Proof.
  unfold endRound.
  rewrite (surjective_pairing (getRoomGameState (Some roomId) st)). simpl.
  by (simpl; autorewrite with roomsview).
Qed.

Lemma respawnPlayer_rooms roomId playerId now rnd st :
  rooms (respawnPlayer roomId playerId now rnd st).1 = rooms st.
Proof.
  unfold respawnPlayer.
  rewrite (surjective_pairing (getRoomGameState (Some roomId) st)).
  destruct (players _ !! playerId) as [player |];
    [| by (simpl; autorewrite with roomsview)].
  destruct (respawningPlayers _ !! playerId); simpl;
    by (simpl; autorewrite with roomsview).
Qed.

Lemma dropPowerup_rooms roomId now rnd st :
  rooms (dropPowerup roomId now rnd st).1 = rooms st.
Proof.
  unfold dropPowerup.
  rewrite (surjective_pairing (getRoomGameState (Some roomId) st)).
  case_decide; simpl; by (simpl; autorewrite with roomsview).
Qed.

Lemma managePowerupDrops_rooms roomId now rnd st :
  rooms (managePowerupDrops roomId now rnd st).1 = rooms st.
Proof.
  unfold managePowerupDrops.
  rewrite (surjective_pairing (getRoomGameState (Some roomId) st)).
  case_decide; simpl; [by (simpl; autorewrite with roomsview) |].
  case_decide; simpl; rewrite ?dropPowerup_rooms;
    by (simpl; autorewrite with roomsview).
Qed.

Lemma respawnDue_rooms roomId now rnd l acc :
  rooms (foldl (respawnDue roomId now rnd) acc l).1 = rooms acc.1.
Proof.
  revert acc. induction l as [| e l IH]; intros acc; simpl; [done |].
  rewrite IH. unfold respawnDue. case_decide; [| done].
  by rewrite seqDone_fst, respawnPlayer_rooms.
Qed.

Lemma tickRoom_rooms now rnd roomId st st' out :
  tickRoom now rnd roomId st = Done (st', out) -> rooms st' = rooms st.
Proof.
  unfold tickRoom.
  destruct roomId as [r |]; [| by intros [= <- _]].
  destruct (gameStates st !! Some r) as [roomState |]; [| by intros [= <- _]].
  destruct (rooms st !! r) eqn:Er; [| by intros [= <- _]].
  intros H. apply andThen_Done in H as (st1 & out1 & out2 & Hsw & Hrest & _).
  assert (H1 : rooms st1 = rooms st).
  { destruct (phase roomState).
    - case_decide; [by eapply startRound_rooms |].
      by injection Hsw as <- _.
    - case_decide.
      + apply Done_fst in Hsw as ->. apply endRound_rooms.
      + by injection Hsw as <- _.
    - by injection Hsw as <- _. }
  apply Done_fst in Hrest as ->.
  by rewrite seqDone_fst, managePowerupDrops_rooms, respawnDue_rooms.
Qed.

Lemma tickRooms_rooms now rnd keys o st' out :
  foldl (fun o roomId => andThen o (tickRoom now rnd roomId)) o keys
  = Done (st', out) ->
  exists st1 out1, o = Done (st1, out1) /\ rooms st' = rooms st1.
Proof.
  revert o st' out. induction keys as [| k keys IH]; intros o st' out; simpl.
  - intros ->. eauto.
  - intros H. apply IH in H as (st2 & out2 & H2 & Hf2).
    apply andThen_Done in H2 as (st1 & out1 & out1' & -> & Ht & _).
    exists st1, out1. split; [done |].
    rewrite Hf2. by eapply tickRoom_rooms.
Qed.

Lemma updateGameStates_rooms now rnd st st' out :
  updateGameStates now rnd st = Done (st', out) -> rooms st' = rooms st.
Proof.
  unfold updateGameStates. intros H.
  apply tickRooms_rooms in H as (st1 & out1 & Heq & Hf).
  by injection Heq as <- _.
Qed.

Lemma on_playerDamaged_rooms sid data now st :
  rooms (on_playerDamaged sid data now st).1 = rooms st.
Proof.
  destruct (accepted_or_rejected sid data now st)
    as [Hrej | (a & t & raw & Hacc)].
  - unfold on_playerDamaged.
    destruct (players st !! sid) as [a |]; [| done].
    destruct (players st !! targetPlayerId data) as [t |]; [| done].
    destruct (damage data) as [raw |]; [| done].
    destruct (JS.negative raw); [done |].
    destruct (negb _); [done |].
    rewrite (surjective_pairing (getRoomGameState (room a) st)).
    destruct (negb _); [by (simpl; autorewrite with roomsview) |].
    destruct (invulnerableAt now a); [by (simpl; autorewrite with roomsview) |].
    destruct (invulnerableAt now t); [by (simpl; autorewrite with roomsview) |].
    destruct (shieldedAt now t); [by (simpl; autorewrite with roomsview) |].
    case_decide; simpl; by (simpl; autorewrite with roomsview).
  - rewrite (on_playerDamaged_accepted _ _ _ _ _ _ _ Hacc).
    case_decide; simpl; by (simpl; autorewrite with roomsview).
Qed.

Lemma on_setNickname_rooms sid n st :
  rooms (on_setNickname sid n st).1 = rooms st.
Proof.
  unfold on_setNickname.
  destruct (players st !! sid) as [player |]; [| done].
  destruct (JS.truthy n) as [nickname |]; [| done].
  destruct (JS.truthy (room player)) as [r |]; [| done].
  rewrite (surjective_pairing (getRoomGameState (Some r) _)). simpl.
  by (simpl; autorewrite with roomsview).
Qed.

Lemma on_collectPowerup_rooms sid i now st :
  rooms (on_collectPowerup sid i now st).1 = rooms st.
Proof.
  unfold on_collectPowerup.
  destruct (players st !! sid) as [player |]; [| done].
  destruct (JS.truthy (room player)) as [r |]; [| done].
  rewrite (surjective_pairing (getRoomGameState (Some r) st)).
  destruct (powerups _ !! i) as [powerup |];
    [| by (simpl; autorewrite with roomsview)].
  destruct (collected powerup); simpl; by (simpl; autorewrite with roomsview).
Qed.

Lemma on_requestStandings_rooms sid st :
  rooms (on_requestStandings sid st).1 = rooms st.
Proof.
  unfold on_requestStandings.
  destruct (players st !! sid) as [player |]; [| done].
  destruct (JS.truthy (room player)) as [r |]; [| done].
  rewrite (surjective_pairing (getRoomGameState (Some r) st)). simpl.
  by (simpl; autorewrite with roomsview).
Qed.

Lemma syncJoiner_rooms sid roomId st :
  rooms (syncJoiner sid roomId st).1 = rooms st.
Proof. unfold syncJoiner. by destruct (phase _). Qed.

Lemma fireRestart_rooms t r now rnd st st' out :
  fireRestart t r now rnd st = Done (st', out) -> rooms st' = rooms st.
Proof.
  unfold fireRestart. case_decide.
  - intros Hstart. by rewrite (startRound_rooms _ _ _ _ _ _ Hstart).
  - by intros [= <- _].
Qed.

(** The membership lists after a [joinRoom] that goes through: the player
    is off the list of the room it was in and at the end of the list of
    the room it asked for. *)
Lemma on_joinRoom_rooms sid dataRoomId now rnd st st' out :
  on_joinRoom sid dataRoomId now rnd st = Done (st', out) ->
  let roomId := default "default" (JS.truthy dataRoomId) in
  (st' = st /\
   ((maxPlayersPerRoom <= length (default [] (rooms st !! roomId)))%nat \/
    players st !! sid = None)) \/
  exists player,
    players st !! sid = Some player /\
    (length (default [] (rooms st !! roomId)) < maxPlayersPerRoom)%nat /\
    rooms st' =
    <[roomId :=
        default [] (roomsAfterLeave sid player (rooms st) !! roomId) ++ [sid]]>
      (roomsAfterLeave sid player (rooms st)).
Proof.
  unfold on_joinRoom.
  set (roomId := default "default" (JS.truthy dataRoomId)).
  case_decide as Hcap; [| intros [= <- _]; left; split; [done | left; lia]].
  destruct (players st !! sid) as [player |];
    [| intros [= <- _]; left; split; [done | by right]].
  rewrite (surjective_pairing (getRoomGameState (Some roomId) _)).
  intros Hjoin. right. exists player. split; [done |]. split; [done |].
  apply andThen_Done in Hjoin as (st4 & out4 & out5 & Hfirst & Hrest & _).
  apply Done_fst in Hrest as ->.
  rewrite seqDone_fst. simpl. rewrite syncJoiner_rooms.
  case_decide.
  - apply andThen_Done in Hfirst as (st3 & out3 & out3' & Hd & Hs & _).
    injection Hd as <- _. rewrite (startRound_rooms _ _ _ _ _ _ Hs).
    by (simpl; autorewrite with roomsview).
  - injection Hfirst as <- _. by (simpl; autorewrite with roomsview).
Qed.

Lemma remove_first_length v a :
  (length (JS.remove_first v a) <= length a)%nat.
Proof.
  induction a as [| w a IH]; simpl; [done |].
  case_decide; simpl; lia.
Qed.

Lemma remove_first_other v w a :
  w ≠ v -> w ∈ a -> w ∈ JS.remove_first v a.
Proof.
  intros Hne. induction a as [| u a IH]; simpl; [done |].
  intros Hin. apply elem_of_cons in Hin as [-> | Hin].
  - rewrite decide_False by done. apply elem_of_cons. by left.
  - case_decide; [done |]. apply elem_of_cons. right. by apply IH.
Qed.

Lemma roomsAfterLeave_length sid player rs r :
  (length (default [] (roomsAfterLeave sid player rs !! r))
   <= length (default [] (rs !! r)))%nat.
Proof.
  unfold roomsAfterLeave.
  destruct (JS.truthy (room player)) as [cur |]; [| done].
  destruct (rs !! cur) as [currentRoom |] eqn:Ecur; [| done].
  destruct (decide (cur = r)) as [-> | Hne].
  - rewrite lookup_insert_eq, Ecur. simpl. apply remove_first_length.
  - by rewrite lookup_insert_ne.
Qed.

Lemma roomsAfterLeave_other sid player rs r other :
  other ≠ sid ->
  other ∈ default [] (rs !! r) ->
  other ∈ default [] (roomsAfterLeave sid player rs !! r).
Proof.
  intros Hne. unfold roomsAfterLeave.
  destruct (JS.truthy (room player)) as [cur |]; [| done].
  destruct (rs !! cur) as [currentRoom |] eqn:Ecur; [| done].
  destruct (decide (cur = r)) as [-> | Hcr].
  - rewrite lookup_insert_eq, Ecur. simpl. by apply remove_first_other.
  - by rewrite lookup_insert_ne.
Qed.

Lemma rooms_within_capacity_alt st :
  rooms_within_capacity st <->
  forall r, (length (default [] (rooms st !! r)) <= maxPlayersPerRoom)%nat.
Proof.
  unfold rooms_within_capacity. split.
  - intros H r. destruct (rooms st !! r) as [members |] eqn:E; simpl.
    + by apply (H r).
    + unfold maxPlayersPerRoom. lia.
  - intros H r members E. specialize (H r). by rewrite E in H.
Qed.

Lemma on_joinRoom_capacity sid dataRoomId now rnd st st' out :
  on_joinRoom sid dataRoomId now rnd st = Done (st', out) ->
  rooms_within_capacity st -> rooms_within_capacity st'.
Proof.
  intros Hjoin Hcap.
  apply on_joinRoom_rooms in Hjoin
    as [[-> _] | (player & Hp & Hlt & Hrooms)]; [done |].
  apply rooms_within_capacity_alt. intros r. rewrite Hrooms.
  set (roomId := default "default" (JS.truthy dataRoomId)) in *.
  destruct (decide (roomId = r)) as [<- | Hne].
  - rewrite lookup_insert_eq. simpl. rewrite length_app. simpl.
    pose proof (roomsAfterLeave_length sid player (rooms st) roomId). lia.
  - rewrite lookup_insert_ne by done.
    etrans; [apply roomsAfterLeave_length |].
    by apply rooms_within_capacity_alt.
Qed.

Lemma on_disconnect_capacity sid st :
  rooms_within_capacity st -> rooms_within_capacity (on_disconnect sid st).1.
Proof.
  intros Hcap. unfold on_disconnect. simpl.
  destruct (players st !! sid) as [player |]; [| done].
  destruct (JS.truthy (room player)) as [r |]; [| done].
  simpl. destruct (rooms st !! r) as [room0 |] eqn:Er; [| done].
  case_decide; [| done].
  apply rooms_within_capacity_alt. intros k. simpl.
  apply rooms_within_capacity_alt with (r := k) in Hcap.
  case_decide.
  - destruct (decide (r = k)) as [-> | Hne].
    + rewrite lookup_delete_eq. simpl. lia.
    + by rewrite lookup_delete_ne.
  - destruct (decide (r = k)) as [-> | Hne].
    + rewrite lookup_insert_eq. rewrite Er in Hcap. simpl in *.
      pose proof (remove_first_length sid room0). lia.
    + by rewrite lookup_insert_ne.
Qed.

(** The membership lists after one callback: untouched by every callback
    but [joinRoom] and [disconnect]. *)
Lemma handle_rooms now rnd ev st st' out :
  handle now rnd ev st = Done (st', out) ->
  match ev with
  | CallJoinRoom _ _ | CallDisconnect _ => True
  | _ => rooms st' = rooms st
  end.
Proof.
  destruct ev; simpl; try done.
  - by intros [= <- _].
  - intros H. apply Done_fst in H as ->. unfold on_playerMove.
    destruct (players st !! sid) as [player |]; [| done].
    by destruct pos, rot.
  - intros H. apply Done_fst in H as ->. unfold on_vehicleSelected.
    by destruct (players st !! sid).
  - intros H. apply Done_fst in H as ->. apply on_playerDamaged_rooms.
  - intros H. apply Done_fst in H as ->. unfold on_playerLanded.
    destruct (players st !! sid) as [p |]; [| done].
    by destruct (JS.truthy (room p)).
  - intros H. apply Done_fst in H as ->. apply on_setNickname_rooms.
  - intros H. apply Done_fst in H as ->.
    by rewrite on_chatMessage_state.
  - intros H. apply Done_fst in H as ->. apply on_collectPowerup_rooms.
  - intros H. apply Done_fst in H as ->. apply on_requestStandings_rooms.
  - apply updateGameStates_rooms.
  - apply fireRestart_rooms.
Qed.

Lemma step_rooms now rnd ev st st' out :
  step now rnd ev st = Done (st', out) ->
  match ev with
  | JoinRoom _ _ | Disconnect _ => True
  | _ => rooms st' = rooms st
  end.
Proof.
  intros Hstep. apply step_handle in Hstep as (c & Hc & Hh).
  apply handle_rooms in Hh. destruct ev; try done; by call_cases Hc.
Qed.

(** The records after one callback: every callback but [connection] and
    [joinRoom] leaves each player in its room. *)
Lemma handle_frame now rnd ev st st' out :
  handle now rnd ev st = Done (st', out) ->
  match ev with
  | CallConnection _ | CallJoinRoom _ _ => True
  | _ => frame st st'
  end.
Proof.
  destruct ev; simpl; try done; intros Hstep;
    try (apply Done_fst in Hstep as ->).
  - apply on_playerMove_frame.
  - apply on_vehicleSelected_frame.
  - apply on_playerDamaged_frame.
  - apply on_playerLanded_frame.
  - apply on_setNickname_frame.
  - rewrite on_chatMessage_state. apply frame_refl.
  - apply on_collectPowerup_frame.
  - apply on_disconnect_frame.
  - apply on_requestStandings_frame.
  - by eapply updateGameStates_frame.
  - by eapply fireRestart_frame.
Qed.

Lemma step_frame now rnd ev st st' out :
  step now rnd ev st = Done (st', out) ->
  match ev with
  | Connection _ | JoinRoom _ _ => True
  | _ => frame st st'
  end.
Proof.
  intros Hstep. apply step_handle in Hstep as (c & Hc & Hh).
  apply handle_frame in Hh. destruct ev; try done; by call_cases Hc.
Qed.

Lemma frame_members st st' :
  frame st st' -> rooms st' = rooms st ->
  joined_are_members st -> joined_are_members st'.
Proof.
  intros [Hev _] Hrooms Hj sid p' r Hp' Hr.
  apply Hev in Hp' as (p & Hp & Hroom & _).
  unfold membersOf. rewrite Hrooms. apply (Hj sid p r Hp). congruence.
Qed.

Lemma on_disconnect_joined sid st :
  joined_are_members st -> joined_are_members (on_disconnect sid st).1.
Proof.
  intros Hj other p' r Hp' Hr.
  assert (Hother : other ≠ sid /\ players st !! other = Some p').
  { unfold on_disconnect in Hp'. simpl in Hp'.
    apply lookup_delete_Some in Hp' as [Hne Hp']. split; [done |].
    destruct (players st !! sid) as [player |]; [| done].
    by destruct (JS.truthy (room player)). }
  destruct Hother as [Hne Hp].
  specialize (Hj other p' r Hp Hr). unfold membersOf in *.
  unfold on_disconnect. simpl.
  destruct (players st !! sid) as [player |]; [| done].
  destruct (JS.truthy (room player)) as [r0 |]; [| done].
  simpl. destruct (rooms st !! r0) as [room0 |] eqn:Er0; [| done].
  case_decide; [| done].
  destruct (decide (r0 = r)) as [-> | Hrr].
  - rewrite Er0 in Hj. simpl in Hj.
    pose proof (remove_first_other sid other room0 Hne Hj) as Hin.
    case_decide as Hlen.
    + destruct (JS.remove_first sid room0); [| done].
      by apply elem_of_nil in Hin.
    + by rewrite lookup_insert_eq.
  - case_decide.
    + by rewrite lookup_delete_ne.
    + by rewrite lookup_insert_ne.
Qed.

Lemma on_joinRoom_joined sid dataRoomId now rnd st st' out :
  on_joinRoom sid dataRoomId now rnd st = Done (st', out) ->
  joined_are_members st -> joined_are_members st'.
Proof.
  intros Hjoin Hj.
  pose proof (on_joinRoom_rooms _ _ _ _ _ _ _ Hjoin) as Hrooms.
  apply on_joinRoom_shape in Hjoin as [-> | Hshape]; [done |].
  destruct Hshape as (player & player1 & rooms' & Hp & _ & _ & Hr1 & Hframe).
  simpl in Hrooms. destruct Hrooms as [[-> _] | Hrooms]; [done |].
  destruct Hrooms as (player0 & Hp0 & _ & Hrooms).
  rewrite Hp in Hp0. injection Hp0 as <-.
  set (roomId := default "default" (JS.truthy dataRoomId)) in *.
  intros other p' r Hp' Hr.
  apply (proj1 Hframe) in Hp' as (p & Hpp & Hroom & _).
  rewrite getRoomGameState_players in Hpp. simpl in Hpp.
  unfold membersOf. rewrite Hrooms.
  destruct (decide (other = sid)) as [-> | Hne].
  - rewrite lookup_insert_eq in Hpp. injection Hpp as <-.
    assert (r = roomId) as -> by congruence.
    rewrite lookup_insert_eq. simpl.
    apply elem_of_app. right. apply elem_of_cons. by left.
  - rewrite lookup_insert_ne in Hpp by done.
    assert (Hin : other ∈ default [] (rooms st !! r)).
    { apply (Hj other p r Hpp). congruence. }
    apply (roomsAfterLeave_other sid player) in Hin; [| done].
    destruct (decide (roomId = r)) as [<- | Hrr].
    + rewrite lookup_insert_eq. simpl. apply elem_of_app. by left.
    + by rewrite lookup_insert_ne.
Qed.

Lemma handle_capacity now rnd ev st st' out :
  handle now rnd ev st = Done (st', out) ->
  rooms_within_capacity st -> rooms_within_capacity st'.
Proof.
  intros Hstep Hcap. pose proof (handle_rooms _ _ _ _ _ _ Hstep) as Hrooms.
  unfold rooms_within_capacity in *.
  destruct ev; try (by rewrite Hrooms); simpl in Hstep.
  - by eapply on_joinRoom_capacity.
  - apply Done_fst in Hstep as ->. by apply on_disconnect_capacity.
Qed.

Lemma step_capacity now rnd ev st st' out :
  step now rnd ev st = Done (st', out) ->
  rooms_within_capacity st -> rooms_within_capacity st'.
Proof.
  intros Hstep. apply step_handle in Hstep as (c & _ & Hc).
  by eapply handle_capacity.
Qed.

Lemma handle_joined now rnd ev st st' out :
  handle now rnd ev st = Done (st', out) ->
  joined_are_members st -> joined_are_members st'.
Proof.
  intros Hstep Hj.
  pose proof (handle_rooms _ _ _ _ _ _ Hstep) as Hrooms.
  pose proof (handle_frame _ _ _ _ _ _ Hstep) as Hframe.
  destruct ev; try (by eapply frame_members); simpl in Hstep.
  - injection Hstep as <- _. intros other p r Hp Hr.
    unfold membersOf. simpl in *.
    destruct (decide (other = sid)) as [-> | Hne].
    + rewrite lookup_insert_eq in Hp. by injection Hp as <-.
    + rewrite lookup_insert_ne in Hp by done. by apply (Hj other p r).
  - by eapply on_joinRoom_joined.
  - apply Done_fst in Hstep as ->. by apply on_disconnect_joined.
Qed.

Lemma step_joined now rnd ev st st' out :
  step now rnd ev st = Done (st', out) ->
  joined_are_members st -> joined_are_members st'.
Proof.
  intros Hstep. apply step_handle in Hstep as (c & _ & Hc).
  by eapply handle_joined.
Qed.

(** X4. In every state the server can reach, no room has more than eight
    members: [joinRoom] turns a player away from a full room, and no other
    callback adds to a membership list. *)
Theorem room_capacity_respected st :
  reachable st -> rooms_within_capacity st.
Proof.
  induction 1 as [| st now rnd ev st' out _ IH Hstep].
  - apply rooms_within_capacity_alt. intros r. simpl.
    destruct (decide (r = "default")) as [-> | Hne].
    + rewrite lookup_singleton_eq. simpl. unfold maxPlayersPerRoom. lia.
    + rewrite lookup_singleton_ne by done. simpl.
      unfold maxPlayersPerRoom. lia.
  - by eapply step_capacity.
Qed.

Lemma room_capacity_respected_witness :
  rooms_within_capacity Scenario.two_players.
Proof. apply room_capacity_respected. apply after_reachable. Defined.

(** X5. In every state the server can reach, a player whose record names a
    room is on the membership list of that room; in particular the room
    still exists. *)
Theorem joined_player_is_member st :
  reachable st -> joined_are_members st.
Proof.
  induction 1 as [| st now rnd ev st' out _ IH Hstep].
  - intros sid p r Hp. simpl in Hp. by rewrite lookup_empty in Hp.
  - by eapply step_joined.
Qed.

Lemma joined_player_is_member_witness :
  joined_are_members Scenario.two_players.
Proof. apply joined_player_is_member. apply after_reachable. Defined.

(** ** Rounds only move forward, scores only go up *)

Lemma stats_le_refl s : stats_le s s.
Proof. unfold stats_le. by repeat split; try lia. Qed.

Lemma stats_le_trans s1 s2 s3 :
  stats_le s1 s2 -> stats_le s2 s3 -> stats_le s1 s3.
Proof.
  unfold stats_le. intros (? & ? & ?) (? & ? & ?).
  repeat split; try lia. auto.
Qed.

Lemma scores_le_refl m : scores_le m m.
Proof. intros sid s H. exists s. split; [done | apply stats_le_refl]. Qed.

Lemma scores_le_trans m1 m2 m3 :
  scores_le m1 m2 -> scores_le m2 m3 -> scores_le m1 m3.
Proof.
  intros H12 H23 sid s1 H1.
  destruct (H12 _ _ H1) as (s2 & H2 & Hle12).
  destruct (H23 _ _ H2) as (s3 & H3 & Hle23).
  exists s3. split; [done | by eapply stats_le_trans].
Qed.

Lemma scores_le_alter (f : Stats -> Stats) i m :
  (forall s, stats_le s (f s)) -> scores_le m (alter f i m).
Proof.
  intros Hf sid s Hs. destruct (decide (i = sid)) as [<- | Hne].
  - exists (f s). by rewrite lookup_alter_eq, Hs.
  - exists s. rewrite lookup_alter_ne by done. split; [done |].
    apply stats_le_refl.
Qed.

Lemma scores_le_insert_fresh i x (m : gmap string Stats) :
  m !! i = None -> scores_le m (<[i := x]> m).
Proof.
  intros Hi sid s Hs. exists s. split; [| apply stats_le_refl].
  rewrite lookup_insert_ne; [done |]. congruence.
Qed.

Lemma room_progress_refl rs : room_progress rs rs.
Proof. split; [done | apply scores_le_refl]. Qed.

Lemma room_progress_trans rs1 rs2 rs3 :
  room_progress rs1 rs2 -> room_progress rs2 rs3 -> room_progress rs1 rs3.
Proof.
  intros [Hp12 Hs12] [Hp23 Hs23]. split; [auto |].
  by eapply scores_le_trans.
Qed.

(** A store that touches neither the phase nor the leaderboard. *)
Lemma room_progress_same rs rs' :
  phase rs' = phase rs -> leaderboard rs' = leaderboard rs ->
  room_progress rs rs'.
Proof.
  intros Hp Hl. split; [by rewrite Hp |].
  rewrite Hl. apply scores_le_refl.
Qed.

Lemma progress_refl st : progress st st.
Proof. intros k. apply room_progress_refl. Qed.

Lemma progress_trans st1 st2 st3 :
  progress st1 st2 -> progress st2 st3 -> progress st1 st3.
Proof. intros H12 H23 k. by eapply room_progress_trans. Qed.

Lemma progress_same st st' :
  gameStates st' = gameStates st -> progress st st'.
Proof.
  intros E k. unfold theRoomState. rewrite E. apply room_progress_refl.
Qed.

Lemma progress_set_players ps st : progress st (set_players ps st).
Proof. by apply progress_same. Qed.

Lemma progress_putPlayer sid p st : progress st (putPlayer sid p st).
Proof. by apply progress_same. Qed.

Lemma progress_set_rooms v st : progress st (set_rooms v st).
Proof. by apply progress_same. Qed.

Lemma progress_set_timers v st : progress st (set_timers v st).
Proof. by apply progress_same. Qed.

Lemma progress_get k st : progress st (getRoomGameState k st).2.
Proof. intros k'. rewrite theRoomState_get. apply room_progress_refl. Qed.

Lemma progress_put k rs st :
  room_progress (theRoomState k st) rs -> progress st (putRoomState k rs st).
Proof.
  intros Hrs k'. destruct (decide (k = k')) as [<- | Hne].
  - by rewrite theRoomState_put.
  - rewrite theRoomState_put_ne by done. apply room_progress_refl.
Qed.

Lemma progress_get_put k rs st :
  room_progress (theRoomState k st) rs ->
  progress st (putRoomState k rs (getRoomGameState k st).2).
Proof.
  intros Hrs. eapply progress_trans; [apply progress_get |].
  apply progress_put. by rewrite theRoomState_get.
Qed.

Lemma resetMember_progress now rnd playerId acc :
  room_progress acc.2 (resetMember now rnd playerId acc).2.
Proof.
  unfold resetMember.
  destruct (acc.1 !! playerId) as [player |]; [| apply room_progress_refl].
  simpl. destruct (leaderboard acc.2 !! playerId) eqn:E; simpl.
  - by apply room_progress_same.
  - split; [done |]. simpl. by apply scores_le_insert_fresh.
Qed.

Lemma resetMembers_progress now rnd room0 acc :
  room_progress acc.2
    (foldl (fun acc playerId => resetMember now rnd playerId acc) acc room0).2.
Proof.
  revert acc. induction room0 as [| playerId room0 IH]; intros acc; simpl.
  - apply room_progress_refl.
  - eapply room_progress_trans; [apply resetMember_progress | apply IH].
Qed.

Lemma startRound_progress roomId now rnd st st' out :
  startRound roomId now rnd st = Done (st', out) -> progress st st'.
Proof.
  unfold startRound.
  rewrite (surjective_pairing (getRoomGameState (Some roomId) st)).
  destruct (rooms _ !! roomId) as [room0 |]; [| done].
  destruct (mapM _ _) as [roster |]; [| done].
  intros [= <- _].
  eapply progress_trans; [apply progress_get |].
  eapply progress_trans; [apply progress_set_players |].
  apply progress_put.
  eapply room_progress_trans; [| apply resetMembers_progress].
  simpl. rewrite theRoomState_set_players, theRoomState_get.
  rewrite getRoomGameState_fst.
  split; [done | apply scores_le_refl].
Qed.

Lemma endRound_progress roomId now st :
  progress st (endRound roomId now st).1.
Proof.
  unfold endRound.
  rewrite (surjective_pairing (getRoomGameState (Some roomId) st)). simpl.
  eapply progress_trans; [| apply progress_set_timers].
  apply progress_get_put. rewrite getRoomGameState_fst.
  split; [done | apply scores_le_refl].
Qed.

Lemma respawnPlayer_progress roomId playerId now rnd st :
  progress st (respawnPlayer roomId playerId now rnd st).1.
Proof.
  unfold respawnPlayer.
  rewrite (surjective_pairing (getRoomGameState (Some roomId) st)).
  destruct (players _ !! playerId) as [player |]; [| apply progress_get].
  destruct (respawningPlayers _ !! playerId); [| apply progress_get].
  simpl.
  eapply progress_trans; [apply progress_get |].
  eapply progress_trans; [apply progress_putPlayer |].
  apply progress_put.
  rewrite theRoomState_putPlayer, theRoomState_get, getRoomGameState_fst.
  by apply room_progress_same.
Qed.

Lemma dropPowerup_progress roomId now rnd st :
  progress st (dropPowerup roomId now rnd st).1.
Proof.
  unfold dropPowerup.
  rewrite (surjective_pairing (getRoomGameState (Some roomId) st)).
  case_decide; simpl; [apply progress_get |].
  apply progress_get_put. rewrite getRoomGameState_fst.
  by apply room_progress_same.
Qed.

Lemma sweepPowerup_phase roomId now l acc :
  phase (foldl (sweepPowerup roomId now) acc l).1 = phase acc.1.
Proof.
  revert acc. induction l as [| e l IH]; intros acc; simpl; [done |].
  rewrite IH. unfold sweepPowerup. by case_decide.
Qed.

Lemma managePowerupDrops_progress roomId now rnd st :
  progress st (managePowerupDrops roomId now rnd st).1.
Proof.
  unfold managePowerupDrops.
  rewrite (surjective_pairing (getRoomGameState (Some roomId) st)).
  case_decide; simpl; [apply progress_get |].
  eapply progress_trans; [apply progress_get |].
  eapply progress_trans; [| apply progress_put].
  - case_decide; [apply dropPowerup_progress | apply progress_refl].
  - apply room_progress_same;
      [apply sweepPowerup_phase | apply sweepPowerup_leaderboard].
Qed.

Lemma respawnDue_progress roomId now rnd l acc :
  progress acc.1 (foldl (respawnDue roomId now rnd) acc l).1.
Proof.
  revert acc. induction l as [| e l IH]; intros acc; simpl.
  - apply progress_refl.
  - eapply progress_trans; [| apply IH].
    unfold respawnDue. case_decide; [| apply progress_refl].
    rewrite seqDone_fst. apply respawnPlayer_progress.
Qed.

Lemma tickRoom_progress now rnd roomId st st' out :
  tickRoom now rnd roomId st = Done (st', out) -> progress st st'.
Proof.
  unfold tickRoom.
  destruct roomId as [r |]; [| by intros [= <- _]; apply progress_refl].
  destruct (gameStates st !! Some r) as [roomState |];
    [| by intros [= <- _]; apply progress_refl].
  destruct (rooms st !! r); [| by intros [= <- _]; apply progress_refl].
  intros H. apply andThen_Done in H as (st1 & out1 & out2 & Hsw & Hrest & _).
  assert (Hf1 : progress st st1).
  { destruct (phase roomState).
    - case_decide; [by eapply startRound_progress |].
      injection Hsw as <- _. apply progress_refl.
    - case_decide.
      + apply Done_fst in Hsw as ->. apply endRound_progress.
      + injection Hsw as <- _. apply progress_refl.
    - injection Hsw as <- _. apply progress_refl. }
  apply Done_fst in Hrest as ->.
  eapply progress_trans; [exact Hf1 |].
  rewrite seqDone_fst.
  eapply progress_trans; [| apply managePowerupDrops_progress].
  apply (respawnDue_progress r now rnd _ (st1, [])).
Qed.

Lemma tickRooms_progress now rnd keys o st' out :
  foldl (fun o roomId => andThen o (tickRoom now rnd roomId)) o keys
  = Done (st', out) ->
  exists st1 out1, o = Done (st1, out1) /\ progress st1 st'.
Proof.
  revert o st' out. induction keys as [| k keys IH]; intros o st' out; simpl.
  - intros ->. exists st', out. split; [done | apply progress_refl].
  - intros H. apply IH in H as (st2 & out2 & H2 & Hf2).
    apply andThen_Done in H2 as (st1 & out1 & out1' & -> & Ht & _).
    exists st1, out1. split; [done |].
    eapply progress_trans; [by eapply tickRoom_progress | exact Hf2].
Qed.

Lemma updateGameStates_progress now rnd st st' out :
  updateGameStates now rnd st = Done (st', out) -> progress st st'.
Proof.
  unfold updateGameStates. intros H.
  apply tickRooms_progress in H as (st1 & out1 & Heq & Hf).
  injection Heq as <- _. exact Hf.
Qed.

Lemma negative_Num q :
  JS.negative (JS.Num q) = false <-> Qle (0 # 1) q.
Proof.
  change (JS.negative (JS.Num q)) with (negb (Qle_bool (0 # 1) q)).
  rewrite negb_false_iff. apply Qle_bool_iff.
Qed.

(** A sum of damages is not negative. *)
Lemma add_points_nonneg x d :
  JS.negative x = false -> points d -> JS.negative (JS.add x d) = false.
Proof.
  intros Hx [-> | [-> | (n & Hn & ->)]].
  - by destruct x.
  - by destruct x.
  - destruct x as [| | | q]; [done | done | done |].
    apply negative_Num in Hx.
    change (JS.add (JS.Num q) (JS.int n))
      with (JS.round64 (Qplus q (inject_Z n))).
    destruct (round64_nonneg (Qplus q (inject_Z n))) as [-> | (r & -> & Hr)].
    + assert (Qle (0 # 1) (inject_Z n))
        by (change (0 # 1)%Q with (inject_Z 0); by rewrite <- Zle_Qle).
      lra.
    + done.
    + by apply negative_Num.
Qed.

Lemma addDamageDealt_le d s : points d -> stats_le s (addDamageDealt d s).
Proof.
  intros Hd. unfold stats_le. simpl. repeat split; try lia.
  intros Hs. by apply add_points_nonneg.
Qed.

Lemma incKills_le s : stats_le s (incKills s).
Proof. unfold stats_le. simpl. by repeat split; try lia. Qed.

Lemma incDeaths_le s : stats_le s (incDeaths s).
Proof. unfold stats_le. simpl. by repeat split; try lia. Qed.

Lemma on_playerDamaged_progress sid data now st :
  progress st (on_playerDamaged sid data now st).1.
Proof.
  unfold on_playerDamaged.
  destruct (players st !! sid) as [a |]; [| apply progress_refl].
  destruct (players st !! targetPlayerId data) as [t |];
    [| apply progress_refl].
  destruct (damage data) as [raw |]; [| apply progress_refl].
  destruct (JS.negative raw); [apply progress_refl |].
  destruct (negb _); [apply progress_refl |].
  rewrite (surjective_pairing (getRoomGameState (room a) st)).
  rewrite getRoomGameState_fst.
  destruct (negb _); [apply progress_get |].
  destruct (invulnerableAt now a); [apply progress_get |].
  destruct (invulnerableAt now t); [apply progress_get |].
  destruct (shieldedAt now t); [apply progress_get |].
  eapply progress_trans; [apply progress_get |].
  assert (Hdealt : scores_le (leaderboard (theRoomState (room a) st))
            (leaderboard
               (if isMonster data then theRoomState (room a) st
                else set_leaderboard
                       (alter (addDamageDealt (finalDamageOf data raw a t)) sid
                          (leaderboard (theRoomState (room a) st)))
                       (theRoomState (room a) st)))).
  { destruct (isMonster data); simpl; [apply scores_le_refl |].
    apply scores_le_alter. intros s. apply addDamageDealt_le.
    apply finalDamageOf_points. }
  case_decide; simpl;
    (eapply progress_trans; [apply progress_putPlayer |]);
    apply progress_put;
    rewrite theRoomState_putPlayer, theRoomState_get.
  - split; [simpl; by destruct (isMonster data) |]. simpl.
    eapply scores_le_trans; [exact Hdealt |].
    eapply scores_le_trans;
      [apply scores_le_alter, incKills_le | apply scores_le_alter, incDeaths_le].
  - split; [by destruct (isMonster data) | exact Hdealt].
Qed.

Lemma on_setNickname_progress sid n st :
  progress st (on_setNickname sid n st).1.
Proof.
  unfold on_setNickname.
  destruct (players st !! sid) as [player |]; [| apply progress_refl].
  destruct (JS.truthy n) as [nickname |]; [| apply progress_refl].
  destruct (JS.truthy (room player)) as [r |]; [| apply progress_putPlayer].
  rewrite (surjective_pairing (getRoomGameState (Some r) _)). simpl.
  eapply progress_trans; [apply progress_putPlayer |].
  apply progress_get_put. rewrite getRoomGameState_fst.
  split; [done |]. simpl. apply scores_le_alter.
  intros s. unfold stats_le. simpl. by repeat split; try lia.
Qed.

Lemma on_collectPowerup_progress sid i now st :
  progress st (on_collectPowerup sid i now st).1.
Proof.
  unfold on_collectPowerup.
  destruct (players st !! sid) as [player |]; [| apply progress_refl].
  destruct (JS.truthy (room player)) as [r |]; [| apply progress_refl].
  rewrite (surjective_pairing (getRoomGameState (Some r) st)).
  rewrite getRoomGameState_fst.
  destruct (powerups _ !! i) as [powerup |]; [| apply progress_get].
  destruct (collected powerup); [apply progress_get |].
  simpl.
  eapply progress_trans; [apply progress_get |].
  eapply progress_trans; [apply progress_putPlayer |].
  apply progress_put.
  rewrite theRoomState_putPlayer, theRoomState_get.
  by apply room_progress_same.
Qed.

Lemma on_requestStandings_progress sid st :
  progress st (on_requestStandings sid st).1.
Proof.
  unfold on_requestStandings.
  destruct (players st !! sid) as [player |]; [| apply progress_refl].
  destruct (JS.truthy (room player)) as [r |]; [| apply progress_refl].
  rewrite (surjective_pairing (getRoomGameState (Some r) st)). simpl.
  apply progress_get.
Qed.

Lemma on_disconnect_progress sid st : progress st (on_disconnect sid st).1.
Proof.
  apply progress_same. unfold on_disconnect. simpl.
  destruct (players st !! sid) as [player |]; [| done].
  by destruct (JS.truthy (room player)).
Qed.

Lemma syncJoiner_progress sid roomId st :
  progress st (syncJoiner sid roomId st).1.
Proof.
  unfold syncJoiner.
  destruct (phase _) eqn:E; simpl;
    [apply progress_refl | | apply progress_refl].
  apply progress_put. by apply room_progress_same.
Qed.

Lemma fireRestart_progress t r now rnd st st' out :
  fireRestart t r now rnd st = Done (st', out) -> progress st st'.
Proof.
  unfold fireRestart. case_decide.
  - intros Hstart.
    eapply progress_trans; [apply progress_set_timers |].
    by eapply startRound_progress.
  - intros [= <- _]. apply progress_refl.
Qed.

Lemma on_joinRoom_progress sid dataRoomId now rnd st st' out :
  on_joinRoom sid dataRoomId now rnd st = Done (st', out) -> progress st st'.
Proof.
  unfold on_joinRoom.
  set (roomId := default "default" (JS.truthy dataRoomId)).
  case_decide; [| intros [= <- _]; apply progress_refl].
  destruct (players st !! sid) as [player |];
    [| intros [= <- _]; apply progress_refl].
  rewrite (surjective_pairing (getRoomGameState (Some roomId) _)).
  rewrite getRoomGameState_fst.
  intros Hjoin.
  apply andThen_Done in Hjoin as (st4 & out4 & out5 & Hfirst & Hrest & _).
  apply Done_fst in Hrest as ->.
  rewrite seqDone_fst. simpl.
  eapply progress_trans; [| apply syncJoiner_progress].
  match type of Hfirst with
  | context [putRoomState (Some roomId) ?RS ?ST] =>
      assert (H3 : progress st (putRoomState (Some roomId) RS ST))
  end.
  { eapply progress_trans; [apply progress_putPlayer |].
    eapply progress_trans; [apply progress_set_rooms |].
    apply progress_get_put.
    match goal with
    | |- context [leaderboard ?RS !! sid] =>
        destruct (leaderboard RS !! sid) eqn:E
    end; [apply room_progress_refl |].
    split; [done |]. simpl. by apply scores_le_insert_fresh. }
  case_decide.
  - apply andThen_Done in Hfirst as (st3 & out3 & out3' & Hd & Hs & _).
    injection Hd as <- _.
    eapply progress_trans; [exact H3 | by eapply startRound_progress].
  - by injection Hfirst as <- _.
Qed.

Lemma handle_progress now rnd ev st st' out :
  handle now rnd ev st = Done (st', out) -> progress st st'.
Proof.
  destruct ev; simpl; intros Hstep;
    try (apply Done_fst in Hstep as ->).
  - by apply progress_same.
  - apply progress_same. unfold on_playerMove.
    destruct (players st !! sid); [| done].
    destruct pos; [| done]. by destruct rot.
  - apply progress_same. unfold on_vehicleSelected.
    by destruct (players st !! sid).
  - apply on_playerDamaged_progress.
  - apply progress_same. unfold on_playerLanded.
    destruct (players st !! sid) as [p |]; [| done].
    by destruct (JS.truthy (room p)).
  - by eapply on_joinRoom_progress.
  - apply on_setNickname_progress.
  - rewrite on_chatMessage_state. apply progress_refl.
  - apply on_collectPowerup_progress.
  - apply on_disconnect_progress.
  - apply on_requestStandings_progress.
  - by eapply updateGameStates_progress.
  - by eapply fireRestart_progress.
Qed.

Lemma step_progress now rnd ev st st' out :
  step now rnd ev st = Done (st', out) -> progress st st'.
Proof.
  intros Hstep. apply step_handle in Hstep as (c & _ & Hc).
  by eapply handle_progress.
Qed.

Lemma run_progress evs st st' out :
  run evs st = Done (st', out) -> progress st st'.
Proof.
  revert st out. induction evs as [| [[now rnd] ev] evs IH]; intros st out.
  - simpl. intros [= <- _]. apply progress_refl.
  - simpl. intros Hrun.
    apply andThen_Done in Hrun as (st1 & out1 & out2 & Hstep & Hrest & _).
    eapply progress_trans; [by eapply step_progress | by eapply IH].
Qed.

(** X6. Scores are never lost: whatever events follow, rounds ending and
    restarting and players leaving included, a leaderboard entry stays in
    its room's leaderboard, its kills and its deaths are at least what they
    were, and its damage dealt does not become negative.  (The damage dealt
    need not grow: a damage that is not a number makes it NaN.) *)
Theorem scores_never_decrease evs st st' out k sid s :
  run evs st = Done (st', out) ->
  leaderboard (theRoomState k st) !! sid = Some s ->
  exists s',
    leaderboard (theRoomState k st') !! sid = Some s' /\
    kills s <= kills s' /\ deaths s <= deaths s' /\
    (JS.lt (damageDealt s) (JS.int 0) = false ->
     JS.lt (damageDealt s') (JS.int 0) = false).
Proof.
  intros Hrun Hs. apply run_progress in Hrun.
  destruct (Hrun k) as [_ Hscores]. exact (Hscores sid s Hs).
Qed.

Lemma scores_never_decrease_witness :
  let st := Scenario.wounded in
  let st' := Replay.state_after Replay.into_next_round st in
  phase (theRoomState (Some "r1") st') = playing /\
  roundStartTime (theRoomState (Some "r1") st') = Some 270000 /\
  exists s',
    leaderboard (theRoomState (Some "r1") st') !! "a" = Some s' /\
    0 <= kills s' /\ 0 <= deaths s' /\
    JS.lt (damageDealt s') (JS.int 0) = false.
Proof.
  intros st st'. split; [by vm_compute |]. split; [by vm_compute |].
  destruct (scores_never_decrease Replay.into_next_round st st'
              (Replay.emitted Replay.into_next_round st) (Some "r1") "a"
              {| kills := 0; deaths := 0; damageDealt := JS.int 76;
                 playerName := "Player_a" |})
    as (s' & Hs' & Hk & Hd & Hdmg).
  - vm_compute; reflexivity.
  - vm_compute; reflexivity.
  - exists s'. split; [exact Hs' |]. split; [exact Hk |]. split; [exact Hd |].
    apply Hdmg. vm_compute; reflexivity.
Defined.

(** X7. A room that has left the [waiting] phase never returns to it:
    after [startRound] the phase only alternates between playing and
    roundEnd, whatever events follow. *)
Theorem round_never_returns_to_waiting evs st st' out k :
  run evs st = Done (st', out) ->
  phase (theRoomState k st) ≠ waiting ->
  phase (theRoomState k st') ≠ waiting.
Proof.
  intros Hrun Hp. apply run_progress in Hrun.
  destruct (Hrun k) as [Hphase _]. by apply Hphase.
Qed.

Lemma round_never_returns_to_waiting_witness :
  let st := Scenario.wounded in
  let ended := Replay.state_after [Scenario.at_time 250000 Tick] st in
  phase (theRoomState (Some "r1") st) = playing /\
  phase (theRoomState (Some "r1") ended) = roundEnd /\
  phase (theRoomState (Some "r1")
           (Replay.state_after Replay.into_next_round st)) ≠ waiting.
Proof.
  intros st ended. split; [by vm_compute |]. split; [by vm_compute |].
  apply (round_never_returns_to_waiting Replay.into_next_round st _
           (Replay.emitted Replay.into_next_round st)).
  - vm_compute; reflexivity.
  - by vm_compute.
Defined.

(** ** A populated room has started *)

Lemma resetMember_phase now rnd playerId acc :
  phase (resetMember now rnd playerId acc).2 = phase acc.2.
Proof.
  unfold resetMember. destruct (acc.1 !! playerId); [| done]. simpl.
  by destruct (leaderboard acc.2 !! playerId).
Qed.

Lemma resetMembers_phase now rnd room0 acc :
  phase
    (foldl (fun acc playerId => resetMember now rnd playerId acc) acc room0).2
  = phase acc.2.
Proof.
  revert acc. induction room0 as [| playerId room0 IH]; intros acc; simpl;
    [done |].
  by rewrite IH, resetMember_phase.
Qed.

Lemma startRound_phase roomId now rnd st st' out :
  startRound roomId now rnd st = Done (st', out) ->
  phase (theRoomState (Some roomId) st') = playing.
Proof.
  unfold startRound.
  rewrite (surjective_pairing (getRoomGameState (Some roomId) st)).
  destruct (rooms _ !! roomId) as [room0 |]; [| done].
  destruct (mapM _ _) as [roster |]; [| done].
  intros [= <- _]. by rewrite theRoomState_put, resetMembers_phase.
Qed.

Lemma roomsAfterLeave_nonempty sid player rs r :
  default [] (roomsAfterLeave sid player rs !! r) ≠ [] ->
  default [] (rs !! r) ≠ [].
Proof.
  intros Hne Hnil.
  pose proof (roomsAfterLeave_length sid player rs r) as Hlen.
  rewrite Hnil in Hlen. simpl in Hlen.
  destruct (default [] (roomsAfterLeave sid player rs !! r)); [done |].
  simpl in Hlen. lia.
Qed.

Lemma populated_alt st :
  populated_rooms_started st <->
  forall r, default [] (rooms st !! r) ≠ [] ->
            phase (theRoomState (Some r) st) ≠ waiting.
Proof.
  unfold populated_rooms_started. split.
  - intros H r Hne. destruct (rooms st !! r) as [members |] eqn:E; [| done].
    by apply (H r members).
  - intros H r members E Hne. apply H. by rewrite E.
Qed.

Lemma progress_populated st st' :
  progress st st' -> rooms st' = rooms st ->
  populated_rooms_started st -> populated_rooms_started st'.
Proof.
  intros Hprog Hrooms Hpop r members Hr Hne.
  rewrite Hrooms in Hr. apply (Hprog (Some r)). by apply (Hpop r members).
Qed.

Lemma on_disconnect_populated sid st :
  populated_rooms_started st ->
  populated_rooms_started (on_disconnect sid st).1.
Proof.
  intros Hpop. apply populated_alt. intros k Hne.
  apply (on_disconnect_progress sid st (Some k)).
  apply populated_alt; [done |].
  intros Hnil. apply Hne. clear Hne.
  unfold on_disconnect. simpl.
  destruct (players st !! sid) as [player |]; [| done].
  destruct (JS.truthy (room player)) as [r |]; [| done].
  simpl. destruct (rooms st !! r) as [room0 |] eqn:Er; [| done].
  case_decide; [| done].
  destruct (decide (r = k)) as [-> | Hrk].
  - rewrite Er in Hnil. simpl in Hnil. subst room0.
    simpl. by rewrite lookup_delete_eq.
  - case_decide.
    + by rewrite lookup_delete_ne.
    + by rewrite lookup_insert_ne.
Qed.

(** The first player on a room's list starts the round of the room. *)
Lemma on_joinRoom_first_starts sid dataRoomId now rnd st st' out player :
  on_joinRoom sid dataRoomId now rnd st = Done (st', out) ->
  let roomId := default "default" (JS.truthy dataRoomId) in
  players st !! sid = Some player ->
  (length (default [] (rooms st !! roomId)) < maxPlayersPerRoom)%nat ->
  default [] (roomsAfterLeave sid player (rooms st) !! roomId) = [] ->
  phase (theRoomState (Some roomId) st') = playing.
Proof.
  unfold on_joinRoom, roomsAfterLeave.
  set (roomId := default "default" (JS.truthy dataRoomId)).
  intros Hjoin Hp Hlt Hnil. simpl in Hnil.
  rewrite decide_True in Hjoin by done. rewrite Hp in Hjoin.
  rewrite (surjective_pairing (getRoomGameState (Some roomId) _)) in Hjoin.
  apply andThen_Done in Hjoin as (st4 & out4 & out5 & Hfirst & Hrest & _).
  apply Done_fst in Hrest as ->.
  rewrite seqDone_fst. simpl.
  rewrite Hnil in Hfirst. rewrite decide_True in Hfirst by done.
  apply andThen_Done in Hfirst as (st3 & out3 & out3' & Hd & Hs & _).
  apply startRound_phase in Hs.
  unfold syncJoiner. rewrite Hs. simpl. by rewrite theRoomState_put.
Qed.

Lemma on_joinRoom_populated sid dataRoomId now rnd st st' out :
  on_joinRoom sid dataRoomId now rnd st = Done (st', out) ->
  populated_rooms_started st -> populated_rooms_started st'.
Proof.
  intros Hjoin Hpop.
  pose proof (on_joinRoom_progress _ _ _ _ _ _ _ Hjoin) as Hprog.
  pose proof (on_joinRoom_rooms _ _ _ _ _ _ _ Hjoin) as Hrooms.
  simpl in Hrooms.
  destruct Hrooms as [[-> _] | (player & Hp & Hlt & Hrooms)]; [done |].
  set (roomId := default "default" (JS.truthy dataRoomId)) in *.
  apply populated_alt. intros k Hne. rewrite Hrooms in Hne.
  destruct (decide (roomId = k)) as [<- | Hrk].
  - destruct (default [] (roomsAfterLeave sid player (rooms st) !! roomId))
      as [| m ms] eqn:E.
    + pose proof (on_joinRoom_first_starts _ _ _ _ _ _ _ _ Hjoin Hp Hlt E)
        as Hph.
      change (phase (theRoomState (Some roomId) st') = playing) in Hph.
      by rewrite Hph.
    + apply (Hprog (Some roomId)). apply populated_alt; [done |].
      apply (roomsAfterLeave_nonempty sid player). by rewrite E.
  - rewrite lookup_insert_ne in Hne by done.
    apply (Hprog (Some k)). apply populated_alt; [done |].
    by apply (roomsAfterLeave_nonempty sid player).
Qed.

Lemma handle_populated now rnd ev st st' out :
  handle now rnd ev st = Done (st', out) ->
  populated_rooms_started st -> populated_rooms_started st'.
Proof.
  intros Hstep Hpop.
  pose proof (handle_rooms _ _ _ _ _ _ Hstep) as Hrooms.
  pose proof (handle_progress _ _ _ _ _ _ Hstep) as Hprog.
  destruct ev; try (by eapply progress_populated); simpl in Hstep.
  - by eapply on_joinRoom_populated.
  - apply Done_fst in Hstep as ->. by apply on_disconnect_populated.
Qed.

Lemma step_populated now rnd ev st st' out :
  step now rnd ev st = Done (st', out) ->
  populated_rooms_started st -> populated_rooms_started st'.
Proof.
  intros Hstep. apply step_handle in Hstep as (c & _ & Hc).
  by eapply handle_populated.
Qed.

Lemma reachable_populated st : reachable st -> populated_rooms_started st.
Proof.
  induction 1 as [| st now rnd ev st' out _ IH Hstep].
  - intros r members Hr Hne. simpl in Hr.
    apply lookup_singleton_Some in Hr as [_ <-]. done.
  - by eapply step_populated.
Qed.

(** X8. In every state the server can reach, a room with a member on its
    list has left the [waiting] phase: the join that puts the first player
    on the list starts the round at once. *)
Theorem populated_room_has_started st :
  reachable st -> populated_rooms_started st.
Proof. apply reachable_populated. Qed.

Lemma populated_room_has_started_witness :
  membersOf (Scenario.after Scenario.alone_in_default) (Some "default")
  = ["a"] /\
  phase (theRoomState (Some "default")
           (Scenario.after Scenario.alone_in_default)) = playing /\
  populated_rooms_started (Scenario.after Scenario.alone_in_default).
Proof.
  split; [by vm_compute |]. split; [by vm_compute |].
  apply populated_room_has_started. apply after_reachable.
Defined.

(** ** No waiting phase is ever announced *)

Lemma Done_snd (p : GameState * list Emit) st' out :
  Done p = Done (st', out) -> out = p.2.
Proof. by intros [= ->]. Qed.

Lemma startRound_unannounced roomId now rnd st st' out :
  startRound roomId now rnd st = Done (st', out) ->
  existsb isWaitingAnnounce out = false.
Proof.
  unfold startRound.
  rewrite (surjective_pairing (getRoomGameState (Some roomId) st)).
  destruct (rooms _ !! roomId) as [room0 |]; [| done].
  destruct (mapM _ _) as [roster |]; [| done].
  by intros [= _ <-].
Qed.

Lemma respawnPlayer_unannounced roomId playerId now rnd st :
  existsb isWaitingAnnounce (respawnPlayer roomId playerId now rnd st).2
  = false.
Proof.
  unfold respawnPlayer.
  rewrite (surjective_pairing (getRoomGameState (Some roomId) st)).
  destruct (players _ !! playerId) as [player |]; [| done].
  by destruct (respawningPlayers _ !! playerId).
Qed.

Lemma dropPowerup_unannounced roomId now rnd st :
  existsb isWaitingAnnounce (dropPowerup roomId now rnd st).2 = false.
Proof.
  unfold dropPowerup.
  rewrite (surjective_pairing (getRoomGameState (Some roomId) st)).
  by case_decide.
Qed.

Lemma sweepPowerup_unannounced roomId now l acc :
  existsb isWaitingAnnounce (foldl (sweepPowerup roomId now) acc l).2
  = existsb isWaitingAnnounce acc.2.
Proof.
  revert acc. induction l as [| e l IH]; intros acc; simpl; [done |].
  rewrite IH. unfold sweepPowerup. case_decide; [| done].
  simpl. rewrite existsb_app. simpl. by rewrite !orb_false_r.
Qed.

Lemma managePowerupDrops_unannounced roomId now rnd st :
  existsb isWaitingAnnounce (managePowerupDrops roomId now rnd st).2 = false.
Proof.
  unfold managePowerupDrops.
  rewrite (surjective_pairing (getRoomGameState (Some roomId) st)).
  case_decide; [done |]. simpl.
  rewrite existsb_app, sweepPowerup_unannounced. simpl.
  rewrite orb_false_r. case_decide; [apply dropPowerup_unannounced | done].
Qed.

Lemma respawnDue_unannounced roomId now rnd l acc :
  existsb isWaitingAnnounce (foldl (respawnDue roomId now rnd) acc l).2
  = existsb isWaitingAnnounce acc.2.
Proof.
  revert acc. induction l as [| e l IH]; intros acc; simpl; [done |].
  rewrite IH. unfold respawnDue. case_decide; [| done].
  by rewrite seqDone_snd, existsb_app, respawnPlayer_unannounced, orb_false_r.
Qed.

Lemma tickRoom_unannounced now rnd roomId st st' out :
  tickRoom now rnd roomId st = Done (st', out) ->
  existsb isWaitingAnnounce out = false.
Proof.
  unfold tickRoom.
  destruct roomId as [r |]; [| by intros [= _ <-]].
  destruct (gameStates st !! Some r) as [roomState |]; [| by intros [= _ <-]].
  destruct (rooms st !! r); [| by intros [= _ <-]].
  intros H. apply andThen_Done in H as (st1 & out1 & out2 & Hsw & Hrest & ->).
  rewrite existsb_app. apply orb_false_intro.
  - destruct (phase roomState).
    + case_decide; [by eapply startRound_unannounced |].
      by injection Hsw as _ <-.
    + case_decide; [| by injection Hsw as _ <-].
      apply Done_snd in Hsw as ->. unfold endRound.
      by rewrite (surjective_pairing (getRoomGameState (Some r) st)).
    + by injection Hsw as _ <-.
  - apply Done_snd in Hrest as ->.
    rewrite seqDone_snd, existsb_app, respawnDue_unannounced.
    simpl. apply managePowerupDrops_unannounced.
Qed.

Lemma tickRooms_unannounced now rnd keys o st' out :
  foldl (fun o roomId => andThen o (tickRoom now rnd roomId)) o keys
  = Done (st', out) ->
  (forall st1 out1, o = Done (st1, out1) ->
                    existsb isWaitingAnnounce out1 = false) ->
  existsb isWaitingAnnounce out = false.
Proof.
  revert o st' out. induction keys as [| k keys IH]; intros o st' out; simpl.
  - intros -> Ho. by eapply Ho.
  - intros H Ho. eapply IH; [exact H |].
    intros st2 out2 H2.
    apply andThen_Done in H2 as (st1 & out1 & out1' & -> & Ht & ->).
    rewrite existsb_app. apply orb_false_intro.
    + by eapply Ho.
    + by eapply tickRoom_unannounced.
Qed.

Lemma updateGameStates_unannounced now rnd st st' out :
  updateGameStates now rnd st = Done (st', out) ->
  existsb isWaitingAnnounce out = false.
Proof.
  unfold updateGameStates. intros H.
  eapply tickRooms_unannounced; [exact H |].
  by intros st1 out1 [= _ <-].
Qed.

Lemma on_playerDamaged_unannounced sid data now st :
  existsb isWaitingAnnounce (on_playerDamaged sid data now st).2 = false.
Proof.
  unfold on_playerDamaged.
  destruct (players st !! sid) as [a |]; [| done].
  destruct (players st !! targetPlayerId data) as [t |]; [| done].
  destruct (damage data) as [raw |]; [| done].
  destruct (JS.negative raw); [done |].
  destruct (negb _); [done |].
  rewrite (surjective_pairing (getRoomGameState (room a) st)).
  destruct (negb _); [done |].
  destruct (invulnerableAt now a); [done |].
  destruct (invulnerableAt now t); [done |].
  destruct (shieldedAt now t); [done |].
  by case_decide.
Qed.

Lemma on_collectPowerup_unannounced sid i now st :
  existsb isWaitingAnnounce (on_collectPowerup sid i now st).2 = false.
Proof.
  unfold on_collectPowerup.
  destruct (players st !! sid) as [player |]; [| done].
  destruct (JS.truthy (room player)) as [r |]; [| done].
  rewrite (surjective_pairing (getRoomGameState (Some r) st)).
  destruct (powerups _ !! i) as [powerup |]; [| done].
  destruct (collected powerup); [done |].
  by destruct (pw_type powerup).
Qed.

Lemma syncJoiner_phase sid roomId st :
  phase (theRoomState (Some roomId) (syncJoiner sid roomId st).1)
  = phase (theRoomState (Some roomId) st).
Proof.
  unfold syncJoiner.
  destruct (phase (theRoomState (Some roomId) st)) eqn:E;
    [exact E | | exact E].
  simpl. by rewrite theRoomState_put.
Qed.

Lemma syncJoiner_unannounced sid roomId st :
  phase (theRoomState (Some roomId) st) ≠ waiting ->
  existsb isWaitingAnnounce (syncJoiner sid roomId st).2 = false.
Proof. unfold syncJoiner. by destruct (phase _). Qed.

Lemma on_joinRoom_unannounced sid dataRoomId now rnd st st' out :
  reachable st ->
  on_joinRoom sid dataRoomId now rnd st = Done (st', out) ->
  existsb isWaitingAnnounce out = false.
Proof.
  intros Hreach Hjoin.
  assert (Hpop : populated_rooms_started st').
  { eapply on_joinRoom_populated; [exact Hjoin |].
    by apply reachable_populated. }
  pose proof (on_joinRoom_rooms _ _ _ _ _ _ _ Hjoin) as Hrooms.
  simpl in Hrooms. revert Hjoin. unfold on_joinRoom.
  set (roomId := default "default" (JS.truthy dataRoomId)) in *.
  case_decide; [| by intros [= _ <-]].
  destruct (players st !! sid) as [player |] eqn:Ep; [| by intros [= _ <-]].
  destruct Hrooms as [[-> [Hfull | Hnone]] | (player0 & Hp0 & _ & Hrooms)];
    [lia | done |].
  rewrite (surjective_pairing (getRoomGameState (Some roomId) _)).
  intros Hjoin.
  apply andThen_Done in Hjoin as (st4 & out4 & out5 & Hfirst & Hrest & ->).
  assert (Hph : phase (theRoomState (Some roomId) st4) ≠ waiting).
  { apply Done_fst in Hrest. rewrite seqDone_fst in Hrest. simpl in Hrest.
    rewrite <- (syncJoiner_phase sid), <- Hrest.
    apply populated_alt; [done |].
    rewrite Hrooms, lookup_insert_eq. simpl.
    by destruct (default [] _). }
  rewrite existsb_app. apply orb_false_intro.
  - case_decide.
    + apply andThen_Done in Hfirst as (st3 & out3 & out3' & Hd & Hs & ->).
      injection Hd as _ <-. simpl. by eapply startRound_unannounced.
    + by injection Hfirst as _ <-.
  - apply Done_snd in Hrest as ->. simpl.
    rewrite existsb_app, seqDone_snd, existsb_app. simpl.
    rewrite orb_false_r. by apply syncJoiner_unannounced.
Qed.

Lemma handle_unannounced st now rnd ev st' out :
  reachable st ->
  handle now rnd ev st = Done (st', out) ->
  existsb isWaitingAnnounce out = false.
Proof.
  intros Hreach. destruct ev; simpl; intros Hstep;
    try (apply Done_snd in Hstep as ->).
  - done.
  - unfold on_playerMove. destruct (players st !! sid) as [p |]; [| done].
    destruct pos; [| done]. destruct rot; [| done]. simpl.
    by destruct (JS.truthy (room p)).
  - unfold on_vehicleSelected.
    destruct (players st !! sid) as [p |]; [| done]. simpl.
    by destruct (JS.truthy (room p)).
  - apply on_playerDamaged_unannounced.
  - unfold on_playerLanded. destruct (players st !! sid) as [p |]; [| done].
    by destruct (JS.truthy (room p)).
  - by eapply on_joinRoom_unannounced.
  - unfold on_setNickname. destruct (players st !! sid) as [p |]; [| done].
    destruct (JS.truthy nickname); [| done].
    destruct (JS.truthy (room p)); [| done].
    by rewrite (surjective_pairing (getRoomGameState _ _)).
  - unfold on_chatMessage.
    rewrite seqDone_snd, on_chatMessage_first_state, existsb_app.
    unfold on_chatMessage_first, on_chatMessage_second.
    destruct (players st !! sid) as [p |]; [| done].
    destruct (JS.truthy message); [| done].
    destruct (JS.truthy (room p)); simpl; by case_decide.
  - apply on_collectPowerup_unannounced.
  - unfold on_disconnect. destruct (players st !! sid) as [p |]; [| done].
    by destruct (JS.truthy (room p)).
  - unfold on_requestStandings.
    destruct (players st !! sid) as [p |]; [| done].
    destruct (JS.truthy (room p)); [| done].
    by rewrite (surjective_pairing (getRoomGameState _ _)).
  - by eapply updateGameStates_unannounced.
  - revert Hstep. unfold fireRestart. case_decide; [| by intros [= _ <-]].
    apply startRound_unannounced.
Qed.

(** X9. The server never announces a waiting phase: no callback run in a
    reachable state emits waitingPhaseStarted.  The one place that could,
    the synchronisation of a joiner, always finds the room already
    started. *)
Theorem waiting_phase_never_announced st now rnd ev st' out :
  reachable st ->
  step now rnd ev st = Done (st', out) ->
  existsb isWaitingAnnounce out = false.
Proof.
  intros Hreach Hstep. apply step_handle in Hstep as (c & _ & Hc).
  by eapply handle_unannounced.
Qed.

Lemma waiting_phase_never_announced_witness :
  let st := Scenario.roomless in
  let joined := on_joinRoom "a" (Some "r1") 1500 Scenario.rnd st in
  exists st' out,
    joined = Done (st', out) /\
    existsb isWaitingAnnounce out = false /\
    phase (theRoomState (Some "r1") st') = playing.
Proof.
  intros st joined.
  destruct joined as [[st' out] |] eqn:E; [| by vm_compute in E].
  exists st', out. split; [done |]. split.
  - apply (waiting_phase_never_announced st 1500 Scenario.rnd
             (Scenario.join "a" "r1") st' out).
    + apply after_reachable.
    + exact E.
  - assert (Hst : st' = match joined with Done p => p.1 | Uncaught => st end)
      by (subst joined; by rewrite E).
    rewrite Hst. by vm_compute.
Defined.

(** ** What a round start resets *)

Lemma resetForRound_idem now rnd playerId player :
  resetForRound now rnd playerId (resetForRound now rnd playerId player)
  = resetForRound now rnd playerId player.
Proof. reflexivity. Qed.

Lemma resetMember_players now rnd playerId acc sid :
  (resetMember now rnd playerId acc).1 !! sid =
  if decide (sid = playerId)
  then resetForRound now rnd playerId <$> acc.1 !! sid
  else acc.1 !! sid.
Proof.
  unfold resetMember. case_decide as Hs.
  - subst sid. destruct (acc.1 !! playerId) as [player |] eqn:E; simpl.
    + by rewrite lookup_insert_eq.
    + by rewrite E.
  - destruct (acc.1 !! playerId) as [player |]; simpl; [| done].
    by rewrite lookup_insert_ne.
Qed.

Lemma resetMembers_players now rnd room0 acc sid :
  (foldl (fun acc playerId => resetMember now rnd playerId acc) acc room0).1
    !! sid =
  if decide (sid ∈ room0)
  then resetForRound now rnd sid <$> acc.1 !! sid
  else acc.1 !! sid.
Proof.
  revert acc. induction room0 as [| playerId room0 IH]; intros acc;
    cbn [foldl].
  - rewrite decide_False; [done | apply not_elem_of_nil].
  - rewrite IH, resetMember_players.
    destruct (decide (sid = playerId)) as [-> | Hne].
    + rewrite (decide_True (P := playerId ∈ playerId :: room0))
        by (apply elem_of_cons; by left).
      case_decide; [| done].
      destruct (acc.1 !! playerId) as [player |]; [| done].
      simpl. by rewrite resetForRound_idem.
    + destruct (decide (sid ∈ room0)) as [Hin | Hnin].
      * rewrite decide_True; [done |]. apply elem_of_cons. by right.
      * rewrite decide_False; [done |].
        intros [? | ?]%elem_of_cons; done.
Qed.

Lemma resetMember_active now rnd playerId acc sid :
  sid ∈ activePlayers (resetMember now rnd playerId acc).2 <->
  sid ∈ activePlayers acc.2 \/ (sid = playerId /\ is_Some (acc.1 !! sid)).
Proof.
  unfold resetMember.
  destruct (acc.1 !! playerId) as [player |] eqn:E.
  - assert (Hgoal : sid ∈ ({[playerId]} ∪ activePlayers acc.2 : gset string)
                    <-> sid ∈ activePlayers acc.2 \/
                        (sid = playerId /\ is_Some (acc.1 !! sid))).
    { rewrite elem_of_union, elem_of_singleton. split.
      - intros [-> | H]; [right | by left]. split; [done |]. by rewrite E.
      - intros [H | [-> _]]; [by right | by left]. }
    simpl. by destruct (leaderboard acc.2 !! playerId).
  - split; [by left |]. intros [H | [-> [p Hp]]]; [done |]. congruence.
Qed.

Lemma resetMember_isSome now rnd playerId acc sid :
  is_Some ((resetMember now rnd playerId acc).1 !! sid) <->
  is_Some (acc.1 !! sid).
Proof.
  rewrite resetMember_players. case_decide; [| done].
  by rewrite fmap_is_Some.
Qed.

Lemma resetMembers_active now rnd room0 acc sid :
  sid ∈ activePlayers
          (foldl (fun acc playerId => resetMember now rnd playerId acc)
             acc room0).2 <->
  sid ∈ activePlayers acc.2 \/ (sid ∈ room0 /\ is_Some (acc.1 !! sid)).
Proof.
  revert acc. induction room0 as [| playerId room0 IH]; intros acc; simpl.
  - split; [by left |]. intros [H | [H _]]; [done |].
    by apply elem_of_nil in H.
  - rewrite IH, resetMember_active, resetMember_isSome, elem_of_cons.
    tauto.
Qed.

Lemma resetMember_keeps now rnd playerId acc :
  let rs' := (resetMember now rnd playerId acc).2 in
  roundStartTime rs' = roundStartTime acc.2 /\
  roundEndTime rs' = roundEndTime acc.2 /\
  respawningPlayers rs' = respawningPlayers acc.2 /\
  lastPowerupDrop rs' = lastPowerupDrop acc.2.
Proof.
  unfold resetMember. destruct (acc.1 !! playerId); [| done]. simpl.
  by destruct (leaderboard acc.2 !! playerId).
Qed.

Lemma resetMembers_keeps now rnd room0 acc :
  let rs' :=
    (foldl (fun acc playerId => resetMember now rnd playerId acc) acc room0).2
  in
  roundStartTime rs' = roundStartTime acc.2 /\
  roundEndTime rs' = roundEndTime acc.2 /\
  respawningPlayers rs' = respawningPlayers acc.2 /\
  lastPowerupDrop rs' = lastPowerupDrop acc.2.
Proof.
  revert acc. induction room0 as [| playerId room0 IH]; intros acc; simpl;
    [done |].
  destruct (IH (resetMember now rnd playerId acc)) as (-> & -> & -> & ->).
  apply resetMember_keeps.
Qed.

Lemma resetMember_scores now rnd playerId acc sid s :
  leaderboard acc.2 !! sid = Some s ->
  leaderboard (resetMember now rnd playerId acc).2 !! sid = Some s.
Proof.
  intros Hs. unfold resetMember. destruct (acc.1 !! playerId); [| done].
  simpl. destruct (leaderboard acc.2 !! playerId) eqn:E; simpl; [done |].
  rewrite lookup_insert_ne; [done |]. congruence.
Qed.

Lemma resetMembers_scores now rnd room0 acc sid s :
  leaderboard acc.2 !! sid = Some s ->
  leaderboard
    (foldl (fun acc playerId => resetMember now rnd playerId acc) acc room0).2
    !! sid = Some s.
Proof.
  revert acc. induction room0 as [| playerId room0 IH]; intros acc Hs; simpl;
    [done |].
  apply IH. by apply resetMember_scores.
Qed.

(** What [startRound] leaves behind on a room that exists. *)
Lemma startRound_effect roomId now rnd st members :
  rooms st !! roomId = Some members ->
  exists st' out,
    startRound roomId now rnd st = Done (st', out) /\
    let rs := theRoomState (Some roomId) st in
    let rs' := theRoomState (Some roomId) st' in
    phase rs' = playing /\
    roundStartTime rs' = Some now /\
    roundEndTime rs' = Some (now + 240000) /\
    respawningPlayers rs' = ∅ /\
    (forall sid, sid ∈ activePlayers rs' <->
                 sid ∈ members /\ is_Some (players st !! sid)) /\
    (forall sid,
       players st' !! sid =
       if decide (sid ∈ members)
       then resetForRound now rnd sid <$> players st !! sid
       else players st !! sid) /\
    (forall sid p, players st' !! sid = Some p -> sid ∈ members ->
       health p = JS.int (maxHealth (vehicle p)) /\
       invulnerableUntil p = now + 8000) /\
    (forall sid s, leaderboard rs !! sid = Some s ->
                   leaderboard rs' !! sid = Some s) /\
    powerups rs' = powerups rs /\
    lastPowerupDrop rs' = lastPowerupDrop rs.
Proof.
  intros Hroom.
  destruct (startRound roomId now rnd st) as [[st' out] |] eqn:Hstart;
    [| apply startRound_throws_iff in Hstart; congruence].
  exists st', out. split; [done |].
  revert Hstart. unfold startRound.
  rewrite (surjective_pairing (getRoomGameState (Some roomId) st)).
  rewrite getRoomGameState_rooms, Hroom, getRoomGameState_players.
  rewrite getRoomGameState_fst.
  destruct (mapM _ _) as [roster |]; [| done].
  intros [= <- _]. simpl. rewrite !theRoomState_put.
  set (rs := theRoomState (Some roomId) st).
  set (acc0 := (players st,
                set_respawningPlayers ∅
                  (set_activePlayers ∅
                     (set_roundEndTime (Some (now + roundDuration))
                        (set_roundStartTime (Some now)
                           (set_phase playing rs)))))).
  destruct (resetMembers_keeps now rnd members acc0) as (Hs & He & Hr & Hl).
  assert (Hplayers : forall sid,
    (foldl (fun acc playerId => resetMember now rnd playerId acc) acc0 members).1
      !! sid =
    if decide (sid ∈ members)
    then resetForRound now rnd sid <$> players st !! sid
    else players st !! sid).
  { intros sid. apply resetMembers_players. }
  split; [by rewrite resetMembers_phase |].
  split; [by rewrite Hs |]. split; [by rewrite He |].
  split; [by rewrite Hr |].
  split.
  { intros sid. rewrite resetMembers_active. simpl.
    split; [intros [H | H]; [by apply not_elem_of_empty in H | done] |].
    by right. }
  split; [exact Hplayers |].
  split.
  { intros sid p Hp Hin. rewrite Hplayers, decide_True in Hp by done.
    destruct (players st !! sid) as [p0 |]; [| done].
    injection Hp as <-. by split. }
  split.
  { intros sid s Hsc. by apply resetMembers_scores. }
  split; [by rewrite resetMembers_powerups | by rewrite Hl].
Qed.

(** X10. [startRound] on a room that exists returns, and leaves the room
    in the playing phase with a round of four minutes from now, nobody
    waiting for a respawn, and exactly the members that have a record as
    active players; each of them is at full health for its vehicle and
    invulnerable for eight seconds, every other record is untouched, and
    the leaderboard entries and the powerups of the previous round are
    carried over as they were. *)
Theorem start_round_resets roomId now rnd st members :
  rooms st !! roomId = Some members ->
  exists st' out,
    startRound roomId now rnd st = Done (st', out) /\
    let rs := theRoomState (Some roomId) st in
    let rs' := theRoomState (Some roomId) st' in
    phase rs' = playing /\
    roundStartTime rs' = Some now /\
    roundEndTime rs' = Some (now + 240000) /\
    respawningPlayers rs' = ∅ /\
    (forall sid, sid ∈ activePlayers rs' <->
                 sid ∈ members /\ is_Some (players st !! sid)) /\
    (forall sid,
       players st' !! sid =
       if decide (sid ∈ members)
       then resetForRound now rnd sid <$> players st !! sid
       else players st !! sid) /\
    (forall sid p, players st' !! sid = Some p -> sid ∈ members ->
       health p = JS.int (maxHealth (vehicle p)) /\
       invulnerableUntil p = now + 8000) /\
    (forall sid s, leaderboard rs !! sid = Some s ->
                   leaderboard rs' !! sid = Some s) /\
    powerups rs' = powerups rs /\
    lastPowerupDrop rs' = lastPowerupDrop rs.
Proof. apply startRound_effect. Qed.

Lemma start_round_resets_witness :
  exists st' out,
    startRound "r1" 270000 Scenario.rnd Scenario.wounded = Done (st', out) /\
    health (Scenario.player "b" Scenario.wounded) = JS.int 24 /\
    health <$> players st' !! "b" = Some (JS.int 130) /\
    "b" ∈ activePlayers (theRoomState (Some "r1") st') /\
    damageDealt <$> leaderboard (theRoomState (Some "r1") st') !! "a"
    = Some (JS.int 76).
Proof.
  destruct (start_round_resets "r1" 270000 Scenario.rnd Scenario.wounded
              ["a"; "b"])
    as (st' & out & Hstart & _ & _ & _ & _ & Hact & Hpl & _ & Hsc & _);
    [by vm_compute |].
  exists st', out. split; [exact Hstart |].
  split; [vm_compute; reflexivity |].
  split; [rewrite Hpl; vm_compute; reflexivity |].
  split.
  - apply Hact. split; [| vm_compute; eauto].
    apply elem_of_cons. right. apply elem_of_cons. by left.
  - rewrite (Hsc "a" {| kills := 0; deaths := 0; damageDealt := JS.int 76;
                        playerName := "Player_a" |}); [reflexivity |].
    vm_compute; reflexivity.
Defined.

(** ** Protection windows *)

Lemma rejected_no_effect sid data now st :
  0 <= now ->
  damage_rejected sid data now st ->
  (on_playerDamaged sid data now st).2 = [] /\
  players (on_playerDamaged sid data now st).1 = players st /\
  forall k, theRoomState k (on_playerDamaged sid data now st).1
            = theRoomState k st.
Proof.
  intros Hnow Hrej.
  destruct (on_playerDamaged_rejected _ _ _ _ Hnow Hrej)
    as [-> | (a & t & _ & _ & _ & ->)]; [done |].
  simpl. split; [done |]. split; [apply getRoomGameState_players |].
  intros k. apply theRoomState_get.
Qed.

(** X18. What a rejected damage event does.  When a validation step of a
    damage event fails the handler emits nothing and changes no player
    record, no membership list, no pending timer and nothing that a round
    state holds (health, leaderboard entries, activePlayers and
    respawningPlayers are as before).  The state is the one before the
    event, except that the get-or-create access to the round state of the
    attacker's room stores the initial record under that room's key when
    there was none; in a reachable state that key can only be [null], the
    room of two players who have joined none. *)
Theorem rejected_damage_effect sid data now st :
  0 <= now ->
  damage_rejected sid data now st ->
  let result := on_playerDamaged sid data now st in
  result.2 = [] /\
  players result.1 = players st /\
  rooms result.1 = rooms st /\
  timers result.1 = timers st /\
  (forall k rs, gameStates st !! k = Some rs ->
                gameStates result.1 !! k = Some rs) /\
  (forall k, theRoomState k result.1 = theRoomState k st) /\
  (result.1 = st \/
   exists a, players st !! sid = Some a /\
             gameStates st !! room a = None /\
             result.1 = initializeRoomGameState (room a) st) /\
  (reachable st ->
   result.1 = st \/
   exists a t, players st !! sid = Some a /\
               players st !! targetPlayerId data = Some t /\
               room a = None /\ room t = None /\
               gameStates st !! None = None /\
               result.1 = initializeRoomGameState None st).
Proof.
  intros Hnow Hrej result.
  destruct (on_playerDamaged_rejected _ _ _ _ Hnow Hrej)
    as [E | (a & t & Ha & Ht & Hroom & E)];
    unfold result; rewrite E; simpl.
  - repeat split; auto.
  - rewrite getRoomGameState_players, getRoomGameState_rooms,
      getRoomGameState_timers.
    split; [done |]. split; [done |]. split; [done |]. split; [done |].
    split; [| split; [| split]].
    + intros k rs Hk.
      destruct (getRoomGameState_snd (room a) st) as [[-> _] | [-> Hnone]];
        [done |].
      unfold initializeRoomGameState. simpl.
      destruct (decide (room a = k)) as [<- | Hne]; [congruence |].
      by rewrite lookup_insert_ne.
    + intros k. apply theRoomState_get.
    + destruct (getRoomGameState_snd (room a) st) as [[-> _] | [-> Hnone]];
        [by left | right; eauto].
    + intros Hreach.
      destruct (getRoomGameState_snd (room a) st) as [[-> _] | [-> Hnone]];
        [by left | right].
      exists a, t.
      assert (Hnull : room a = None).
      { destruct (room a) as [r |] eqn:Er; [| done].
        destruct (reachable_invariant st Hreach) as [_ Hj].
        destruct (Hj _ _ _ Ha Er) as [rs Hrs]. congruence. }
      rewrite Hnull in *. by rewrite <- Hroom.
Qed.

Lemma rejected_damage_effect_witness :
  let data :=
    {| damage := Some (JS.int 10); targetPlayerId := "a";
       collisionType := None |} in
  (on_playerDamaged "a" data 5000 Scenario.two_players).2 = [] /\
  players (on_playerDamaged "a" data 5000 Scenario.two_players).1
  = players Scenario.two_players.
Proof.
  intros data.
  destruct (rejected_damage_effect "a" data 5000 Scenario.two_players)
    as (H1 & H2 & _).
  - lia.
  - vm_compute. right. right. right. left. reflexivity.
  - split; [exact H1 | exact H2].
Defined.

Lemma invulnerable_rejected x p sid data now st :
  players st !! x = Some p ->
  now < invulnerableUntil p ->
  sid = x \/ targetPlayerId data = x ->
  damage_rejected sid data now st.
Proof.
  intros Hp Hlt Hx. unfold damage_rejected.
  destruct (players st !! sid) as [a |] eqn:Ea; [| done].
  destruct (players st !! targetPlayerId data) as [t |] eqn:Et; [| done].
  destruct Hx as [-> | Hx].
  - rewrite Hp in Ea. injection Ea as <-. tauto.
  - rewrite Hx, Hp in Et. injection Et as <-. tauto.
Qed.

Lemma shielded_rejected p s sid data now st :
  players st !! targetPlayerId data = Some p ->
  shieldUntil p = Some s ->
  now < s ->
  damage_rejected sid data now st.
Proof.
  intros Hp Hs Hlt. unfold damage_rejected.
  destruct (players st !! sid) as [a |]; [| done].
  rewrite Hp. do 5 right. eauto.
Qed.

(** *** What the callbacks do to the record of one player

    Every callback but a new connection leaves the record of a player in
    a relation [R] to the record before it, as soon as [R] is reflexive
    and transitive and holds for each of the assignments the handlers
    make. *)

Section Traced.

Variable now : Z.
Variable sid : string.
Variable R : Player -> Player -> Prop.

Hypothesis R_refl : forall p, R p p.
Hypothesis R_trans : forall p1 p2 p3, R p1 p2 -> R p2 p3 -> R p1 p3.
Hypothesis R_other : forall p p',
  health p' = health p -> vehicle p' = vehicle p ->
  invulnerableUntil p' = invulnerableUntil p ->
  shieldUntil p' = shieldUntil p -> R p p'.
Hypothesis R_window : forall p T,
  now + 2000 <= T -> R p (set_invulnerableUntil T p).
Hypothesis R_shield : forall p, R p (set_shieldUntil (Some (now + 10000)) p).
Hypothesis R_full : forall p,
  R p (set_health (JS.int (maxHealth (vehicle p))) p).
Hypothesis R_vehicle : forall p v,
  R p (set_health
         (JS.Math_min (health p) (JS.int (maxHealth (presets v))))
         (set_vehicle (presets v) p)).
Hypothesis R_heal : forall p,
  R p (set_health
         (JS.Math_min (JS.int (maxHealthOr100 p))
            (JS.add (health p) (JS.int 40))) p).

Lemma traced_refl st : traced R sid st st.
Proof. intros p Hp. exists p. split; [done | apply R_refl]. Qed.

Lemma traced_trans st1 st2 st3 :
  traced R sid st1 st2 -> traced R sid st2 st3 -> traced R sid st1 st3.
Proof.
  intros H12 H23 p3 H3. destruct (H23 _ H3) as (p2 & H2 & P23).
  destruct (H12 _ H2) as (p1 & H1 & P12).
  exists p1. split; [done | by eapply R_trans].
Qed.

Lemma traced_same st st' : players st' = players st -> traced R sid st st'.
Proof.
  intros E p Hp. rewrite E in Hp. exists p. split; [done | apply R_refl].
Qed.

Lemma traced_putPlayer x p p1 st :
  players st !! x = Some p -> R p p1 -> traced R sid st (putPlayer x p1 st).
Proof.
  intros Hp Hpr p' Hp'. simpl in Hp'.
  destruct (decide (x = sid)) as [-> | Hne].
  - rewrite lookup_insert_eq in Hp'. injection Hp' as <-. eauto.
  - rewrite lookup_insert_ne in Hp' by done.
    exists p'. split; [done | apply R_refl].
Qed.

Lemma traced_get k st : traced R sid st (getRoomGameState k st).2.
Proof. apply traced_same, getRoomGameState_players. Qed.

Lemma traced_put k rs st : traced R sid st (putRoomState k rs st).
Proof. by apply traced_same. Qed.

Lemma R_reset p T pos :
  now + 2000 <= T ->
  R p (set_invulnerableUntil T
         (set_position pos (set_health (JS.int (maxHealth (vehicle p))) p))).
Proof.
  intros HT. eapply R_trans; [apply R_full |].
  eapply R_trans; [| by apply R_window].
  by apply R_other.
Qed.

Lemma endRound_traced roomId st : traced R sid st (endRound roomId now st).1.
Proof.
  unfold endRound.
  rewrite (surjective_pairing (getRoomGameState (Some roomId) st)). simpl.
  eapply traced_trans; [apply (traced_get (Some roomId)) |].
  by apply traced_same.
Qed.

Lemma dropPowerup_traced roomId rnd st :
  traced R sid st (dropPowerup roomId now rnd st).1.
Proof.
  unfold dropPowerup.
  rewrite (surjective_pairing (getRoomGameState (Some roomId) st)).
  eapply traced_trans; [apply (traced_get (Some roomId)) |].
  case_decide; simpl; [apply traced_refl | apply traced_put].
Qed.

Lemma managePowerupDrops_traced roomId rnd st :
  traced R sid st (managePowerupDrops roomId now rnd st).1.
Proof.
  unfold managePowerupDrops.
  rewrite (surjective_pairing (getRoomGameState (Some roomId) st)).
  eapply traced_trans; [apply (traced_get (Some roomId)) |].
  case_decide; simpl; [apply traced_refl |].
  eapply traced_trans; [| apply traced_put].
  case_decide; [apply dropPowerup_traced | apply traced_refl].
Qed.

Lemma syncJoiner_traced x roomId st :
  traced R sid st (syncJoiner x roomId st).1.
Proof.
  unfold syncJoiner.
  destruct (phase _); simpl;
    [apply traced_refl | apply traced_put | apply traced_refl].
Qed.

Lemma startRound_traced roomId rnd st st' out :
  startRound roomId now rnd st = Done (st', out) -> traced R sid st st'.
Proof.
  unfold startRound.
  rewrite (surjective_pairing (getRoomGameState (Some roomId) st)).
  destruct (rooms _ !! roomId) as [room0 |]; [| done].
  destruct (mapM _ _) as [roster |]; [| done].
  intros [= <- _] p'. simpl. rewrite resetMembers_players. simpl.
  rewrite getRoomGameState_players.
  case_decide; [| intros Hp; exists p'; split; [done | apply R_refl]].
  destruct (players st !! sid) as [p |]; [| done].
  intros [= <-]. exists p. split; [done |].
  apply R_reset. unfold spawnInvulnerableMs, entryDescentMs. lia.
Qed.

Lemma respawnPlayer_traced roomId playerId rnd st :
  traced R sid st (respawnPlayer roomId playerId now rnd st).1.
Proof.
  unfold respawnPlayer.
  rewrite (surjective_pairing (getRoomGameState (Some roomId) st)).
  destruct (players _ !! playerId) as [player |] eqn:Ep;
    [| apply traced_get].
  destruct (respawningPlayers _ !! playerId); [| apply traced_get].
  simpl.
  eapply traced_trans; [apply (traced_get (Some roomId)) |].
  eapply traced_trans; [| by apply traced_same].
  eapply traced_putPlayer; [exact Ep |].
  apply R_reset. unfold spawnInvulnerableMs, respawnDescentMs. lia.
Qed.

Lemma respawnDue_traced roomId rnd l acc :
  traced R sid acc.1 (foldl (respawnDue roomId now rnd) acc l).1.
Proof.
  revert acc. induction l as [| e l IH]; intros acc; simpl.
  - apply traced_refl.
  - eapply traced_trans; [| apply IH].
    unfold respawnDue. case_decide; [| apply traced_refl].
    rewrite seqDone_fst. apply respawnPlayer_traced.
Qed.

Lemma tickRoom_traced rnd roomId st st' out :
  tickRoom now rnd roomId st = Done (st', out) -> traced R sid st st'.
Proof.
  unfold tickRoom.
  destruct roomId as [r |]; [| by intros [= <- _]; apply traced_refl].
  destruct (gameStates st !! Some r) as [roomState |];
    [| by intros [= <- _]; apply traced_refl].
  destruct (rooms st !! r); [| by intros [= <- _]; apply traced_refl].
  intros H. apply andThen_Done in H as (st1 & out1 & out2 & Hsw & Hrest & _).
  assert (Hf1 : traced R sid st st1).
  { destruct (phase roomState).
    - case_decide; [by eapply startRound_traced |].
      injection Hsw as <- _. apply traced_refl.
    - case_decide.
      + apply Done_fst in Hsw as ->. apply endRound_traced.
      + injection Hsw as <- _. apply traced_refl.
    - injection Hsw as <- _. apply traced_refl. }
  apply Done_fst in Hrest as ->.
  eapply traced_trans; [exact Hf1 |].
  rewrite seqDone_fst.
  eapply traced_trans; [| apply managePowerupDrops_traced].
  apply (respawnDue_traced r rnd _ (st1, [])).
Qed.

Lemma tickRooms_traced rnd keys o st' out :
  foldl (fun o roomId => andThen o (tickRoom now rnd roomId)) o keys
  = Done (st', out) ->
  exists st1 out1, o = Done (st1, out1) /\ traced R sid st1 st'.
Proof.
  revert o st' out. induction keys as [| k keys IH]; intros o st' out; simpl.
  - intros ->. exists st', out. split; [done | apply traced_refl].
  - intros H. apply IH in H as (st2 & out2 & H2 & Hf2).
    apply andThen_Done in H2 as (st1 & out1 & out1' & -> & Ht & _).
    exists st1, out1. split; [done |].
    eapply traced_trans; [by eapply tickRoom_traced | exact Hf2].
Qed.

Lemma updateGameStates_traced rnd st st' out :
  updateGameStates now rnd st = Done (st', out) -> traced R sid st st'.
Proof.
  unfold updateGameStates. intros H.
  apply tickRooms_traced in H as (st1 & out1 & Heq & Hf).
  injection Heq as <- _. exact Hf.
Qed.

(** The damage is the one assignment that depends on the payload. *)
Lemma on_playerDamaged_traced x data st :
  (forall a t raw,
      players st !! x = Some a ->
      players st !! targetPlayerId data = Some t ->
      damage data = Some raw ->
      R t (set_health
             (JS.Math_max (JS.int 0)
                (JS.sub (health t) (finalDamageOf data raw a t))) t)) ->
  traced R sid st (on_playerDamaged x data now st).1.
Proof.
  intros Hdamage. unfold on_playerDamaged.
  destruct (players st !! x) as [a |] eqn:Ea; [| apply traced_refl].
  destruct (players st !! targetPlayerId data) as [t |] eqn:Et;
    [| apply traced_refl].
  destruct (damage data) as [raw |] eqn:Ed; [| apply traced_refl].
  destruct (JS.negative raw); [apply traced_refl |].
  destruct (negb _); [apply traced_refl |].
  rewrite (surjective_pairing (getRoomGameState (room a) st)).
  eapply traced_trans; [apply (traced_get (room a)) |].
  destruct (negb _); [apply traced_refl |].
  destruct (invulnerableAt now a); [apply traced_refl |].
  destruct (invulnerableAt now t); [apply traced_refl |].
  destruct (shieldedAt now t); [apply traced_refl |].
  case_decide; simpl;
    (eapply traced_trans; [| by apply traced_same]);
    (eapply traced_putPlayer;
       [rewrite getRoomGameState_players; exact Et | by apply Hdamage]).
Qed.

Lemma on_joinRoom_traced x dataRoomId rnd st st' out :
  on_joinRoom x dataRoomId now rnd st = Done (st', out) ->
  traced R sid st st'.
Proof.
  unfold on_joinRoom.
  set (roomId := default "default" (JS.truthy dataRoomId)).
  case_decide; [| intros [= <- _]; apply traced_refl].
  destruct (players st !! x) as [player |] eqn:Ep;
    [| intros [= <- _]; apply traced_refl].
  rewrite (surjective_pairing (getRoomGameState (Some roomId) _)).
  intros Hjoin.
  apply andThen_Done in Hjoin as (st4 & out4 & out5 & Hfirst & Hrest & _).
  apply Done_fst in Hrest as ->.
  rewrite seqDone_fst. simpl.
  eapply traced_trans; [| apply syncJoiner_traced].
  match type of Hfirst with
  | context [putRoomState (Some roomId) ?RS ?ST] =>
      assert (H3 : traced R sid st (putRoomState (Some roomId) RS ST))
  end.
  { eapply traced_trans; [| by apply traced_same].
    eapply traced_trans; [| apply (traced_get (Some roomId))].
    eapply traced_trans; [| by apply traced_same].
    eapply traced_putPlayer; [exact Ep |].
    eapply R_trans; [| apply R_window].
    - by apply R_other.
    - unfold spawnInvulnerableMs, entryDescentMs. lia. }
  case_decide.
  - apply andThen_Done in Hfirst as (st3 & out3 & out3' & Hd & Hs & _).
    injection Hd as <- _.
    eapply traced_trans; [exact H3 | by eapply startRound_traced].
  - by injection Hfirst as <- _.
Qed.

Lemma on_collectPowerup_traced x i st :
  traced R sid st (on_collectPowerup x i now st).1.
Proof.
  unfold on_collectPowerup.
  destruct (players st !! x) as [player |] eqn:Ep; [| apply traced_refl].
  destruct (JS.truthy (room player)) as [r |]; [| apply traced_refl].
  rewrite (surjective_pairing (getRoomGameState (Some r) st)).
  eapply traced_trans; [apply (traced_get (Some r)) |].
  destruct (powerups _ !! i) as [powerup |]; [| apply traced_refl].
  destruct (collected powerup); [apply traced_refl |].
  simpl. eapply traced_trans; [| by apply traced_same].
  eapply traced_putPlayer.
  - rewrite getRoomGameState_players. exact Ep.
  - destruct (pw_type powerup); simpl; [apply R_heal | apply R_shield].
Qed.

Lemma handle_traced rnd c st st' out :
  handle now rnd c st = Done (st', out) ->
  c ≠ CallConnection sid ->
  (forall x data a t raw,
      c = CallPlayerDamaged x data ->
      players st !! x = Some a ->
      players st !! targetPlayerId data = Some t ->
      damage data = Some raw ->
      R t (set_health
             (JS.Math_max (JS.int 0)
                (JS.sub (health t) (finalDamageOf data raw a t))) t)) ->
  traced R sid st st'.
Proof.
  destruct c as [x | x pos rot | x v | x data | x | x r | x n | x m | x i
                | x | x | | t r];
    simpl; intros Hstep Hc Hdamage; try (apply Done_fst in Hstep as ->).
  - intros p' Hp'. simpl in Hp'.
    rewrite lookup_insert_ne in Hp' by congruence.
    exists p'. split; [done | apply R_refl].
  - unfold on_playerMove.
    destruct (players st !! x) as [player |] eqn:Ep; [| apply traced_refl].
    destruct pos; [| apply traced_refl].
    destruct rot; [| apply traced_refl].
    simpl. eapply traced_putPlayer; [exact Ep | by apply R_other].
  - unfold on_vehicleSelected.
    destruct (players st !! x) as [player |] eqn:Ep; [| apply traced_refl].
    simpl. eapply traced_putPlayer; [exact Ep | apply R_vehicle].
  - apply on_playerDamaged_traced. intros a t raw. by apply Hdamage.
  - unfold on_playerLanded.
    destruct (players st !! x) as [p |] eqn:Ep; [| apply traced_refl].
    destruct (JS.truthy (room p)); [| apply traced_refl].
    simpl. eapply traced_putPlayer; [exact Ep |].
    apply R_window. unfold spawnInvulnerableMs. lia.
  - by eapply on_joinRoom_traced.
  - unfold on_setNickname.
    destruct (players st !! x) as [player |] eqn:Ep; [| apply traced_refl].
    destruct (JS.truthy n) as [nickname |]; [| apply traced_refl].
    assert (Hput : traced R sid st
              (putPlayer x
                 (set_name (JS.substring0 16 (JS.trim nickname)) player) st))
      by (eapply traced_putPlayer; [exact Ep | by apply R_other]).
    destruct (JS.truthy (room player)) as [r0 |]; [| exact Hput].
    rewrite (surjective_pairing (getRoomGameState (Some r0) _)). simpl.
    eapply traced_trans; [exact Hput |].
    apply traced_same. simpl. by rewrite getRoomGameState_players.
  - rewrite on_chatMessage_state. apply traced_refl.
  - apply on_collectPowerup_traced.
  - intros p' Hp'. unfold on_disconnect in Hp'. simpl in Hp'.
    apply lookup_delete_Some in Hp' as [_ Hp'].
    exists p'. split; [| apply R_refl].
    destruct (players st !! x) as [player |]; [| done].
    by destruct (JS.truthy (room player)).
  - apply traced_same. unfold on_requestStandings.
    destruct (players st !! x) as [player |]; [| done].
    destruct (JS.truthy (room player)) as [r0 |]; [| done].
    rewrite (surjective_pairing (getRoomGameState (Some r0) st)). simpl.
    apply getRoomGameState_players.
  - by eapply updateGameStates_traced.
  - revert Hstep. unfold fireRestart. case_decide.
    + intros Hstart.
      eapply traced_trans; [| by eapply startRound_traced].
      by apply traced_same.
    + intros [= <- _]. apply traced_refl.
Qed.

End Traced.

(** *** A window stays open over the callbacks that follow *)

Lemma protects_refl now p : protects now p p.
Proof. split; by left. Qed.

Lemma protects_same now p p' :
  invulnerableUntil p' = invulnerableUntil p ->
  shieldUntil p' = shieldUntil p -> protects now p p'.
Proof. intros Hi Hs. split; by left. Qed.

Lemma protects_trans now p1 p2 p3 :
  protects now p1 p2 -> protects now p2 p3 -> protects now p1 p3.
Proof.
  intros [Hi1 Hs1] [Hi2 Hs2]. split.
  - destruct Hi2 as [-> | H]; [exact Hi1 | by right].
  - destruct Hs2 as [-> | H]; [exact Hs1 | by right].
Qed.

Lemma step_sheltered now rnd ev sid st st' out :
  step now rnd ev st = Done (st', out) ->
  ev ≠ Connection sid ->
  traced (protects now) sid st st'.
Proof.
  intros Hstep Hev. apply step_handle in Hstep as (c & Hc & Hh).
  apply (handle_traced now sid (protects now)) with (rnd := rnd) (c := c)
                                                    (out := out).
  - apply protects_refl.
  - apply protects_trans.
  - intros p p' _ _ Hi Hs. by apply protects_same.
  - intros p T HT. split; [by right | by left].
  - intros p. split; [by left | by right].
  - intros p. by apply protects_same.
  - intros p v. by apply protects_same.
  - intros p. by apply protects_same.
  - exact Hh.
  - intros ->. apply Hev. destruct ev; by call_cases Hc.
  - intros. by apply protects_same.
Qed.

(** An invulnerability that lasts until [T] at least, and a shield that
    lasts until [S] at least, still do after a run of later events. *)
Lemma run_keeps_invulnerable now0 sid T evs st st' out :
  run evs st = Done (st', out) ->
  follows now0 sid evs ->
  T <= now0 + 2000 ->
  (forall p, players st !! sid = Some p -> T <= invulnerableUntil p) ->
  forall p', players st' !! sid = Some p' -> T <= invulnerableUntil p'.
Proof.
  intros Hrun Hf HT. revert st out Hrun.
  induction Hf as [| [[now1 rnd] ev] evs [Hnow Hev] _ IH]; intros st out.
  - simpl. by intros [= <- _].
  - simpl. intros Hrun Hguard.
    apply andThen_Done in Hrun as (st1 & out1 & out2 & Hstep & Hrest & _).
    eapply IH; [exact Hrest |].
    intros p1 Hp1.
    destruct (step_sheltered _ _ _ sid _ _ _ Hstep Hev _ Hp1)
      as (p & Hp & [[-> | Hi] _]); simpl in *; [by apply Hguard | lia].
Qed.

Lemma run_keeps_shield now0 sid S evs st st' out :
  run evs st = Done (st', out) ->
  follows now0 sid evs ->
  S <= now0 + 10000 ->
  (forall p, players st !! sid = Some p ->
             exists s, shieldUntil p = Some s /\ S <= s) ->
  forall p', players st' !! sid = Some p' ->
             exists s, shieldUntil p' = Some s /\ S <= s.
Proof.
  intros Hrun Hf HS. revert st out Hrun.
  induction Hf as [| [[now1 rnd] ev] evs [Hnow Hev] _ IH]; intros st out.
  - simpl. by intros [= <- _].
  - simpl. intros Hrun Hguard.
    apply andThen_Done in Hrun as (st1 & out1 & out2 & Hstep & Hrest & _).
    eapply IH; [exact Hrest |].
    intros p1 Hp1.
    destruct (step_sheltered _ _ _ sid _ _ _ Hstep Hev _ Hp1)
      as (p & Hp & [_ [-> | Hs]]); simpl in *; [by apply Hguard |].
    exists (now1 + 10000). split; [done | lia].
Qed.

Lemma absent_rejected x sid data now st :
  players st !! x = None ->
  sid = x \/ targetPlayerId data = x ->
  damage_rejected sid data now st.
Proof.
  intros Hx Hor. unfold damage_rejected.
  destruct Hor as [-> | Ht].
  - by rewrite Hx.
  - rewrite Ht, Hx. by destruct (players st !! sid).
Qed.

(** X11. A [playerLanded] message from a player in a room opens a window
    of two seconds, counted from the message and replacing whatever
    window was open.  Whatever the server processes after the message
    (other events, ticks, restarts; anything but a new connection under
    the same socket id), every damage event that arrives within the two
    seconds and has the player as attacker or as target is dropped:
    nothing is emitted and no record or round state changes.  The server
    does not check that the player was descending. *)
Theorem landing_blocks_damage sid p r now0 st evs st2 out2 attacker data now :
  players st !! sid = Some p ->
  JS.truthy (room p) = Some r ->
  let st1 := (on_playerLanded sid now0 st).1 in
  run evs st1 = Done (st2, out2) ->
  follows now0 sid evs ->
  0 <= now0 <= now ->
  now < now0 + 2000 ->
  attacker = sid \/ targetPlayerId data = sid ->
  let result := on_playerDamaged attacker data now st2 in
  invulnerableUntil <$> players st1 !! sid = Some (now0 + 2000) /\
  result.2 = [] /\
  players result.1 = players st2 /\
  forall k, theRoomState k result.1 = theRoomState k st2.
Proof.
  intros Hp Hr st1 Hrun Hf Hnow Hlt Hx result.
  assert (Hp1 : players st1 !! sid
                = Some (set_invulnerableUntil (now0 + spawnInvulnerableMs) p)).
  { unfold st1, on_playerLanded. rewrite Hp, Hr. simpl.
    by rewrite lookup_insert_eq. }
  split; [by rewrite Hp1 |].
  apply rejected_no_effect; [lia |].
  destruct (players st2 !! sid) as [p2 |] eqn:Hp2;
    [| by eapply absent_rejected].
  eapply invulnerable_rejected; [exact Hp2 | | exact Hx].
  assert (now0 + 2000 <= invulnerableUntil p2); [| lia].
  eapply (run_keeps_invulnerable now0 sid (now0 + 2000) evs st1);
    [exact Hrun | exact Hf | lia | | exact Hp2].
  intros q Hq. rewrite Hp1 in Hq. injection Hq as <-. simpl.
  unfold spawnInvulnerableMs. lia.
Qed.

Lemma landing_blocks_damage_witness :
  let st := Scenario.two_players in
  let hit := Scenario.hit (100 # 1) "b" "head-on" in
  let evs :=
    [Scenario.at_time 19200 Tick;
     Scenario.at_time 19500 (Scenario.select "b" "sport")] in
  let st2 := Replay.state_after evs (on_playerLanded "b" 19000 st).1 in
  (on_playerDamaged "a" hit 20000 st).2 ≠ [] /\
  (on_playerDamaged "a" hit 20000 st2).2 = [].
Proof.
  intros st hit evs st2. split; [by vm_compute |].
  apply (landing_blocks_damage "b" (Scenario.player "b" st) "r1" 19000 st
           evs st2 (Replay.emitted evs (on_playerLanded "b" 19000 st).1)
           "a" hit 20000).
  - vm_compute; reflexivity.
  - vm_compute; reflexivity.
  - vm_compute; reflexivity.
  - repeat constructor; simpl; try lia; discriminate.
  - lia.
  - lia.
  - by right.
Defined.

(** X12. Collecting a shield powerup protects the collector for ten
    seconds from the collection.  Whatever the server processes after the
    collection (anything but a new connection under the same socket id),
    every damage event aimed at the collector that arrives within the ten
    seconds is dropped: nothing is emitted and no record or round state
    changes. *)
Theorem shield_blocks_damage sid p r i pw now0 st evs st2 out2 attacker data
  now :
  players st !! sid = Some p ->
  JS.truthy (room p) = Some r ->
  powerups (theRoomState (Some r) st) !! i = Some pw ->
  collected pw = false ->
  pw_type pw = pw_shield ->
  let st1 := (on_collectPowerup sid i now0 st).1 in
  run evs st1 = Done (st2, out2) ->
  follows now0 sid evs ->
  0 <= now0 <= now ->
  now < now0 + 10000 ->
  targetPlayerId data = sid ->
  let result := on_playerDamaged attacker data now st2 in
  shieldUntil <$> players st1 !! sid = Some (Some (now0 + 10000)) /\
  result.2 = [] /\
  players result.1 = players st2 /\
  forall k, theRoomState k result.1 = theRoomState k st2.
Proof.
  intros Hp Hr Hpw Hc Hty st1 Hrun Hf Hnow Hlt Ht result.
  assert (Hp1 : players st1 !! sid
                = Some (set_shieldUntil (Some (now0 + 10000)) p)).
  { unfold st1, on_collectPowerup. rewrite Hp, Hr.
    rewrite (surjective_pairing (getRoomGameState (Some r) st)).
    rewrite getRoomGameState_fst, Hpw, Hc, Hty. simpl.
    by rewrite lookup_insert_eq. }
  split; [by rewrite Hp1 |].
  apply rejected_no_effect; [lia |].
  destruct (players st2 !! sid) as [p2 |] eqn:Hp2;
    [| eapply absent_rejected; [exact Hp2 | by right]].
  destruct (run_keeps_shield now0 sid (now0 + 10000) evs st1 st2 out2)
    with (p' := p2) as (s & Hs & Hle);
    [exact Hrun | exact Hf | lia | | exact Hp2 |].
  { intros q Hq. rewrite Hp1 in Hq. injection Hq as <-. simpl. eauto with lia. }
  eapply (shielded_rejected p2 s); [by rewrite Ht | exact Hs | lia].
Qed.

Lemma shield_blocks_damage_witness :
  let st := Replay.with_shield in
  let i := "powerup_7hq2m5c8d_40000" in
  let hit := Scenario.hit (10 # 1) "b" "side" in
  let evs :=
    [Scenario.at_time 46000 Tick;
     Scenario.at_time 47000 (PlayerLanded "b")] in
  let st2 := Replay.state_after evs (on_collectPowerup "b" i 45000 st).1 in
  (on_playerDamaged "a" hit 50000 st).2 ≠ [] /\
  (on_playerDamaged "a" hit 50000 st2).2 = [].
Proof.
  intros st i hit evs st2. split; [by vm_compute |].
  apply (shield_blocks_damage "b" (Scenario.player "b" st) "r1" i
           {| pw_type := pw_shield; pw_position := origin; dropTime := 40000;
              collected := false; landTime := 43000; despawnTime := 85000 |}
           45000 st evs st2
           (Replay.emitted evs (on_collectPowerup "b" i 45000 st).1)
           "a" hit 50000).
  - vm_compute; reflexivity.
  - vm_compute; reflexivity.
  - vm_compute; reflexivity.
  - reflexivity.
  - reflexivity.
  - vm_compute; reflexivity.
  - repeat constructor; simpl; try lia; discriminate.
  - lia.
  - lia.
  - reflexivity.
Defined.

(** ** The bounds of the health *)

(** X19. In every state the server can reach, the health of a player is
    NaN or a whole number between 0 and the maxHealth of the player's
    vehicle.  There, accepted damage leaves max(0, health - applied damage),
    a vehicle change leaves min(health, maxHealth of the new vehicle), and
    the health powerup leaves min(maxHealth, health + 40); a health that
    is a number stays one unless the applied damage is NaN. *)
Theorem health_bounded_or_nan st :
  reachable st ->
  (forall sid p, players st !! sid = Some p ->
     health p = JS.NaN \/
     exists z, health p = JS.int z /\ 0 <= z <= maxHealth (vehicle p)) /\
  (forall sid data now a t raw,
     damage_accepted sid data now st a t raw ->
     let applied := finalDamageOf data raw a t in
     let newHealth := JS.Math_max (JS.int 0) (JS.sub (health t) applied) in
     health <$> players (on_playerDamaged sid data now st).1
                !! targetPlayerId data
     = Some newHealth /\
     (health t ≠ JS.NaN -> applied ≠ JS.NaN -> newHealth ≠ JS.NaN)) /\
  (forall sid v p,
     players st !! sid = Some p ->
     exists p',
       players (on_vehicleSelected sid v st).1 !! sid = Some p' /\
       vehicle p' = presets (parseVehicleId v) /\
       health p' = JS.Math_min (health p) (JS.int (maxHealth (vehicle p'))) /\
       (health p ≠ JS.NaN -> health p' ≠ JS.NaN)) /\
  (forall sid i now p r pw,
     players st !! sid = Some p ->
     JS.truthy (room p) = Some r ->
     powerups (theRoomState (Some r) st) !! i = Some pw ->
     collected pw = false ->
     pw_type pw = pw_health ->
     exists p',
       players (on_collectPowerup sid i now st).1 !! sid = Some p' /\
       vehicle p' = vehicle p /\
       health p'
       = JS.Math_min (JS.int (maxHealth (vehicle p)))
           (JS.add (health p) (JS.int 40)) /\
       (health p ≠ JS.NaN -> health p' ≠ JS.NaN)).
Proof.
  intros Hreach.
  destruct (reachable_invariant st Hreach) as [Hok _].
  split; [| split; [| split]].
  - intros sid p Hp. exact (proj2 (Hok _ _ Hp)).
  - intros sid data now a t raw Hacc applied newHealth. split.
    + rewrite (on_playerDamaged_accepted_players _ _ _ _ _ _ _ Hacc).
      by rewrite lookup_insert_eq.
    + intros Hh Ha.
      destruct (Hok _ _ (acc_target _ _ _ _ _ _ _ Hacc)) as [[v Hv] [Hn | Hw]];
        [done |].
      pose proof (presets_bounds v) as Hb. rewrite Hv in Hw.
      destruct (damaged_within (maxHealth (presets v)) (health t) applied
                  ltac:(lia) Hw (finalDamageOf_points data raw a t))
        as [[? _] | [_ (z & Hz & _)]]; [done |].
      unfold newHealth. by rewrite Hz.
  - intros sid v p Hp. eexists. split; [by apply on_vehicleSelected_player |].
    split; [done |]. split; [done |]. simpl. intros Hh.
    destruct (Hok _ _ Hp) as [_ [Hn | Hw]]; [done |].
    pose proof (presets_bounds (parseVehicleId v)) as Hb.
    destruct (capped_within (maxHealth (vehicle p))
                (maxHealth (presets (parseVehicleId v))) (health p)
                ltac:(lia) Hw) as (z & Hz & _).
    by rewrite Hz.
  - intros sid i now p r pw Hp Hr Hpw Hc Hty.
    eexists. split; [by eapply on_collectPowerup_heal |].
    split; [done |]. simpl.
    destruct (Hok _ _ Hp) as [[v Hv] Hh].
    assert (Hmax : maxHealthOr100 p = maxHealth (vehicle p)).
    { unfold maxHealthOr100. rewrite decide_False; [done |].
      rewrite Hv. pose proof (presets_positive v). lia. }
    rewrite Hmax. split; [done |]. intros Hnn.
    destruct Hh as [Hn | Hw]; [done |].
    rewrite Hv in *. pose proof (presets_bounds v) as Hb.
    destruct (healed_within (maxHealth (presets v)) (health p)
                ltac:(lia) Hw) as (z & Hz & _).
    by rewrite Hz.
Qed.

Lemma health_bounded_or_nan_witness :
  let b := Scenario.player "b" Scenario.wounded in
  health b = JS.int 24 /\
  (health b = JS.NaN \/
   exists z, health b = JS.int z /\ 0 <= z <= maxHealth (vehicle b)).
Proof.
  intros b. split; [vm_compute; reflexivity |].
  destruct (health_bounded_or_nan Scenario.wounded) as [H _].
  - apply after_reachable.
  - apply (H "b"). vm_compute; reflexivity.
Defined.

(** *** With damages that are numbers *)

Lemma round64_number (q : Q) : JS.round64 q ≠ JS.NaN.
Proof.
  unfold JS.round64.
  destruct (Qle_bool _ _); by destruct (JS.round64_pos _).
Qed.

Lemma mul_number (x : JS.number) (q : Q) :
  x ≠ JS.NaN -> Qlt (0 # 1) q -> JS.mul x (JS.Num q) ≠ JS.NaN.
Proof.
  intros Hx Hq.
  assert (Hs : Z.sgn (Qnum q) = 1).
  { unfold Qlt in Hq. simpl in Hq. lia. }
  destruct x as [| | | a]; [done | | |].
  - change (JS.mul JS.PosInf (JS.Num q))
      with (match 1 * Z.sgn (Qnum q) with
            | Z0 => JS.NaN | Zpos _ => JS.PosInf | Zneg _ => JS.NegInf
            end).
    by rewrite Hs.
  - change (JS.mul JS.NegInf (JS.Num q))
      with (match -1 * Z.sgn (Qnum q) with
            | Z0 => JS.NaN | Zpos _ => JS.PosInf | Zneg _ => JS.NegInf
            end).
    by rewrite Hs.
  - apply round64_number.
Qed.

Lemma presets_multipliers v :
  exists d t,
    damageDealtMultiplier (presets v) = JS.Num d /\ Qlt (0 # 1) d /\
    damageTakenMultiplier (presets v) = JS.Num t /\ Qlt (0 # 1) t.
Proof.
  destruct v; eexists _, _;
    (split; [vm_compute; reflexivity |]);
    (split; [reflexivity |]);
    (split; [vm_compute; reflexivity | reflexivity]).
Qed.

Lemma Math_max_0_round_number (x : JS.number) :
  x ≠ JS.NaN -> JS.Math_max (JS.int 0) (JS.Math_round x) ≠ JS.NaN.
Proof.
  destruct x as [| | | q]; [done | done | done |]. intros _.
  change (JS.Math_round (JS.Num q)) with (JS.int (Qfloor (Qplus q (1 # 2)))).
  by rewrite Math_max_int.
Qed.

(** With preset vehicles, the applied damage of a number is a number. *)
Lemma finalDamageOf_number data raw a t va vt :
  vehicle a = presets va -> vehicle t = presets vt ->
  raw ≠ JS.NaN -> finalDamageOf data raw a t ≠ JS.NaN.
Proof.
  intros Ha Ht Hraw. unfold finalDamageOf. rewrite Ha, Ht.
  destruct (presets_multipliers va) as (d & _ & -> & Hd & _).
  destruct (presets_multipliers vt) as (_ & k & _ & _ & -> & Hk).
  destruct (isMonster data); apply Math_max_0_round_number.
  - assert (Hl : JS.lit (20 # 100)%Q
                 = JS.Num (3602879701896397 # 18014398509481984)%Q)
      by (vm_compute; reflexivity).
    rewrite Hl. by apply mul_number.
  - apply mul_number; [| done]. by apply mul_number.
Qed.

Lemma Math_min_number x y :
  x ≠ JS.NaN -> y ≠ JS.NaN -> JS.Math_min x y ≠ JS.NaN.
Proof.
  destruct x, y; try done; intros _ _;
    unfold JS.Math_min; by destruct (JS.lt _ _).
Qed.

Lemma add_int_number x z : x ≠ JS.NaN -> JS.add x (JS.int z) ≠ JS.NaN.
Proof.
  destruct x as [| | | q]; [done | done | done |]. intros _.
  apply round64_number.
Qed.

Lemma step_stays_number now rnd ev st st' out :
  invariant st ->
  step now rnd ev st = Done (st', out) ->
  numeric ev ->
  (forall sid p, players st !! sid = Some p -> health p ≠ JS.NaN) ->
  forall sid p', players st' !! sid = Some p' -> health p' ≠ JS.NaN.
Proof.
  intros [Hok _] Hstep Hnum Hall sid p' Hp'.
  assert (Hcase : ev = Connection sid \/ ev ≠ Connection sid).
  { destruct ev as [x | | | | | | | | | | | |]; try (right; discriminate).
    destruct (decide (x = sid)) as [-> | Hne]; [by left | right; congruence]. }
  destruct Hcase as [-> | Hev].
  { simpl in Hstep. injection Hstep as <- _. simpl in Hp'.
    rewrite lookup_insert_eq in Hp'. by injection Hp' as <-. }
  apply step_handle in Hstep as (c & Hc & Hh).
  assert (Hne : c ≠ CallConnection sid).
  { intros ->. apply Hev. destruct ev; by call_cases Hc. }
  assert (Hdmg : forall x data a t raw,
    c = CallPlayerDamaged x data ->
    players st !! x = Some a ->
    players st !! targetPlayerId data = Some t ->
    damage data = Some raw ->
    stays_number t
      (set_health
         (JS.Math_max (JS.int 0)
            (JS.sub (health t) (finalDamageOf data raw a t))) t)).
  { intros x data a t raw -> Ha Ht Hd Hn. simpl.
    assert (Hraw : raw ≠ JS.NaN).
    { intros ->. destruct ev; by call_cases Hc. }
    destruct (Hok _ _ Ha) as [[va Hva] _].
    destruct (Hok _ _ Ht) as [[vt Hvt] [Hnan | Hw]]; [done |].
    pose proof (presets_bounds vt) as Hb. rewrite Hvt in Hw.
    destruct (damaged_within (maxHealth (presets vt)) (health t)
                (finalDamageOf data raw a t) ltac:(lia) Hw
                (finalDamageOf_points data raw a t))
      as [[Hf _] | [_ (z & Hz & _)]].
    - by apply (finalDamageOf_number data raw a t va vt) in Hf.
    - by rewrite Hz. }
  destruct (handle_traced now sid stays_number) with (rnd := rnd) (c := c)
    (st := st) (st' := st') (out := out) (p' := p') as (p & Hp & Hrel).
  - intros p. by unfold stays_number.
  - unfold stays_number. auto.
  - unfold stays_number. intros p q Hh' _ _ _. by rewrite Hh'.
  - intros p T _. by unfold stays_number.
  - intros p. by unfold stays_number.
  - intros p _. done.
  - intros p v Hn. simpl. by apply Math_min_number.
  - intros p Hn. simpl. apply Math_min_number; [done |].
    by apply add_int_number.
  - exact Hh.
  - exact Hne.
  - exact Hdmg.
  - exact Hp'.
  - by apply Hrel, (Hall sid).
Qed.

(** X20. As long as every damage the server receives is a number, the
    health of every player is a whole number between 0 and the maxHealth
    of the player's vehicle: from a reachable state in which no health is
    NaN (the state at start-up is one), and over any run of callbacks
    none of which is a damage event with a damage that is not a number. *)
Theorem numbers_keep_health_bounded evs st0 st out :
  reachable st0 ->
  (forall sid p, players st0 !! sid = Some p -> health p ≠ JS.NaN) ->
  run evs st0 = Done (st, out) ->
  Forall (fun e : Z * Random * Event => numeric e.2) evs ->
  forall sid p,
    players st !! sid = Some p ->
    exists z, health p = JS.int z /\ 0 <= z <= maxHealth (vehicle p).
Proof.
  intros Hreach Hall Hrun Hnum.
  assert (Hgoal : reachable st /\
            forall sid p, players st !! sid = Some p -> health p ≠ JS.NaN).
  { revert st0 out Hreach Hall Hrun.
    induction Hnum as [| [[now rnd] ev] evs Hev _ IH]; intros st0 out Hreach Hall.
    - simpl. by intros [= <- _].
    - simpl. intros Hrun.
      apply andThen_Done in Hrun as (st1 & out1 & out2 & Hstep & Hrest & _).
      eapply IH; [| | exact Hrest].
      + by eapply reachable_step.
      + eapply step_stays_number; [| exact Hstep | exact Hev | exact Hall].
        by apply reachable_invariant. }
  destruct Hgoal as [Hreach' Hall'].
  intros sid p Hp.
  destruct (reachable_invariant st Hreach') as [Hok _].
  destruct (Hok _ _ Hp) as [_ [Hn | Hw]]; [| exact Hw].
  by apply Hall' in Hp.
Qed.

Lemma numbers_keep_health_bounded_witness :
  exists z,
    health (Scenario.player "b" Scenario.wounded) = JS.int z /\
    0 <= z <= 130.
Proof.
  destruct (numbers_keep_health_bounded
              (Scenario.lobby ++
               [Scenario.at_time 20000
                  (PlayerDamaged "a"
                     (Some (Scenario.hit (100 # 1) "b" "head-on")))])
              boot Scenario.wounded
              (Replay.emitted
                 (Scenario.lobby ++
                  [Scenario.at_time 20000
                     (PlayerDamaged "a"
                        (Some (Scenario.hit (100 # 1) "b" "head-on")))])
                 boot)
              reachable_boot) with (sid := "b")
              (p := Scenario.player "b" Scenario.wounded)
    as (z & Hz & Hb).
  - intros sid p Hp. simpl in Hp. by rewrite lookup_empty in Hp.
  - vm_compute; reflexivity.
  - apply Forall_app. split.
    + repeat (apply Forall_cons; split; [exact I |]). apply Forall_nil_2.
    + apply Forall_cons. split; [| apply Forall_nil_2].
      vm_compute. discriminate.
  - vm_compute; reflexivity.
  - exists z. split; [exact Hz |].
    replace 130 with (maxHealth (vehicle (Scenario.player "b" Scenario.wounded)))
      by (vm_compute; reflexivity).
    exact Hb.
Defined.

(** ** The order of the standings *)

Lemma int_inj (a b : Z) : JS.int a = JS.int b -> a = b.
Proof. unfold JS.int, inject_Z. by intros [= ->]. Qed.

Lemma ilog2_int (z : Z) : 1 <= z -> JS.ilog2 (inject_Z z) = Z.log2 z.
Proof.
  intros Hz. unfold JS.ilog2. simpl.
  replace (Z.log2 z - 0) with (Z.log2 z) by lia.
  assert (Hle : Qle_bool (JS.pow2 (Z.log2 z)) (inject_Z z) = true).
  { apply Qle_bool_iff. unfold JS.pow2.
    pose proof (Z.log2_nonneg z) as Hn. apply Z.leb_le in Hn. rewrite Hn.
    rewrite <- Zle_Qle. apply Z.log2_spec. lia. }
  by rewrite Hle.
Qed.

Lemma roundEven_ge (x : Q) : Qfloor x <= JS.roundEven x.
Proof.
  unfold JS.roundEven.
  destruct (Qcompare _ _); [destruct (Z.even _) |..]; lia.
Qed.

(** The binary64 value nearest to a positive integer is positive. *)
Lemma round64_pos_int (z : Z) (r : Q) :
  1 <= z -> JS.round64_pos (inject_Z z) = Some r -> Qlt (0 # 1) r.
Proof.
  intros Hz. unfold JS.round64_pos.
  destruct (Qeq_bool (inject_Z z) (0 # 1)) eqn:E0.
  { apply Qeq_bool_iff in E0. unfold Qeq in E0. simpl in E0. lia. }
  rewrite (ilog2_int z Hz).
  pose proof (Z.log2_nonneg z) as Hn.
  rewrite Z.max_l by lia.
  destruct (Qle_bool _ _); [done |]. intros [= <-].
  rewrite Qred_correct.
  pose proof (pow2_pos (Z.log2 z - 52)) as Hu.
  apply Qmult_lt_0_compat; [| exact Hu].
  change (0 # 1)%Q with (inject_Z 0). rewrite <- Zlt_Qlt.
  pose proof (roundEven_ge (Qdiv (inject_Z z) (JS.pow2 (Z.log2 z - 52)))).
  assert (1 <= Qfloor (Qdiv (inject_Z z) (JS.pow2 (Z.log2 z - 52)))); [| lia].
  change 1 with (Qfloor (inject_Z 1)).
  apply Qfloor_resp_le.
  apply Qle_shift_div_l; [exact Hu |].
  rewrite Qmult_1_l. unfold JS.pow2.
  destruct (0 <=? Z.log2 z - 52) eqn:E.
  - apply Z.leb_le in E. rewrite <- Zle_Qle.
    transitivity (2 ^ Z.log2 z); [| apply Z.log2_spec; lia].
    apply Z.pow_le_mono_r; lia.
  - apply Qle_trans with (inject_Z 1); [| by rewrite <- Zle_Qle].
    unfold Qle. simpl. lia.
Qed.

Lemma round64_int_sign (z : Z) :
  match JS.round64 (inject_Z z) with
  | JS.NaN => False
  | JS.PosInf => 0 < z
  | JS.NegInf => z < 0
  | JS.Num r => Z.sgn (Qnum r) = Z.sgn z
  end.
Proof.
  unfold JS.round64. rewrite Qred_inject_Z.
  destruct (Qle_bool (0 # 1) (inject_Z z)) eqn:E.
  - apply Qle_bool_iff in E. change (0 # 1)%Q with (inject_Z 0) in E.
    rewrite <- Zle_Qle in E.
    destruct (decide (z = 0)) as [-> | Hz]; [reflexivity |].
    destruct (JS.round64_pos (inject_Z z)) as [r |] eqn:Er; [| lia].
    apply round64_pos_int in Er; [| lia].
    unfold Qlt in Er. simpl in Er. lia.
  - assert (Hz : z < 0).
    { destruct (decide (z < 0)); [done |].
      assert (Qle_bool (0 # 1) (inject_Z z) = true); [| congruence].
      apply Qle_bool_iff. change (0 # 1)%Q with (inject_Z 0).
      rewrite <- Zle_Qle. lia. }
    change (Qopp (inject_Z z)) with (inject_Z (- z)).
    destruct (JS.round64_pos (inject_Z (- z))) as [r |] eqn:Er; [| lia].
    apply round64_pos_int in Er; [| lia].
    pose proof (Qred_correct (Qopp r)) as Hc.
    destruct (Qred (Qopp r)) as [n d]. unfold Qeq, Qlt in *. simpl in *. lia.
Qed.

(** [b - a] on two whole numbers has the sign of the difference. *)
Lemma notAfter_sub_int (a b : Z) :
  notAfter (JS.sub (JS.int b) (JS.int a)) = bool_decide (b <= a).
Proof.
  change (JS.sub (JS.int b) (JS.int a))
    with (JS.round64 (Qplus (inject_Z b) (Qred (Qopp (inject_Z a))))).
  rewrite (round64_Qeq _ (inject_Z (b - a))).
  2: { rewrite Qred_correct, <- inject_Z_opp, <- inject_Z_plus.
       apply inject_Z_injective. lia. }
  pose proof (round64_int_sign (b - a)) as Hs.
  destruct (JS.round64 (inject_Z (b - a))) as [| | | r]; simpl.
  - done.
  - symmetry. apply bool_decide_eq_false. lia.
  - symmetry. apply bool_decide_eq_true. lia.
  - change (JS.le (JS.Num r) (JS.int 0))
      with (negb (negb (Qle_bool r (0 # 1)))).
    rewrite negb_involutive.
    destruct (Qle_bool r (0 # 1)) eqn:E; symmetry.
    + apply Qle_bool_iff in E. apply bool_decide_eq_true.
      unfold Qle in E. simpl in E. lia.
    + apply bool_decide_eq_false. intros Hle.
      assert (Qle_bool r (0 # 1) = true); [| congruence].
      apply Qle_bool_iff. unfold Qle. simpl. lia.
Qed.

Lemma notAfter_int (z : Z) : notAfter (JS.int z) = bool_decide (z <= 0).
Proof. change (notAfter (JS.int z)) with (JS.le (JS.int z) (JS.int 0)). apply le_int. Qed.

Lemma strict_ne_int (a b : Z) :
  JS.strict_ne (JS.int a) (JS.int b) = bool_decide (a ≠ b).
Proof.
  change (JS.strict_ne (JS.int a) (JS.int b))
    with (JS.lt (JS.int a) (JS.int b) || JS.lt (JS.int b) (JS.int a)).
  rewrite !lt_int.
  destruct (decide (a = b)) as [-> | Hne].
  - rewrite bool_decide_eq_false_2 by lia. simpl.
    symmetry. apply bool_decide_eq_false. tauto.
  - rewrite (bool_decide_eq_true_2 (a ≠ b)) by done.
    destruct (decide (a < b)).
    + by rewrite bool_decide_eq_true_2.
    + rewrite bool_decide_eq_false_2 by done. simpl.
      apply bool_decide_eq_true. lia.
Qed.

(** On entries whose damage dealt is a whole number or infinite the
    comparator decides the ranking. *)
Lemma compareStandings_ranks a b :
  counted (damageDealt a) -> counted (damageDealt b) ->
  notAfter (compareStandings a b) = true <-> ranksNoLower a b.
Proof.
  unfold compareStandings, ranksNoLower.
  intros [Ha | [x Ha]] [Hb | [y Hb]]; rewrite Ha, Hb;
    case_decide as Hk; rewrite ?notAfter_int, ?strict_ne_int, ?lt_int;
    try (rewrite bool_decide_eq_true; split; intros; [left | ]; lia).
  - change (JS.strict_ne JS.PosInf JS.PosInf) with false. cbv iota.
    rewrite notAfter_int, bool_decide_eq_true.
    change (JS.lt JS.PosInf JS.PosInf) with false. intuition (try lia; try done).
  - change (JS.strict_ne (JS.int y) JS.PosInf) with true. cbv iota.
    change (JS.sub (JS.int y) JS.PosInf) with JS.NegInf.
    change (JS.lt (JS.int y) JS.PosInf) with true.
    split; [intros _ | done]. right. left. split; [lia | done].
  - change (JS.strict_ne JS.PosInf (JS.int x)) with true. cbv iota.
    change (JS.sub JS.PosInf (JS.int x)) with JS.PosInf.
    change (JS.lt JS.PosInf (JS.int x)) with false.
    split; [done |]. intros [H | [[_ H] | [_ [H _]]]]; [lia | done | done].
  - case_bool_decide as Hxy.
    + rewrite notAfter_sub_int, !bool_decide_eq_true.
      split.
      * intros Hle. right. left. split; lia.
      * intros [H | [[_ H] | [_ [H _]]]]; [lia | lia |].
        apply int_inj in H. lia.
    + assert (x = y) as -> by lia.
      rewrite notAfter_int, !bool_decide_eq_true.
      split.
      * intros Hle. right. right. repeat split; lia.
      * intros [H | [[_ H] | [_ [_ H]]]]; lia.
Qed.

(** The rank of an entry as a lexicographic order on integers: whether
    the damage dealt is infinite, then its value. *)
Lemma ranksNoLower_key a b :
  counted (damageDealt a) -> counted (damageDealt b) ->
  exists ia na ib nb,
    (ia = 0 \/ ia = 1 /\ na = 0) /\ (ib = 0 \/ ib = 1 /\ nb = 0) /\
    (forall c ic nc,
        (ic = 0 /\ damageDealt c = JS.int nc \/
         ic = 1 /\ nc = 0 /\ damageDealt c = JS.PosInf) ->
        (ranksNoLower a c <->
         kills a > kills c \/
         (kills a = kills c /\ (ic < ia \/ ic = ia /\ nc < na)) \/
         (kills a = kills c /\ ia = ic /\ na = nc /\ deaths a <= deaths c)) /\
        (ranksNoLower c b <->
         kills c > kills b \/
         (kills c = kills b /\ (ib < ic \/ ib = ic /\ nb < nc)) \/
         (kills c = kills b /\ ic = ib /\ nc = nb /\ deaths c <= deaths b))) /\
    (ranksNoLower a b <->
     kills a > kills b \/
     (kills a = kills b /\ (ib < ia \/ ib = ia /\ nb < na)) \/
     (kills a = kills b /\ ia = ib /\ na = nb /\ deaths a <= deaths b)) /\
    (ranksNoLower b a <->
     kills b > kills a \/
     (kills b = kills a /\ (ia < ib \/ ia = ib /\ na < nb)) \/
     (kills b = kills a /\ ib = ia /\ nb = na /\ deaths b <= deaths a)).
Proof.
  assert (Hlt : forall x y ix nx iy ny,
    (ix = 0 /\ x = JS.int nx \/ ix = 1 /\ nx = 0 /\ x = JS.PosInf) ->
    (iy = 0 /\ y = JS.int ny \/ iy = 1 /\ ny = 0 /\ y = JS.PosInf) ->
    (JS.lt y x = true <-> iy < ix \/ iy = ix /\ ny < nx) /\
    (x = y <-> ix = iy /\ nx = ny)).
  { intros x y ix nx iy ny [[-> ->] | (-> & -> & ->)] [[-> ->] | (-> & -> & ->)].
    - rewrite lt_int, bool_decide_eq_true. split; [lia |].
      split; [intros H; apply int_inj in H; lia | intros [_ ->]; done].
    - change (JS.lt JS.PosInf (JS.int nx)) with false.
      split; split; try done; lia.
    - change (JS.lt (JS.int ny) JS.PosInf) with true.
      split; split; try done; lia.
    - change (JS.lt JS.PosInf JS.PosInf) with false.
      split; split; try done; lia. }
  assert (Hr : forall p q ip np iq nq,
    (ip = 0 /\ damageDealt p = JS.int np \/
     ip = 1 /\ np = 0 /\ damageDealt p = JS.PosInf) ->
    (iq = 0 /\ damageDealt q = JS.int nq \/
     iq = 1 /\ nq = 0 /\ damageDealt q = JS.PosInf) ->
    (ranksNoLower p q <->
     kills p > kills q \/
     (kills p = kills q /\ (iq < ip \/ iq = ip /\ nq < np)) \/
     (kills p = kills q /\ ip = iq /\ np = nq /\ deaths p <= deaths q))).
  { intros p q ip np iq nq Hp Hq.
    destruct (Hlt _ _ _ _ _ _ Hp Hq) as [H1 H2].
    unfold ranksNoLower. rewrite H1, H2. tauto. }
  intros Ha Hb.
  assert (Ka : exists ia na,
    ia = 0 /\ damageDealt a = JS.int na \/
    ia = 1 /\ na = 0 /\ damageDealt a = JS.PosInf).
  { destruct Ha as [Ha | [x Ha]]; [exists 1, 0 | exists 0, x]; tauto. }
  assert (Kb : exists ib nb,
    ib = 0 /\ damageDealt b = JS.int nb \/
    ib = 1 /\ nb = 0 /\ damageDealt b = JS.PosInf).
  { destruct Hb as [Hb | [x Hb]]; [exists 1, 0 | exists 0, x]; tauto. }
  destruct Ka as (ia & na & Ka), Kb as (ib & nb & Kb).
  exists ia, na, ib, nb.
  split; [tauto |]. split; [tauto |].
  split; [| split; by apply Hr].
  intros c ic nc Kc. split; by apply Hr.
Qed.

Lemma ranksNoLower_total a b :
  counted (damageDealt a) -> counted (damageDealt b) ->
  ranksNoLower a b \/ ranksNoLower b a.
Proof.
  intros Ha Hb.
  destruct (ranksNoLower_key a b Ha Hb)
    as (ia & na & ib & nb & Hia & Hib & _ & -> & ->).
  lia.
Qed.

Lemma ranksNoLower_trans a b c :
  counted (damageDealt a) -> counted (damageDealt b) ->
  counted (damageDealt c) ->
  ranksNoLower a b -> ranksNoLower b c -> ranksNoLower a c.
Proof.
  intros Ha Hb Hc.
  destruct (ranksNoLower_key a c Ha Hc)
    as (ia & na & ic & nc & Hia & Hic & Hmid & -> & _).
  assert (Kb : exists ib nb,
    ib = 0 /\ damageDealt b = JS.int nb \/
    ib = 1 /\ nb = 0 /\ damageDealt b = JS.PosInf).
  { destruct Hb as [Hb | [x Hb]]; [exists 1, 0 | exists 0, x]; tauto. }
  destruct Kb as (ib & nb & Kb).
  destruct (Hmid b ib nb Kb) as [-> ->].
  lia.
Qed.

Lemma insertStanding_perm e l : insertStanding e l ≡ₚ e :: l.
Proof.
  induction l as [| x l IH]; simpl; [done |].
  destruct (notAfter _); [done |]. rewrite IH. apply Permutation_swap.
Qed.

Lemma insertStanding_sorted e l :
  counted (damageDealt e.2) ->
  Forall (fun x => counted (damageDealt x.2)) l ->
  StronglySorted (fun x y => ranksNoLower x.2 y.2) l ->
  StronglySorted (fun x y => ranksNoLower x.2 y.2) (insertStanding e l).
Proof.
  intros He Hl. induction 1 as [| x l Hs IH Hx]; simpl.
  - repeat constructor.
  - apply Forall_cons in Hl as [Hcx Hcl].
    destruct (notAfter (compareStandings e.2 x.2)) eqn:Hc.
    + apply compareStandings_ranks in Hc; [| done | done].
      constructor; [by constructor |].
      constructor; [done |].
      rewrite Forall_forall in Hx, Hcl. apply Forall_forall.
      intros y Hy. eapply (ranksNoLower_trans _ x.2); eauto.
    + constructor; [by apply IH |].
      rewrite insertStanding_perm. constructor; [| exact Hx].
      destruct (ranksNoLower_total x.2 e.2 Hcx He) as [H | H]; [done |].
      apply compareStandings_ranks in H; [congruence | done | done].
Qed.

Lemma totalKills_from acc l :
  foldl (fun sum player => sum + kills player.2) acc l
  = acc + totalKills l.
Proof.
  unfold totalKills. revert acc.
  induction l as [| x l IH]; intros acc; simpl; [lia |].
  rewrite IH, (IH (0 + kills x.2)). lia.
Qed.

Lemma totalKills_perm l l' : l ≡ₚ l' -> totalKills l = totalKills l'.
Proof.
  induction 1 as [| x l l' _ IH | x y l | l1 l2 l3 _ IH1 _ IH2].
  - done.
  - unfold totalKills. simpl. rewrite !totalKills_from. lia.
  - unfold totalKills. simpl. rewrite !totalKills_from. lia.
  - congruence.
Qed.

Lemma sortStandings_perm entries : sortStandings entries ≡ₚ entries.
Proof.
  unfold sortStandings. induction entries as [| e l IH]; simpl; [done |].
  by rewrite insertStanding_perm, IH.
Qed.

(** X13. The leaderboard sorts rank by kills, then by damage dealt, then by
    fewer deaths, as long as every damage dealt is a whole number of points
    or infinite, which is what sums of applied damages are unless one of
    the damages was NaN.  On such entries the comparator puts [a] no later
    than [b] exactly when [a] has more kills, or as many kills and more
    damage dealt, or as many of both and no more deaths; the sorted list is
    a rearrangement of the entries in which every entry ranks no lower
    than all entries after it.  The total of kills reported with the list
    is the total over the leaderboard, whatever the entries. *)
Theorem standings_ranked (entries : list (string * Stats)) :
  Forall (fun e => counted (damageDealt e.2)) entries ->
  (forall a b, a ∈ entries -> b ∈ entries ->
               (notAfter (compareStandings a.2 b.2) = true
                <-> ranksNoLower a.2 b.2)) /\
  sortStandings entries ≡ₚ entries /\
  StronglySorted (fun x y => ranksNoLower x.2 y.2) (sortStandings entries) /\
  totalKills (sortStandings entries) = totalKills entries.
Proof.
  intros Hc.
  split.
  { intros a b Ha Hb. rewrite Forall_forall in Hc.
    apply compareStandings_ranks; by apply Hc. }
  split; [apply sortStandings_perm |].
  split; [| apply totalKills_perm, sortStandings_perm].
  unfold sortStandings.
  induction entries as [| e l IH]; simpl; [constructor |].
  apply Forall_cons in Hc as [He Hl].
  apply insertStanding_sorted; [done | | by apply IH].
  fold (sortStandings l). by rewrite sortStandings_perm.
Qed.

Lemma standings_ranked_witness :
  let a := {| kills := 1; deaths := 0; damageDealt := JS.int 76;
              playerName := "Player_a" |} in
  let b := {| kills := 1; deaths := 1; damageDealt := JS.PosInf;
              playerName := "Player_b" |} in
  let c := newStats "Player_c" in
  let entries := [("a", a); ("c", c); ("b", b)] in
  sortStandings entries = [("b", b); ("a", a); ("c", c)] /\
  StronglySorted (fun x y => ranksNoLower x.2 y.2) (sortStandings entries) /\
  totalKills (sortStandings entries) = 2.
Proof.
  intros a b c entries.
  destruct (standings_ranked entries) as (_ & _ & Hsorted & Hkills).
  - apply Forall_cons. split; [right; by exists 76 |].
    apply Forall_cons. split; [right; by exists 0 |].
    apply Forall_cons. split; [by left | apply Forall_nil_2].
  - split; [vm_compute; reflexivity |]. split; [exact Hsorted |].
    rewrite Hkills. reflexivity.
Defined.

(** ** Where players and powerups appear *)

Lemma spawn_index (u0 : Q) :
  (0 <= u0)%Q -> (u0 < 1)%Q ->
  (Z.to_nat (Qfloor (Qmult u0 (inject_Z 8))) < 8)%nat.
Proof.
  intros H0 H1.
  assert (Hlo : 0 <= Qfloor (Qmult u0 (inject_Z 8))).
  { change 0 with (Qfloor (inject_Z 0)). apply Qfloor_resp_le.
    change (inject_Z 0) with 0%Q. change (inject_Z 8) with 8%Q. lra. }
  assert (Hhi : Qfloor (Qmult u0 (inject_Z 8)) < 8).
  { rewrite Zlt_Qlt. eapply Qle_lt_trans; [apply Qfloor_le |].
    change (inject_Z 8) with 8%Q. lra. }
  lia.
Qed.

(** X14. A spawn position is always defined, lies at height 1 within five
    units, along each axis, of one of the eight spawn points, and so within
    115 units of the centre along x and 95 along z; a powerup is dropped
    from height 25 at least twenty units inside the walls of the 160 by 120
    arena, that is within 60 units of the centre along x and 40 along z.  The draws of [Math.random()] are taken in [0, 1). *)
Theorem random_positions_bounded (u0 u1 u2 : Q) :
  (0 <= u0)%Q /\ (u0 < 1)%Q ->
  (0 <= u1)%Q /\ (u1 < 1)%Q ->
  (0 <= u2)%Q /\ (u2 < 1)%Q ->
  (exists pos sp,
     getRandomSpawnPosition u0 u1 u2 = Some pos /\
     sp ∈ spawnPoints /\
     pos_y pos = (1 # 1)%Q /\
     (pos_x sp - 5 <= pos_x pos)%Q /\ (pos_x pos <= pos_x sp + 5)%Q /\
     (pos_z sp - 5 <= pos_z pos)%Q /\ (pos_z pos <= pos_z sp + 5)%Q /\
     (-115 <= pos_x pos)%Q /\ (pos_x pos <= 115)%Q /\
     (-95 <= pos_z pos)%Q /\ (pos_z pos <= 95)%Q) /\
  (let drop := getRandomPowerupDropPosition u0 u1 in
   pos_y drop = (25 # 1)%Q /\
   (-60 <= pos_x drop)%Q /\ (pos_x drop <= 60)%Q /\
   (-40 <= pos_z drop)%Q /\ (pos_z drop <= 40)%Q).
Proof.
  intros [H0 H0'] [H1 H1'] [H2 H2']. split.
  - pose proof (spawn_index u0 H0 H0') as Hidx.
    unfold getRandomSpawnPosition.
    change (inject_Z (Z.of_nat (length spawnPoints))) with (inject_Z 8).
    destruct (spawnPoints !! Z.to_nat (Qfloor (Qmult u0 (inject_Z 8))))
      as [sp |] eqn:E;
      [| apply lookup_ge_None in E;
         change (length spawnPoints) with 8%nat in E; lia].
    eexists _, sp. split; [reflexivity |].
    split; [by eapply list_elem_of_lookup_2 |].
    apply list_elem_of_lookup_2 in E.
    unfold spawnPoints in E.
    repeat (apply elem_of_cons in E as [-> | E]);
      [.. | by apply elem_of_nil in E].
    all: simpl; (split; [reflexivity |]); repeat split; lra.
  - simpl. split; [reflexivity |]. repeat split; lra.
Qed.

Lemma random_positions_bounded_witness :
  let drop := getRandomPowerupDropPosition (0 # 1) (1 # 2) in
  (exists pos, getRandomSpawnPosition (7 # 8) (1 # 2) (0 # 1) = Some pos) /\
  (-60 <= pos_x drop)%Q /\ (pos_x drop <= 60)%Q.
Proof.
  intros drop.
  destruct (random_positions_bounded (0 # 1) (1 # 2) (0 # 1))
    as [_ (_ & Hlo & Hhi & _)]; [split; lra | split; lra | split; lra |].
  fold drop in Hlo, Hhi.
  split; [by eexists |]. split; lra.
Defined.

(** ** The tick, room by room *)

Lemma refreshed_refl now p : refreshed now p p.
Proof. unfold refreshed. tauto. Qed.

Lemma refreshed_trans now p1 p2 p3 :
  refreshed now p1 p2 -> refreshed now p2 p3 -> refreshed now p1 p3.
Proof.
  intros (Hv1 & Hr1 & H1) (Hv2 & Hr2 & H2).
  split; [congruence |]. split; [congruence |].
  destruct H2 as [-> | [Hh Hi]]; [exact H1 |].
  right. split; [congruence | done].
Qed.

Lemma ticked_refl now k0 st : ticked now k0 st st.
Proof.
  split; [| done]. intros pid p Hp. exists p. split; [done |].
  apply refreshed_refl.
Qed.

Lemma ticked_trans now k0 st1 st2 st3 :
  ticked now k0 st1 st2 -> ticked now k0 st2 st3 -> ticked now k0 st1 st3.
Proof.
  intros (Hp12 & Ht12 & Hs12) (Hp23 & Ht23 & Hs23). split; [| split].
  - intros pid p1 H1. destruct (Hp12 _ _ H1) as (p2 & H2 & Hr12).
    destruct (Hp23 _ _ H2) as (p3 & H3 & Hr23).
    exists p3. split; [done |]. by eapply refreshed_trans.
  - auto.
  - intros k Hk. by rewrite Hs23, Hs12.
Qed.

Lemma ticked_get now k0 st : ticked now k0 st (getRoomGameState k0 st).2.
Proof.
  split; [| split].
  - intros pid p Hp. exists p. rewrite getRoomGameState_players.
    split; [done | apply refreshed_refl].
  - intros t. by rewrite getRoomGameState_timers.
  - intros k Hk. by apply getRoomGameState_other.
Qed.

Lemma ticked_put now k0 rs st : ticked now k0 st (putRoomState k0 rs st).
Proof.
  split; [| split]; [| done |].
  - intros pid p Hp. exists p. split; [done | apply refreshed_refl].
  - intros k Hk. simpl. by rewrite lookup_insert_ne.
Qed.

Lemma ticked_set_timers now k0 tm st :
  (forall t, t ∈ timers st -> t ∈ tm) ->
  ticked now k0 st (set_timers tm st).
Proof.
  intros Htm. split; [| split]; [| exact Htm | done].
  intros pid p Hp. exists p. split; [done | apply refreshed_refl].
Qed.

Lemma ticked_putPlayer now k0 pid p p' st :
  players st !! pid = Some p -> refreshed now p p' ->
  ticked now k0 st (putPlayer pid p' st).
Proof.
  intros Hp Hr. split; [| done].
  intros q pq Hq. simpl. destruct (decide (pid = q)) as [<- | Hne].
  - rewrite lookup_insert_eq. exists p'. split; [done |]. congruence.
  - rewrite lookup_insert_ne by done. exists pq.
    split; [done | apply refreshed_refl].
Qed.

Lemma resetForRound_refreshed now rnd pid p :
  refreshed now p (resetForRound now rnd pid p).
Proof.
  split; [done |]. split; [done |]. right. simpl.
  split; [done |]. unfold spawnInvulnerableMs, entryDescentMs. lia.
Qed.

Lemma startRound_ticked roomId now rnd st st' out :
  startRound roomId now rnd st = Done (st', out) ->
  ticked now (Some roomId) st st'.
Proof.
  unfold startRound.
  rewrite (surjective_pairing (getRoomGameState (Some roomId) st)).
  destruct (rooms _ !! roomId) as [room0 |]; [| done].
  destruct (mapM _ _) as [roster |]; [| done].
  intros [= <- _].
  eapply ticked_trans; [apply ticked_get |].
  eapply ticked_trans; [| apply ticked_put].
  split; [| done].
  intros pid p Hp. simpl. rewrite resetMembers_players. simpl.
  rewrite Hp. case_decide; simpl.
  - eexists. split; [done |]. apply resetForRound_refreshed.
  - exists p. split; [done |]. apply refreshed_refl.
Qed.

Lemma endRound_ticked roomId now st :
  ticked now (Some roomId) st (endRound roomId now st).1.
Proof.
  unfold endRound.
  rewrite (surjective_pairing (getRoomGameState (Some roomId) st)). simpl.
  eapply ticked_trans; [apply ticked_get |].
  eapply ticked_trans; [apply ticked_put |].
  apply ticked_set_timers. intros t Ht. apply elem_of_app. by left.
Qed.

Lemma respawnPlayer_ticked roomId playerId now rnd st :
  ticked now (Some roomId) st (respawnPlayer roomId playerId now rnd st).1.
Proof.
  unfold respawnPlayer.
  rewrite (surjective_pairing (getRoomGameState (Some roomId) st)).
  destruct (players _ !! playerId) as [player |] eqn:Ep; [| apply ticked_get].
  destruct (respawningPlayers _ !! playerId); [| apply ticked_get].
  simpl.
  eapply ticked_trans; [apply ticked_get |].
  eapply ticked_trans; [| apply ticked_put].
  eapply ticked_putPlayer; [exact Ep |].
  split; [done |]. split; [done |]. right. simpl.
  split; [done |]. unfold spawnInvulnerableMs, respawnDescentMs. lia.
Qed.

Lemma dropPowerup_ticked roomId now rnd st :
  ticked now (Some roomId) st (dropPowerup roomId now rnd st).1.
Proof.
  unfold dropPowerup.
  rewrite (surjective_pairing (getRoomGameState (Some roomId) st)).
  case_decide; simpl; [apply ticked_get |].
  eapply ticked_trans; [apply ticked_get | apply ticked_put].
Qed.

Lemma managePowerupDrops_ticked roomId now rnd st :
  ticked now (Some roomId) st (managePowerupDrops roomId now rnd st).1.
Proof.
  unfold managePowerupDrops.
  rewrite (surjective_pairing (getRoomGameState (Some roomId) st)).
  case_decide; simpl; [apply ticked_get |].
  eapply ticked_trans; [apply ticked_get |].
  eapply ticked_trans; [| apply ticked_put].
  case_decide; [apply dropPowerup_ticked | apply ticked_refl].
Qed.

Lemma respawnDue_ticked roomId now rnd l acc :
  ticked now (Some roomId) acc.1 (foldl (respawnDue roomId now rnd) acc l).1.
Proof.
  revert acc. induction l as [| e l IH]; intros acc; simpl.
  - apply ticked_refl.
  - eapply ticked_trans; [| apply IH].
    unfold respawnDue. case_decide; [| apply ticked_refl].
    rewrite seqDone_fst. apply respawnPlayer_ticked.
Qed.

Lemma tickRoom_ticked now rnd roomId st st' out :
  tickRoom now rnd roomId st = Done (st', out) -> ticked now roomId st st'.
Proof.
  unfold tickRoom.
  destruct roomId as [r |]; [| by intros [= <- _]; apply ticked_refl].
  destruct (gameStates st !! Some r) as [roomState |];
    [| by intros [= <- _]; apply ticked_refl].
  destruct (rooms st !! r); [| by intros [= <- _]; apply ticked_refl].
  intros H. apply andThen_Done in H as (st1 & out1 & out2 & Hsw & Hrest & _).
  assert (Hf1 : ticked now (Some r) st st1).
  { destruct (phase roomState).
    - case_decide; [by eapply startRound_ticked |].
      injection Hsw as <- _. apply ticked_refl.
    - case_decide.
      + apply Done_fst in Hsw as ->. apply endRound_ticked.
      + injection Hsw as <- _. apply ticked_refl.
    - injection Hsw as <- _. apply ticked_refl. }
  apply Done_fst in Hrest as ->.
  eapply ticked_trans; [exact Hf1 |].
  rewrite seqDone_fst.
  eapply ticked_trans; [| apply managePowerupDrops_ticked].
  apply (respawnDue_ticked r now rnd _ (st1, [])).
Qed.

Lemma ticked_elsewhere_refl now r st : ticked_elsewhere now r st st.
Proof.
  split; [| done]. intros pid p Hp. exists p. split; [done |].
  apply refreshed_refl.
Qed.

Lemma ticked_elsewhere_trans now r st1 st2 st3 :
  ticked_elsewhere now r st1 st2 -> ticked_elsewhere now r st2 st3 ->
  ticked_elsewhere now r st1 st3.
Proof.
  intros (Hp12 & Ht12 & Hs12 & Hr12) (Hp23 & Ht23 & Hs23 & Hr23).
  split; [| split; [| split]].
  - intros pid p1 H1. destruct (Hp12 _ _ H1) as (p2 & H2 & Hr).
    destruct (Hp23 _ _ H2) as (p3 & H3 & Hr').
    exists p3. split; [done |]. by eapply refreshed_trans.
  - auto.
  - congruence.
  - congruence.
Qed.

Lemma tickRoom_elsewhere now rnd k r st st' out :
  tickRoom now rnd k st = Done (st', out) -> k ≠ Some r ->
  ticked_elsewhere now r st st'.
Proof.
  intros Htick Hne.
  destruct (tickRoom_ticked _ _ _ _ _ _ Htick) as (Hp & Ht & Hs).
  split; [exact Hp |]. split; [exact Ht |].
  split; [by apply Hs | by eapply tickRoom_rooms].
Qed.

Lemma tickRooms_elsewhere now rnd r keys o st' out :
  foldl (fun o roomId => andThen o (tickRoom now rnd roomId)) o keys
  = Done (st', out) ->
  Some r ∉ keys ->
  exists st0 out0 out1,
    o = Done (st0, out0) /\ out = out0 ++ out1 /\
    ticked_elsewhere now r st0 st'.
Proof.
  revert o st' out. induction keys as [| k keys IH]; intros o st' out; simpl.
  - intros -> _. exists st', out, []. rewrite app_nil_r.
    split; [done |]. split; [done |]. apply ticked_elsewhere_refl.
  - intros H Hnin. apply not_elem_of_cons in Hnin as [Hk Hnin].
    apply IH in H as (st2 & out2 & out3 & H2 & -> & He2); [| exact Hnin].
    apply andThen_Done in H2 as (st1 & out1 & out1' & -> & Ht & ->).
    exists st1, out1, (out1' ++ out3). rewrite app_assoc.
    split; [done |]. split; [done |].
    eapply ticked_elsewhere_trans; [| exact He2].
    eapply tickRoom_elsewhere; [exact Ht | congruence].
Qed.

(** The tick seen from one room: the ticks of other rooms, the tick of the
    room, the ticks of other rooms. *)
Lemma updateGameStates_at r now rnd st st' out :
  updateGameStates now rnd st = Done (st', out) ->
  is_Some (gameStates st !! Some r) ->
  exists sta outa stb outb outc,
    ticked_elsewhere now r st sta /\
    tickRoom now rnd (Some r) sta = Done (stb, outb) /\
    ticked_elsewhere now r stb st' /\
    out = outa ++ outb ++ outc.
Proof.
  unfold updateGameStates. intros Hfold [rs Hrs].
  assert (Hin : Some r ∈ (map_to_list (gameStates st)).*1).
  { apply list_elem_of_fmap. exists (Some r, rs).
    split; [done |]. by apply elem_of_map_to_list. }
  pose proof (NoDup_fst_map_to_list (gameStates st)) as Hnd.
  apply list_elem_of_split in Hin as (l1 & l2 & Hkeys).
  rewrite Hkeys in Hfold, Hnd.
  apply NoDup_app in Hnd as (_ & Hl1 & Hnd2).
  apply NoDup_cons in Hnd2 as [Hl2 _].
  rewrite foldl_app in Hfold. simpl in Hfold.
  apply (tickRooms_elsewhere _ _ r) in Hfold
    as (stb & outab & outc & Hmid & -> & Hafter); [| exact Hl2].
  apply andThen_Done in Hmid as (sta & outa & outb & Hbefore & Htick & ->).
  apply (tickRooms_elsewhere _ _ r) in Hbefore
    as (st0 & out0 & outa' & Heq & -> & Hbefore).
  - injection Heq as <- <-.
    exists sta, outa', stb, outb, outc.
    split; [exact Hbefore |]. split; [exact Htick |].
    split; [exact Hafter |]. simpl. by rewrite app_assoc.
  - intros Hin1. apply (Hl1 (Some r) Hin1). apply elem_of_cons. by left.
Qed.

Lemma powerups_only_refl rs : powerups_only rs rs.
Proof. by repeat split. Qed.

Lemma powerups_only_trans rs1 rs2 rs3 :
  powerups_only rs1 rs2 -> powerups_only rs2 rs3 -> powerups_only rs1 rs3.
Proof.
  intros (H1 & H2 & H3 & H4 & H5 & H6) (G1 & G2 & G3 & G4 & G5 & G6).
  repeat split; congruence.
Qed.

Lemma sweepPowerup_only roomId now l acc :
  powerups_only acc.1 (foldl (sweepPowerup roomId now) acc l).1.
Proof.
  revert acc. induction l as [| e l IH]; intros acc; simpl.
  - apply powerups_only_refl.
  - eapply powerups_only_trans; [| apply IH].
    unfold sweepPowerup. case_decide; by repeat split.
Qed.

Lemma dropPowerup_only roomId now rnd st k :
  players (dropPowerup roomId now rnd st).1 = players st /\
  powerups_only (theRoomState k st)
    (theRoomState k (dropPowerup roomId now rnd st).1).
Proof.
  unfold dropPowerup.
  rewrite (surjective_pairing (getRoomGameState (Some roomId) st)).
  rewrite getRoomGameState_fst.
  case_decide; simpl.
  - rewrite getRoomGameState_players, theRoomState_get.
    split; [done | apply powerups_only_refl].
  - rewrite getRoomGameState_players. split; [done |].
    destruct (decide (Some roomId = k)) as [<- | Hne].
    + rewrite theRoomState_put. by repeat split.
    + rewrite theRoomState_put_ne, theRoomState_get by done.
      apply powerups_only_refl.
Qed.

Lemma managePowerupDrops_only roomId now rnd st k :
  players (managePowerupDrops roomId now rnd st).1 = players st /\
  powerups_only (theRoomState k st)
    (theRoomState k (managePowerupDrops roomId now rnd st).1).
Proof.
  unfold managePowerupDrops.
  rewrite (surjective_pairing (getRoomGameState (Some roomId) st)).
  rewrite getRoomGameState_fst.
  case_decide; simpl.
  { rewrite getRoomGameState_players, theRoomState_get.
    split; [done | apply powerups_only_refl]. }
  set (st1 := (getRoomGameState (Some roomId) st).2).
  set (dropped := if decide (_ >= _) then _ else _).
  assert (Hd : players dropped.1 = players st /\
               forall k', powerups_only (theRoomState k' st)
                            (theRoomState k' dropped.1)).
  { unfold dropped. case_decide; simpl.
    - split.
      + destruct (dropPowerup_only roomId now rnd st1 k) as [-> _].
        apply getRoomGameState_players.
      + intros k'. destruct (dropPowerup_only roomId now rnd st1 k') as [_ H'].
        unfold st1 in H'. by rewrite theRoomState_get in H'.
    - split; [apply getRoomGameState_players |].
      intros k'. unfold st1. rewrite theRoomState_get.
      apply powerups_only_refl. }
  destruct Hd as [Hdp Hdr]. split; [exact Hdp |].
  destruct (decide (Some roomId = k)) as [<- | Hne].
  - rewrite theRoomState_put.
    eapply powerups_only_trans; [apply Hdr |].
    apply (sweepPowerup_only roomId now _ (_, [])).
  - rewrite theRoomState_put_ne by done. apply Hdr.
Qed.




(** *** A pending one-shot stays pending until it fires *)








(** ** Respawn at the tick *)

Lemma respawnPlayer_fires roomId pid now rnd st pa tR :
  players st !! pid = Some pa ->
  respawningPlayers (theRoomState (Some roomId) st) !! pid = Some tR ->
  let res := respawnPlayer roomId pid now rnd st in
  players res.1 !! pid = Some (respawnRecord now rnd pid pa) /\
  respawningPlayers (theRoomState (Some roomId) res.1) !! pid = None /\
  pid ∈ activePlayers (theRoomState (Some roomId) res.1) /\
  res.2 = [(io_to (Some roomId),
            Out.playerRespawned pid (spawnPosition rnd pid)
              (JS.int (maxHealth (vehicle pa))) (vehicle_id (vehicle pa)))].
Proof.
  intros Hp Hr. unfold respawnPlayer.
  rewrite (surjective_pairing (getRoomGameState (Some roomId) st)).
  rewrite getRoomGameState_fst, getRoomGameState_players, Hp, Hr. simpl.
  rewrite theRoomState_put. simpl.
  split; [by rewrite lookup_insert_eq |].
  split; [apply lookup_delete_eq |].
  split; [| done]. apply elem_of_union. left. by apply elem_of_singleton.
Qed.

Lemma respawnPlayer_other roomId q pid now rnd st :
  q ≠ pid ->
  let res := respawnPlayer roomId q now rnd st in
  players res.1 !! pid = players st !! pid /\
  respawningPlayers (theRoomState (Some roomId) res.1) !! pid
  = respawningPlayers (theRoomState (Some roomId) st) !! pid /\
  (pid ∈ activePlayers (theRoomState (Some roomId) st) ->
   pid ∈ activePlayers (theRoomState (Some roomId) res.1)).
Proof.
  intros Hne. unfold respawnPlayer.
  rewrite (surjective_pairing (getRoomGameState (Some roomId) st)).
  rewrite getRoomGameState_fst, getRoomGameState_players.
  destruct (players st !! q) as [player |];
    [| simpl; by rewrite getRoomGameState_players, theRoomState_get].
  destruct (respawningPlayers _ !! q);
    [| simpl; by rewrite getRoomGameState_players, theRoomState_get].
  simpl. rewrite theRoomState_put. simpl.
  rewrite getRoomGameState_players.
  split; [by rewrite lookup_insert_ne |].
  split; [by rewrite lookup_delete_ne |].
  intros Hin. apply elem_of_union. by right.
Qed.

Lemma respawnDue_settled roomId now rnd l acc pid :
  pid ∉ l.*1 ->
  let res := foldl (respawnDue roomId now rnd) acc l in
  players res.1 !! pid = players acc.1 !! pid /\
  respawningPlayers (theRoomState (Some roomId) res.1) !! pid
  = respawningPlayers (theRoomState (Some roomId) acc.1) !! pid /\
  (pid ∈ activePlayers (theRoomState (Some roomId) acc.1) ->
   pid ∈ activePlayers (theRoomState (Some roomId) res.1)) /\
  (forall e, e ∈ acc.2 -> e ∈ res.2).
Proof.
  revert acc. induction l as [| e l IH]; intros acc Hnin; simpl; [done |].
  simpl in Hnin. apply not_elem_of_cons in Hnin as [Hne Hnin].
  destruct (IH (respawnDue roomId now rnd acc e) Hnin) as (Hp & Hr & Ha & Ho).
  rewrite Hp, Hr. unfold respawnDue in *. case_decide; [| done].
  rewrite seqDone_fst in *. rewrite seqDone_snd in Ho.
  destruct (respawnPlayer_other roomId e.1 pid now rnd acc.1)
    as (Hp1 & Hr1 & Ha1); [congruence |].
  split; [exact Hp1 |]. split; [exact Hr1 |].
  split; [auto |]. intros x Hx. apply Ho. apply elem_of_app. by left.
Qed.

Lemma respawnDue_fires roomId now rnd l acc pid tR pa tR' :
  NoDup l.*1 ->
  (pid, tR) ∈ l ->
  tR <= now ->
  players acc.1 !! pid = Some pa ->
  respawningPlayers (theRoomState (Some roomId) acc.1) !! pid = Some tR' ->
  let res := foldl (respawnDue roomId now rnd) acc l in
  players res.1 !! pid = Some (respawnRecord now rnd pid pa) /\
  respawningPlayers (theRoomState (Some roomId) res.1) !! pid = None /\
  pid ∈ activePlayers (theRoomState (Some roomId) res.1) /\
  (io_to (Some roomId),
   Out.playerRespawned pid (spawnPosition rnd pid)
     (JS.int (maxHealth (vehicle pa))) (vehicle_id (vehicle pa))) ∈ res.2.
Proof.
  revert acc. induction l as [| e l IH]; intros acc Hnd Hin Hdue Hp Hr;
    [by apply elem_of_nil in Hin |].
  simpl in Hnd. apply NoDup_cons in Hnd as [Hhead Hnd].
  cbn [foldl].
  apply elem_of_cons in Hin as [<- | Hin].
  - assert (Heq : respawnDue roomId now rnd acc (pid, tR)
                  = seqDone acc (respawnPlayer roomId pid now rnd)).
    { unfold respawnDue. simpl. by rewrite decide_True by lia. }
    destruct (respawnPlayer_fires roomId pid now rnd acc.1 pa tR' Hp Hr)
      as (Hp1 & Hr1 & Ha1 & Ho1).
    destruct (respawnDue_settled roomId now rnd l
                (respawnDue roomId now rnd acc (pid, tR)) pid Hhead)
      as (Hp2 & Hr2 & Ha2 & Ho2).
    rewrite Hp2, Hr2. rewrite Heq in Ha2, Ho2 |- *.
    rewrite seqDone_fst in Ha2 |- *. rewrite seqDone_snd in Ho2.
    split; [exact Hp1 |]. split; [exact Hr1 |].
    split; [by apply Ha2 |].
    apply Ho2. apply elem_of_app. right. simpl in Ho1. rewrite Ho1.
    apply elem_of_cons. by left.
  - assert (Hne : e.1 ≠ pid).
    { intros <-. apply Hhead. apply list_elem_of_fmap.
      by exists (e.1, tR). }
    apply (IH (respawnDue roomId now rnd acc e) Hnd Hin Hdue).
    + unfold respawnDue. case_decide; [| done]. rewrite seqDone_fst.
      by destruct (respawnPlayer_other roomId e.1 pid now rnd acc.1 Hne)
        as (-> & _).
    + unfold respawnDue. case_decide; [| done]. rewrite seqDone_fst.
      by destruct (respawnPlayer_other roomId e.1 pid now rnd acc.1 Hne)
        as (_ & -> & _).
Qed.

Lemma endRound_keeps roomId now st :
  players (endRound roomId now st).1 = players st /\
  respawningPlayers (theRoomState (Some roomId) (endRound roomId now st).1)
  = respawningPlayers (theRoomState (Some roomId) st).
Proof.
  unfold endRound.
  rewrite (surjective_pairing (getRoomGameState (Some roomId) st)). simpl.
  rewrite getRoomGameState_players, getRoomGameState_fst.
  split; [done |].
  unfold theRoomState at 1. simpl. by rewrite lookup_insert_eq.
Qed.

Lemma tickRoom_respawns now rnd r st rs members pid tR pa st' out :
  gameStates st !! Some r = Some rs ->
  rooms st !! r = Some members ->
  phase rs ≠ waiting ->
  respawningPlayers rs !! pid = Some tR ->
  tR <= now ->
  players st !! pid = Some pa ->
  tickRoom now rnd (Some r) st = Done (st', out) ->
  players st' !! pid = Some (respawnRecord now rnd pid pa) /\
  respawningPlayers (theRoomState (Some r) st') !! pid = None /\
  pid ∈ activePlayers (theRoomState (Some r) st') /\
  (io_to (Some r),
   Out.playerRespawned pid (spawnPosition rnd pid)
     (JS.int (maxHealth (vehicle pa))) (vehicle_id (vehicle pa))) ∈ out.
Proof.
  intros Hrs Hroom Hph Hresp Hdue Hp. unfold tickRoom.
  rewrite Hrs, Hroom. intros Htick.
  apply andThen_Done in Htick as (st1 & out1 & out2 & Hsw & Hrest & ->).
  assert (Hview : theRoomState (Some r) st = rs)
    by (unfold theRoomState; by rewrite Hrs).
  assert (H1 : players st1 = players st /\
               respawningPlayers (theRoomState (Some r) st1)
               = respawningPlayers rs).
  { destruct (phase rs); [done | |].
    - case_decide.
      + apply Done_fst in Hsw as ->.
        destruct (endRound_keeps r now st) as [-> ->]. by rewrite Hview.
      + injection Hsw as <- _. by rewrite Hview.
    - injection Hsw as <- _. by rewrite Hview. }
  destruct H1 as [Hpl1 Hre1].
  pose proof (Done_snd _ _ _ Hrest) as Hout2.
  apply Done_fst in Hrest. subst st' out2.
  rewrite seqDone_fst, seqDone_snd.
  set (respawned := foldl _ _ _).
  destruct (respawnDue_fires r now rnd
              (map_to_list (respawningPlayers (theRoomState (Some r) st1)))
              (st1, []) pid tR pa tR)
    as (Hp2 & Hr2 & Ha2 & Ho2).
  - apply NoDup_fst_map_to_list.
  - apply elem_of_map_to_list. by rewrite Hre1.
  - exact Hdue.
  - simpl. by rewrite Hpl1.
  - simpl. by rewrite Hre1.
  - fold respawned in Hp2, Hr2, Ha2, Ho2.
    destruct (managePowerupDrops_only r now rnd respawned.1 (Some r))
      as (Hpm & _ & _ & _ & _ & Ham & Hrm).
    rewrite Hpm, Ham, Hrm.
    split; [exact Hp2 |]. split; [exact Hr2 |]. split; [exact Ha2 |].
    apply elem_of_app. right. apply elem_of_app. by left.
Qed.

(** X16. A tick whose time has reached the respawn time of a destroyed
    player respawns that player, whatever the ticks of the other rooms do:
    the tick returns, the player is off the respawning list of the room
    and back among its active players, the record keeps its vehicle and
    room, is at full health for the vehicle and invulnerable for at least
    three seconds, and the room is sent playerRespawned with that health.
    The room must exist and have left the waiting phase. *)
Theorem tick_respawns_due_player st r rs members pid tR p now rnd :
  gameStates st !! Some r = Some rs ->
  rooms st !! r = Some members ->
  phase rs ≠ waiting ->
  respawningPlayers rs !! pid = Some tR ->
  tR <= now ->
  players st !! pid = Some p ->
  exists st1 out1,
    step now rnd Tick st = Done (st1, out1) /\
    respawningPlayers (theRoomState (Some r) st1) !! pid = None /\
    pid ∈ activePlayers (theRoomState (Some r) st1) /\
    (exists p1,
       players st1 !! pid = Some p1 /\
       vehicle p1 = vehicle p /\ room p1 = room p /\
       health p1 = JS.int (maxHealth (vehicle p)) /\
       now + 3000 <= invulnerableUntil p1) /\
    (io_to (Some r),
     Out.playerRespawned pid (spawnPosition rnd pid)
       (JS.int (maxHealth (vehicle p))) (vehicle_id (vehicle p))) ∈ out1.
Proof.
  intros Hrs Hroom Hph Hresp Hdue Hp. simpl.
  destruct (updateGameStates_returns now rnd st) as [[st1 out1] Htick].
  exists st1, out1. split; [exact Htick |].
  destruct (updateGameStates_at r _ _ _ _ _ Htick)
    as (sta & outa & stb & outb & outc & Hbefore & Hroomtick & Hafter & ->);
    [by rewrite Hrs |].
  destruct Hbefore as (Hpa & _ & Hsa & Hra).
  destruct Hafter as (Hpb & _ & Hsb & _).
  destruct (Hpa _ _ Hp) as (pa & Hpa' & Hva & Hroa & Hfa).
  destruct (tickRoom_respawns now rnd r sta rs members pid tR pa stb outb)
    as (Hpb' & Hrb & Hab & Hob); try done.
  { by rewrite Hsa. }
  { by rewrite Hra. }
  destruct (Hpb _ _ Hpb') as (p1 & Hp1 & Hv1 & Hro1 & Hf1).
  assert (Hview : theRoomState (Some r) st1 = theRoomState (Some r) stb)
    by (unfold theRoomState; by rewrite Hsb).
  rewrite Hview.
  split; [exact Hrb |]. split; [exact Hab |]. split.
  - exists p1. split; [exact Hp1 |].
    simpl in Hv1, Hro1, Hf1.
    split; [congruence |]. split; [congruence |].
    destruct Hf1 as [-> | [Hh Hi]]; simpl.
    + split; [by rewrite Hva |].
      unfold spawnInvulnerableMs, respawnDescentMs. lia.
    + split; [| exact Hi]. rewrite Hh. by rewrite Hva.
  - rewrite <- Hva. apply elem_of_app. right. apply elem_of_app. by left.
Qed.

Lemma tick_respawns_due_player_witness :
  exists st1 out1,
    step 23000 Scenario.rnd Tick Scenario.b_destroyed = Done (st1, out1) /\
    "b" ∈ activePlayers (theRoomState (Some "r1") st1) /\
    (io_to (Some "r1"),
     Out.playerRespawned "b" origin (JS.int 130) tank) ∈ out1.
Proof.
  destruct (tick_respawns_due_player Scenario.b_destroyed "r1"
              (theRoomState (Some "r1") Scenario.b_destroyed) ["a"; "b"]
              "b" 23000 (Scenario.player "b" Scenario.b_destroyed)
              23000 Scenario.rnd)
    as (st1 & out1 & Htick & _ & Hact & _ & Hout).
  - vm_compute; reflexivity.
  - vm_compute; reflexivity.
  - by vm_compute.
  - vm_compute; reflexivity.
  - lia.
  - vm_compute; reflexivity.
  - exists st1, out1. split; [exact Htick |]. split; [exact Hact |].
    exact Hout.
Defined.

(** ** The clean-up of powerups *)

Lemma sweepPowerup_lookup roomId now l acc i pw :
  powerups (foldl (sweepPowerup roomId now) acc l).1 !! i = Some pw <->
  powerups acc.1 !! i = Some pw /\
  forall e, e ∈ l -> e.1 = i -> ~ expiredAt now e.2.
Proof.
  revert acc. induction l as [| e l IH]; intros acc; simpl.
  - split; [| by intros [? _]]. intros H. split; [done |].
    intros e He. by apply elem_of_nil in He.
  - rewrite IH. unfold sweepPowerup, expiredAt.
    case_decide as Hc; simpl.
    + split.
      * intros [Hl Hrest]. apply lookup_delete_Some in Hl as [Hne Hl].
        split; [done |]. intros e' He' Hi.
        apply elem_of_cons in He' as [-> | He']; [done | by apply Hrest].
      * intros [Hl Hall]. split.
        -- apply lookup_delete_Some. split; [| done].
           intros Hi. apply (Hall e); [apply elem_of_cons; by left | done |].
           exact Hc.
        -- intros e' He'. apply Hall. apply elem_of_cons. by right.
    + split.
      * intros [Hl Hrest]. split; [done |]. intros e' He' Hi.
        apply elem_of_cons in He' as [-> | He']; [done | by apply Hrest].
      * intros [Hl Hall]. split; [done |].
        intros e' He'. apply Hall. apply elem_of_cons. by right.
Qed.

Lemma sweepPowerup_announced roomId now l acc :
  (forall x, x ∈ acc.2 -> x ∈ (foldl (sweepPowerup roomId now) acc l).2) /\
  forall e, e ∈ l -> expiredAt now e.2 ->
    (io_to (Some roomId), Out.powerupRemoved e.1)
    ∈ (foldl (sweepPowerup roomId now) acc l).2.
Proof.
  revert acc. induction l as [| e l IH]; intros acc; simpl.
  - split; [done |]. intros e He. by apply elem_of_nil in He.
  - destruct (IH (sweepPowerup roomId now acc e)) as [Hkeep Hann].
    assert (Hstep : forall x, x ∈ acc.2 ->
                              x ∈ (sweepPowerup roomId now acc e).2).
    { intros x Hx. unfold sweepPowerup. case_decide; [| done].
      simpl. apply elem_of_app. by left. }
    split; [auto |].
    intros e' He' Hexp. apply elem_of_cons in He' as [-> | He'];
      [| by apply Hann].
    apply Hkeep. unfold sweepPowerup.
    rewrite decide_True by exact Hexp. simpl.
    apply elem_of_app. right. apply elem_of_cons. by left.
Qed.

(** X17. When [managePowerupDrops] runs on a room that is playing with two
    or more active players, no powerup that is left has expired or is
    marked collected, every powerup that was there and has not expired is
    still there (or has been replaced by the drop of this call), and every
    powerup that disappeared is announced to the room by powerupRemoved. *)
Theorem expired_powerups_swept roomId now rnd st :
  phase (theRoomState (Some roomId) st) = playing ->
  (2 <= size (activePlayers (theRoomState (Some roomId) st)))%nat ->
  let res := managePowerupDrops roomId now rnd st in
  let before := powerups (theRoomState (Some roomId) st) in
  let after := powerups (theRoomState (Some roomId) res.1) in
  (forall i pw, after !! i = Some pw ->
                now <= despawnTime pw /\ collected pw = false) /\
  (forall i pw, before !! i = Some pw -> ~ expiredAt now pw ->
                is_Some (after !! i)) /\
  (forall i, is_Some (before !! i) -> after !! i = None ->
             (io_to (Some roomId), Out.powerupRemoved i) ∈ res.2).
Proof.
  intros Hph Hsize. unfold managePowerupDrops.
  rewrite (surjective_pairing (getRoomGameState (Some roomId) st)).
  rewrite getRoomGameState_fst.
  rewrite decide_False by (rewrite Hph; intros [? | ?]; [done | lia]).
  set (st1 := (getRoomGameState (Some roomId) st).2).
  set (dropped := if decide (_ >= _) then _ else _).
  set (mid := theRoomState (Some roomId) dropped.1).
  simpl. rewrite theRoomState_put.
  assert (Hmid : forall i pw,
    powerups (theRoomState (Some roomId) st) !! i = Some pw ->
    ~ expiredAt now pw ->
    exists pw', powerups mid !! i = Some pw' /\ ~ expiredAt now pw').
  { intros i pw Hi Hne. unfold mid, dropped. case_decide; simpl.
    - unfold dropPowerup.
      rewrite (surjective_pairing (getRoomGameState (Some roomId) st1)).
      rewrite getRoomGameState_fst. unfold st1.
      rewrite theRoomState_get.
      case_decide; simpl.
      + rewrite !theRoomState_get. eauto.
      + rewrite theRoomState_put. simpl.
        destruct (decide (dropId rnd roomId = i)) as [<- | Hid].
        * rewrite lookup_insert_eq. eexists. split; [done |].
          unfold expiredAt. simpl. intros [? | ?]; [lia | done].
        * rewrite lookup_insert_ne by done. eauto.
    - unfold st1. rewrite theRoomState_get. eauto. }
  assert (Hkeys : forall i,
    is_Some (powerups (theRoomState (Some roomId) st) !! i) ->
    is_Some (powerups mid !! i)).
  { intros i [pw Hi]. unfold mid, dropped. case_decide; simpl.
    - unfold dropPowerup.
      rewrite (surjective_pairing (getRoomGameState (Some roomId) st1)).
      rewrite getRoomGameState_fst. unfold st1.
      rewrite theRoomState_get.
      case_decide; simpl.
      + rewrite !theRoomState_get. eauto.
      + rewrite theRoomState_put. simpl.
        destruct (decide (dropId rnd roomId = i)) as [<- | Hid].
        * rewrite lookup_insert_eq. eauto.
        * rewrite lookup_insert_ne by done. eauto.
    - unfold st1. rewrite theRoomState_get. eauto. }
  split; [| split].
  - intros i pw Hafter.
    apply sweepPowerup_lookup in Hafter as [Hl Hall]. simpl in Hl.
    assert (Hne : ~ expiredAt now pw).
    { apply (Hall (i, pw)); [by apply elem_of_map_to_list | done]. }
    unfold expiredAt in Hne. split; [lia |].
    destruct (collected pw); [| done]. exfalso. apply Hne. by right.
  - intros i pw Hi Hne.
    destruct (Hmid i pw Hi Hne) as (pw' & Hm & Hne').
    exists pw'. apply sweepPowerup_lookup. split; [exact Hm |].
    intros e He Hei.
    apply elem_of_map_to_list' in He. rewrite Hei, Hm in He.
    by injection He as <-.
  - intros i Hsome Hnone.
    destruct (Hkeys i Hsome) as [pw' Hm].
    apply elem_of_app. right.
    destruct (decide (now > despawnTime pw')) as [Hexp | Hlive];
      [| destruct (collected pw') eqn:Hcol].
    + apply (proj2 (sweepPowerup_announced roomId now _ (mid, []))
               (i, pw')); [by apply elem_of_map_to_list | by left].
    + apply (proj2 (sweepPowerup_announced roomId now _ (mid, []))
               (i, pw')); [by apply elem_of_map_to_list | by right].
    + exfalso.
      assert (Hstay : powerups
                (foldl (sweepPowerup roomId now) (mid, [])
                   (map_to_list (powerups mid))).1 !! i = Some pw').
      { apply sweepPowerup_lookup. split; [exact Hm |].
        intros e He Hei. apply elem_of_map_to_list' in He.
        rewrite Hei, Hm in He. injection He as <-.
        unfold expiredAt. rewrite Hcol. intros [? | ?]; [lia | done]. }
      congruence.
Qed.

Lemma expired_powerups_swept_witness :
  let st := Scenario.with_powerup in
  let res := managePowerupDrops "r1" 90000 Replay.rnd_shield st in
  despawnTime <$>
    powerups (theRoomState (Some "r1") st) !! "powerup_k3x9q0z1a_40000"
  = Some 85000 /\
  (io_to (Some "r1"), Out.powerupRemoved "powerup_k3x9q0z1a_40000") ∈ res.2.
Proof.
  intros st res. split; [vm_compute; reflexivity |].
  destruct (expired_powerups_swept "r1" 90000 Replay.rnd_shield st)
    as (_ & _ & Hann).
  - vm_compute; reflexivity.
  - vm_compute. lia.
  - apply Hann; [vm_compute; eauto | vm_compute; reflexivity].
Defined.
